(** * Path finder: search algorithms, ALT landmarks, index and selector

    A shallow embedding of [core/algorithms.py], [core/landmarks.py],
    [core/pathfinder.py] and [core/heuristics.py], and of the weight map
    and the path total of [core/graphing.py].

    Conventions of the embedding.
    - Node identifiers of the graph algorithms are Python ints: [Z].
    - Edge weights are Python ints, [Z].  Costs are ints, or floats that
      hold an integer: the embedding computes them in [Z] and writes
      [float("inf")] as the extra value [Inf] of [cost].  It gives the
      numbers of the code as long as these are integers that a float holds
      exactly; the statements about computed costs say so of the weights
      ([small_weights], [float_weights]).
    - A Python [dict] iterated in insertion order is an association list
      (keys looked up first match); dicts used only for lookup are [gmap],
      sets are [gset].
    - A [while] loop takes a [fuel] argument; [Timeout] says the fuel ran
      out, which is not a Python result.  A raised exception is [Raise]. *)

From Stdlib Require Import ZArith Lia Bool Reals Lra.
From stdpp Require Import base option list gmap strings pretty.

Local Open Scope Z_scope.

(** ** Values shared by all modules *)

Definition node := Z.

(** A cost is a finite number or [float("inf")]. *)
Inductive cost : Type :=
| Fin (c : Z)
| Inf.

Inductive exn : Type :=
| KeyError
| TypeError
| ValueError
| NameError.

Inductive outcome (A : Type) : Type :=
| Ret (a : A)
| Raise (e : exn)
| Timeout.
Arguments Ret {A} a.
Arguments Raise {A} e.
Arguments Timeout {A}.

(** Sequencing: an exception (or the end of the fuel) of the first
    computation is the outcome of the whole. *)
#[global] Instance outcome_bind : MBind outcome := fun A B k m =>
  match m with
  | Ret a => k a
  | Raise e => Raise e
  | Timeout => Timeout
  end.

#[global] Instance outcome_ret : MRet outcome := fun A a => Ret a.

(** [adj]: node -> ordered sequence of (neighbor, weight). *)
Definition Adjacency := list (node * list (node * Z)).

(** What every search returns: [(path | None, cost)]. *)
Definition result := (option (list node) * cost)%type.

Definition no_path : result := (None, Inf).

(** [adj.get(u)] *)
Fixpoint adj_get (adj : Adjacency) (u : node) : option (list (node * Z)) :=
  match adj with
  | [] => None
  | (k, edges) :: rest => if decide (k = u) then Some edges else adj_get rest u
  end.

(** [adj[u]], raising [KeyError] on a missing key. *)
Definition adj_index (adj : Adjacency) (u : node) : outcome (list (node * Z)) :=
  match adj_get adj u with
  | Some edges => Ret edges
  | None => Raise KeyError
  end.

Definition keys (adj : Adjacency) : list node := map fst adj.

(** [float(len(path) - 1)] *)
Definition hops (path : list node) : cost := Fin (Z.of_nat (length path) - 1).

(** ** Arithmetic on costs *)

Definition cost_add (c : cost) (w : Z) : cost :=
  match c with
  | Fin a => Fin (a + w)
  | Inf => Inf
  end.

Definition cost_ltb (a b : cost) : bool :=
  match a, b with
  | Fin x, Fin y => bool_decide (x < y)
  | Fin _, Inf => true
  | Inf, _ => false
  end.

Definition cost_is_inf (c : cost) : bool :=
  match c with
  | Inf => true
  | Fin _ => false
  end.

(** ** [heapq]

    The heap is kept as the bag of its entries: [heappush] adds one,
    [heappop] takes out a least entry for the order of the entries (Python
    compares the tuples lexicographically). *)

Section Heap.
Context {A : Type} (ltb : A -> A -> bool).

Definition heappush (h : list A) (x : A) : list A := x :: h.

Fixpoint heappop (h : list A) : option (A * list A) :=
  match h with
  | [] => None
  | x :: h' =>
      match heappop h' with
      | None => Some (x, [])
      | Some (m, r) => if ltb m x then Some (m, x :: r) else Some (x, h')
      end
  end.
End Heap.

(** Lexicographic order of Python lists of ints. *)
Fixpoint list_ltb (p q : list Z) : bool :=
  match p, q with
  | [], [] => false
  | [], _ :: _ => true
  | _ :: _, [] => false
  | x :: p', y :: q' =>
      if bool_decide (x < y) then true
      else if bool_decide (y < x) then false
      else list_ltb p' q'
  end.

(** [(a, x) < (b, y)] given the orders of the components. *)
Definition lex_ltb {B : Type} (rest : B -> B -> bool) (a : Z) (x : B) (b : Z) (y : B) : bool :=
  if bool_decide (a < b) then true
  else if bool_decide (b < a) then false
  else rest x y.

(** ** [core/algorithms.py] *)

(** A heuristic is called as [heuristic(u, goal)]; the ones of the library
    can raise. *)
Definition heuristic := node -> node -> outcome Z.

(** [heuristics.zero], on int nodes.  The code returns the float [0.0];
    added to an int it gives the float of that int, which is the int
    itself up to [2^53] in absolute value. *)
Definition zero_heuristic : heuristic := fun _ _ => Ret 0.

(** *** Uninformed search *)

(** The body of [while queue:] of [bfs]. *)
Fixpoint bfs_loop (fuel : nat) (adj : Adjacency) (goal : node)
    (queue : list (node * list node)) (visited : gset node) : outcome result :=
  match fuel with
  | O => Timeout
  | S fuel =>
      match queue with
      | [] => Ret no_path
      | (n, path) :: queue =>
          if decide (n = goal) then Ret (Some path, hops path)
          else if decide (n ∈ visited) then bfs_loop fuel adj goal queue visited
          else
            let visited := {[n]} ∪ visited in
            edges ← adj_index adj n;
            let fresh := filter (fun e : node * Z => e.1 ∉ visited) edges in
            bfs_loop fuel adj goal
              (queue ++ map (fun e : node * Z => (e.1, path ++ [e.1])) fresh) visited
      end
  end.

Definition bfs (fuel : nat) (adj : Adjacency) (start goal : node) : outcome result :=
  bfs_loop fuel adj goal [(start, [start])] ∅.

(** The body of [while stack:] of [dfs]; the head of the list is the top of
    the stack, so the neighbours are pushed in reverse. *)
Fixpoint dfs_loop (fuel : nat) (adj : Adjacency) (goal : node)
    (stack : list (node * list node)) (visited : gset node) : outcome result :=
  match fuel with
  | O => Timeout
  | S fuel =>
      match stack with
      | [] => Ret no_path
      | (n, path) :: stack =>
          if decide (n = goal) then Ret (Some path, hops path)
          else if decide (n ∈ visited) then dfs_loop fuel adj goal stack visited
          else
            edges ← adj_index adj n;
            dfs_loop fuel adj goal
              (rev (map (fun e : node * Z => (e.1, path ++ [e.1])) edges) ++ stack)
              ({[n]} ∪ visited)
      end
  end.

Definition dfs (fuel : nat) (adj : Adjacency) (start goal : node) : outcome result :=
  dfs_loop fuel adj goal [(start, [start])] ∅.

(** [recurse] of [depth_limited_dfs]; [fuel] bounds the Python call depth,
    which [depth] alone does not when the limit is negative. *)
Fixpoint recurse (fuel : nat) (adj : Adjacency) (goal : node)
    (n : node) (path : list node) (depth : Z) : outcome (option (list node)) :=
  match fuel with
  | O => Timeout
  | S fuel =>
      if decide (n = goal) then Ret (Some path)
      else if decide (depth = 0) then Ret None
      else
        edges ← adj_index adj n;
        (fix each (edges : list (node * Z)) : outcome (option (list node)) :=
           match edges with
           | [] => Ret None
           | (v, _) :: edges =>
               r ← recurse fuel adj goal v (path ++ [v]) (depth - 1);
               match r with
               | Some (_ :: _) => Ret r
               | _ => each edges
               end
           end) edges
  end.

Definition depth_limited_dfs (fuel : nat) (adj : Adjacency) (start goal : node)
    (limit : Z) : outcome result :=
  r ← recurse fuel adj goal start [start] limit;
  match r with
  | Some (x :: p) => Ret (Some (x :: p), hops (x :: p))
  | _ => Ret no_path
  end.

(** *** Weighted search *)

(** Entries [(cost, node, path)] of Dijkstra's queue. *)
Definition dij_entry := (Z * node * list node)%type.

Definition dij_ltb (a b : dij_entry) : bool :=
  let '(c1, n1, p1) := a in
  let '(c2, n2, p2) := b in
  lex_ltb (fun x y => lex_ltb list_ltb x.1 x.2 y.1 y.2) c1 (n1, p1) c2 (n2, p2).

(** [node in visited and visited[node] <= cost] *)
Definition settled (visited : gmap node Z) (n : node) (c : Z) : bool :=
  match visited !! n with
  | Some c' => bool_decide (c' <= c)
  | None => false
  end.

(** The body of [while pq:] of [dijkstra].  The costs in the queue are
    ints; the cost returned is [float(cost)]. *)
Fixpoint dijkstra_loop (fuel : nat) (adj : Adjacency) (goal : node)
    (pq : list dij_entry) (visited : gmap node Z) : outcome result :=
  match fuel with
  | O => Timeout
  | S fuel =>
      match heappop dij_ltb pq with
      | None => Ret no_path
      | Some ((c, n, path), pq) =>
          if decide (n = goal) then Ret (Some path, Fin c)
          else if settled visited n c then dijkstra_loop fuel adj goal pq visited
          else
            edges ← adj_index adj n;
            dijkstra_loop fuel adj goal
              (foldl (fun pq (e : node * Z) => heappush pq (c + e.2, e.1, path ++ [e.1]))
                 pq edges)
              (<[n := c]> visited)
      end
  end.

Definition dijkstra (fuel : nat) (adj : Adjacency) (start goal : node) : outcome result :=
  dijkstra_loop fuel adj goal [(0, start, [start])] ∅.

(** *** Informed search *)

(** Entries [(h, node, path, cost)] of the greedy queue. *)
Definition greedy_entry := (Z * node * list node * Z)%type.

Definition greedy_ltb (a b : greedy_entry) : bool :=
  let '(h1, n1, p1, c1) := a in
  let '(h2, n2, p2, c2) := b in
  lex_ltb (fun x y =>
      lex_ltb (fun x y =>
           if list_ltb x.1 y.1 then true
           else if list_ltb y.1 x.1 then false
           else bool_decide (x.2 < y.2)) x.1 x.2 y.1 y.2)
    h1 (n1, (p1, c1)) h2 (n2, (p2, c2)).

(** The [for] loop of [greedy_best], pushing the neighbours.  In the code
    [cost + w] is a float sum, [cost] starting at [0.0]. *)
Fixpoint greedy_push (h : heuristic) (goal : node) (path : list node) (c : Z)
    (edges : list (node * Z)) (pq : list greedy_entry) : outcome (list greedy_entry) :=
  match edges with
  | [] => Ret pq
  | (v, w) :: edges =>
      hv ← h v goal;
      greedy_push h goal path c edges (heappush pq (hv, v, path ++ [v], c + w))
  end.

Fixpoint greedy_loop (fuel : nat) (adj : Adjacency) (h : heuristic) (goal : node)
    (pq : list greedy_entry) (visited : gset node) : outcome result :=
  match fuel with
  | O => Timeout
  | S fuel =>
      match heappop greedy_ltb pq with
      | None => Ret no_path
      | Some ((_, n, path, c), pq) =>
          if decide (n = goal) then Ret (Some path, Fin c)
          else if decide (n ∈ visited) then greedy_loop fuel adj h goal pq visited
          else
            edges ← adj_index adj n;
            pq ← greedy_push h goal path c edges pq;
            greedy_loop fuel adj h goal pq ({[n]} ∪ visited)
      end
  end.

Definition greedy_best (fuel : nat) (adj : Adjacency) (start goal : node)
    (h : heuristic) : outcome result :=
  h0 ← h start goal;
  greedy_loop fuel adj h goal [(h0, start, [start], 0)] ∅.

(** Entries [(f, g, node, path)] of the A* queue. *)
Definition astar_entry := (Z * Z * node * list node)%type.

Definition astar_ltb (a b : astar_entry) : bool :=
  let '(f1, g1, n1, p1) := a in
  let '(f2, g2, n2, p2) := b in
  lex_ltb (fun x y =>
      lex_ltb (fun x y => lex_ltb list_ltb x.1 x.2 y.1 y.2) x.1 x.2 y.1 y.2)
    f1 (g1, (n1, p1)) f2 (g2, (n2, p2)).

(** The [for] loop of [a_star], pushing the neighbours.  In the code
    [new_g] is an int, and [f_val] a float when the heuristic returns
    one. *)
Fixpoint astar_push (h : heuristic) (goal : node) (path : list node) (g : Z)
    (edges : list (node * Z)) (pq : list astar_entry) : outcome (list astar_entry) :=
  match edges with
  | [] => Ret pq
  | (v, w) :: edges =>
      let new_g := g + w in
      hv ← h v goal;
      astar_push h goal path g edges (heappush pq (new_g + hv, new_g, v, path ++ [v]))
  end.

Fixpoint a_star_loop (fuel : nat) (adj : Adjacency) (h : heuristic) (goal : node)
    (pq : list astar_entry) (visited : gmap node Z) : outcome result :=
  match fuel with
  | O => Timeout
  | S fuel =>
      match heappop astar_ltb pq with
      | None => Ret no_path
      | Some ((_, g, n, path), pq) =>
          if decide (n = goal) then Ret (Some path, Fin g)
          else if settled visited n g then a_star_loop fuel adj h goal pq visited
          else
            edges ← adj_index adj n;
            pq ← astar_push h goal path g edges pq;
            a_star_loop fuel adj h goal pq (<[n := g]> visited)
      end
  end.

Definition a_star (fuel : nat) (adj : Adjacency) (start goal : node)
    (h : heuristic) : outcome result :=
  h0 ← h start goal;
  a_star_loop fuel adj h goal [(h0, 0, start, [start])] ∅.

(** *** Bidirectional search *)

(** [d[k]] on a dict of paths. *)
Definition paths_index (d : gmap node (list node)) (k : node) : outcome (list node) :=
  match d !! k with
  | Some p => Ret p
  | None => Raise KeyError
  end.

(** [p[-2::-1]]: the list without its last element, reversed. *)
Definition but_last_reversed (p : list node) : list node := rev (removelast p).

(** One [for neighbor, _ in adj[node]] loop of [bidirectional_bfs], on the
    side whose dict is [mine] and whose queue is [q]; [front] tells which
    side it is, since the path is always [front[neighbor] +
    back[neighbor][-2::-1]].  [inl] is the early [return]. *)
Fixpoint bidi_scan (front : bool) (n : node) (edges : list (node * Z))
    (mine other : gmap node (list node)) (q : list node)
    : outcome (result + gmap node (list node) * list node) :=
  match edges with
  | [] => Ret (inr (mine, q))
  | (v, _) :: edges =>
      match mine !! v with
      | Some _ => bidi_scan front n edges mine other q
      | None =>
          pn ← paths_index mine n;
          let mine := <[v := pn ++ [v]]> mine in
          let q := q ++ [v] in
          match other !! v with
          | Some po =>
              let path :=
                if front then (pn ++ [v]) ++ but_last_reversed po
                else po ++ but_last_reversed (pn ++ [v]) in
              Ret (inl (Some path, hops path))
          | None => bidi_scan front n edges mine other q
          end
      end
  end.

Fixpoint bidi_loop (fuel : nat) (adj : Adjacency)
    (front back : gmap node (list node)) (q_front q_back : list node)
    : outcome result :=
  match fuel with
  | O => Timeout
  | S fuel =>
      match q_front, q_back with
      | n :: q_front, m :: q_back' =>
          edges ← adj_index adj n;
          r ← bidi_scan true n edges front back q_front;
          match r with
          | inl res => Ret res
          | inr (front, q_front) =>
              edges ← adj_index adj m;
              r ← bidi_scan false m edges back front q_back';
              match r with
              | inl res => Ret res
              | inr (back, q_back) => bidi_loop fuel adj front back q_front q_back
              end
          end
      | _, _ => Ret no_path
      end
  end.

Definition bidirectional_bfs (fuel : nat) (adj : Adjacency) (start goal : node)
    : outcome result :=
  if decide (start = goal) then Ret (Some [start], Fin 0)
  else bidi_loop fuel adj {[start := [start]]} {[goal := [goal]]} [start] [goal].

Definition bidirectional_dijkstra (fuel : nat) (adj : Adjacency) (start goal : node)
    : outcome result :=
  dijkstra fuel adj start goal.

(** *** Bellman-Ford *)

(** [dist[k]] *)
Definition dist_index (dist : gmap node cost) (k : node) : outcome cost :=
  match dist !! k with
  | Some c => Ret c
  | None => Raise KeyError
  end.

(** The state carried through the relaxations: [(dist, prev, updated)]. *)
Definition bf_state := (gmap node cost * gmap node node * bool)%type.

(** [for v, w in edges:].  In the code [dist[u] + w] is a float sum,
    [dist[start]] being [0.0]. *)
Fixpoint bf_relax_edges (u : node) (edges : list (node * Z)) (st : bf_state)
    : outcome bf_state :=
  match edges with
  | [] => Ret st
  | (v, w) :: edges =>
      let '(dist, prev, updated) := st in
      du ← dist_index dist u;
      dv ← dist_index dist v;
      if cost_ltb (cost_add du w) dv
      then bf_relax_edges u edges (<[v := cost_add du w]> dist, <[v := u]> prev, true)
      else bf_relax_edges u edges st
  end.

(** [for u, edges in adj.items():] *)
Fixpoint bf_pass (items : Adjacency) (st : bf_state) : outcome bf_state :=
  match items with
  | [] => Ret st
  | (u, edges) :: items =>
      st ← bf_relax_edges u edges st;
      bf_pass items st
  end.

(** [for _ in range(len(adj) - 1):], with the early [break]. *)
Fixpoint bf_rounds (rounds : nat) (adj : Adjacency)
    (dist : gmap node cost) (prev : gmap node node)
    : outcome (gmap node cost * gmap node node) :=
  match rounds with
  | O => Ret (dist, prev)
  | S rounds =>
      '(dist, prev, updated) ← bf_pass adj (dist, prev, false);
      if (updated : bool) then bf_rounds rounds adj dist prev else Ret (dist, prev)
  end.

(** [while path[-1] in prev: path.append(prev[path[-1]])]; the list is kept
    reversed, its head being [path[-1]], so that it is the final
    [path.reverse()] when the loop ends. *)
Fixpoint bf_walk_back (fuel : nat) (prev : gmap node node) (last : node)
    (acc : list node) : outcome (list node) :=
  match fuel with
  | O => Timeout
  | S fuel =>
      match prev !! last with
      | Some p => bf_walk_back fuel prev p (p :: acc)
      | None => Ret acc
      end
  end.

(** [{u: float("inf") for u in adj}] *)
Definition bf_init (adj : Adjacency) : gmap node cost :=
  foldl (fun d u => <[u := Inf]> d) ∅ (keys adj).

Definition bellman_ford (fuel : nat) (adj : Adjacency) (start goal : node)
    : outcome result :=
  let dist := <[start := Fin 0]> (bf_init adj) in
  '(dist, prev) ← bf_rounds (length adj - 1) adj dist ∅;
  dg ← dist_index dist goal;
  if cost_is_inf dg then Ret no_path
  else
    path ← bf_walk_back fuel prev goal [goal];
    Ret (Some path, dg).

(** ** [core/landmarks.py] *)

(** [d[k] = v] on a dict kept in insertion order: an existing key keeps
    its place. *)
Fixpoint dict_set {V : Type} (d : list (node * V)) (k : node) (v : V) : list (node * V) :=
  match d with
  | [] => [(k, v)]
  | (k', v') :: d' => if decide (k' = k) then (k, v) :: d' else (k', v') :: dict_set d' k v
  end.

Fixpoint dict_get {V : Type} (d : list (node * V)) (k : node) : option V :=
  match d with
  | [] => None
  | (k', v') :: d' => if decide (k' = k) then Some v' else dict_get d' k
  end.

(** [rev[v].append((u, w))] on the [defaultdict(list)]. *)
Definition rev_append (rev : Adjacency) (v u : node) (w : Z) : Adjacency :=
  dict_set rev v (default [] (dict_get rev v) ++ [(u, w)]).

Definition reverse_graph (adj : Adjacency) : Adjacency :=
  foldl (fun rev (item : node * list (node * Z)) =>
           foldl (fun rev (e : node * Z) => rev_append rev e.1 item.1 e.2) rev item.2)
    [] adj.

(** Entries [(d, u)] of the queue of [dijkstra_from_source]. *)
Definition src_ltb (a b : Z * node) : bool :=
  lex_ltb (fun x y => bool_decide (x < y)) a.1 a.2 b.1 b.2.

(** [for v, w in adj.get(u, []):].  In the code [d + w] is a float sum,
    the distance of the source being [0.0]. *)
Fixpoint src_relax (d : Z) (edges : list (node * Z))
    (dist : gmap node Z) (pq : list (Z * node)) : gmap node Z * list (Z * node) :=
  match edges with
  | [] => (dist, pq)
  | (v, w) :: edges =>
      let nd := d + w in
      let better :=
        match dist !! v with
        | None => true
        | Some dv => bool_decide (nd < dv)
        end in
      if better then src_relax d edges (<[v := nd]> dist) (heappush pq (nd, v))
      else src_relax d edges dist pq
  end.

Fixpoint src_loop (fuel : nat) (adj : Adjacency)
    (dist : gmap node Z) (pq : list (Z * node)) : outcome (gmap node Z) :=
  match fuel with
  | O => Timeout
  | S fuel =>
      match heappop src_ltb pq with
      | None => Ret dist
      | Some ((d, u), pq) =>
          match dist !! u with
          | None => Raise KeyError
          | Some du =>
              if bool_decide (d > du) then src_loop fuel adj dist pq
              else
                let '(dist, pq) := src_relax d (default [] (adj_get adj u)) dist pq in
                src_loop fuel adj dist pq
          end
      end
  end.

Definition dijkstra_from_source (fuel : nat) (adj : Adjacency) (src : node)
    : outcome (gmap node Z) :=
  src_loop fuel adj {[src := 0]} [(0, src)].

(** [len(adj[u])] for a key [u]. *)
Definition out_degree (adj : Adjacency) (u : node) : nat :=
  length (default [] (adj_get adj u)).

(** [max(xs, key=...)] of Python: the first of the greatest elements;
    [ltb a b] says that the key of [a] is less than the key of [b]. *)
Fixpoint py_max {A : Type} (ltb : A -> A -> bool) (best : A) (xs : list A) : A :=
  match xs with
  | [] => best
  | x :: xs => if ltb best x then py_max ltb x xs else py_max ltb best xs
  end.

(** [sorted(xs, key=..., reverse=True)]: stable, by decreasing key. *)
Fixpoint insert_desc {A : Type} (key : A -> nat) (x : A) (l : list A) : list A :=
  match l with
  | [] => [x]
  | y :: l' => if (key x <? key y)%nat then y :: insert_desc key x l' else x :: y :: l'
  end.

Definition sorted_desc {A : Type} (key : A -> nat) (l : list A) : list A :=
  foldr (insert_desc key) [] l.

(** [dist.get(u, float("inf"))] *)
Definition dist_get_inf (dist : gmap node Z) (u : node) : cost :=
  match dist !! u with
  | Some d => Fin d
  | None => Inf
  end.

(** The [for _ in range(1, max(1, k)):] loop; [L] is kept in order. *)
Fixpoint landmark_rounds (fuel : nat) (rounds : nat) (adj : Adjacency)
    (candidates : list node) (L : list node) : outcome (list node) :=
  match rounds with
  | O => Ret L
  | S rounds =>
      match candidates with
      | [] => Raise ValueError
      | c0 :: cs =>
          let last := List.last L 0 in
          dist ← dijkstra_from_source fuel adj last;
          let far :=
            py_max (fun a b => cost_ltb (dist_get_inf dist a) (dist_get_inf dist b)) c0 cs in
          if decide (far ∈ L) then landmark_rounds fuel rounds adj candidates L
          else landmark_rounds fuel rounds adj candidates (L ++ [far])
      end
  end.

Definition select_landmarks (fuel : nat) (adj : Adjacency) (k : Z) : outcome (list node) :=
  match keys adj with
  | [] => Ret []
  | k0 :: ks =>
      let deg_ltb a b := (out_degree adj a <? out_degree adj b)%nat in
      let seed := py_max deg_ltb k0 ks in
      let candidates :=
        take (Nat.min 5000 (length adj)) (sorted_desc (out_degree adj) (keys adj)) in
      landmark_rounds fuel (Z.to_nat (Z.max 1 k - 1)) adj candidates [seed]
  end.

(** A landmark table: landmark -> (node -> distance). *)
Definition table := list (node * gmap node Z).

(** The [for L in landmarks:] loop of [build_tables]. *)
Fixpoint build_tables_loop (fuel : nat) (adj rev : Adjacency) (landmarks : list node)
    (dist_L_to_v dist_v_to_L : table) : outcome (table * table) :=
  match landmarks with
  | [] => Ret (dist_L_to_v, dist_v_to_L)
  | L :: landmarks =>
      fwd ← dijkstra_from_source fuel adj L;
      bwd ← dijkstra_from_source fuel rev L;
      build_tables_loop fuel adj rev landmarks
        (dict_set dist_L_to_v L fwd) (dict_set dist_v_to_L L bwd)
  end.

Definition build_tables (fuel : nat) (adj : Adjacency) (landmarks : list node)
    : outcome (table * table) :=
  build_tables_loop fuel adj (reverse_graph adj) landmarks [] [].

(** [t[L]] *)
Definition table_index (t : table) (L : node) : outcome (gmap node Z) :=
  match dict_get t L with
  | Some d => Ret d
  | None => Raise KeyError
  end.

(** One candidate of the heuristic: [abs(a - b)] when both are finite. *)
Definition alt_term (a b : cost) (best : Z) : Z :=
  match a, b with
  | Fin x, Fin y => if bool_decide (Z.abs (x - y) > best) then Z.abs (x - y) else best
  | _, _ => best
  end.

(** The [for L in dist_L_to_v.keys():] loop of [h]. *)
Fixpoint alt_scan (goal u : node) (Ls : list node) (dist_L_to_v dist_v_to_L : table)
    (best : Z) : outcome Z :=
  match Ls with
  | [] => Ret best
  | L :: Ls =>
      fwd ← table_index dist_L_to_v L;
      bwd ← table_index dist_v_to_L L;
      let dLs := dist_get_inf fwd u in
      let dsL := dist_get_inf bwd u in
      let dLt := dist_get_inf fwd goal in
      let dtL := dist_get_inf bwd goal in
      let best := alt_term dLt dLs best in
      let best := alt_term dsL dtL best in
      alt_scan goal u Ls dist_L_to_v dist_v_to_L best
  end.

(** [alt_heuristic_factory(goal, dist_L_to_v, dist_v_to_L)]: the function
    [h] it returns; the second argument of [h] is not read. *)
Definition alt_heuristic_factory (goal : node) (dist_L_to_v dist_v_to_L : table)
    : heuristic :=
  fun u _ => alt_scan goal u (map fst dist_L_to_v) dist_L_to_v dist_v_to_L 0.

(** ** [core/pathfinder.py] *)

(** [Index] is a [TypedDict] with [total=False]: every key may be absent. *)
Record Index : Type := mkIndex {
  weight_map : option (gmap node (gmap node Z));
  weak_components : option (gmap node Z);
  uniform_weights : option bool;
  node_count : option Z;
  edge_count : option Z;
  landmarks : option (list node);
  dist_L_to_v : option table;
  dist_v_to_L : option table
}.

(** The dict [{}]. *)
Definition empty_index : Index := mkIndex None None None None None None None None.

(** [bool(index)] of an [Optional[Index]]: [None] and [{}] are false. *)
Definition index_truthy (index : option Index) : bool :=
  match index with
  | None => false
  | Some i =>
      negb (bool_decide (weight_map i = None) && bool_decide (weak_components i = None)
            && bool_decide (uniform_weights i = None) && bool_decide (node_count i = None)
            && bool_decide (edge_count i = None) && bool_decide (landmarks i = None)
            && bool_decide (dist_L_to_v i = None) && bool_decide (dist_v_to_L i = None))
  end.

(** [m = wm.setdefault(u, {})] followed by [m[v] = w] for every edge. *)
Definition weight_map_add (wm : gmap node (gmap node Z)) (u : node)
    (edges : list (node * Z)) : gmap node (gmap node Z) :=
  <[u := foldl (fun m (e : node * Z) => <[e.1 := e.2]> m) (default ∅ (wm !! u)) edges]> wm.

Definition _build_weight_map (adj : Adjacency) : gmap node (gmap node Z) :=
  foldl (fun wm (item : node * list (node * Z)) => weight_map_add wm item.1 item.2) ∅ adj.

(** [und[a].append(b)] on the [defaultdict(list)]. *)
Definition und_append (und : gmap node (list node)) (a b : node) : gmap node (list node) :=
  <[a := default [] (und !! a) ++ [b]]> und.

(** The undirected view built by the first loop of
    [_build_weak_components]. *)
Definition undirected (adj : Adjacency) : gmap node (list node) :=
  foldl (fun und (item : node * list (node * Z)) =>
           foldl (fun und (e : node * Z) => und_append (und_append und item.1 e.1) e.1 item.1)
             und item.2)
    ∅ adj.

(** [for y in und.get(x, []):] of the flood fill. *)
Fixpoint wc_mark (cid : Z) (ys : list node) (comp : gmap node Z) (q : list node)
    : gmap node Z * list node :=
  match ys with
  | [] => (comp, q)
  | y :: ys =>
      match comp !! y with
      | Some _ => wc_mark cid ys comp q
      | None => wc_mark cid ys (<[y := cid]> comp) (q ++ [y])
      end
  end.

(** [while q:] of the flood fill. *)
Fixpoint wc_flood (fuel : nat) (und : gmap node (list node)) (cid : Z)
    (q : list node) (comp : gmap node Z) : outcome (gmap node Z) :=
  match fuel with
  | O => Timeout
  | S fuel =>
      match q with
      | [] => Ret comp
      | x :: q =>
          let '(comp, q) := wc_mark cid (default [] (und !! x)) comp q in
          wc_flood fuel und cid q comp
      end
  end.

(** [for start in adj.keys():] *)
Fixpoint wc_components (fuel : nat) (und : gmap node (list node)) (starts : list node)
    (cid : Z) (comp : gmap node Z) : outcome (gmap node Z) :=
  match starts with
  | [] => Ret comp
  | start :: starts =>
      match comp !! start with
      | Some _ => wc_components fuel und starts cid comp
      | None =>
          let cid := cid + 1 in
          comp ← wc_flood fuel und cid [start] (<[start := cid]> comp);
          wc_components fuel und starts cid comp
      end
  end.

Definition _build_weak_components (fuel : nat) (adj : Adjacency) : outcome (gmap node Z) :=
  wc_components fuel (undirected adj) (keys adj) 0 ∅.

(** [comp.get(s) == comp.get(g)] is the equality of two [option]s: [None]
    equals [None]. *)
Definition _reachable (index : option Index) (s g : node) : bool :=
  if index_truthy index then
    let comp := default ∅ (index ≫= weak_components) in
    if bool_decide (comp = ∅) then true
    else bool_decide (comp !! s = comp !! g)
  else true.

(** The weights of all edges, [[w for edges in adj.values() for _, w in
    edges]]. *)
Definition all_weights (adj : Adjacency) : list Z :=
  concat (map (fun item : node * list (node * Z) => map snd item.2) adj).

(** [from landmarks import *] binds in [pathfinder] the functions of
    [landmarks.py], and not the name [landmarks] (neither does
    [from algorithms import *]); [pathfinder] reaches these functions only
    as [landmarks.f], and evaluating [landmarks] raises [NameError]. *)
Definition landmarks_attr {A : Type} (f : A) : outcome A := Raise NameError.

(** The weight-map loop of [preprocess_index], with its check of the abort
    flag at every iteration; the flag is taken constant during the build. *)
Fixpoint weight_map_loop (abort : bool) (items : Adjacency)
    (wm : gmap node (gmap node Z)) : gmap node (gmap node Z) :=
  match items with
  | [] => wm
  | (u, edges) :: items =>
      if abort then wm else weight_map_loop abort items (weight_map_add wm u edges)
  end.

Definition preprocess_index (fuel : nat) (adj : Adjacency) (abort : bool) : outcome Index :=
  let wm := weight_map_loop abort adj ∅ in
  comp ← (if abort then Ret ∅ else _build_weak_components fuel adj);
  let weights := all_weights adj in
  let uniform := forallb (fun w => bool_decide (w = 1)) weights in
  let index :=
    mkIndex (Some wm) (Some comp) (Some uniform)
      (Some (Z.of_nat (length adj))) (Some (Z.of_nat (length weights))) None None None in
  if negb abort && bool_decide (10000 <= Z.of_nat (length adj)) then
    select ← landmarks_attr select_landmarks;
    L ← select fuel adj 12;
    build ← landmarks_attr build_tables;
    '(fwd, bwd) ← build fuel adj L;
    Ret (mkIndex (Some wm) (Some comp) (Some uniform)
           (Some (Z.of_nat (length adj))) (Some (Z.of_nat (length weights)))
           (Some L) (Some fwd) (Some bwd))
  else Ret index.

(** What [choose_algorithm] returns: a callable [(adj, start, goal)]. *)
Definition strategy := nat -> Adjacency -> node -> node -> outcome result.

(** [_strategy] of [choose_algorithm], closed over [idx]. *)
Definition AStar_ALT (idx : Index) : strategy := fun fuel a s g =>
  let fwd := default [] (dist_L_to_v idx) in
  let bwd := default [] (dist_v_to_L idx) in
  factory ← landmarks_attr alt_heuristic_factory;
  a_star fuel a s g (factory g fwd bwd).

Definition choose_algorithm (adj : Adjacency) (index : option Index) : strategy :=
  let idx := default empty_index index in
  let node_count := default (Z.of_nat (length adj)) (node_count idx) in
  let uniform := default true (uniform_weights idx) in
  if bool_decide (is_Some (landmarks idx)) then AStar_ALT idx
  else if existsb (fun w => bool_decide (w < 0)) (all_weights adj) then
    fun fuel a s g => bellman_ford fuel a s g
  else if bool_decide (node_count > 10000) then
    fun fuel a s g => a_star fuel a s g zero_heuristic
  else if uniform then fun fuel a s g => bfs fuel a s g
  else fun fuel a s g => dijkstra fuel a s g.

Definition find_path (fuel : nat) (adj : Adjacency) (start goal : node)
    (index : option Index) : outcome result :=
  if decide (start = goal) then Ret (Some [start], Fin 0)
  else if negb (_reachable index start goal) then Ret no_path
  else choose_algorithm adj index fuel adj start goal.

(** ** [core/heuristics.py]

    The heuristics inspect the shape of their arguments: an [int], or a
    tuple.  The computations on two tuples are written over the real
    numbers, [math.sqrt], [math.sin] and the like being the functions of
    analysis, [math.sqrt] and [math.asin] raising [ValueError] outside
    their domain: they stand for the float computations of the code, and
    the statements below use of them only that none raises [TypeError].
    On two ints the result is the Python int [abs(u - v)], exactly. *)

Module Heuristics.

Local Open Scope R_scope.

(** The values a caller can pass as a node. *)
Inductive value : Type :=
| VInt (n : Z)
| VFloat (x : R)
| VTuple (xs : list R).

(** [isinstance(u, tuple) and isinstance(v, tuple) and len(u) == 2 and
    len(v) == 2], giving the four coordinates. *)
Definition as_pairs (u v : value) : option (R * R * (R * R)) :=
  match u, v with
  | VTuple [x1; y1], VTuple [x2; y2] => Some (x1, y1, (x2, y2))
  | _, _ => None
  end.

(** [isinstance(u, int) and isinstance(v, int)] *)
Definition as_ints (u v : value) : option (Z * Z) :=
  match u, v with
  | VInt a, VInt b => Some (a, b)
  | _, _ => None
  end.

Definition py_sqrt (x : R) : outcome R :=
  if Rlt_dec x 0 then Raise ValueError else Ret (sqrt x).

Definition py_asin (x : R) : outcome R :=
  if Rlt_dec x (-1) then Raise ValueError
  else if Rlt_dec 1 x then Raise ValueError
  else Ret (asin x).

Definition radians (x : R) : R := x * PI / 180.

Definition zero (u v : value) : outcome R := Ret 0.

Definition manhattan (u v : value) : outcome R :=
  match as_ints u v with
  | Some (a, b) => Ret (IZR (Z.abs (a - b)))
  | None =>
      match as_pairs u v with
      | Some (x1, y1, (x2, y2)) => Ret (Rabs (x1 - x2) + Rabs (y1 - y2))
      | None => Raise TypeError
      end
  end.

Definition euclidean (u v : value) : outcome R :=
  match as_ints u v with
  | Some (a, b) => Ret (IZR (Z.abs (a - b)))
  | None =>
      match as_pairs u v with
      | Some (x1, y1, (x2, y2)) => py_sqrt ((x1 - x2) ^ 2 + (y1 - y2) ^ 2)
      | None => Raise TypeError
      end
  end.

Definition chebyshev (u v : value) : outcome R :=
  match as_ints u v with
  | Some (a, b) => Ret (IZR (Z.abs (a - b)))
  | None =>
      match as_pairs u v with
      | Some (x1, y1, (x2, y2)) => Ret (Rmax (Rabs (x1 - x2)) (Rabs (y1 - y2)))
      | None => Raise TypeError
      end
  end.

Definition octile (u v : value) : outcome R :=
  match as_ints u v with
  | Some (a, b) => Ret (IZR (Z.abs (a - b)))
  | None =>
      match as_pairs u v with
      | Some (x1, y1, (x2, y2)) =>
          let dx := Rabs (x1 - x2) in
          let dy := Rabs (y1 - y2) in
          r2 ← py_sqrt 2;
          Ret (Rmax dx dy + (r2 - 1) * Rmin dx dy)
      | None => Raise TypeError
      end
  end.

Definition haversine (u v : value) : outcome R :=
  match as_pairs u v with
  | Some (la1, lo1, (la2, lo2)) =>
      let R0 := 6371 in
      let lat1 := radians la1 in
      let lon1 := radians lo1 in
      let lat2 := radians la2 in
      let lon2 := radians lo2 in
      let dlat := lat2 - lat1 in
      let dlon := lon2 - lon1 in
      let a := sin (dlat / 2) ^ 2 + cos lat1 * cos lat2 * sin (dlon / 2) ^ 2 in
      r ← py_sqrt a;
      s ← py_asin r;
      Ret (2 * R0 * s)
  | None => Raise TypeError
  end.

(** The six heuristics of the library. *)
Inductive name : Type :=
| Zero | Manhattan | Euclidean | Chebyshev | Octile | Haversine.

Definition run (h : name) : value -> value -> outcome R :=
  match h with
  | Zero => zero
  | Manhattan => manhattan
  | Euclidean => euclidean
  | Chebyshev => chebyshev
  | Octile => octile
  | Haversine => haversine
  end.

(** The shapes a heuristic accepts: two ints (not for haversine) or two
    tuples of length two. *)
Definition supported (h : name) (u v : value) : Prop :=
  match h with
  | Haversine => is_Some (as_pairs u v)
  | _ => is_Some (as_ints u v) \/ is_Some (as_pairs u v)
  end.

(** The reading that is compared with the code: outside the supported
    shapes a heuristic raises the invalid-input error. *)
Definition rejects_unsupported (h : name) (u v : value) : Prop :=
  ~ supported h u v -> run h u v = Raise TypeError.

End Heuristics.

(** [find_path] with its two callees taken as arguments. *)
Section FindPathWith.
Variable reachable : option Index -> node -> node -> bool.
Variable choose : Adjacency -> option Index -> strategy.

Definition find_path_with (fuel : nat) (adj : Adjacency) (start goal : node)
    (index : option Index) : outcome result :=
  if decide (start = goal) then Ret (Some [start], Fin 0)
  else if negb (reachable index start goal) then Ret no_path
  else choose adj index fuel adj start goal.
End FindPathWith.

(** ** Graphs and notions used by the statements *)

(** [(v, w)] is an edge out of [u]. *)
Definition edge (adj : Adjacency) (u v : node) (w : Z) : Prop :=
  exists edges, adj_get adj u = Some edges /\ (v, w) ∈ edges.

(** [route adj s n path c]: [path] is a path of [adj] from [s] to [n], of
    cost [c]; it is [[s]], or a route extended by one edge, the way the
    searches build [path + [neighbor]]. *)
Inductive route (adj : Adjacency) (s : node) : node -> list node -> Z -> Prop :=
| route_start : route adj s s [s] 0
| route_step n path c v w :
    route adj s n path c -> edge adj n v w -> route adj s v (path ++ [v]) (c + w).

Definition nonneg_weights (adj : Adjacency) : Prop :=
  Forall (fun w => 0 <= w) (all_weights adj).

(** Every edge leads to a key of [adj]. *)
Definition closed (adj : Adjacency) : Prop :=
  forall u v w, edge adj u v w -> v ∈ keys adj.

(** The index whose only entry is the Weak-Component Map [comp]. *)
Definition index_of_components (comp : gmap node Z) : Index :=
  mkIndex None (Some comp) None None None None None None.

(** The reading of [_reachable] that is compared with the code: false
    exactly when both nodes are in the map with different ids. *)
Definition both_present_different (index : option Index) (s g : node) : Prop :=
  exists i comp c1 c2,
    index = Some i /\ weak_components i = Some comp /\
    comp !! s = Some c1 /\ comp !! g = Some c2 /\ c1 <> c2.

Definition reachable_false_iff_both_present (index : option Index) (s g : node) : Prop :=
  _reachable index s g = false <-> both_present_different index s g.

(** Sample graphs. *)
Definition weighted_graph : Adjacency :=
  [(0, [(1, 1); (2, 4)]); (1, [(2, 2); (3, 5)]); (2, [(3, 1)]); (3, [])].

Definition disconnected_graph : Adjacency :=
  [(0, [(1, 1)]); (1, []); (2, [(3, 1)]); (3, [])].

(** The edge [0 -> 1] leads to a node that is not a key. *)
Definition dangling_graph : Adjacency := [(0, [(1, 1)]); (2, [(3, 1)]); (3, [])].

(** Landmark [0] reaches [2] at cost 1 and [1] at cost 10; [1 -> 2] costs
    1; from [3], the way through [1] costs 2 and the direct edge 5. *)
Definition one_way_graph : Adjacency :=
  [(0, [(2, 1); (1, 10)]); (1, [(2, 1)]); (2, []); (3, [(1, 1); (2, 5)])].

(** An index that carries landmark tables. *)
Definition landmark_index : Index :=
  mkIndex None None None None None (Some [0])
    (Some [(0, {[0 := 0; 1 := 1; 2 := 3; 3 := 4]})]) (Some [(0, {[0 := 0]})]).

(** ** Measures used to bound the loops *)

(** The nodes that edges lead to. *)
Definition targets (adj : Adjacency) : list node :=
  concat (map (fun item : node * list (node * Z) => map fst item.2) adj).

(** A bound on the weights of a graph without negative weight. *)
Definition max_weight (adj : Adjacency) : Z := foldr Z.max 0 (all_weights adj).

Definition sum_over (f : node -> Z) (l : list node) : Z :=
  foldr (fun x acc => f x + acc) 0 l.

(** How many nodes of [U] have an entry in [d]. *)
Definition known {V : Type} (U : list node) (d : gmap node V) : Z :=
  sum_over (fun u => match d !! u with Some _ => 1 | None => 0 end) U.

(** What a node still has to lose: its recorded value, or [B] when it has
    none yet. *)
Definition slack (B : Z) (d : gmap node Z) (u : node) : Z :=
  match d !! u with
  | Some c => c
  | None => B
  end.



(** [dijkstra_from_source]: the bound above every recorded distance, the
    quantity that decreases at every turn of its loop, what holds of its
    state at every turn, and a number of turns that is enough. *)
Definition src_bound (adj : Adjacency) : Z :=
  max_weight adj * Z.of_nat (length (targets adj)) + 1.

Definition src_measure (adj : Adjacency) (dist : gmap node Z) (pq : list (Z * node)) : Z :=
  Z.of_nat (length pq) + 2 * sum_over (slack (src_bound adj) dist) (targets adj).

Definition src_inv (adj : Adjacency) (dist : gmap node Z) (pq : list (Z * node)) : Prop :=
  (forall d u, (d, u) ∈ pq -> 0 <= d /\ is_Some (dist !! u)) /\
  (forall v c, dist !! v = Some c -> 0 <= c <= max_weight adj * known (targets adj) dist).

Definition src_fuel (adj : Adjacency) : nat :=
  Z.to_nat (2 + 2 * (src_bound adj * Z.of_nat (length (targets adj)))).

(** ** Reachability *)

(** One edge, whatever its weight. *)
Definition step (adj : Adjacency) (u v : node) : Prop := exists w, edge adj u v w.

(** A directed path leads from [u] to [v]. *)
Definition reach (adj : Adjacency) : node -> node -> Prop := rtc (step adj).

(** One edge taken in either direction, and the weak components: [u] and
    [v] are weakly connected when a path ignoring direction joins them. *)
Definition link (adj : Adjacency) (u v : node) : Prop := step adj u v \/ step adj v u.

Definition wconn (adj : Adjacency) : node -> node -> Prop := rtc (link adj).

(** [closed], as a check. *)
Definition closedb (adj : Adjacency) : bool :=
  forallb (fun v => bool_decide (v ∈ keys adj)) (targets adj).

(** Every edge joins two nodes of the same colour. *)
Definition same_colour (col : node -> bool) (adj : Adjacency) : bool :=
  forallb (fun item : node * list (node * Z) =>
             forallb (fun e : node * Z => bool_decide (col item.1 = col e.1)) item.2) adj.

(** A heuristic that returns a number on every node, for the goal [g]. *)
Definition returns_number (h : heuristic) (g : node) : Prop :=
  forall u, exists z, h u g = Ret z.

(** The work left to a search that expands a node at most once: one unit
    per node not yet visited, and one per edge out of it. *)
Definition todo (adj : Adjacency) (visited : gset node) : Z :=
  sum_over (fun u => if decide (u ∈ visited) then 0 else Z.of_nat (out_degree adj u) + 1)
    (keys adj).

(** A*: the bound above the cost of every entry that is expanded, the
    quantity that decreases at every turn of the loop, what holds of
    every entry of the queue and of the state, and a number of turns that
    is enough. *)
Definition astar_bound (adj : Adjacency) : Z :=
  max_weight adj * Z.of_nat (length (keys adj)) + 1.

Definition astar_measure (adj : Adjacency) (pq : list astar_entry) (visited : gmap node Z) : Z :=
  Z.of_nat (length pq) +
  (Z.of_nat (length (all_weights adj)) + 1) *
    sum_over (slack (astar_bound adj) visited) (keys adj).

Definition astar_entry_inv (adj : Adjacency) (h : heuristic) (start goal : node)
    (visited : gmap node Z) (e : astar_entry) : Prop :=
  let '(f, g, n, path) := e in
  route adj start n path g /\ 0 <= g /\ h n goal = Ret (f - g) /\
  exists pre,
    path = pre ++ [n] /\ NoDup pre /\
    (forall x, x ∈ pre -> x ∈ keys adj /\ settled visited x g = true) /\
    g <= max_weight adj * Z.of_nat (length pre).

Definition astar_inv (adj : Adjacency) (h : heuristic) (start goal : node)
    (pq : list astar_entry) (visited : gmap node Z) : Prop :=
  (forall e, e ∈ pq -> astar_entry_inv adj h start goal visited e) /\
  (forall v c, visited !! v = Some c -> 0 <= c).

Definition astar_fuel (adj : Adjacency) : nat :=
  Z.to_nat (2 + (Z.of_nat (length (all_weights adj)) + 1) *
                  (astar_bound adj * Z.of_nat (length (keys adj)))).

(** An entry of Dijkstra's queue, as the entry of A* with the zero
    heuristic: [f = g = cost]. *)
Definition as_astar_entry (e : dij_entry) : astar_entry :=
  let '(c, n, p) := e in (c, c, n, p).

(** What holds of the component map while it is built: nodes with the
    same id are weakly connected, and no id exceeds the last one given. *)
Definition wc_inv (adj : Adjacency) (cid : Z) (comp : gmap node Z) : Prop :=
  (forall a b c, comp !! a = Some c -> comp !! b = Some c -> wconn adj a b) /\
  (forall a c, comp !! a = Some c -> c <= cid).

(** A number of turns that is enough for every search on [adj] and for
    the flood fill of its components. *)
Definition search_fuel (adj : Adjacency) : nat :=
  Z.to_nat (2 + todo adj ∅) + (2 + 2 * length (keys adj)) + astar_fuel adj.

(** The reading of the unreachability agreement that is compared with the
    code: for every graph and every pair in different weak components,
    every search returns the sentinel, given enough turns. *)
Definition reports_no_path (search : nat -> Adjacency -> node -> node -> outcome result)
    (adj : Adjacency) (s g : node) : Prop :=
  exists fuel, search fuel adj s g = Ret no_path.

Definition sentinel_on_every_graph (adj : Adjacency) (s g : node) : Prop :=
  ~ wconn adj s g ->
  reports_no_path bfs adj s g /\ reports_no_path dfs adj s g /\
  reports_no_path dijkstra adj s g /\
  reports_no_path (fun fuel a s g => greedy_best fuel a s g zero_heuristic) adj s g /\
  reports_no_path (fun fuel a s g => a_star fuel a s g zero_heuristic) adj s g /\
  reports_no_path bidirectional_bfs adj s g /\
  reports_no_path bidirectional_dijkstra adj s g /\
  reports_no_path bellman_ford adj s g.

(** Node 0 with a loop of negative weight, and node 1 apart. *)
Definition negative_loop_pair : Adjacency := [(0, [(0, -1)]); (1, [])].

(** An admissible heuristic, for the goal [g]: a number that is at least 0
    and at most the cost of every path to [g]. *)
Definition admissible (adj : Adjacency) (h : heuristic) (g : node) : Prop :=
  forall u, exists z, h u g = Ret z /\ 0 <= z /\ forall p c, route adj u g p c -> z <= c.

(** [v] is taken care of at cost [c]: it was expanded at a cost that is at
    most [c], or the queue holds an entry for it at such a cost. *)
Definition covered (pq : list astar_entry) (visited : gmap node Z) (v : node) (c : Z) : Prop :=
  settled visited v c = true \/ exists f g path, (f, g, v, path) ∈ pq /\ g <= c.

(** What A* keeps true of its state: the start is covered at cost 0, and
    the neighbours of an expanded node are covered through it. *)
Definition astar_cover (adj : Adjacency) (start : node)
    (pq : list astar_entry) (visited : gmap node Z) : Prop :=
  covered pq visited start 0 /\
  forall n v w c, edge adj n v w -> settled visited n c = true -> covered pq visited v (c + w).

(** Breadth-first search: the queue holds paths of [l] nodes followed by
    paths of [l + 1] nodes. *)
Definition bfs_levels (l : nat) (queue : list (node * list node)) : Prop :=
  exists A B, queue = A ++ B /\
    (forall e, e ∈ A -> length e.2 = l) /\ (forall e, e ∈ B -> length e.2 = S l).

(** [v] is taken care of within [m] nodes: it was visited from a path of
    at most [m] nodes ([lvl] records that length), or the queue holds such
    a path to it. *)
Definition bfs_covered (queue : list (node * list node)) (visited : gset node)
    (lvl : node -> nat) (v : node) (m : nat) : Prop :=
  (v ∈ visited /\ (lvl v <= m)%nat) \/ exists p, (v, p) ∈ queue /\ (length p <= m)%nat.

(** What breadth-first search keeps true of its state. *)
Definition bfs_inv (adj : Adjacency) (start : node) (queue : list (node * list node))
    (visited : gset node) (lvl : node -> nat) : Prop :=
  (forall n p, (n, p) ∈ queue -> exists c, route adj start n p c) /\
  (exists l, bfs_levels l queue) /\
  (forall x e, x ∈ visited -> e ∈ queue -> (lvl x <= length e.2)%nat) /\
  bfs_covered queue visited lvl start 1 /\
  (forall n v w, n ∈ visited -> edge adj n v w -> bfs_covered queue visited lvl v (S (lvl n))).

(** [d] is the cost of a cheapest path of [adj] from [s] to [v]. *)
Definition shortest (adj : Adjacency) (s v : node) (d : Z) : Prop :=
  (exists p, route adj s v p d) /\ forall p c, route adj s v p c -> d <= c.

(** What [dijkstra_from_source] keeps true of its state: a recorded
    distance is the cost of a path; a queue entry is not below the
    recorded distance of its node; the source has a distance; and a node
    with a distance is still in the queue at that distance, or its edges
    have been relaxed. *)
Definition src_exact_inv (adj : Adjacency) (src : node)
    (dist : gmap node Z) (pq : list (Z * node)) : Prop :=
  (forall v d, dist !! v = Some d -> exists p, route adj src v p d) /\
  (forall d u, (d, u) ∈ pq -> exists du, dist !! u = Some du /\ du <= d) /\
  (exists d0, dist !! src = Some d0 /\ d0 <= 0) /\
  (forall u du, dist !! u = Some du ->
     (du, u) ∈ pq \/
     forall v w, edge adj u v w -> exists dv, dist !! v = Some dv /\ dv <= du + w).
(** [(v, w)] is listed among the edges of an item of [adj] with key [u]. *)
Definition listed (adj : Adjacency) (u v : node) (w : Z) : Prop :=
  exists edges, (u, edges) ∈ adj /\ (v, w) ∈ edges.

(** Every edge can be taken back at the same weight. *)
Definition symmetric (adj : Adjacency) : Prop :=
  forall u v w, edge adj u v w -> edge adj v u w.
(** A distance map that holds exactly the shortest distances from [L],
    and one that holds exactly the shortest distances to [L]. *)
Definition exact_from (adj : Adjacency) (L : node) (f : gmap node Z) : Prop :=
  forall v d, f !! v = Some d <-> shortest adj L v d.

Definition exact_to (adj : Adjacency) (L : node) (b : gmap node Z) : Prop :=
  forall v d, b !! v = Some d <-> shortest adj v L d.

(** A number of turns that is enough for [dijkstra_from_source] on [adj]
    and on its reverse. *)
Definition tables_fuel (adj : Adjacency) : nat :=
  Nat.max (src_fuel adj) (src_fuel (reverse_graph adj)).

(** What the two landmark tables of [adj] are expected to hold. *)
Definition exact_tables (adj : Adjacency) (fwd bwd : table) : Prop :=
  map fst fwd = map fst bwd /\
  (forall L f, dict_get fwd L = Some f -> exact_from adj L f) /\
  (forall L b, dict_get bwd L = Some b -> exact_to adj L b).
(** [symmetric], as a check. *)
Definition symmetricb (adj : Adjacency) : bool :=
  forallb (fun item : node * list (node * Z) =>
             forallb (fun e : node * Z =>
                        bool_decide ((item.1, e.2) ∈ default [] (adj_get adj e.1))) item.2) adj.

(** A graph that stores every edge in both directions. *)
Definition two_way_graph : Adjacency :=
  [(0, [(1, 1); (2, 4)]); (1, [(0, 1); (2, 2); (3, 7)]); (2, [(0, 4); (1, 2); (3, 1)]);
   (3, [(1, 7); (2, 1)])].

(** The neighbours of [x] in the undirected view, [und.get(x, [])]. *)
Definition und_get (und : gmap node (list node)) (x : node) : list node :=
  default [] (und !! x).

(** What the flood fill keeps true: a node with an id is still in the
    queue, or all its neighbours carry its id. *)
Definition wc_done (und : gmap node (list node)) (comp : gmap node Z) (q : list node) : Prop :=
  forall x c, comp !! x = Some c ->
    x ∈ q \/ forall y, y ∈ und_get und x -> comp !! y = Some c.

(** ** [core/graphing.py] *)

(** [build_weight_map]: the same loop as [_build_weight_map] of
    [pathfinder.py]. *)
Definition build_weight_map (adj : Adjacency) : gmap node (gmap node Z) :=
  foldl (fun wm (item : node * list (node * Z)) =>
           let u_map := foldl (fun m (e : node * Z) => <[e.1 := e.2]> m)
                          (default ∅ (wm !! item.1)) item.2 in
           <[item.1 := u_map]> wm)
    ∅ adj.

(** [weight_map.get(u, {}).get(v)] *)
Definition edge_weight (weight_map : gmap node (gmap node Z)) (u v : node) : option Z :=
  default ∅ (weight_map !! u) !! v.

(** No two edges out of one node lead to the same node. *)
Definition no_parallel_edges (adj : Adjacency) : Prop :=
  forall u edges, adj_get adj u = Some edges -> NoDup (map fst edges).

Definition no_parallel_edgesb (adj : Adjacency) : bool :=
  forallb (fun item : node * list (node * Z) => bool_decide (NoDup (map fst item.2))) adj.
(** [str(n)] of an int. *)
Definition str_int (n : Z) : string := pretty n.

(** The [for i in range(len(path) - 1):] loop of [path_to_edge_string],
    from the node [u] on, with the nodes that follow it.  In the code
    [total += float(w)] is a float sum. *)
Fixpoint edge_parts (weight_map : gmap node (gmap node Z)) (u : node) (rest : list node)
    (parts : list string) (total : Z) : list string * Z :=
  match rest with
  | [] => (parts, total)
  | v :: rest =>
      match edge_weight weight_map u v with
      | None => edge_parts weight_map v rest (parts ++ ["-[?]->" +:+ str_int v]) total
      | Some w =>
          edge_parts weight_map v rest
            (parts ++ ["-[" +:+ str_int w +:+ "]->" +:+ str_int v]) (total + w)
      end
  end.

(** [path_to_edge_string(path, weight_map)]: the labelled edge sequence
    and the total weight. *)
Definition path_to_edge_string (path : list node) (weight_map : gmap node (gmap node Z))
    : string * Z :=
  match path with
  | [] => ("[]", 0)
  | [u] => (str_int u, 0)
  | u :: rest =>
      let '(parts, total) := edge_parts weight_map u rest [str_int u] 0 in
      (String.concat EmptyString parts, total)
  end.
(** A graph of [n] nodes without edges. *)
Definition edgeless_graph (n : Z) : Adjacency :=
  map (fun i : Z => (i, [])) (seqZ 0 n).

(** What [bidirectional_bfs] keeps true of one of its two sides, the one
    that grows from [r] and records its paths in [mine]: a recorded path
    is a path of the graph from [r]; a node has a path on one side only;
    the queue holds nodes with a path; and a node with a path is still in
    the queue, or all its neighbours have one. *)
Definition bidi_side (adj : Adjacency) (r : node) (mine other : gmap node (list node))
    (q : list node) : Prop :=
  (forall x p, mine !! x = Some p -> exists c, route adj r x p c) /\
  (forall x, is_Some (mine !! x) -> other !! x = None) /\
  (forall x, x ∈ q -> is_Some (mine !! x)) /\
  (forall x, is_Some (mine !! x) -> x ∈ q \/ forall v w, edge adj x v w -> is_Some (mine !! v)).

(** [path] joins a path from [start] to some node with the reverse of a
    path from [goal] to that node. *)
Definition meets (adj : Adjacency) (start goal : node) (path : list node) : Prop :=
  exists x p1 c1 p2 c2,
    route adj start x p1 c1 /\ route adj goal x p2 c2 /\ path = p1 ++ but_last_reversed p2.

(** Three nodes on a one-way cycle. *)
Definition one_way_cycle : Adjacency := [(0, [(1, 1)]); (1, [(2, 1)]); (2, [(0, 1)])].

(** A path of two edges to a node without outgoing edge. *)
Definition dead_end_graph : Adjacency := [(0, [(1, 1)]); (1, [(2, 1)]); (2, [])].

(** No cycle has a negative cost. *)
Definition no_negative_cycle (adj : Adjacency) : Prop :=
  forall x p c, route adj x x p c -> 0 <= c.

(** Node potentials under which no edge is negative; a graph that has
    some has no cycle of negative cost. *)
Definition feasible (phi : node -> Z) (adj : Adjacency) : bool :=
  forallb (fun item : node * list (node * Z) =>
             forallb (fun e : node * Z => bool_decide (phi e.1 <= phi item.1 + e.2)) item.2) adj.

(** [dist] holds for [v] a finite number that is at most [c]. *)
Definition bf_bound (dist : gmap node cost) (v : node) (c : Z) : Prop :=
  exists d, dist !! v = Some (Fin d) /\ d <= c.

(** The path that [prev] records for a node: from [start], which has no
    predecessor, along edges that were relaxed. *)
Inductive bf_tree (adj : Adjacency) (start : node) (dist : gmap node cost)
    (prev : gmap node node) : node -> list node -> Z -> Prop :=
| bf_root :
    dist !! start = Some (Fin 0) -> prev !! start = None ->
    bf_tree adj start dist prev start [start] 0
| bf_step u v w p c du dv :
    bf_tree adj start dist prev u p c -> prev !! v = Some u -> edge adj u v w ->
    dist !! u = Some (Fin du) -> dist !! v = Some (Fin dv) -> du + w <= dv ->
    bf_tree adj start dist prev v (p ++ [v]) (c + w).

(** What Bellman-Ford keeps true of [dist] and [prev]. *)
Definition bf_inv (adj : Adjacency) (start : node) (dist : gmap node cost)
    (prev : gmap node node) : Prop :=
  (forall v c, dist !! v = Some (Fin c) -> exists p, route adj start v p c) /\
  (forall x, x ∈ keys adj -> is_Some (dist !! x)) /\
  (dist !! start = Some (Fin 0) /\ prev !! start = None) /\
  (forall v d, dist !! v = Some (Fin d) -> exists p c, bf_tree adj start dist prev v p c).

(** After [k] rounds, [dist] is at most the cost of every path of at most
    [k] edges. *)
Definition bf_within (adj : Adjacency) (start : node) (k : nat) (dist : gmap node cost) : Prop :=
  forall v p c, route adj start v p c -> (length p <= S k)%nat -> bf_bound dist v c.

(** A graph with an edge of negative weight and no cycle. *)
Definition negative_edge_graph : Adjacency :=
  [(0, [(1, 1); (2, 5)]); (1, [(3, 4)]); (2, [(3, -3)]); (3, [])].

(** ** Numbers that the code computes in floats

    [dijkstra] and [a_star] add up the weights in Python ints and return
    [float(cost)]; [greedy_best], [bellman_ford], [dijkstra_from_source]
    and the total of [path_to_edge_string] add each weight to a float.  A
    float holds every integer up to [2^53] in absolute value, a sum that
    stays in this range is exact, and the conversion of an int to a float
    raises [OverflowError] beyond the largest float, [2^1024 - 2^971].
    The embedding computes in [Z]: it gives the numbers of the code as
    long as they stay in range, which is what the predicates below say of
    a number, of a graph and of a heuristic. *)

(** A float holds the integer [z] exactly. *)
Definition float_exact (z : Z) : Prop := Z.abs z <= 2 ^ 53.

(** The int [z] converts to a float. *)
Definition float_range (z : Z) : Prop := Z.abs z <= 2 ^ 1024 - 2 ^ 971.

(** Every weight of the graph converts to a float. *)
Definition float_weights (adj : Adjacency) : Prop := Forall float_range (all_weights adj).

(** The sum of the absolute values of all the weights: no path that goes
    through no node twice costs more, even with one more edge at its
    end. *)
Definition weight_sum (adj : Adjacency) : Z :=
  foldr (fun w acc => Z.abs w + acc) 0 (all_weights adj).

(** The weights are small: the costs of the paths that the searches build
    on the way to a result, and the sum of such a cost and of a small
    heuristic value, are integers that a float holds exactly. *)
Definition small_weights (adj : Adjacency) : Prop := weight_sum adj <= 2 ^ 52.

Definition small_heuristic (h : heuristic) (g : node) : Prop :=
  forall u z, h u g = Ret z -> Z.abs z <= 2 ^ 52.

(** No cycle that a path from [s] leads to has a negative cost. *)
Definition no_negative_cycle_from (adj : Adjacency) (s : node) : Prop :=
  forall x p c, reach adj s x -> route adj x x p c -> 0 <= c.

(** The sum of the absolute values of the weights of the edges out of
    [u]. *)
Definition out_sum (adj : Adjacency) (u : node) : Z :=
  foldr (fun e acc => Z.abs e.2 + acc) 0 (default [] (adj_get adj u)).

(** A* on weights of any sign: the bound above the cost of every entry,
    the quantity that decreases at every turn of the loop, what holds of
    the queue and of the recorded costs, and a number of turns that is
    enough when no cycle of negative cost is reached. *)
Definition walk_bound (adj : Adjacency) : Z :=
  max_weight adj * (Z.of_nat (length (keys adj)) + 1) + 1.

Definition walk_measure (adj : Adjacency) (pq : list astar_entry) (visited : gmap node Z) : Z :=
  Z.of_nat (length pq) +
  (Z.of_nat (length (all_weights adj)) + 1) *
    (sum_over (slack (walk_bound adj) visited) (keys adj) +
     weight_sum adj * Z.of_nat (length (keys adj))).

Definition walk_inv (adj : Adjacency) (start : node)
    (pq : list astar_entry) (visited : gmap node Z) : Prop :=
  (forall f g n path, (f, g, n, path) ∈ pq ->
     route adj start n path g /\ g <= max_weight adj * (known (keys adj) visited + 1)) /\
  (forall v c, visited !! v = Some c ->
     (exists p, route adj start v p c) /\ c <= max_weight adj * known (keys adj) visited).

Definition walk_fuel (adj : Adjacency) : nat :=
  Z.to_nat (2 + (Z.of_nat (length (all_weights adj)) + 1) *
                  ((walk_bound adj + weight_sum adj) * Z.of_nat (length (keys adj)))).

(** What [a_star] keeps true of its queue where no cycle of negative cost
    is reached: an entry holds a path of the graph with its cost, the
    nodes before the last one are distinct, and each of them was expanded
    at a cost that, with the cost of a path from it to the last node, is
    at most the cost of the entry. *)
Definition walk_trail (adj : Adjacency) (start : node)
    (pq : list astar_entry) (visited : gmap node Z) : Prop :=
  forall f g n p, (f, g, n, p) ∈ pq ->
    exists pre,
      p = pre ++ [n] /\ route adj start n p g /\ NoDup pre /\
      forall x, x ∈ pre ->
        exists v q c, visited !! x = Some v /\ route adj x n q c /\ v + c <= g.





(** Two components, one of them with an edge of negative weight. *)
Definition negative_edge_pair : Adjacency :=
  [(0, [(1, -2)]); (1, []); (2, [(3, 1)]); (3, [])].

(** ** Properties *)

(** *** The reachability check *)

Lemma index_truthy_components (i : Index) (comp : gmap node Z) :
  weak_components i = Some comp -> index_truthy (Some i) = true.
Proof.
  intros H. unfold index_truthy. rewrite H.
  rewrite (bool_decide_eq_false_2 (Some comp = None)) by discriminate.
  rewrite andb_false_r. reflexivity.
Qed.

Lemma reachable_false_inv (index : option Index) (s g : node) :
  _reachable index s g = false ->
  exists i comp, index = Some i /\ weak_components i = Some comp /\ comp !! s <> comp !! g.
Proof.
  unfold _reachable. destruct (index_truthy index) eqn:Ht; [|discriminate].
  destruct index as [i|]; [|discriminate]. simpl.
  destruct (weak_components i) as [comp|] eqn:Hc; simpl.
  - case_bool_decide; [discriminate|]. case_bool_decide; [discriminate|].
    intros _. exists i, comp. auto.
  - rewrite bool_decide_eq_true_2 by reflexivity. discriminate.
Qed.

Lemma reachable_false_intro (i : Index) (comp : gmap node Z) (s g : node) :
  weak_components i = Some comp -> comp !! s <> comp !! g ->
  _reachable (Some i) s g = false.
Proof.
  intros Hc Hne.
  unfold _reachable. rewrite (index_truthy_components i comp Hc). simpl. rewrite Hc. simpl.
  rewrite bool_decide_eq_false_2.
  - apply bool_decide_eq_false_2, Hne.
  - intros ->. apply Hne. rewrite !lookup_empty. reflexivity.
Qed.

(** C3 (counterexample).  With the map [{0: 1}], node [5] is absent and yet
    the check for [(0, 5)] is false: the reading "false only when both
    nodes are present with different ids" fails. *)
Lemma reachable_one_absent_counterexample :
  ~ reachable_false_iff_both_present (Some (index_of_components {[0 := 1]})) 0 5.
Proof.
  intros [H _].
  destruct H as (i & comp & c1 & c2 & Hi & Hc & _ & Hg & _); [vm_compute; reflexivity|].
  injection Hi as <-. simpl in Hc. injection Hc as <-.
  vm_compute in Hg. discriminate.
Qed.

(** C3 (amended).  [_reachable] is false exactly when the index carries a
    Weak-Component Map in which the lookups of [s] and [g] differ (both
    present with different ids, or exactly one of them present); it is
    true in every other case: no index, an empty index, no map or an empty
    map, both nodes absent, or equal ids. *)
Theorem reachable_false_iff (index : option Index) (s g : node) :
  _reachable index s g = false <->
  exists i comp, index = Some i /\ weak_components i = Some comp /\ comp !! s <> comp !! g.
Proof.
  split; [apply reachable_false_inv|].
  intros (i & comp & -> & Hc & Hne). by eapply reachable_false_intro.
Qed.

(** *** The wrapper and the selector *)

Lemma find_path_unfold :
  find_path = find_path_with _reachable choose_algorithm.
Proof. reflexivity. Qed.

(** C6.  [find_path(graph, s, s, index)] is [([s], 0)] for every graph,
    node and index, and for every fuel, even none: no loop of a search is
    entered.  The same holds whatever reachability check and selector the
    wrapper is given, so the result does not come from them. *)
Theorem find_path_same_node (fuel : nat) (adj : Adjacency) (s : node) (index : option Index) :
  find_path fuel adj s s index = Ret (Some [s], Fin 0) /\
  forall reachable choose,
    find_path_with reachable choose fuel adj s s index = Ret (Some [s], Fin 0).
Proof.
  split.
  - unfold find_path. destruct (decide (s = s)); [reflexivity|congruence].
  - intros reachable choose. unfold find_path_with.
    destruct (decide (s = s)); [reflexivity|congruence].
Qed.

(** The branches of [choose_algorithm] after the landmark test, in their
    order: Bellman-Ford on a negative weight, else A* with the zero
    heuristic above 10,000 nodes, else breadth-first search when the
    uniform flag is set (or missing), else Dijkstra. *)
Lemma choose_algorithm_without_landmarks (adj : Adjacency) (index : option Index) :
  let idx := default empty_index index in
  landmarks idx = None ->
  choose_algorithm adj index =
    if existsb (fun w => bool_decide (w < 0)) (all_weights adj) then bellman_ford
    else if bool_decide (default (Z.of_nat (length adj)) (node_count idx) > 10000)
      then (fun fuel a s g => a_star fuel a s g zero_heuristic)
    else if default true (uniform_weights idx) then bfs
    else dijkstra.
Proof.
  intros idx H. unfold choose_algorithm. fold idx. rewrite H.
  rewrite bool_decide_eq_false_2 by (intros [? ?]; discriminate).
  reflexivity.
Qed.

(** With landmarks in the index, the strategy returned is [_strategy],
    which stops at the name [landmarks]. *)
Lemma choose_algorithm_with_landmarks (adj : Adjacency) (idx : Index) (L : list node)
    (fuel : nat) (a : Adjacency) (s g : node) :
  landmarks idx = Some L ->
  choose_algorithm adj (Some idx) fuel a s g = Raise NameError.
Proof.
  intros H. unfold choose_algorithm. simpl. rewrite H.
  rewrite bool_decide_eq_true_2 by eauto. reflexivity.
Qed.

(** C5 (the code at the failing input).  For an index with landmark
    tables, the strategy that [choose_algorithm] returns raises
    [NameError] when it is run, before A* is entered; A* with the ALT
    heuristic on the same tables finds the path. *)
Theorem choose_algorithm_landmarks_name_error :
  choose_algorithm weighted_graph (Some landmark_index) 100%nat weighted_graph 0 3
    = Raise NameError /\
  build_tables 100 weighted_graph [0]
    = Ret (default [] (dist_L_to_v landmark_index), default [] (dist_v_to_L landmark_index)) /\
  a_star 100 weighted_graph 0 3
    (alt_heuristic_factory 3 (default [] (dist_L_to_v landmark_index))
       (default [] (dist_v_to_L landmark_index)))
    = Ret (Some [0; 1; 2; 3], Fin 4).
Proof. repeat split; vm_compute; reflexivity. Qed.

(** *** The ALT heuristic on a directed graph *)

(** What the heuristic does with infinite entries: a term with an
    infinite operand leaves the estimate as it is, so that the estimate is
    0 when every term has one. *)
Lemma alt_term_skips_infinite (a b : cost) (best : Z) :
  a = Inf \/ b = Inf -> alt_term a b best = best.
Proof. intros [->| ->]; [reflexivity|]. by destruct a. Qed.

Lemma alt_scan_no_finite_term (goal u : node) (fwd_t bwd_t : table) (Ls : list node) (best : Z) :
  (forall L, L ∈ Ls ->
     exists fwd bwd, dict_get fwd_t L = Some fwd /\ dict_get bwd_t L = Some bwd /\
       (fwd !! goal = None \/ fwd !! u = None) /\ (bwd !! goal = None \/ bwd !! u = None)) ->
  alt_scan goal u Ls fwd_t bwd_t best = Ret best.
Proof.
  revert best. induction Ls as [|L Ls IH]; intros best H; simpl; [done|].
  destruct (H L ltac:(left)) as (fwd & bwd & Hf & Hb & Hfi & Hbi).
  unfold table_index. rewrite Hf, Hb. simpl.
  rewrite (alt_term_skips_infinite (dist_get_inf fwd goal) (dist_get_inf fwd u)).
  2:{ unfold dist_get_inf. destruct Hfi as [-> | ->]; auto. }
  rewrite (alt_term_skips_infinite (dist_get_inf bwd u) (dist_get_inf bwd goal)).
  2:{ unfold dist_get_inf. destruct Hbi as [-> | ->]; auto. }
  apply IH. intros L' HL'. apply H. by right.
Qed.

(** C2 (the code at the failing input).  On [one_way_graph] with landmark
    0 and goal 2, the tables of [build_tables] give the estimate 9 for
    node 1, from [abs(d(0,2) - d(0,1)) = abs(1 - 10)], while the edge
    [1 -> 2] is a path of cost 1: the estimate exceeds the distance. *)
Theorem alt_heuristic_overestimates :
  (tables ← build_tables 100 one_way_graph [0];
   alt_heuristic_factory 2 tables.1 tables.2 1 2) = Ret 9 /\
  route one_way_graph 1 2 [1; 2] 1 /\
  dijkstra 100 one_way_graph 1 2 = Ret (Some [1; 2], Fin 1).
Proof.
  split; [vm_compute; reflexivity|]. split; [|vm_compute; reflexivity].
  apply (route_step _ _ 1 [1] 0 2 1); [apply route_start|].
  eexists. split; [reflexivity|]. left.
Qed.

(** C1 (the code at the failing input).  On [one_way_graph], from 3 to 2,
    A* with the ALT heuristic of landmark 0 returns the direct edge of
    cost 5; Dijkstra, A* with the zero heuristic and bidirectional
    Dijkstra return the path through 1 of cost 2. *)
Theorem a_star_alt_not_optimal :
  (tables ← build_tables 100 one_way_graph [0];
   a_star 100 one_way_graph 3 2 (alt_heuristic_factory 2 tables.1 tables.2))
    = Ret (Some [3; 2], Fin 5) /\
  dijkstra 100 one_way_graph 3 2 = Ret (Some [3; 1; 2], Fin 2) /\
  a_star 100 one_way_graph 3 2 zero_heuristic = Ret (Some [3; 1; 2], Fin 2) /\
  bidirectional_dijkstra 100 one_way_graph 3 2 = Ret (Some [3; 1; 2], Fin 2) /\
  select_landmarks 100 one_way_graph 1 = Ret [0].
Proof. repeat split; vm_compute; reflexivity. Qed.

(** *** A node that is not a key *)

(** C4 (the code at the failing input).  On [dangling_graph], from 0 to
    2, every search of [algorithms.py] reaches node 1, which is no key of
    the graph, and raises [KeyError] at [adj[node]], whatever the fuel
    left; [dijkstra_from_source] reads [adj.get(u, [])] and returns. *)
Theorem searches_raise_on_dangling_edge (fuel : nat) :
  let fuel := S (S fuel) in
  bfs fuel dangling_graph 0 2 = Raise KeyError /\
  dfs fuel dangling_graph 0 2 = Raise KeyError /\
  depth_limited_dfs fuel dangling_graph 0 2 5 = Raise KeyError /\
  dijkstra fuel dangling_graph 0 2 = Raise KeyError /\
  greedy_best fuel dangling_graph 0 2 zero_heuristic = Raise KeyError /\
  a_star fuel dangling_graph 0 2 zero_heuristic = Raise KeyError /\
  bidirectional_bfs fuel dangling_graph 0 2 = Raise KeyError /\
  bidirectional_dijkstra fuel dangling_graph 0 2 = Raise KeyError /\
  bellman_ford fuel dangling_graph 0 2 = Raise KeyError /\
  dijkstra_from_source (S fuel) dangling_graph 0 = Ret {[0 := 0; 1 := 1]}.
Proof. repeat split; vm_compute; reflexivity. Qed.

(** *** The heuristic library *)

Section HeuristicShapes.
Import Heuristics.
Local Open Scope R_scope.

Lemma as_pairs_Some (u v : value) :
is_Some (as_pairs u v) -> exists x1 y1 x2 y2, u = VTuple [x1; y1] /\ v = VTuple [x2; y2].
Proof.
intros [p Hp]. destruct u as [| |[|x1 [|y1 [|? ?]]]]; try discriminate.
destruct v as [| |[|x2 [|y2 [|? ?]]]]; try discriminate. eauto 10.
Qed.

Lemma as_ints_Some (u v : value) :
is_Some (as_ints u v) -> exists a b, u = VInt a /\ v = VInt b.
Proof. intros [p Hp]. destruct u; try discriminate. destruct v; try discriminate. eauto. Qed.

Lemma unsupported_raises (h : name) (u v : value) :
h <> Zero -> ~ supported h u v -> run h u v = Raise TypeError.
Proof.
intros Hz Hs.
assert (as_pairs u v = None) as Hp.
{ destruct (as_pairs u v) eqn:E; [|reflexivity]. exfalso. apply Hs.
  destruct h; simpl; rewrite E; eauto. }
destruct h; try congruence; simpl;
  try (unfold haversine; rewrite Hp; reflexivity);
  assert (as_ints u v = None) as Hi
    by (destruct (as_ints u v) eqn:E; [exfalso; apply Hs; simpl; rewrite E; eauto|reflexivity]).
- unfold manhattan. rewrite Hi, Hp. reflexivity.
- unfold euclidean. rewrite Hi, Hp. reflexivity.
- unfold chebyshev. rewrite Hi, Hp. reflexivity.
- unfold octile. rewrite Hi, Hp. reflexivity.
Qed.

Lemma py_sqrt_no_type_error (x : R) : py_sqrt x <> Raise TypeError.
Proof. unfold py_sqrt. by destruct (Rlt_dec x 0). Qed.

Lemma py_asin_no_type_error (x : R) : py_asin x <> Raise TypeError.
Proof. unfold py_asin. by destruct (Rlt_dec x (-1)), (Rlt_dec 1 x). Qed.

Lemma supported_no_type_error (h : name) (u v : value) :
  supported h u v -> run h u v <> Raise TypeError.
Proof.
  intros Hs.
  assert (is_Some (as_pairs u v) \/ (h <> Haversine /\ is_Some (as_ints u v))) as [Hp|[Hh Hi]].
  { destruct h; simpl in Hs; try tauto; destruct Hs; auto; right; split; auto; discriminate. }
  - destruct (as_pairs_Some u v Hp) as (x1 & y1 & x2 & y2 & -> & ->).
    destruct h; simpl; try discriminate.
    + unfold euclidean. simpl. apply py_sqrt_no_type_error.
    + unfold octile. simpl. destruct (py_sqrt 2) as [r| |] eqn:E; simpl; try discriminate.
      intros [= ->]. by apply py_sqrt_no_type_error in E.
    + unfold haversine. simpl.
      match goal with |- context [py_sqrt ?a] => destruct (py_sqrt a) as [r| |] eqn:E end;
        simpl; [|intros [= ->]; by apply py_sqrt_no_type_error in E|discriminate].
      destruct (py_asin r) as [s| |] eqn:E'; simpl; try discriminate.
      intros [= ->]. by apply py_asin_no_type_error in E'.
  - destruct (as_ints_Some u v Hi) as (a & b & -> & ->).
    destruct h; try congruence; simpl; discriminate.
Qed.

(** C9 (counterexample).  [zero] is given an int and a pair, shapes that
  no heuristic supports together, and returns 0.0 instead of raising. *)
Lemma zero_accepts_mismatched_shapes :
~ rejects_unsupported Zero (VInt 3) (VTuple [1; 2]).
Proof.
intros H. unfold rejects_unsupported in H.
assert (run Zero (VInt 3) (VTuple [1; 2]) = Raise TypeError) as E.
{ apply H. intros [[? E]|[? E]]; discriminate. }
discriminate.
Qed.

(** C9 (amended).  [zero] returns 0 for all inputs and never raises.  Each
    of the other heuristics raises [TypeError] on a pair of arguments
    exactly when it is outside its supported shapes (two ints, or two
    tuples of length two; for [haversine] two tuples of length two only).
    On two ints every heuristic but [zero] and [haversine] returns the int
    [abs(u - v)], which is at least 0.  Nothing is said of the number
    computed, in floats, on two tuples. *)
Theorem heuristic_shapes (h : name) (u v : value) :
  run Zero u v = Ret 0 /\
  (h <> Zero -> (run h u v = Raise TypeError <-> ~ supported h u v)) /\
  (h <> Zero -> h <> Haversine ->
   forall a b, u = VInt a -> v = VInt b ->
     run h u v = Ret (IZR (Z.abs (a - b))) /\ (0 <= Z.abs (a - b))%Z).
Proof.
  split; [reflexivity|]. split.
  - intros Hz. split.
    + intros Hrun Hs. by apply (supported_no_type_error h u v Hs).
    + by apply unsupported_raises.
  - intros Hz Hh a b -> ->. split; [|lia]. destruct h; try congruence; reflexivity.
Qed.

Lemma heuristic_shapes_witness :
  run Manhattan (VInt 3) (VTuple [1; 2]) = Raise TypeError /\
  run Haversine (VTuple [0; 0]) (VTuple [1; 1]) <> Raise TypeError /\
  run Chebyshev (VInt 3) (VInt 7) = Ret 4.
Proof.
  split; [|split].
  - apply (heuristic_shapes Manhattan (VInt 3) (VTuple [1; 2])); [discriminate|].
    intros [[? E]|[? E]]; discriminate.
  - intros H. apply (heuristic_shapes Haversine (VTuple [0; 0]) (VTuple [1; 1])) in H;
      [|discriminate]. apply H. eexists. reflexivity.
  - destruct (heuristic_shapes Chebyshev (VInt 3) (VInt 7)) as (_ & _ & H).
    destruct (H ltac:(discriminate) ltac:(discriminate) 3%Z 7%Z eq_refl eq_refl) as [E _].
    rewrite E. reflexivity.
Defined.

End HeuristicShapes.

(** *** The heap *)

Section HeapFacts.
Context {A : Type} (ltb : A -> A -> bool).

Lemma heappop_perm (h : list A) (m : A) (r : list A) :
  heappop ltb h = Some (m, r) -> h ≡ₚ m :: r.
Proof.
  revert m r. induction h as [|x h IH]; intros m r; simpl; [discriminate|].
  destruct (heappop ltb h) as [[m' r']|] eqn:E.
  - destruct (ltb m' x); intros [= <- <-]; [|reflexivity].
    rewrite (IH m' r' eq_refl). apply Permutation_swap.
  - intros [= <- <-]. destruct h; [reflexivity|].
    simpl in E. destruct (heappop ltb h) as [[? ?]|]; [destruct (ltb _ _)|]; discriminate.
Qed.

Lemma heappop_nil (h : list A) : heappop ltb h = None -> h = [].
Proof.
  destruct h as [|x h]; [reflexivity|]. simpl.
  destruct (heappop ltb h) as [[? ?]|]; [destruct (ltb _ _)|]; discriminate.
Qed.

Lemma heappop_length (h : list A) (m : A) (r : list A) :
  heappop ltb h = Some (m, r) -> length h = S (length r).
Proof. intros H. rewrite (heappop_perm _ _ _ H). reflexivity. Qed.

Lemma heappop_in (h : list A) (m : A) (r : list A) (x : A) :
  heappop ltb h = Some (m, r) -> x ∈ h <-> x = m \/ x ∈ r.
Proof. intros H. rewrite (heappop_perm _ _ _ H). apply elem_of_cons. Qed.

End HeapFacts.

(** *** Sums over the nodes *)

Lemma sum_over_le (f g : node -> Z) (l : list node) :
  (forall x, x ∈ l -> f x <= g x) -> sum_over f l <= sum_over g l.
Proof.
  induction l as [|y l IH]; intros H; simpl; [lia|].
  pose proof (H y ltac:(left)). 
  assert (sum_over f l <= sum_over g l) by (apply IH; intros; apply H; by right).
  lia.
Qed.

Lemma sum_over_drop (f g : node -> Z) (l : list node) (v : node) (k : Z) :
  (forall x, x ∈ l -> f x <= g x) -> v ∈ l -> f v + k <= g v ->
  sum_over f l + k <= sum_over g l.
Proof.
  induction l as [|y l IH]; intros H Hv Hk; [by apply elem_of_nil in Hv|].
  simpl. apply elem_of_cons in Hv as [<-|Hv].
  - assert (sum_over f l <= sum_over g l) by (apply sum_over_le; intros; apply H; by right).
    lia.
  - pose proof (H y ltac:(left)).
    assert (sum_over f l + k <= sum_over g l) by (apply IH; auto; intros; apply H; by right).
    lia.
Qed.

Lemma sum_over_bounds (f : node -> Z) (l : list node) (a b : Z) :
  (forall x, x ∈ l -> a <= f x <= b) ->
  a * Z.of_nat (length l) <= sum_over f l <= b * Z.of_nat (length l).
Proof.
  induction l as [|y l IH]; intros H; simpl length; simpl sum_over; [lia|].
  pose proof (H y ltac:(left)).
  assert (a * Z.of_nat (length l) <= sum_over f l <= b * Z.of_nat (length l))
    by (apply IH; intros; apply H; by right).
  lia.
Qed.

(** *** [dijkstra_from_source] returns on non-negative weights *)

Lemma max_weight_ge (adj : Adjacency) (w : Z) : w ∈ all_weights adj -> w <= max_weight adj.
Proof.
  unfold max_weight. induction (all_weights adj) as [|x l IH]; intros H.
  - by apply elem_of_nil in H.
  - simpl. apply elem_of_cons in H as [->|H]; [lia|]. specialize (IH H). lia.
Qed.

Lemma max_weight_nonneg (adj : Adjacency) : 0 <= max_weight adj.
Proof. unfold max_weight. induction (all_weights adj); simpl; lia. Qed.

Lemma adj_get_in (adj : Adjacency) (u : node) (edges : list (node * Z)) :
  adj_get adj u = Some edges -> (u, edges) ∈ adj.
Proof.
  induction adj as [|[k e] adj IH]; simpl; [discriminate|].
  destruct (decide (k = u)) as [->|].
  - intros [= ->]. left.
  - intros H. right. auto.
Qed.

Lemma edge_weight_in (adj : Adjacency) (u v : node) (w : Z) :
  edge adj u v w -> w ∈ all_weights adj.
Proof.
  intros (edges & Hg & Hin). apply adj_get_in in Hg. unfold all_weights.
  apply list_elem_of_In, in_concat. exists (map snd edges). split.
  - apply in_map_iff. exists (u, edges). split; [reflexivity|]. by apply list_elem_of_In.
  - apply in_map_iff. exists (v, w). split; [reflexivity|]. by apply list_elem_of_In.
Qed.

Lemma edge_target_in (adj : Adjacency) (u v : node) (w : Z) :
  edge adj u v w -> v ∈ targets adj.
Proof.
  intros (edges & Hg & Hin). apply adj_get_in in Hg. unfold targets.
  apply list_elem_of_In, in_concat. exists (map fst edges). split.
  - apply in_map_iff. exists (u, edges). split; [reflexivity|]. by apply list_elem_of_In.
  - apply in_map_iff. exists (v, w). split; [reflexivity|]. by apply list_elem_of_In.
Qed.

Lemma edge_source_in (adj : Adjacency) (u v : node) (w : Z) :
  edge adj u v w -> u ∈ keys adj.
Proof.
  intros (edges & Hg & _). apply adj_get_in in Hg. unfold keys.
  apply list_elem_of_In, in_map_iff. exists (u, edges). split; [reflexivity|].
  by apply list_elem_of_In.
Qed.

Lemma nonneg_weights_edge (adj : Adjacency) (u v : node) (w : Z) :
  nonneg_weights adj -> edge adj u v w -> 0 <= w <= max_weight adj.
Proof.
  intros Hn He. pose proof (edge_weight_in _ _ _ _ He) as Hw. split.
  - unfold nonneg_weights in Hn. rewrite Forall_forall in Hn. by apply Hn.
  - by apply max_weight_ge.
Qed.

Lemma known_bounds {V : Type} (U : list node) (d : gmap node V) :
  0 <= known U d <= Z.of_nat (length U).
Proof.
  unfold known.
  pose proof (sum_over_bounds (fun u => match d !! u with Some _ => 1 | None => 0 end) U 0 1) as H.
  assert (forall x : node, x ∈ U -> 0 <= match d !! x with Some _ => 1 | None => 0 end <= 1) as H'.
  { intros x _. destruct (d !! x); lia. }
  specialize (H H'). lia.
Qed.

Lemma known_insert_new {V : Type} (U : list node) (d : gmap node V) (v : node) (x : V) :
  v ∈ U -> d !! v = None -> known U d + 1 <= known U (<[v := x]> d).
Proof.
  intros Hv Hd. unfold known. apply sum_over_drop with (v := v); [|done|].
  - intros y _. destruct (decide (v = y)) as [->|Hne].
    + rewrite Hd, lookup_insert_eq. lia.
    + rewrite lookup_insert_ne by done. lia.
  - rewrite Hd, lookup_insert_eq. lia.
Qed.

Lemma known_insert_old {V : Type} (U : list node) (d : gmap node V) (v : node) (x : V) :
  known U d <= known U (<[v := x]> d).
Proof.
  unfold known. apply sum_over_le. intros y _.
  destruct (decide (v = y)) as [->|Hne].
  - rewrite lookup_insert_eq. destruct (d !! y); lia.
  - rewrite lookup_insert_ne by done. lia.
Qed.

Lemma slack_insert_drop (B : Z) (U : list node) (d : gmap node Z) (v : node) (c : Z) :
  v ∈ U -> c + 1 <= slack B d v ->
  sum_over (slack B (<[v := c]> d)) U + 1 <= sum_over (slack B d) U.
Proof.
  intros Hv Hc. apply sum_over_drop with (v := v); [|done|].
  - intros y _. unfold slack. destruct (decide (v = y)) as [->|Hne].
    + rewrite lookup_insert_eq. unfold slack in Hc. lia.
    + rewrite lookup_insert_ne by done. lia.
  - unfold slack at 1. rewrite lookup_insert_eq. lia.
Qed.
Section SourceLoop.
Variable adj : Adjacency.
Hypothesis Hnn : nonneg_weights adj.

Lemma src_slack_bounds (dist : gmap node Z) (pq : list (Z * node)) (u : node) :
  src_inv adj dist pq -> 0 <= slack (src_bound adj) dist u <= src_bound adj.
Proof.
  intros [_ Hv]. unfold slack, src_bound.
  pose proof (max_weight_nonneg adj). pose proof (known_bounds (targets adj) dist).
  destruct (dist !! u) as [c|] eqn:E; [|nia].
  specialize (Hv u c E). nia.
Qed.

Lemma src_measure_nonneg (dist : gmap node Z) (pq : list (Z * node)) :
  src_inv adj dist pq -> 0 <= src_measure adj dist pq.
Proof.
  intros Hi. unfold src_measure.
  pose proof (sum_over_bounds (slack (src_bound adj) dist) (targets adj) 0 (src_bound adj)) as H.
  assert (0 * Z.of_nat (length (targets adj)) <=
          sum_over (slack (src_bound adj) dist) (targets adj)) as H'.
  { apply H. intros x _. eapply src_slack_bounds, Hi. }
  lia.
Qed.

Lemma src_relax_spec (d : Z) (edges : list (node * Z)) :
  (forall v w, (v, w) ∈ edges -> v ∈ targets adj /\ 0 <= w <= max_weight adj) ->
  forall dist pq dist' pq',
    0 <= d <= max_weight adj * known (targets adj) dist ->
    src_inv adj dist pq ->
    src_relax d edges dist pq = (dist', pq') ->
    src_inv adj dist' pq' /\ src_measure adj dist' pq' <= src_measure adj dist pq.
Proof.
  pose proof (max_weight_nonneg adj) as HM.
  induction edges as [|[v w] edges IH]; intros He dist pq dist' pq' Hd Hi Hr; simpl in Hr.
  - injection Hr as <- <-. split; [done|lia].
  - destruct (He v w ltac:(left)) as (Hv & Hw).
    assert (forall v' w', (v', w') ∈ edges -> v' ∈ targets adj /\ 0 <= w' <= max_weight adj) as He'.
    { intros v' w' H. apply He. by right. }
    set (better := match dist !! v with None => true | Some dv => bool_decide (d + w < dv) end) in Hr.
    destruct better eqn:Hb; [|by apply (IH He' dist pq)].
    pose proof (known_bounds (targets adj) (<[v := d + w]> dist)) as Hk1.
    pose proof (known_insert_old (targets adj) dist v (d + w)) as Hk2.
    assert (d + w <= max_weight adj * known (targets adj) (<[v := d + w]> dist) /\
            d + w + 1 <= slack (src_bound adj) dist v) as [Hnew Hdrop].
    { destruct Hi as [_ Hval]. unfold slack, src_bound. subst better.
      destruct (dist !! v) as [dv|] eqn:E.
      - apply bool_decide_eq_true_1 in Hb. specialize (Hval v dv E). nia.
      - pose proof (known_insert_new (targets adj) dist v (d + w) Hv E). nia. }
    assert (src_inv adj (<[v := d + w]> dist) (heappush pq (d + w, v))) as Hi'.
    { destruct Hi as [Hq Hval]. split.
      - intros d0 u0 Hin. unfold heappush in Hin. apply elem_of_cons in Hin as [[= -> ->]|Hin].
        + split; [lia|]. rewrite lookup_insert_eq. eauto.
        + destruct (Hq d0 u0 Hin) as [? Hs]. split; [done|].
          destruct (decide (v = u0)) as [->|]; [rewrite lookup_insert_eq; eauto|].
          by rewrite lookup_insert_ne.
      - intros v0 c0. destruct (decide (v = v0)) as [->|].
        + rewrite lookup_insert_eq. intros [= <-]. lia.
        + rewrite lookup_insert_ne by done. intros E. specialize (Hval v0 c0 E). nia. }
    assert (0 <= d <= max_weight adj * known (targets adj) (<[v := d + w]> dist)) as Hd' by nia.
    destruct (IH He' _ _ _ _ Hd' Hi' Hr) as [Hi'' Hm]. split; [done|].
    pose proof (slack_insert_drop (src_bound adj) (targets adj) dist v (d + w) Hv Hdrop).
    unfold src_measure in *. unfold heappush in Hm. simpl length in Hm. lia.
Qed.

Lemma src_loop_returns (fuel : nat) :
  forall dist pq,
    src_inv adj dist pq -> src_measure adj dist pq < Z.of_nat fuel ->
    exists r, src_loop fuel adj dist pq = Ret r.
Proof.
  induction fuel as [|fuel IH]; intros dist pq Hi Hm.
  - pose proof (src_measure_nonneg dist pq Hi). lia.
  - simpl. destruct (heappop src_ltb pq) as [[[d u] pq']|] eqn:Hpop; [|eauto].
    pose proof (heappop_length _ _ _ _ Hpop) as Hlen.
    assert (src_inv adj dist pq') as Hi'.
    { destruct Hi as [Hq Hv]. split; [|done]. intros d0 u0 H. apply Hq.
      apply (heappop_in _ _ _ _ (d0, u0) Hpop). by right. }
    destruct Hi as [Hq Hval].
    destruct (Hq d u) as [Hd [du Hdu]]; [apply (heappop_in _ _ _ _ (d, u) Hpop); by left|].
    rewrite Hdu. case_bool_decide as Hstale.
    + apply IH; [done|]. unfold src_measure in *. lia.
    + destruct (src_relax d (default [] (adj_get adj u)) dist pq') as [dist' pq''] eqn:Hr.
      assert (forall v w, (v, w) ∈ default [] (adj_get adj u) ->
                v ∈ targets adj /\ 0 <= w <= max_weight adj) as He.
      { intros v w H. destruct (adj_get adj u) as [edges|] eqn:E; [|by apply elem_of_nil in H].
        assert (edge adj u v w) as Hedge by (exists edges; auto).
        split; [by eapply edge_target_in|by eapply nonneg_weights_edge]. }
      specialize (Hval u du Hdu).
      destruct (src_relax_spec d _ He dist pq' dist' pq'' ltac:(lia) Hi' Hr) as [Hi'' Hm'].
      apply IH; [done|]. unfold src_measure in *. lia.
Qed.

Lemma dijkstra_from_source_returns (fuel : nat) (src : node) :
  (src_fuel adj <= fuel)%nat -> exists r, dijkstra_from_source fuel adj src = Ret r.
Proof.
  intros Hf. unfold dijkstra_from_source.
  pose proof (max_weight_nonneg adj) as HM.
  assert (src_inv adj {[src := 0]} [(0, src)]) as Hi.
  { split.
    - intros d u H. apply list_elem_of_singleton in H as [= -> ->].
      split; [lia|]. rewrite lookup_singleton_eq. eauto.
    - intros v c H. apply lookup_singleton_Some in H as [_ <-].
      pose proof (known_bounds (targets adj) ({[src := 0]} : gmap node Z)). nia. }
  apply src_loop_returns; [done|].
  pose proof (sum_over_bounds (slack (src_bound adj) {[src := 0]}) (targets adj) 0 (src_bound adj))
    as H.
  assert (sum_over (slack (src_bound adj) {[src := 0]}) (targets adj)
          <= src_bound adj * Z.of_nat (length (targets adj))) as H'.
  { apply H. intros x _. eapply src_slack_bounds, Hi. }
  unfold src_measure, src_fuel in *. simpl length. lia.
Qed.

End SourceLoop.

(** *** [select_landmarks] *)








(** *** Graphs whose edges lead to keys *)

Lemma in_adj_get (adj : Adjacency) (u : node) :
  u ∈ keys adj -> exists edges, adj_get adj u = Some edges.
Proof.
  unfold keys. induction adj as [|[k e] adj IH]; simpl; intros H.
  - by apply elem_of_nil in H.
  - destruct (decide (k = u)); [eauto|].
    apply elem_of_cons in H as [->|H]; [done|auto].
Qed.

Lemma adj_get_unique (adj : Adjacency) (u : node) (edges : list (node * Z)) :
  NoDup (keys adj) -> (u, edges) ∈ adj -> adj_get adj u = Some edges.
Proof.
  unfold keys. induction adj as [|[k e] adj IH]; simpl; intros Hnd H.
  - by apply elem_of_nil in H.
  - apply NoDup_cons in Hnd as [Hk Hnd].
    apply elem_of_cons in H as [[= <- <-]|H].
    + destruct (decide (u = u)); [done|congruence].
    + destruct (decide (k = u)) as [->|]; [|auto].
      exfalso. apply Hk. apply list_elem_of_In, in_map_iff. exists (u, edges).
      split; [done|]. by apply list_elem_of_In.
Qed.

Lemma out_degree_get (adj : Adjacency) (u : node) (edges : list (node * Z)) :
  adj_get adj u = Some edges -> out_degree adj u = length edges.
Proof. intros H. unfold out_degree. by rewrite H. Qed.

Lemma closedb_closed (adj : Adjacency) : closedb adj = true -> closed adj.
Proof.
  unfold closedb. rewrite forallb_forall. intros H u v w He.
  apply edge_target_in, list_elem_of_In, H in He. by apply bool_decide_eq_true_1 in He.
Qed.

Lemma reach_step (adj : Adjacency) (s u v : node) (w : Z) :
  reach adj s u -> edge adj u v w -> reach adj s v.
Proof. intros Hr He. eapply rtc_r; [exact Hr|]. by exists w. Qed.

Lemma reach_key (adj : Adjacency) (s u : node) :
  closed adj -> s ∈ keys adj -> reach adj s u -> u ∈ keys adj.
Proof.
  intros Hc Hs Hr. induction Hr as [|x y z [w Hxy] _ IH]; [done|].
  apply IH. by eapply Hc.
Qed.

Lemma reach_wconn (adj : Adjacency) (u v : node) : reach adj u v -> wconn adj u v.
Proof.
  intros H. induction H as [|x y z Hxy _ IH]; [apply rtc_refl|].
  eapply rtc_l; [|exact IH]. by left.
Qed.

Lemma wconn_sym (adj : Adjacency) (u v : node) : wconn adj u v -> wconn adj v u.
Proof.
  intros H. induction H as [|x y z Hxy _ IH]; [apply rtc_refl|].
  eapply rtc_r; [exact IH|]. destruct Hxy; [by right|by left].
Qed.

Lemma wconn_colour (col : node -> bool) (adj : Adjacency) (u v : node) :
  same_colour col adj = true -> wconn adj u v -> col u = col v.
Proof.
  unfold same_colour. rewrite forallb_forall. intros Hc H.
  assert (forall x y, step adj x y -> col x = col y) as Hs.
  { intros x y (w & edges & Hg & Hin). apply adj_get_in, list_elem_of_In, Hc in Hg.
    simpl in Hg. rewrite forallb_forall in Hg. apply list_elem_of_In, Hg in Hin.
    by apply bool_decide_eq_true_1 in Hin. }
  induction H as [|x y z Hxy _ IH]; [done|].
  rewrite <- IH. destruct Hxy as [Hxy|Hxy]; [by apply Hs|symmetry; by apply Hs].
Qed.

Lemma sum_over_nonneg (f : node -> Z) (l : list node) :
  (forall x, x ∈ l -> 0 <= f x) -> 0 <= sum_over f l.
Proof.
  induction l as [|y l IH]; intros H; simpl; [lia|].
  pose proof (H y ltac:(left)).
  assert (0 <= sum_over f l) by (apply IH; intros; apply H; by right).
  lia.
Qed.

Lemma todo_nonneg (adj : Adjacency) (visited : gset node) : 0 <= todo adj visited.
Proof.
  unfold todo. apply sum_over_nonneg. intros x _. destruct (decide (x ∈ visited)); lia.
Qed.

Lemma todo_visit (adj : Adjacency) (visited : gset node) (n : node) :
  n ∈ keys adj -> n ∉ visited ->
  todo adj ({[n]} ∪ visited) + (Z.of_nat (out_degree adj n) + 1) <= todo adj visited.
Proof.
  intros Hk Hv. unfold todo. apply sum_over_drop with (v := n); [|done|].
  - intros x _.
    destruct (decide (x ∈ {[n]} ∪ visited)) as [|Hn], (decide (x ∈ visited)); try lia.
    exfalso. apply Hn, elem_of_union. by right.
  - destruct (decide (n ∈ {[n]} ∪ visited)) as [|Hn].
    + destruct (decide (n ∈ visited)); [done|lia].
    + exfalso. apply Hn, elem_of_union. left. by apply elem_of_singleton.
Qed.

(** *** Searches that expand a node once: no path to an unreachable goal *)

Section NoPathVisitedSet.
Variable adj : Adjacency.
Variables start goal : node.
Hypothesis Hclosed : closed adj.
Hypothesis Hstart : start ∈ keys adj.
Hypothesis Hunreach : ~ reach adj start goal.

Lemma reached_not_goal (n : node) : reach adj start n -> n <> goal.
Proof. intros H ->. done. Qed.

Lemma reached_index (n : node) :
  reach adj start n ->
  exists edges, adj_index adj n = Ret edges /\ out_degree adj n = length edges /\
    forall v w, (v, w) ∈ edges -> reach adj start v.
Proof.
  intros H. destruct (in_adj_get adj n) as [edges He]; [by eapply reach_key|].
  exists edges. unfold adj_index. rewrite He. split; [done|].
  split; [by apply out_degree_get|].
  intros v w Hin. eapply reach_step; [exact H|]. by exists edges.
Qed.

Lemma bfs_loop_no_path (fuel : nat) :
  forall queue visited,
    (forall n p, (n, p) ∈ queue -> reach adj start n) ->
    Z.of_nat (length queue) + todo adj visited < Z.of_nat fuel ->
    bfs_loop fuel adj goal queue visited = Ret no_path.
Proof.
  induction fuel as [|fuel IH]; intros queue visited Hq Hm.
  - pose proof (todo_nonneg adj visited). lia.
  - simpl. destruct queue as [|[n path] queue]; [done|].
    assert (reach adj start n) as Hn by (eapply Hq; left).
    assert (forall n' p', (n', p') ∈ queue -> reach adj start n') as Hq'.
    { intros n' p' H. eapply Hq. right. exact H. }
    destruct (decide (n = goal)) as [->|_]; [done|].
    simpl length in Hm.
    destruct (decide (n ∈ visited)) as [Hv|Hv]; [apply IH; [done|lia]|].
    destruct (reached_index n Hn) as (edges & -> & Hdeg & Hedges). simpl.
    pose proof (todo_visit adj visited n (reach_key adj start n Hclosed Hstart Hn) Hv) as Ht.
    apply IH.
    + intros n' p' H. apply elem_of_app in H as [H|H]; [by eapply Hq'|].
      apply list_elem_of_In, in_map_iff in H as ([v w] & [= <- <-] & H).
      apply list_elem_of_In, list_elem_of_filter in H as [_ H]. by eapply Hedges.
    + rewrite length_app, length_map.
      pose proof (length_filter (fun e : node * Z => e.1 ∉ {[n]} ∪ visited) edges). lia.
Qed.

Lemma dfs_loop_no_path (fuel : nat) :
  forall stack visited,
    (forall n p, (n, p) ∈ stack -> reach adj start n) ->
    Z.of_nat (length stack) + todo adj visited < Z.of_nat fuel ->
    dfs_loop fuel adj goal stack visited = Ret no_path.
Proof.
  induction fuel as [|fuel IH]; intros stack visited Hq Hm.
  - pose proof (todo_nonneg adj visited). lia.
  - simpl. destruct stack as [|[n path] stack]; [done|].
    assert (reach adj start n) as Hn by (eapply Hq; left).
    assert (forall n' p', (n', p') ∈ stack -> reach adj start n') as Hq'.
    { intros n' p' H. eapply Hq. right. exact H. }
    destruct (decide (n = goal)) as [->|_]; [done|].
    simpl length in Hm.
    destruct (decide (n ∈ visited)) as [Hv|Hv]; [apply IH; [done|lia]|].
    destruct (reached_index n Hn) as (edges & -> & Hdeg & Hedges). simpl.
    pose proof (todo_visit adj visited n (reach_key adj start n Hclosed Hstart Hn) Hv) as Ht.
    apply IH.
    + intros n' p' H. apply elem_of_app in H as [H|H]; [|by eapply Hq'].
      apply list_elem_of_In in H. apply <- in_rev in H.
      apply in_map_iff in H as ([v w] & [= <- <-] & H).
      apply list_elem_of_In in H. by eapply Hedges.
    + rewrite length_app, length_rev, length_map. lia.
Qed.

Lemma greedy_push_spec (h : heuristic) (path : list node) (c : Z) (edges : list (node * Z)) :
  returns_number h goal ->
  forall pq, exists pq',
    greedy_push h goal path c edges pq = Ret pq' /\
    length pq' = (length pq + length edges)%nat /\
    forall e, e ∈ pq' -> e ∈ pq \/ exists v w, (v, w) ∈ edges /\ e.1.1.2 = v.
Proof.
  intros Hh. induction edges as [|[v w] edges IH]; intros pq; simpl.
  - exists pq. split; [done|]. split; [lia|]. auto.
  - destruct (Hh v) as [hv ->]. simpl.
    destruct (IH (heappush pq (hv, v, path ++ [v], c + w))) as (pq' & -> & Hlen & Hin).
    exists pq'. split; [done|]. split; [unfold heappush in Hlen; simpl in Hlen; lia|].
    intros e He. destruct (Hin e He) as [H|(v' & w' & H & Hv)].
    + unfold heappush in H. apply elem_of_cons in H as [->|H]; [|by left].
      right. exists v, w. split; [left|done].
    + right. exists v', w'. split; [by right|done].
Qed.

Lemma greedy_loop_no_path (h : heuristic) (fuel : nat) :
  returns_number h goal ->
  forall pq visited,
    (forall e, e ∈ pq -> reach adj start e.1.1.2) ->
    Z.of_nat (length pq) + todo adj visited < Z.of_nat fuel ->
    greedy_loop fuel adj h goal pq visited = Ret no_path.
Proof.
  intros Hh. induction fuel as [|fuel IH]; intros pq visited Hq Hm.
  - pose proof (todo_nonneg adj visited). lia.
  - simpl. destruct (heappop greedy_ltb pq) as [[[[[hn n] path] c] pq']|] eqn:Hpop; [|done].
    pose proof (heappop_length _ _ _ _ Hpop) as Hlen.
    assert (reach adj start n) as Hn.
    { apply (Hq (hn, n, path, c)). apply (heappop_in _ _ _ _ _ Hpop). by left. }
    assert (forall e, e ∈ pq' -> reach adj start e.1.1.2) as Hq'.
    { intros e H. apply Hq. apply (heappop_in _ _ _ _ _ Hpop). by right. }
    destruct (decide (n = goal)) as [->|_]; [done|].
    destruct (decide (n ∈ visited)) as [Hv|Hv]; [apply IH; [done|lia]|].
    destruct (reached_index n Hn) as (edges & -> & Hdeg & Hedges). simpl.
    destruct (greedy_push_spec h path c edges Hh pq') as (pq'' & -> & Hlen' & Hin). simpl.
    pose proof (todo_visit adj visited n (reach_key adj start n Hclosed Hstart Hn) Hv) as Ht.
    apply IH; [|lia].
    intros e He. destruct (Hin e He) as [H|(v & w & H & <-)]; [by apply Hq'|].
    by eapply Hedges.
Qed.

End NoPathVisitedSet.

(** *** Routes *)

Lemma route_reach (adj : Adjacency) (s n : node) (path : list node) (c : Z) :
  route adj s n path c -> reach adj s n.
Proof.
  induction 1 as [|n path c v w _ IH He]; [apply rtc_refl|]. by eapply reach_step.
Qed.

Lemma reach_route (adj : Adjacency) (s n : node) :
  reach adj s n -> exists path c, route adj s n path c.
Proof.
  intros H. apply rtc_nsteps in H as [k H]. revert n H.
  induction k as [|k IH]; intros n H.
  - inversion H; subst. eexists _, 0. apply route_start.
  - apply nsteps_inv_r in H as (m & Hm & [w He]).
    destruct (IH m Hm) as (path & c & Hr). exists (path ++ [n]), (c + w).
    by eapply route_step.
Qed.

Lemma route_nonneg (adj : Adjacency) (s n : node) (path : list node) (c : Z) :
  nonneg_weights adj -> route adj s n path c -> 0 <= c.
Proof.
  intros Hnn. induction 1 as [|n path c v w _ IH He]; [lia|].
  pose proof (nonneg_weights_edge adj n v w Hnn He). lia.
Qed.

(** *** The queue of A* *)

Lemma settled_true (visited : gmap node Z) (n : node) (g : Z) :
  settled visited n g = true <-> exists c, visited !! n = Some c /\ c <= g.
Proof.
  unfold settled. destruct (visited !! n) as [c|].
  - rewrite bool_decide_eq_true. split; [eauto|]. by intros (c' & [= <-] & ?).
  - split; [done|]. by intros (c' & ? & _).
Qed.

Lemma settled_false (visited : gmap node Z) (n : node) (g : Z) :
  settled visited n g = false <-> forall c, visited !! n = Some c -> g < c.
Proof.
  unfold settled. destruct (visited !! n) as [c|].
  - rewrite bool_decide_eq_false. split.
    + intros H c' [= <-]. lia.
    + intros H. specialize (H c eq_refl). lia.
  - split; [done|done].
Qed.

Lemma settled_expand (visited : gmap node Z) (n : node) (g : Z) (x : node) (c : Z) :
  settled visited n g = false -> settled visited x c = true ->
  settled (<[n := g]> visited) x c = true.
Proof.
  intros Hn Hx. apply settled_true in Hx as (cx & Hx & Hle). apply settled_true.
  destruct (decide (n = x)) as [->|Hne].
  - rewrite lookup_insert_eq. exists g. split; [done|].
    apply settled_false with (c := cx) in Hn; [lia|done].
  - rewrite lookup_insert_ne by done. eauto.
Qed.

Lemma settled_weaken (visited : gmap node Z) (x : node) (c c' : Z) :
  c <= c' -> settled visited x c = true -> settled visited x c' = true.
Proof.
  intros Hle H. apply settled_true in H as (cx & Hx & ?). apply settled_true.
  exists cx. split; [done|lia].
Qed.

Lemma out_degree_le_edges (adj : Adjacency) (n : node) (edges : list (node * Z)) :
  adj_get adj n = Some edges -> (length edges <= length (all_weights adj))%nat.
Proof.
  intros H. apply adj_get_in in H. unfold all_weights.
  induction adj as [|[k e] adj IH]; [by apply elem_of_nil in H|].
  simpl. rewrite length_app, length_map.
  apply elem_of_cons in H as [[= <- <-]|H]; [lia|]. specialize (IH H). lia.
Qed.

Lemma astar_push_spec (h : heuristic) (goal : node) (path : list node) (g : Z)
    (edges : list (node * Z)) :
  returns_number h goal ->
  forall pq, exists pq',
    astar_push h goal path g edges pq = Ret pq' /\
    length pq' = (length pq + length edges)%nat /\
    (forall e, e ∈ pq' ->
       e ∈ pq \/ exists v w hv, (v, w) ∈ edges /\ h v goal = Ret hv /\
                   e = (g + w + hv, g + w, v, path ++ [v])) /\
    (forall e, e ∈ pq -> e ∈ pq') /\
    (forall v w, (v, w) ∈ edges ->
       exists hv, h v goal = Ret hv /\ (g + w + hv, g + w, v, path ++ [v]) ∈ pq').
Proof.
  intros Hh. induction edges as [|[v w] edges IH]; intros pq; simpl.
  - exists pq. split; [done|]. split; [lia|]. split; [auto|]. split; [auto|].
    intros v w H. by apply elem_of_nil in H.
  - destruct (Hh v) as [hv Hv]. rewrite Hv. simpl.
    destruct (IH (heappush pq (g + w + hv, g + w, v, path ++ [v])))
      as (pq' & -> & Hlen & Hin & Hkeep & Hnew).
    exists pq'. split; [done|]. split; [unfold heappush in Hlen; simpl in Hlen; lia|].
    split; [|split].
    + intros e He. destruct (Hin e He) as [H|(v' & w' & hv' & H & Hv' & ->)].
      * unfold heappush in H. apply elem_of_cons in H as [->|H]; [|by left].
        right. exists v, w, hv. split; [left|done].
      * right. exists v', w', hv'. split; [by right|done].
    + intros e He. apply Hkeep. unfold heappush. by right.
    + intros v' w' H. apply elem_of_cons in H as [[= -> ->]|H].
      * exists hv. split; [done|]. apply Hkeep. unfold heappush. left.
      * by apply Hnew.
Qed.
Section AStarLoop.
Variable adj : Adjacency.
Variable h : heuristic.
Variables start goal : node.
Hypothesis Hclosed : closed adj.
Hypothesis Hstart : start ∈ keys adj.
Hypothesis Hnn : nonneg_weights adj.
Hypothesis Hh : returns_number h goal.

Lemma astar_measure_nonneg (pq : list astar_entry) (visited : gmap node Z) :
  astar_inv adj h start goal pq visited -> 0 <= astar_measure adj pq visited.
Proof.
  intros [_ Hv]. unfold astar_measure.
  assert (0 <= sum_over (slack (astar_bound adj) visited) (keys adj)); [|nia].
  apply sum_over_nonneg. intros x _. unfold slack, astar_bound.
  pose proof (max_weight_nonneg adj).
  destruct (visited !! x) as [c|] eqn:E; [by eapply Hv|nia].
Qed.

Lemma astar_expand_drop (visited : gmap node Z) (f g : Z) (n : node) (path : list node) :
  astar_entry_inv adj h start goal visited (f, g, n, path) ->
  settled visited n g = false ->
  n ∈ keys adj /\ g + 1 <= slack (astar_bound adj) visited n /\
  exists pre, path = pre ++ [n] /\ NoDup (pre ++ [n]) /\
    (forall x, x ∈ pre -> x ∈ keys adj /\ settled visited x g = true) /\
    g <= max_weight adj * Z.of_nat (length pre).
Proof.
  intros (Hr & Hg & _ & pre & -> & Hnd & Hpre & Hle) Hs.
  assert (n ∈ keys adj) as Hk by (eapply reach_key; eauto using route_reach).
  split; [done|].
  assert (n ∉ pre) as Hn.
  { intros Hin. destruct (Hpre n Hin) as [_ H]. congruence. }
  assert (NoDup (pre ++ [n])) as Hnd'.
  { apply NoDup_app. split; [done|]. split; [|apply NoDup_singleton].
    intros x Hx Hx'. apply list_elem_of_singleton in Hx' as ->. done. }
  split; [|exists pre; done].
  assert (length (pre ++ [n]) <= length (keys adj))%nat as Hlen.
  { apply submseteq_length, NoDup_submseteq; [done|].
    intros x Hx. apply elem_of_app in Hx as [Hx|Hx]; [by apply Hpre|].
    by apply list_elem_of_singleton in Hx as ->. }
  rewrite length_app in Hlen. simpl in Hlen.
  pose proof (max_weight_nonneg adj). unfold slack, astar_bound.
  destruct (visited !! n) as [c|] eqn:E.
  - apply settled_false with (c := c) in Hs; [lia|done].
  - nia.
Qed.

(** One turn of the loop on an entry that is expanded. *)
Lemma astar_expand (pq pq' : list astar_entry) (visited : gmap node Z)
    (f g : Z) (n : node) (path : list node) :
  astar_inv adj h start goal pq visited ->
  heappop astar_ltb pq = Some ((f, g, n, path), pq') ->
  settled visited n g = false ->
  exists edges pq'',
    adj_get adj n = Some edges /\
    astar_push h goal path g edges pq' = Ret pq'' /\
    astar_inv adj h start goal pq'' (<[n := g]> visited) /\
    astar_measure adj pq'' (<[n := g]> visited) < astar_measure adj pq visited /\
    (forall e, e ∈ pq' -> e ∈ pq'') /\
    (forall v w, (v, w) ∈ edges ->
       exists hv, h v goal = Ret hv /\ (g + w + hv, g + w, v, path ++ [v]) ∈ pq'').
Proof.
  intros [Hq Hv] Hpop Hs.
  pose proof (heappop_length _ _ _ _ Hpop) as Hlen.
  assert ((f, g, n, path) ∈ pq) as Hin by (apply (heappop_in _ _ _ _ _ Hpop); by left).
  pose proof (Hq _ Hin) as He.
  destruct (astar_expand_drop visited f g n path He Hs)
    as (Hk & Hdrop & pre & -> & Hnd & Hpre & Hle).
  destruct He as (Hr & Hg & _).
  destruct (in_adj_get adj n Hk) as [edges Hedges]. exists edges.
  destruct (astar_push_spec h goal (pre ++ [n]) g edges Hh pq')
    as (pq'' & Hpush & Hlen' & Hfrom & Hkeep & Hnew).
  exists pq''. split; [done|]. split; [done|]. split; [|split; [|split; done]].
  - split.
    + intros e He. destruct (Hfrom e He) as [H|(v & w & hv & H & Hhv & ->)].
      * assert (e ∈ pq) as H' by (apply (heappop_in _ _ _ _ _ Hpop); by right).
        specialize (Hq e H'). destruct e as [[[f' g'] n'] path'].
        destruct Hq as (Hr' & Hg' & Hh' & pre' & -> & Hnd' & Hpre' & Hle').
        split; [done|]. split; [done|]. split; [done|].
        exists pre'. split; [done|]. split; [done|]. split; [|done].
        intros x Hx. destruct (Hpre' x Hx). split; [done|]. by apply settled_expand.
      * assert (edge adj n v w) as Hedge by (exists edges; done).
        pose proof (nonneg_weights_edge adj n v w Hnn Hedge) as Hw.
        split; [by eapply route_step|]. split; [lia|].
        split; [rewrite Hhv; f_equal; lia|].
        exists (pre ++ [n]). split; [done|]. split; [done|]. split.
        -- intros x Hx. apply elem_of_app in Hx as [Hx|Hx].
           ++ destruct (Hpre x Hx). split; [done|].
              apply settled_expand; [done|]. eapply settled_weaken; [|done]. lia.
           ++ apply list_elem_of_singleton in Hx as ->. split; [done|].
              apply settled_true. exists g. rewrite lookup_insert_eq. split; [done|lia].
        -- rewrite length_app. simpl. nia.
    + intros v c. destruct (decide (n = v)) as [->|].
      * rewrite lookup_insert_eq. intros [= <-]. done.
      * rewrite lookup_insert_ne by done. apply Hv.
  - pose proof (slack_insert_drop (astar_bound adj) (keys adj) visited n g Hk Hdrop).
    pose proof (out_degree_le_edges adj n edges Hedges).
    unfold astar_measure. nia.
Qed.

(** One turn of the loop on an entry that is skipped. *)
Lemma astar_skip (pq pq' : list astar_entry) (visited : gmap node Z) (e : astar_entry) :
  astar_inv adj h start goal pq visited ->
  heappop astar_ltb pq = Some (e, pq') ->
  astar_inv adj h start goal pq' visited /\
  astar_measure adj pq' visited < astar_measure adj pq visited.
Proof.
  intros [Hq Hv] Hpop. pose proof (heappop_length _ _ _ _ Hpop) as Hlen. split.
  - split; [|done]. intros e' H. apply Hq. apply (heappop_in _ _ _ _ _ Hpop). by right.
  - unfold astar_measure. lia.
Qed.

Lemma a_star_loop_returns (fuel : nat) :
  forall pq visited,
    astar_inv adj h start goal pq visited ->
    astar_measure adj pq visited < Z.of_nat fuel ->
    exists r, a_star_loop fuel adj h goal pq visited = Ret r /\
      (r = no_path \/ exists path g, r = (Some path, Fin g) /\ route adj start goal path g).
Proof.
  induction fuel as [|fuel IH]; intros pq visited Hi Hm.
  - pose proof (astar_measure_nonneg pq visited Hi). lia.
  - simpl. destruct (heappop astar_ltb pq) as [[[[[f g] n] path] pq']|] eqn:Hpop.
    2:{ exists no_path. auto. }
    destruct (decide (n = goal)) as [->|Hng].
    { exists (Some path, Fin g). split; [done|]. right. exists path, g. split; [done|].
      destruct Hi as [Hq _]. apply (Hq (f, g, goal, path)).
      apply (heappop_in _ _ _ _ _ Hpop). by left. }
    destruct (settled visited n g) eqn:Hs.
    + destruct (astar_skip pq pq' visited _ Hi Hpop) as [Hi' Hm']. apply IH; [done|lia].
    + destruct (astar_expand pq pq' visited f g n path Hi Hpop Hs)
        as (edges & pq'' & Hedges & Hpush & Hi' & Hm' & _).
      unfold adj_index. rewrite Hedges. simpl. rewrite Hpush. simpl.
      apply IH; [done|lia].
Qed.

Lemma a_star_start_inv (h0 : Z) :
  h start goal = Ret h0 ->
  astar_inv adj h start goal [(h0, 0, start, [start])] ∅ /\
  astar_measure adj [(h0, 0, start, [start])] ∅ < Z.of_nat (astar_fuel adj).
Proof.
  intros H0. pose proof (max_weight_nonneg adj) as HM. split.
  - split; [|intros v c; by rewrite lookup_empty].
    intros e He. apply list_elem_of_singleton in He as ->.
    split; [apply route_start|]. split; [lia|]. split; [rewrite H0; f_equal; lia|].
    exists []. split; [done|]. split; [apply NoDup_nil_2|]. split; [|simpl; lia].
    intros x Hx. by apply elem_of_nil in Hx.
  - unfold astar_measure, astar_fuel.
    pose proof (sum_over_bounds (slack (astar_bound adj) ∅) (keys adj)
                  (astar_bound adj) (astar_bound adj)) as Hb.
    assert (sum_over (slack (astar_bound adj) ∅) (keys adj)
            <= astar_bound adj * Z.of_nat (length (keys adj))) as Hs.
    { apply Hb. intros x _. unfold slack. rewrite lookup_empty. lia. }
    assert (0 <= astar_bound adj * Z.of_nat (length (keys adj))) by (unfold astar_bound; nia).
    simpl length. nia.
Qed.

Lemma a_star_returns (fuel : nat) :
  (astar_fuel adj <= fuel)%nat ->
  exists r, a_star fuel adj start goal h = Ret r /\
    (r = no_path \/ exists path g, r = (Some path, Fin g) /\ route adj start goal path g).
Proof.
  intros Hf. unfold a_star. destruct (Hh start) as [h0 H0]. rewrite H0. simpl.
  destruct (a_star_start_inv h0 H0) as [Hi Hm]. apply a_star_loop_returns; [done|lia].
Qed.

End AStarLoop.

(** *** Dijkstra is A* with the zero heuristic *)

Lemma heappop_map {A B : Type} (lt1 : A -> A -> bool) (lt2 : B -> B -> bool) (f : A -> B)
    (h : list A) :
  (forall a b, lt2 (f a) (f b) = lt1 a b) ->
  heappop lt2 (map f h) =
    match heappop lt1 h with
    | Some (m, r) => Some (f m, map f r)
    | None => None
    end.
Proof.
  intros Hlt. induction h as [|x h IH]; simpl; [done|].
  rewrite IH. destruct (heappop lt1 h) as [[m r]|]; [|done].
  rewrite Hlt. by destruct (lt1 m x).
Qed.

Lemma astar_ltb_as_astar_entry (a b : dij_entry) :
  astar_ltb (as_astar_entry a) (as_astar_entry b) = dij_ltb a b.
Proof.
  destruct a as [[c1 n1] p1], b as [[c2 n2] p2]. unfold astar_ltb, dij_ltb, lex_ltb. simpl.
  repeat case_bool_decide; done.
Qed.

Lemma astar_push_zero (goal : node) (path : list node) (c : Z) (edges : list (node * Z)) :
  forall pq : list dij_entry,
    astar_push zero_heuristic goal path c edges (map as_astar_entry pq) =
    Ret (map as_astar_entry
           (foldl (fun pq (e : node * Z) => heappush pq (c + e.2, e.1, path ++ [e.1])) pq edges)).
Proof.
  induction edges as [|[v w] edges IH]; intros pq; simpl; [done|].
  rewrite Z.add_0_r. apply (IH (heappush pq (c + w, v, path ++ [v]))).
Qed.

Lemma dijkstra_loop_as_a_star (adj : Adjacency) (goal : node) (fuel : nat) :
  forall pq visited,
    dijkstra_loop fuel adj goal pq visited =
    a_star_loop fuel adj zero_heuristic goal (map as_astar_entry pq) visited.
Proof.
  induction fuel as [|fuel IH]; intros pq visited; simpl; [done|].
  rewrite (heappop_map dij_ltb astar_ltb as_astar_entry pq astar_ltb_as_astar_entry).
  destruct (heappop dij_ltb pq) as [[[[c n] path] pq']|]; [|done]. simpl.
  destruct (decide (n = goal)); [done|].
  destruct (settled visited n c); [apply IH|].
  unfold adj_index. destruct (adj_get adj n) as [edges|]; [|done]. simpl.
  rewrite astar_push_zero. simpl. apply IH.
Qed.

Lemma dijkstra_as_a_star (fuel : nat) (adj : Adjacency) (start goal : node) :
  dijkstra fuel adj start goal = a_star fuel adj start goal zero_heuristic.
Proof. unfold dijkstra, a_star. simpl. apply dijkstra_loop_as_a_star. Qed.

(** *** Bellman-Ford: no path to an unreachable goal *)

Lemma bf_init_lookup (l : list node) (d0 : gmap node cost) (u : node) :
  foldl (fun d u => <[u := Inf]> d) d0 l !! u = if decide (u ∈ l) then Some Inf else d0 !! u.
Proof.
  revert d0. induction l as [|x l IH]; intros d0; simpl.
  - destruct (decide (u ∈ [])) as [H|]; [by apply elem_of_nil in H|done].
  - rewrite IH. destruct (decide (u ∈ l)) as [Hl|Hl].
    + destruct (decide (u ∈ x :: l)) as [|Hn]; [done|]. exfalso. apply Hn. by right.
    + destruct (decide (x = u)) as [->|Hne].
      * rewrite lookup_insert_eq. destruct (decide (u ∈ u :: l)) as [|Hn]; [done|].
        exfalso. apply Hn. left.
      * rewrite lookup_insert_ne by done.
        destruct (decide (u ∈ x :: l)) as [Hin|]; [|done].
        apply elem_of_cons in Hin as [->|]; done.
Qed.

Section BellmanFordNoPath.
Variable adj : Adjacency.
Variables start goal : node.
Hypothesis Hdict : NoDup (keys adj).
Hypothesis Hclosed : closed adj.
Hypothesis Hgoal : goal ∈ keys adj.
Hypothesis Hunreach : ~ reach adj start goal.

Lemma bf_relax_edges_spec (u : node) (edges : list (node * Z)) :
  u ∈ keys adj -> (forall v w, (v, w) ∈ edges -> edge adj u v w) ->
  forall dist prev updated,
    (forall x, x ∈ keys adj -> is_Some (dist !! x)) ->
    (forall v c, dist !! v = Some (Fin c) -> reach adj start v) ->
    exists dist' prev' updated',
      bf_relax_edges u edges (dist, prev, updated) = Ret (dist', prev', updated') /\
      (forall x, x ∈ keys adj -> is_Some (dist' !! x)) /\
      (forall v c, dist' !! v = Some (Fin c) -> reach adj start v).
Proof.
  intros Hu. induction edges as [|[v w] edges IH]; intros He dist prev updated Hd Hfin.
  - exists dist, prev, updated. done.
  - assert (forall v' w', (v', w') ∈ edges -> edge adj u v' w') as He'.
    { intros v' w' H. apply He. by right. }
    assert (edge adj u v w) as Hedge by (apply He; left).
    simpl. unfold dist_index.
    destruct (Hd u Hu) as [du Hdu]. rewrite Hdu. simpl.
    destruct (Hd v (Hclosed _ _ _ Hedge)) as [dv Hdv]. rewrite Hdv. simpl.
    destruct (cost_ltb (cost_add du w) dv) eqn:Hlt; [|by apply IH].
    apply IH; [done| |].
    + intros x Hx. destruct (decide (v = x)) as [->|].
      * rewrite lookup_insert_eq. eauto.
      * rewrite lookup_insert_ne by done. by apply Hd.
    + intros x c. destruct (decide (v = x)) as [->|].
      * rewrite lookup_insert_eq. intros Hc.
        destruct du as [cu|]; [|done].
        eapply reach_step; [|exact Hedge]. by eapply Hfin.
      * rewrite lookup_insert_ne by done. apply Hfin.
Qed.

Lemma bf_pass_spec (items : Adjacency) :
  (forall item, item ∈ items -> item ∈ adj) ->
  forall dist prev updated,
    (forall x, x ∈ keys adj -> is_Some (dist !! x)) ->
    (forall v c, dist !! v = Some (Fin c) -> reach adj start v) ->
    exists dist' prev' updated',
      bf_pass items (dist, prev, updated) = Ret (dist', prev', updated') /\
      (forall x, x ∈ keys adj -> is_Some (dist' !! x)) /\
      (forall v c, dist' !! v = Some (Fin c) -> reach adj start v).
Proof.
  induction items as [|[u edges] items IH]; intros Hsub dist prev updated Hd Hfin.
  - exists dist, prev, updated. done.
  - assert ((u, edges) ∈ adj) as Hin by (apply Hsub; left).
    pose proof (adj_get_unique adj u edges Hdict Hin) as Hget.
    assert (u ∈ keys adj) as Hu.
    { apply list_elem_of_In, in_map_iff. exists (u, edges). split; [done|].
      by apply list_elem_of_In. }
    destruct (bf_relax_edges_spec u edges Hu) with (dist := dist) (prev := prev)
      (updated := updated) as (dist1 & prev1 & upd1 & Hr & Hd1 & Hfin1); [|done|done|].
    { intros v w H. by exists edges. }
    simpl. rewrite Hr. simpl. apply IH; [|done|done].
    intros item H. apply Hsub. by right.
Qed.

Lemma bf_rounds_spec (rounds : nat) :
  forall dist prev,
    (forall x, x ∈ keys adj -> is_Some (dist !! x)) ->
    (forall v c, dist !! v = Some (Fin c) -> reach adj start v) ->
    exists dist' prev',
      bf_rounds rounds adj dist prev = Ret (dist', prev') /\
      (forall x, x ∈ keys adj -> is_Some (dist' !! x)) /\
      (forall v c, dist' !! v = Some (Fin c) -> reach adj start v).
Proof.
  induction rounds as [|rounds IH]; intros dist prev Hd Hfin.
  - exists dist, prev. done.
  - simpl.
    destruct (bf_pass_spec adj (fun _ H => H) dist prev false Hd Hfin)
      as (dist1 & prev1 & upd1 & -> & Hd1 & Hfin1).
    simpl. destruct upd1; [by apply IH|]. exists dist1, prev1. done.
Qed.

Lemma bellman_ford_no_path (fuel : nat) :
  bellman_ford fuel adj start goal = Ret no_path.
Proof.
  unfold bellman_ford.
  destruct (bf_rounds_spec (length adj - 1) (<[start := Fin 0]> (bf_init adj)) ∅)
    as (dist & prev & -> & Hd & Hfin).
  - intros x Hx. destruct (decide (start = x)) as [->|].
    + rewrite lookup_insert_eq. eauto.
    + rewrite lookup_insert_ne by done. unfold bf_init. rewrite bf_init_lookup.
      destruct (decide (x ∈ keys adj)); [eauto|done].
  - intros v c. destruct (decide (start = v)) as [->|].
    + intros _. apply rtc_refl.
    + rewrite lookup_insert_ne by done. unfold bf_init. rewrite bf_init_lookup.
      destruct (decide (v ∈ keys adj)); [done|]. by rewrite lookup_empty.
  - simpl. unfold dist_index. destruct (Hd goal Hgoal) as [dg Hdg]. rewrite Hdg. simpl.
    destruct dg as [c|]; [|done]. exfalso. apply Hunreach. by eapply Hfin.
Qed.

End BellmanFordNoPath.

(** *** Bidirectional breadth-first search across weak components *)

Section BidirectionalNoPath.
Variable adj : Adjacency.
Hypothesis Hclosed : closed adj.

Lemma bidi_scan_spec (side : bool) (r r' : node) (n : node) (edges : list (node * Z)) :
  r ∈ keys adj ->
  (forall x, reach adj r x -> reach adj r' x -> False) ->
  reach adj r n ->
  (forall v w, (v, w) ∈ edges -> edge adj n v w) ->
  forall mine other q,
    is_Some (mine !! n) ->
    (forall x, is_Some (mine !! x) -> reach adj r x) ->
    (forall x, is_Some (other !! x) -> reach adj r' x) ->
    (forall x, x ∈ q -> is_Some (mine !! x)) ->
    exists mine' q',
      bidi_scan side n edges mine other q = Ret (inr (mine', q')) /\
      (forall x, is_Some (mine' !! x) -> reach adj r x) /\
      (forall x, x ∈ q' -> is_Some (mine' !! x)) /\
      Z.of_nat (length q') - 2 * known (keys adj) mine'
        <= Z.of_nat (length q) - 2 * known (keys adj) mine.
Proof.
  intros Hr Hdisj Hn. induction edges as [|[v w] edges IH];
    intros He mine other q Hmn Hmine Hother Hq.
  - exists mine, q. split; [done|]. split; [done|]. split; [done|lia].
  - assert (forall v' w', (v', w') ∈ edges -> edge adj n v' w') as He'.
    { intros v' w' H. apply He. by right. }
    assert (edge adj n v w) as Hedge by (apply He; left).
    simpl. destruct (mine !! v) as [pv|] eqn:Hv; [by apply IH|].
    unfold paths_index. destruct Hmn as [pn Hpn]. rewrite Hpn. simpl.
    assert (reach adj r v) as Hrv by (eapply reach_step; eauto).
    destruct (other !! v) as [po|] eqn:Ho.
    { exfalso. apply (Hdisj v Hrv). apply Hother. eauto. }
    destruct (IH He' (<[v := pn ++ [v]]> mine) other (q ++ [v]))
      as (mine' & q' & -> & Hmine' & Hq' & Hm).
    + destruct (decide (v = n)) as [->|]; [rewrite lookup_insert_eq; eauto|].
      rewrite lookup_insert_ne by done. eauto.
    + intros x. destruct (decide (v = x)) as [->|]; [done|].
      rewrite lookup_insert_ne by done. apply Hmine.
    + done.
    + intros x Hx. destruct (decide (v = x)) as [->|]; [rewrite lookup_insert_eq; eauto|].
      rewrite lookup_insert_ne by done. apply Hq.
      apply elem_of_app in Hx as [Hx|Hx]; [done|].
      by apply list_elem_of_singleton in Hx.
    + exists mine', q'. split; [done|]. split; [done|]. split; [done|].
      pose proof (known_insert_new (keys adj) mine v (pn ++ [v])
                    (reach_key adj r v Hclosed Hr Hrv) Hv).
      rewrite length_app in Hm. simpl in Hm. lia.
Qed.

Variables start goal : node.
Hypothesis Hstart : start ∈ keys adj.
Hypothesis Hgoal : goal ∈ keys adj.
Hypothesis Hapart : ~ wconn adj start goal.

Lemma apart_disjoint (x : node) : reach adj start x -> reach adj goal x -> False.
Proof.
  intros H1 H2. apply Hapart. unfold wconn. etrans; [by apply reach_wconn|].
  by apply wconn_sym, reach_wconn.
Qed.

Lemma bidi_loop_no_path (fuel : nat) :
  forall front back q_front q_back,
    (forall x, is_Some (front !! x) -> reach adj start x) ->
    (forall x, is_Some (back !! x) -> reach adj goal x) ->
    (forall x, x ∈ q_front -> is_Some (front !! x)) ->
    (forall x, x ∈ q_back -> is_Some (back !! x)) ->
    Z.of_nat (length q_front) + 2 * (Z.of_nat (length (keys adj)) - known (keys adj) front)
      < Z.of_nat fuel ->
    bidi_loop fuel adj front back q_front q_back = Ret no_path.
Proof.
  induction fuel as [|fuel IH]; intros front back q_front q_back Hf Hb Hqf Hqb Hm.
  - pose proof (known_bounds (keys adj) front). lia.
  - simpl. destruct q_front as [|n q_front]; [done|]. destruct q_back as [|m q_back]; [done|].
    assert (reach adj start n) as Hn by (apply Hf, Hqf; left).
    assert (reach adj goal m) as Hm' by (apply Hb, Hqb; left).
    destruct (in_adj_get adj n (reach_key adj start n Hclosed Hstart Hn)) as [en Hen].
    destruct (in_adj_get adj m (reach_key adj goal m Hclosed Hgoal Hm')) as [em Hem].
    unfold adj_index. rewrite Hen. simpl.
    destruct (bidi_scan_spec true start goal n en Hstart apart_disjoint Hn)
      with (mine := front) (other := back) (q := q_front)
      as (front' & q_front' & -> & Hf' & Hqf' & Hk); auto.
    { intros v w H. by exists en. }
    { apply Hqf. left. }
    { intros x Hx. apply Hqf. by right. }
    simpl. rewrite Hem. simpl.
    destruct (bidi_scan_spec false goal start m em Hgoal
                (fun x H1 H2 => apart_disjoint x H2 H1) Hm')
      with (mine := back) (other := front') (q := q_back)
      as (back' & q_back' & -> & Hb' & Hqb' & _); auto.
    { intros v w H. by exists em. }
    { apply Hqb. left. }
    { intros x Hx. apply Hqb. by right. }
    simpl. apply IH; auto. simpl length in Hm. lia.
Qed.

Lemma bidirectional_bfs_no_path (fuel : nat) :
  (2 + 2 * length (keys adj) <= fuel)%nat ->
  bidirectional_bfs fuel adj start goal = Ret no_path.
Proof.
  intros Hfuel. unfold bidirectional_bfs.
  destruct (decide (start = goal)) as [->|Hne]; [exfalso; apply Hapart, rtc_refl|].
  apply bidi_loop_no_path.
  - intros x [p Hp]. apply lookup_singleton_Some in Hp as [<- _]. apply rtc_refl.
  - intros x [p Hp]. apply lookup_singleton_Some in Hp as [<- _]. apply rtc_refl.
  - intros x Hx. apply list_elem_of_singleton in Hx as ->. rewrite lookup_singleton_eq. eauto.
  - intros x Hx. apply list_elem_of_singleton in Hx as ->. rewrite lookup_singleton_eq. eauto.
  - pose proof (known_bounds (keys adj) ({[start := [start]]} : gmap node (list node))).
    simpl length. lia.
Qed.

End BidirectionalNoPath.

(** *** The Weak-Component Map *)

Lemma foldl_invariant {A B : Type} (P : A -> Prop) (f : A -> B -> A) (l : list B) (a : A) :
  P a -> (forall a b, b ∈ l -> P a -> P (f a b)) -> P (foldl f a l).
Proof.
  revert a. induction l as [|x l IH]; intros a Ha Hf; simpl; [done|].
  apply IH; [apply Hf; [left|done]|]. intros a' b Hb. apply Hf. by right.
Qed.

Lemma und_append_sound (adj : Adjacency) (und : gmap node (list node)) (a b : node) :
  link adj a b ->
  (forall x ys y, und !! x = Some ys -> y ∈ ys -> link adj x y) ->
  forall x ys y, und_append und a b !! x = Some ys -> y ∈ ys -> link adj x y.
Proof.
  intros Hab Hu x ys y. unfold und_append.
  destruct (decide (a = x)) as [->|Hne].
  - rewrite lookup_insert_eq. intros [= <-] Hy.
    apply elem_of_app in Hy as [Hy|Hy].
    + destruct (und !! x) as [l|] eqn:E; [by eapply Hu|by apply elem_of_nil in Hy].
    + by apply list_elem_of_singleton in Hy as ->.
  - rewrite lookup_insert_ne by done. apply Hu.
Qed.

Lemma undirected_sound (adj : Adjacency) (x y : node) (ys : list node) :
  NoDup (keys adj) -> undirected adj !! x = Some ys -> y ∈ ys -> link adj x y.
Proof.
  intros Hnd. revert x ys y. unfold undirected.
  apply (foldl_invariant (fun und => forall x ys y, und !! x = Some ys -> y ∈ ys -> link adj x y)).
  - intros x ys y. by rewrite lookup_empty.
  - intros und [u edges] Hitem Hu. simpl.
    pose proof (adj_get_unique adj u edges Hnd Hitem) as Hget.
    apply foldl_invariant; [done|].
    intros und' [v w] Hin Hu'. simpl.
    assert (step adj u v) as Hs by (exists w, edges; done).
    apply und_append_sound; [by right|]. apply und_append_sound; [by left|done].
Qed.

Lemma link_keys (adj : Adjacency) (x y : node) :
  closed adj -> link adj x y -> y ∈ keys adj.
Proof.
  intros Hc [[w H]|[w H]]; [by eapply Hc|by eapply edge_source_in].
Qed.

Section WeakComponents.
Variable adj : Adjacency.
Hypothesis Hdict : NoDup (keys adj).
Hypothesis Hclosed : closed adj.

Lemma wc_mark_spec (cid : Z) (x : node) (ys : list node) :
  (forall y, y ∈ ys -> link adj x y) ->
  forall comp q,
    comp !! x = Some cid -> wc_inv adj cid comp ->
    (forall y, y ∈ q -> comp !! y = Some cid) ->
    exists comp' q',
      wc_mark cid ys comp q = (comp', q') /\
      wc_inv adj cid comp' /\ comp ⊆ comp' /\
      (forall y, y ∈ q' -> comp' !! y = Some cid) /\
      Z.of_nat (length q') - 2 * known (keys adj) comp'
        <= Z.of_nat (length q) - 2 * known (keys adj) comp.
Proof.
  induction ys as [|y ys IH]; intros Hys comp q Hx Hi Hq; simpl.
  - exists comp, q. split; [done|]. split; [done|]. split; [done|]. split; [done|lia].
  - assert (forall y', y' ∈ ys -> link adj x y') as Hys' by (intros; apply Hys; by right).
    assert (link adj x y) as Hxy by (apply Hys; left).
    destruct (comp !! y) as [cy|] eqn:Hy; [by apply IH|].
    destruct (IH Hys' (<[y := cid]> comp) (q ++ [y])) as (comp' & q' & -> & Hi' & Hsub & Hq' & Hm).
    + rewrite lookup_insert_ne; [done|]. intros ->. congruence.
    + destruct Hi as [Hconn Hmax]. split.
      * intros a b c.
        destruct (decide (y = a)) as [<-|Ha], (decide (y = b)) as [<-|Hb];
          rewrite ?lookup_insert_eq, ?lookup_insert_ne by done.
        -- intros _ _. apply rtc_refl.
        -- intros [= <-] Hb'. apply wconn_sym. unfold wconn. etrans; [|by apply rtc_once].
           by apply (Hconn b x cid).
        -- intros Ha' [= <-]. unfold wconn. etrans; [|by apply rtc_once].
           by apply (Hconn a x cid).
        -- apply Hconn.
      * intros a c. destruct (decide (y = a)) as [<-|].
        -- rewrite lookup_insert_eq. intros [= <-]. lia.
        -- rewrite lookup_insert_ne by done. apply Hmax.
    + intros z Hz. apply elem_of_app in Hz as [Hz|Hz].
      * rewrite lookup_insert_ne; [by apply Hq|]. intros ->. specialize (Hq z Hz). congruence.
      * apply list_elem_of_singleton in Hz as ->. by rewrite lookup_insert_eq.
    + exists comp', q'. split; [done|]. split; [done|]. split; [|split; [done|]].
      * etrans; [|exact Hsub]. by apply insert_subseteq.
      * pose proof (known_insert_new (keys adj) comp y cid (link_keys adj x y Hclosed Hxy) Hy).
        rewrite length_app in Hm. simpl in Hm. lia.
Qed.

Lemma wc_flood_spec (cid : Z) (fuel : nat) :
  forall q comp,
    wc_inv adj cid comp ->
    (forall y, y ∈ q -> comp !! y = Some cid) ->
    Z.of_nat (length q) + 2 * (Z.of_nat (length (keys adj)) - known (keys adj) comp)
      < Z.of_nat fuel ->
    exists comp', wc_flood fuel (undirected adj) cid q comp = Ret comp' /\
      wc_inv adj cid comp' /\ comp ⊆ comp'.
Proof.
  induction fuel as [|fuel IH]; intros q comp Hi Hq Hm.
  - pose proof (known_bounds (keys adj) comp). lia.
  - simpl. destruct q as [|x q]; [by exists comp|].
    destruct (wc_mark_spec cid x (default [] (undirected adj !! x))) with (comp := comp) (q := q)
      as (comp' & q' & -> & Hi' & Hsub & Hq' & Hk).
    + intros y Hy. destruct (undirected adj !! x) as [ys|] eqn:E; [|by apply elem_of_nil in Hy].
      by eapply undirected_sound.
    + apply Hq. left.
    + done.
    + intros y Hy. apply Hq. by right.
    + destruct (IH q' comp' Hi' Hq') as (comp'' & -> & Hi'' & Hsub'').
      * simpl length in Hm. lia.
      * exists comp''. split; [done|]. split; [done|]. by etrans.
Qed.

Lemma wc_components_spec (fuel : nat) (starts : list node) :
  (2 + 2 * length (keys adj) <= fuel)%nat ->
  forall cid comp,
    wc_inv adj cid comp ->
    exists comp' cid', wc_components fuel (undirected adj) starts cid comp = Ret comp' /\
      wc_inv adj cid' comp' /\ comp ⊆ comp' /\
      forall s, s ∈ starts -> is_Some (comp' !! s).
Proof.
  intros Hfuel. induction starts as [|s starts IH]; intros cid comp Hi; simpl.
  - exists comp, cid. split; [done|]. split; [done|]. split; [done|].
    intros s H. by apply elem_of_nil in H.
  - destruct (comp !! s) as [c|] eqn:Hs.
    + destruct (IH cid comp Hi) as (comp' & cid' & -> & Hi' & Hsub & Hall).
      exists comp', cid'. split; [done|]. split; [done|]. split; [done|].
      intros s' H. apply elem_of_cons in H as [->|H]; [|by apply Hall].
      exists c. by eapply lookup_weaken.
    + destruct (wc_flood_spec (cid + 1) fuel [s] (<[s := cid + 1]> comp))
        as (comp1 & -> & Hi1 & Hsub1).
      * destruct Hi as [Hconn Hmax]. split.
        -- intros a b c.
           destruct (decide (s = a)) as [<-|Ha], (decide (s = b)) as [<-|Hb];
             rewrite ?lookup_insert_eq, ?lookup_insert_ne by done.
           ++ intros _ _. apply rtc_refl.
           ++ intros [= <-] Hb'. specialize (Hmax b _ Hb'). lia.
           ++ intros Ha' [= <-]. specialize (Hmax a _ Ha'). lia.
           ++ apply Hconn.
        -- intros a c. destruct (decide (s = a)) as [<-|].
           ++ rewrite lookup_insert_eq. intros [= <-]. lia.
           ++ rewrite lookup_insert_ne by done. intros H. specialize (Hmax a c H). lia.
      * intros y Hy. apply list_elem_of_singleton in Hy as ->. by rewrite lookup_insert_eq.
      * pose proof (known_bounds (keys adj) (<[s := cid + 1]> comp)). simpl length. lia.
      * simpl. destruct (IH (cid + 1) comp1 Hi1) as (comp' & cid' & -> & Hi' & Hsub & Hall).
        exists comp', cid'. split; [done|]. split; [done|]. split.
        -- etrans; [|exact Hsub]. etrans; [|exact Hsub1]. by apply insert_subseteq.
        -- intros s' H. apply elem_of_cons in H as [->|H]; [|by apply Hall].
           exists (cid + 1). eapply lookup_weaken; [|exact Hsub].
           eapply lookup_weaken; [|exact Hsub1]. by rewrite lookup_insert_eq.
Qed.

Lemma build_weak_components_apart (fuel : nat) (s g : node) :
  (2 + 2 * length (keys adj) <= fuel)%nat ->
  s ∈ keys adj -> g ∈ keys adj -> ~ wconn adj s g ->
  exists comp, _build_weak_components fuel adj = Ret comp /\
    comp !! s <> comp !! g /\ is_Some (comp !! s) /\ is_Some (comp !! g).
Proof.
  intros Hfuel Hs Hg Hapart. unfold _build_weak_components.
  destruct (wc_components_spec fuel (keys adj) Hfuel 0 ∅)
    as (comp & cid & -> & [Hconn _] & _ & Hall).
  { split; intros a; intros; by rewrite lookup_empty in *. }
  exists comp. split; [done|].
  destruct (Hall s Hs) as [cs Hcs], (Hall g Hg) as [cg Hcg].
  split; [|split; eauto]. rewrite Hcs, Hcg. intros [= ->].
  apply Hapart. by eapply Hconn.
Qed.

End WeakComponents.

(** *** Unreachability agreement *)

Lemma a_star_no_path (adj : Adjacency) (h : heuristic) (s g : node) (fuel : nat) :
  closed adj -> s ∈ keys adj -> nonneg_weights adj -> returns_number h g ->
  ~ reach adj s g -> (astar_fuel adj <= fuel)%nat ->
  a_star fuel adj s g h = Ret no_path.
Proof.
  intros Hc Hs Hnn Hh Hu Hf.
  destruct (a_star_returns adj h s g Hc Hs Hnn Hh fuel Hf) as (r & -> & [->|H]); [done|].
  destruct H as (path & c & _ & Hr). exfalso. apply Hu. by eapply route_reach.
Qed.

Lemma zero_returns_number (g : node) : returns_number zero_heuristic g.
Proof. intros u. by exists 0. Qed.

Lemma dijkstra_negative_loop (fuel : nat) :
  forall (n : Z) (p : list node), 1 <= n ->
    dijkstra_loop fuel negative_loop_pair 1 [(- n, 0, p)] {[0 := - (n - 1)]} = Timeout.
Proof.
  induction fuel as [|fuel IH]; intros n p Hn; [done|].
  simpl. unfold settled. rewrite lookup_singleton_eq.
  rewrite bool_decide_eq_false_2 by lia. simpl.
  rewrite insert_singleton_eq. unfold heappush.
  replace (- n + -1) with (- (n + 1)) by lia.
  specialize (IH (n + 1) (p ++ [0]) ltac:(lia)).
  replace (n + 1 - 1) with n in IH by lia. exact IH.
Qed.

Lemma negative_loop_pair_apart : ~ wconn negative_loop_pair 0 1.
Proof.
  intros H. apply (wconn_colour (fun x => bool_decide (x = 0))) in H; [|done].
  vm_compute in H. discriminate.
Qed.

(** C7 (counterexample).  Nodes 0 and 1 of [negative_loop_pair] are in
    different weak components, and [dijkstra] from 0 to 1 goes round the
    loop of weight -1 with an ever smaller cost: with no fuel does it
    return the sentinel. *)
Lemma sentinel_fails_on_negative_loop : ~ sentinel_on_every_graph negative_loop_pair 0 1.
Proof.
  intros H. destruct (H negative_loop_pair_apart) as (_ & _ & [fuel Hd] & _).
  destruct fuel as [|fuel]; [discriminate|].
  unfold dijkstra in Hd. simpl in Hd.
  pose proof (dijkstra_negative_loop fuel 1 [0; 0] ltac:(lia)) as Hl.
  unfold heappush, settled in Hd. rewrite lookup_empty in Hd.
  change (0 + -1) with (- (1)) in Hd. change (- (1 - 1)) with 0 in Hl.
  rewrite insert_empty in Hd.
  pose proof (eq_trans (eq_sym Hl) Hd) as Habsurd. discriminate Habsurd.
Qed.

(** *** Dijkstra and A* return a shortest path *)

Lemma heappop_min {A : Type} (ltb : A -> A -> bool) (key : A -> Z) (h : list A)
    (m : A) (r : list A) :
  (forall a b, ltb a b = true -> key a <= key b) ->
  (forall a b, ltb a b = false -> key b <= key a) ->
  heappop ltb h = Some (m, r) -> forall x, x ∈ h -> key m <= key x.
Proof.
  intros Ht Hf. revert m r. induction h as [|y h IH]; intros m r; simpl; [discriminate|].
  destruct (heappop ltb h) as [[m' r']|] eqn:E.
  - destruct (ltb m' y) eqn:Hlt; intros [= <- <-] x Hx.
    + apply elem_of_cons in Hx as [->|Hx]; [by apply Ht|by eapply IH].
    + apply elem_of_cons in Hx as [->|Hx]; [lia|].
      specialize (IH m' r' eq_refl x Hx). specialize (Hf _ _ Hlt). lia.
  - intros [= <- <-] x Hx. apply heappop_nil in E as ->.
    apply list_elem_of_singleton in Hx as ->. lia.
Qed.

Lemma astar_ltb_key (a b : astar_entry) :
  (astar_ltb a b = true -> a.1.1.1 <= b.1.1.1) /\
  (astar_ltb a b = false -> b.1.1.1 <= a.1.1.1).
Proof.
  destruct a as [[[f1 g1] n1] p1], b as [[[f2 g2] n2] p2].
  unfold astar_ltb, lex_ltb. simpl. repeat case_bool_decide; split; intros; try lia; done.
Qed.

Section AStarOptimal.
Variable adj : Adjacency.
Variable h : heuristic.
Variables start goal : node.
Hypothesis Hclosed : closed adj.
Hypothesis Hstart : start ∈ keys adj.
Hypothesis Hnn : nonneg_weights adj.
Hypothesis Hadm : admissible adj h goal.

Lemma admissible_returns_number : returns_number h goal.
Proof. intros u. destruct (Hadm u) as (z & Hz & _). eauto. Qed.

(** A path from the start ends at a node already expanded at its cost, or
    goes through a node for which the queue holds an entry that is not
    worse. *)
Lemma astar_frontier (pq : list astar_entry) (visited : gmap node Z)
    (v : node) (p : list node) (c : Z) :
  astar_cover adj start pq visited -> route adj start v p c ->
  settled visited v c = true \/
  exists f g u path prest rest,
    (f, g, u, path) ∈ pq /\ route adj u v prest rest /\ g + rest <= c.
Proof.
  intros [Hs Hk]. induction 1 as [|n path c v w Hr IH He].
  - destruct Hs as [H|(f & g & path & Hin & Hle)]; [by left|].
    right. exists f, g, start, path, [start], 0. split; [done|].
    split; [apply route_start|lia].
  - destruct IH as [Hset|(f & g & u & pth & prest & rest & Hin & Hrest & Hle)].
    + destruct (Hk n v w c He Hset) as [H|(f & g & pth & Hin & Hle)]; [by left|].
      right. exists f, g, v, pth, [v], 0. split; [done|]. split; [apply route_start|lia].
    + right. exists f, g, u, pth, (prest ++ [v]), (rest + w). split; [done|].
      split; [by eapply route_step|lia].
Qed.

Lemma covered_skip (pq pq' : list astar_entry) (visited : gmap node Z)
    (f g : Z) (n : node) (path : list node) (v : node) (c : Z) :
  heappop astar_ltb pq = Some ((f, g, n, path), pq') ->
  settled visited n g = true ->
  covered pq visited v c -> covered pq' visited v c.
Proof.
  intros Hpop Hs [H|(f' & g' & path' & Hin & Hle)]; [by left|].
  apply (heappop_in _ _ _ _ _ Hpop) in Hin as [[= -> -> -> ->]|Hin].
  - left. by eapply settled_weaken.
  - right. eauto.
Qed.

Lemma covered_expand (pq pq' pq'' : list astar_entry) (visited : gmap node Z)
    (f g : Z) (n : node) (path : list node) (v : node) (c : Z) :
  heappop astar_ltb pq = Some ((f, g, n, path), pq') ->
  settled visited n g = false ->
  (forall e, e ∈ pq' -> e ∈ pq'') ->
  covered pq visited v c -> covered pq'' (<[n := g]> visited) v c.
Proof.
  intros Hpop Hs Hkeep [H|(f' & g' & path' & Hin & Hle)].
  - left. by apply settled_expand.
  - apply (heappop_in _ _ _ _ _ Hpop) in Hin as [[= -> -> -> ->]|Hin].
    + left. apply settled_true. exists g. rewrite lookup_insert_eq. done.
    + right. exists f', g', path'. split; [by apply Hkeep|done].
Qed.

Lemma a_star_loop_optimal (p : list node) (C : Z) (fuel : nat) :
  route adj start goal p C ->
  forall pq visited r,
    astar_inv adj h start goal pq visited ->
    astar_cover adj start pq visited ->
    visited !! goal = None ->
    a_star_loop fuel adj h goal pq visited = Ret r ->
    exists path g, r = (Some path, Fin g) /\ route adj start goal path g /\ g <= C.
Proof.
  intros Hroute. induction fuel as [|fuel IH]; intros pq visited r Hi Hc Hg; [discriminate|].
  simpl. destruct (astar_frontier pq visited goal p C Hc Hroute)
    as [Hset|(f' & g' & u & pth & prest & rest & Hin' & Hrest & Hle)].
  { apply settled_true in Hset as (c & Hc' & _). congruence. }
  destruct (heappop astar_ltb pq) as [[[[[f g] n] path] pq']|] eqn:Hpop.
  2:{ apply heappop_nil in Hpop as ->. by apply elem_of_nil in Hin'. }
  destruct (decide (n = goal)) as [->|Hng].
  - intros [= <-]. exists path, g. split; [done|].
    assert ((f, g, goal, path) ∈ pq) as Hin by (apply (heappop_in _ _ _ _ _ Hpop); by left).
    destruct Hi as [Hq _].
    destruct (Hq _ Hin) as (Hr & _ & Hh & _). split; [done|].
    destruct (Hq _ Hin') as (_ & _ & Hh' & _).
    pose proof (heappop_min astar_ltb (fun e => e.1.1.1) pq _ _
                  (fun a b => proj1 (astar_ltb_key a b))
                  (fun a b => proj2 (astar_ltb_key a b)) Hpop _ Hin') as Hmin.
    simpl in Hmin.
    destruct (Hadm goal) as (z & Hz & Hz0 & _). rewrite Hz in Hh. injection Hh as ->.
    destruct (Hadm u) as (zu & Hzu & _ & Hub). rewrite Hzu in Hh'. injection Hh' as ->.
    specialize (Hub _ _ Hrest). lia.
  - destruct (settled visited n g) eqn:Hs.
    + destruct (astar_skip adj h start goal pq pq' visited _ Hi Hpop) as [Hi' _].
      apply IH; [done| |done].
      destruct Hc as [Hc0 Hck]. split; [by eapply covered_skip|].
      intros x v w c He Hx. eapply covered_skip; eauto.
    + destruct (astar_expand adj h start goal Hclosed Hstart Hnn admissible_returns_number
                  pq pq' visited f g n path Hi Hpop Hs)
        as (edges & pq'' & Hedges & Hpush & Hi' & _ & Hkeep & Hnew).
      unfold adj_index. rewrite Hedges. simpl. rewrite Hpush. simpl.
      apply IH; [done| |by rewrite lookup_insert_ne].
      destruct Hc as [Hc0 Hck]. split; [by eapply covered_expand|].
      intros x v w c He Hx.
      destruct (decide (x = n)) as [->|Hxn].
      * apply settled_true in Hx as (c' & Hc' & Hle'). rewrite lookup_insert_eq in Hc'.
        injection Hc' as <-.
        destruct He as (edges' & Hget & Hvw). rewrite Hedges in Hget. injection Hget as <-.
        destruct (Hnew v w Hvw) as (hv & _ & Hentry).
        right. exists (g + w + hv), (g + w), (path ++ [v]). split; [done|lia].
      * assert (settled visited x c = true) as Hx'.
        { apply settled_true in Hx as (c' & Hc' & Hle'). rewrite lookup_insert_ne in Hc' by done.
          apply settled_true. eauto. }
        eapply covered_expand; eauto.
Qed.

Lemma a_star_optimal (fuel : nat) (p : list node) (C : Z) :
  (astar_fuel adj <= fuel)%nat -> route adj start goal p C ->
  exists path g,
    a_star fuel adj start goal h = Ret (Some path, Fin g) /\
    route adj start goal path g /\ g <= C.
Proof.
  intros Hf Hroute.
  destruct (a_star_returns adj h start goal Hclosed Hstart Hnn admissible_returns_number fuel Hf)
    as (r & Hr & _).
  rewrite Hr. unfold a_star in Hr.
  destruct (admissible_returns_number start) as [h0 H0]. rewrite H0 in Hr. simpl in Hr.
  destruct (a_star_start_inv adj h start goal h0 H0) as [Hi _].
  destruct (a_star_loop_optimal p C fuel Hroute _ _ r Hi) as (path & g & -> & Hp & Hle);
    [|apply lookup_empty|done|eauto].
  split.
  - right. exists h0, 0, [start]. split; [left|lia].
  - intros n v w c _ Hs. apply settled_true in Hs as (c' & Hc' & _).
    by rewrite lookup_empty in Hc'.
Qed.

End AStarOptimal.

Lemma zero_admissible (adj : Adjacency) (g : node) :
  nonneg_weights adj -> admissible adj zero_heuristic g.
Proof.
  intros Hnn u. exists 0. split; [done|]. split; [lia|].
  intros p c Hr. by eapply route_nonneg.
Qed.

(** Optimality, the ALT heuristic apart.  On a graph without negative
    weight whose edges lead to keys, when a path leads from [start] to
    [goal], Dijkstra, A* with any admissible heuristic (the zero heuristic
    is one) and bidirectional Dijkstra all return a path of the graph from
    [start] to [goal] with its cost, and this cost is the same for the
    three and is at most the cost of every path. *)
Theorem shortest_path_agreement (adj : Adjacency) (h : heuristic) (start goal : node)
    (p : list node) (C : Z) (fuel : nat) :
  closed adj -> start ∈ keys adj -> nonneg_weights adj -> admissible adj h goal ->
  route adj start goal p C -> (astar_fuel adj <= fuel)%nat ->
  exists c pd pa,
    dijkstra fuel adj start goal = Ret (Some pd, Fin c) /\
    bidirectional_dijkstra fuel adj start goal = Ret (Some pd, Fin c) /\
    a_star fuel adj start goal h = Ret (Some pa, Fin c) /\
    a_star fuel adj start goal zero_heuristic = Ret (Some pd, Fin c) /\
    route adj start goal pd c /\ route adj start goal pa c /\
    forall p' C', route adj start goal p' C' -> c <= C'.
Proof.
  intros Hc Hs Hnn Hadm Hroute Hf.
  destruct (a_star_optimal adj zero_heuristic start goal Hc Hs Hnn (zero_admissible adj goal Hnn)
              fuel p C Hf Hroute) as (pd & cd & Hd & Hrd & _).
  destruct (a_star_optimal adj h start goal Hc Hs Hnn Hadm fuel p C Hf Hroute)
    as (pa & ca & Ha & Hra & _).
  assert (ca <= cd) as H1.
  { destruct (a_star_optimal adj h start goal Hc Hs Hnn Hadm fuel pd cd Hf Hrd)
      as (pa' & ca' & Ha' & _ & Hle). rewrite Ha in Ha'. by injection Ha' as <- <-. }
  assert (cd <= ca) as H2.
  { destruct (a_star_optimal adj zero_heuristic start goal Hc Hs Hnn
                (zero_admissible adj goal Hnn) fuel pa ca Hf Hra)
      as (pd' & cd' & Hd' & _ & Hle). rewrite Hd in Hd'. by injection Hd' as <- <-. }
  assert (ca = cd) as -> by lia.
  exists cd, pd, pa. unfold bidirectional_dijkstra. rewrite dijkstra_as_a_star.
  repeat split; try done.
  intros p' C' Hr'.
  destruct (a_star_optimal adj zero_heuristic start goal Hc Hs Hnn (zero_admissible adj goal Hnn)
              fuel p' C' Hf Hr') as (pd' & cd' & Hd' & _ & Hle).
  rewrite Hd in Hd'. by injection Hd' as <- <-.
Qed.

(** On [weighted_graph], where [0, 1, 2, 3] is a path of cost 4. *)
Example shortest_path_agreement_weighted_graph :
  exists c pd pa,
    dijkstra (astar_fuel weighted_graph) weighted_graph 0 3 = Ret (Some pd, Fin c) /\
    a_star (astar_fuel weighted_graph) weighted_graph 0 3 zero_heuristic = Ret (Some pa, Fin c) /\
    c <= 4.
Proof.
  assert (closed weighted_graph) as H1 by (apply closedb_closed; vm_compute; reflexivity).
  assert (0 ∈ keys weighted_graph) as H2 by (apply (bool_decide_unpack _); vm_compute; exact I).
  assert (nonneg_weights weighted_graph) as H3
    by (apply (bool_decide_unpack _); vm_compute; exact I).
  assert (route weighted_graph 0 3 [0; 1; 2; 3] 4) as H4.
  { apply (route_step _ _ 2 [0; 1; 2] 3 3 1).
    - apply (route_step _ _ 1 [0; 1] 1 2 2).
      + apply (route_step _ _ 0 [0] 0 1 1); [apply route_start|].
        eexists. split; [reflexivity|]. left.
      + eexists. split; [reflexivity|]. left.
    - eexists. split; [reflexivity|]. left. }
  destruct (shortest_path_agreement weighted_graph zero_heuristic 0 3 [0; 1; 2; 3] 4
              (astar_fuel weighted_graph) H1 H2 H3 (zero_admissible _ 3 H3) H4 ltac:(lia))
    as (c & pd & pa & Hd & _ & Ha & _ & _ & _ & Hmin).
  exists c, pd, pa. split; [exact Hd|]. split; [exact Ha|]. by eapply Hmin.
Qed.

(** *** Depth-first search reports hops *)

Lemma dfs_loop_cost (fuel : nat) (adj : Adjacency) (goal : node)
    (stack : list (node * list node)) (visited : gset node) (p : list node) (c : cost) :
  dfs_loop fuel adj goal stack visited = Ret (Some p, c) -> c = hops p.
Proof.
  revert stack visited. induction fuel as [|fuel IH]; intros stack visited; simpl; [discriminate|].
  destruct stack as [|[n path] stack]; [discriminate|].
  destruct (decide (n = goal)); [congruence|].
  destruct (decide (n ∈ visited)); [apply IH|].
  unfold adj_index. destruct (adj_get adj n); simpl; [apply IH|discriminate].
Qed.

Lemma dfs_loop_route (adj : Adjacency) (start goal : node) (fuel : nat) :
  forall stack visited p c,
    (forall n path, (n, path) ∈ stack -> exists w, route adj start n path w) ->
    dfs_loop fuel adj goal stack visited = Ret (Some p, c) ->
    exists w, route adj start goal p w.
Proof.
  induction fuel as [|fuel IH]; intros stack visited p c Hst; simpl; [discriminate|].
  destruct stack as [|[n path] stack]; [discriminate|].
  assert (exists w, route adj start n path w) as [w Hw] by (apply Hst; left).
  assert (forall n' path', (n', path') ∈ stack -> exists w', route adj start n' path' w') as Hst'.
  { intros n' path' H. apply Hst. by right. }
  destruct (decide (n = goal)) as [->|_]; [intros [= <- <-]; eauto|].
  destruct (decide (n ∈ visited)); [by apply IH|].
  unfold adj_index. destruct (adj_get adj n) as [edges|] eqn:He; [|discriminate]. simpl.
  apply IH. intros n' path' H. apply elem_of_app in H as [H|H]; [|by apply Hst'].
  apply list_elem_of_In in H. apply <- in_rev in H.
  apply in_map_iff in H as ([v wv] & [= <- <-] & H). apply list_elem_of_In in H.
  exists (w + wv). eapply route_step; [exact Hw|]. by exists edges.
Qed.

Lemma recurse_route (adj : Adjacency) (start goal : node) (fuel : nat) :
  forall n path depth w p,
    route adj start n path w ->
    recurse fuel adj goal n path depth = Ret (Some p) ->
    p = [] \/ exists w', route adj start goal p w'.
Proof.
  induction fuel as [|fuel IH]; intros n path depth w p Hr; simpl; [discriminate|].
  destruct (decide (n = goal)) as [->|_]; [intros [= <-]; eauto|].
  destruct (decide (depth = 0)); [discriminate|].
  unfold adj_index. destruct (adj_get adj n) as [edges|] eqn:He; [|discriminate]. simpl.
  assert (forall v wv, (v, wv) ∈ edges -> edge adj n v wv) as Hedges.
  { intros v wv H. by exists edges. }
  clear He. induction edges as [|[v wv] edges IHe]; [discriminate|].
  destruct (recurse fuel adj goal v (path ++ [v]) (depth - 1)) as [r| |] eqn:Hrec;
    simpl; try discriminate.
  destruct r as [[|x q]|].
  - apply IHe. intros v' w' H. apply Hedges. by right.
  - intros [= <-]. eapply (IH v (path ++ [v]) (depth - 1) (w + wv)); [|exact Hrec].
    eapply route_step; [exact Hr|]. apply Hedges. left.
  - apply IHe. intros v' w' H. apply Hedges. by right.
Qed.

(** C10.  Whenever [dfs] or [depth_limited_dfs] returns a path, that path
    is a path of the graph from [start] to [goal], and the cost returned
    with it is its number of edges, [len(path) - 1], whatever the weights
    along it. *)
Theorem dfs_cost_is_hops (fuel : nat) (adj : Adjacency) (start goal : node) (limit : Z)
    (p : list node) (c : cost) :
  dfs fuel adj start goal = Ret (Some p, c) \/
  depth_limited_dfs fuel adj start goal limit = Ret (Some p, c) ->
  c = Fin (Z.of_nat (length p) - 1) /\ exists w, route adj start goal p w.
Proof.
  intros [H|H].
  - split; [apply (dfs_loop_cost _ _ _ _ _ _ _ H)|].
    eapply dfs_loop_route; [|exact H].
    intros n path Hin. apply list_elem_of_singleton in Hin as [= -> ->].
    exists 0. apply route_start.
  - unfold depth_limited_dfs in H.
    destruct (recurse fuel adj goal start [start] limit) as [[[|x q]|]| |] eqn:Hrec;
      simpl in H; try discriminate.
    injection H as <- <-. split; [reflexivity|].
    destruct (recurse_route adj start goal fuel start [start] limit 0 (x :: q)
                (route_start adj start) Hrec) as [?|?]; [discriminate|done].
Qed.

Lemma dfs_cost_is_hops_witness :
  (dfs 10 weighted_graph 0 3 = Ret (Some [0; 2; 3], Fin 2) /\
   Fin 2 = Fin (Z.of_nat (length [0; 2; 3]) - 1) /\
   exists w, route weighted_graph 0 3 [0; 2; 3] w) /\
  (depth_limited_dfs 10 weighted_graph 0 3 5 = Ret (Some [0; 1; 2; 3], Fin 3) /\
   Fin 3 = Fin (Z.of_nat (length [0; 1; 2; 3]) - 1) /\
   exists w, route weighted_graph 0 3 [0; 1; 2; 3] w).
Proof.
  split.
  - split; [vm_compute; reflexivity|].
    apply (dfs_cost_is_hops 10 weighted_graph 0 3 0 [0; 2; 3] (Fin 2)).
    left. vm_compute. reflexivity.
  - split; [vm_compute; reflexivity|].
    apply (dfs_cost_is_hops 10 weighted_graph 0 3 5 [0; 1; 2; 3] (Fin 3)).
    right. vm_compute. reflexivity.
Defined.

(** On [weighted_graph] the path [0, 2, 3] that [dfs] returns has weight
    [4 + 1], and the cost returned is 2. *)
Example dfs_cost_is_not_the_weight :
  dfs 10 weighted_graph 0 3 = Ret (Some [0; 2; 3], Fin 2) /\
  route weighted_graph 0 3 [0; 2; 3] 5.
Proof.
  split; [vm_compute; reflexivity|].
  apply (route_step _ _ 2 [0; 2] 4 3 1).
  - apply (route_step _ _ 0 [0] 0 2 4); [apply route_start|].
    eexists. split; [reflexivity|]. right. left.
  - eexists. split; [reflexivity|]. left.
Qed.

(** With the limit 5, [depth_limited_dfs] returns on [weighted_graph] the
    path [0, 1, 2, 3], of weight [1 + 2 + 1], and the cost 3. *)
Example depth_limited_dfs_cost_is_not_the_weight :
  depth_limited_dfs 10 weighted_graph 0 3 5 = Ret (Some [0; 1; 2; 3], Fin 3) /\
  route weighted_graph 0 3 [0; 1; 2; 3] 4.
Proof.
  split; [vm_compute; reflexivity|].
  apply (route_step _ _ 2 [0; 1; 2] 3 3 1).
  - apply (route_step _ _ 1 [0; 1] 1 2 2).
    + apply (route_step _ _ 0 [0] 0 1 1); [apply route_start|].
      eexists. split; [reflexivity|]. left.
    + eexists. split; [reflexivity|]. left.
  - eexists. split; [reflexivity|]. left.
Qed.

(** *** Searches that expand a node once: a path is found when there is one *)

Lemma frontier_or_visited (adj : Adjacency) (start : node) (visited : gset node)
    (pending : node -> Prop) (v : node) :
  (start ∈ visited \/ pending start) ->
  (forall n x w, n ∈ visited -> edge adj n x w -> x ∈ visited \/ pending x) ->
  reach adj start v -> v ∈ visited \/ exists u, pending u.
Proof.
  intros Hs Hk Hr. apply reach_route in Hr as (p & c & Hr).
  induction Hr as [|n p c x w _ IH Hx].
  - destruct Hs; eauto.
  - destruct IH as [Hv|?]; [|by right].
    destruct (Hk n x w Hv Hx); eauto.
Qed.

Section FindsPath.
Variable adj : Adjacency.
Variables start goal : node.
Hypothesis Hclosed : closed adj.
Hypothesis Hstart : start ∈ keys adj.
Hypothesis Hreach : reach adj start goal.

Lemma dfs_loop_finds (fuel : nat) :
  forall stack visited,
    (forall n p, (n, p) ∈ stack -> exists c, route adj start n p c) ->
    (start ∈ visited \/ exists p, (start, p) ∈ stack) ->
    (forall n v w, n ∈ visited -> edge adj n v w -> v ∈ visited \/ exists p, (v, p) ∈ stack) ->
    goal ∉ visited ->
    Z.of_nat (length stack) + todo adj visited < Z.of_nat fuel ->
    exists path c,
      dfs_loop fuel adj goal stack visited = Ret (Some path, hops path) /\
      route adj start goal path c.
Proof.
  induction fuel as [|fuel IH]; intros stack visited Hst Hs Hk Hg Hm.
  - pose proof (todo_nonneg adj visited). lia.
  - simpl. destruct stack as [|[n path] stack].
    { destruct (frontier_or_visited adj start visited (fun v => exists p, (v, p) ∈ [])
                  goal Hs Hk Hreach) as [?|(u & p & H)]; [done|by apply elem_of_nil in H]. }
    destruct (Hst n path ltac:(left)) as [c Hroute].
    assert (forall n' p', (n', p') ∈ stack -> exists c', route adj start n' p' c') as Hst'.
    { intros n' p' H. apply Hst. by right. }
    destruct (decide (n = goal)) as [->|Hng]; [eauto|].
    simpl length in Hm.
    destruct (decide (n ∈ visited)) as [Hv|Hv].
    + apply IH; auto; [| |lia].
      * destruct Hs as [?|[p Hp]]; [by left|].
        apply elem_of_cons in Hp as [[= <- <-]|Hp]; eauto.
      * intros x v w Hx He. destruct (Hk x v w Hx He) as [?|[p Hp]]; [by left|].
        apply elem_of_cons in Hp as [[= <- <-]|Hp]; eauto.
    + pose proof (route_reach _ _ _ _ _ Hroute) as Hn.
      destruct (in_adj_get adj n (reach_key adj start n Hclosed Hstart Hn)) as [edges He].
      unfold adj_index. rewrite He. simpl.
      pose proof (todo_visit adj visited n (reach_key adj start n Hclosed Hstart Hn) Hv) as Ht.
      rewrite (out_degree_get adj n edges He) in Ht.
      assert (forall v w, (v, w) ∈ edges ->
                (v, path ++ [v]) ∈ rev (map (fun e : node * Z => (e.1, path ++ [e.1])) edges))
        as Hchild.
      { intros v w Hin. apply list_elem_of_In. apply -> in_rev. apply in_map_iff.
        exists (v, w). split; [done|]. by apply list_elem_of_In. }
      apply IH.
      * intros n' p' H. apply elem_of_app in H as [H|H]; [|by apply Hst'].
        apply list_elem_of_In in H. apply <- in_rev in H.
        apply in_map_iff in H as ([v wv] & [= <- <-] & H). apply list_elem_of_In in H.
        exists (c + wv). eapply route_step; [exact Hroute|]. by exists edges.
      * destruct Hs as [?|[p Hp]]; [left; apply elem_of_union; by right|].
        apply elem_of_cons in Hp as [[= <- <-]|Hp].
        -- left. apply elem_of_union. left. by apply elem_of_singleton.
        -- right. exists p. apply elem_of_app. by right.
      * intros x v w Hx Hedge. apply elem_of_union in Hx as [Hx|Hx].
        -- apply elem_of_singleton in Hx as ->.
           destruct Hedge as (edges' & He' & Hin). rewrite He in He'. injection He' as <-.
           right. exists (path ++ [v]). apply elem_of_app. left. by eapply Hchild.
        -- destruct (Hk x v w Hx Hedge) as [?|[p Hp]]; [left; apply elem_of_union; by right|].
           apply elem_of_cons in Hp as [[= <- <-]|Hp].
           ++ left. apply elem_of_union. left. by apply elem_of_singleton.
           ++ right. exists p. apply elem_of_app. by right.
      * intros Hgv. apply elem_of_union in Hgv as [Hgv|Hgv]; [|done].
        apply elem_of_singleton in Hgv. congruence.
      * rewrite length_app, length_rev, length_map. lia.
Qed.

Lemma dfs_finds (fuel : nat) :
  (Z.to_nat (2 + todo adj ∅) <= fuel)%nat ->
  exists path c,
    dfs fuel adj start goal = Ret (Some path, hops path) /\ route adj start goal path c.
Proof.
  intros Hf. pose proof (todo_nonneg adj ∅) as Ht. apply dfs_loop_finds.
  - intros n p H. apply list_elem_of_singleton in H as [= -> ->]. exists 0. apply route_start.
  - right. exists [start]. left.
  - intros n v w H. by apply not_elem_of_empty in H.
  - apply not_elem_of_empty.
  - simpl length. lia.
Qed.

End FindsPath.
Lemma greedy_push_entries (h : heuristic) (goal : node) (path : list node) (c : Z)
    (edges : list (node * Z)) :
  returns_number h goal ->
  forall pq, exists pq',
    greedy_push h goal path c edges pq = Ret pq' /\
    length pq' = (length pq + length edges)%nat /\
    (forall e, e ∈ pq' ->
       e ∈ pq \/ exists v w hv, (v, w) ∈ edges /\ e = (hv, v, path ++ [v], c + w)) /\
    (forall e, e ∈ pq -> e ∈ pq') /\
    (forall v w, (v, w) ∈ edges -> exists hv, (hv, v, path ++ [v], c + w) ∈ pq').
Proof.
  intros Hh. induction edges as [|[v w] edges IH]; intros pq; simpl.
  - exists pq. split; [done|]. split; [lia|]. split; [auto|]. split; [auto|].
    intros v w H. by apply elem_of_nil in H.
  - destruct (Hh v) as [hv ->]. simpl.
    destruct (IH (heappush pq (hv, v, path ++ [v], c + w)))
      as (pq' & -> & Hlen & Hin & Hkeep & Hnew).
    exists pq'. split; [done|]. split; [unfold heappush in Hlen; simpl in Hlen; lia|].
    split; [|split].
    + intros e He. destruct (Hin e He) as [H|(v' & w' & hv' & H & ->)].
      * unfold heappush in H. apply elem_of_cons in H as [->|H]; [|by left].
        right. exists v, w, hv. split; [left|done].
      * right. exists v', w', hv'. split; [by right|done].
    + intros e He. apply Hkeep. unfold heappush. by right.
    + intros v' w' H. apply elem_of_cons in H as [[= -> ->]|H].
      * exists hv. apply Hkeep. unfold heappush. left.
      * by apply Hnew.
Qed.

Section GreedyFinds.
Variable adj : Adjacency.
Variable h : heuristic.
Variables start goal : node.
Hypothesis Hclosed : closed adj.
Hypothesis Hstart : start ∈ keys adj.
Hypothesis Hh : returns_number h goal.
Hypothesis Hreach : reach adj start goal.

Lemma greedy_loop_finds (fuel : nat) :
  forall pq visited,
    (forall hv n p c, (hv, n, p, c) ∈ pq -> route adj start n p c) ->
    (start ∈ visited \/ exists hv p c, (hv, start, p, c) ∈ pq) ->
    (forall n v w, n ∈ visited -> edge adj n v w ->
       v ∈ visited \/ exists hv p c, (hv, v, p, c) ∈ pq) ->
    goal ∉ visited ->
    Z.of_nat (length pq) + todo adj visited < Z.of_nat fuel ->
    exists path c,
      greedy_loop fuel adj h goal pq visited = Ret (Some path, Fin c) /\
      route adj start goal path c.
Proof.
  induction fuel as [|fuel IH]; intros pq visited Hst Hs Hk Hg Hm.
  - pose proof (todo_nonneg adj visited). lia.
  - simpl. destruct (heappop greedy_ltb pq) as [[[[[hn n] path] c] pq']|] eqn:Hpop.
    2:{ apply heappop_nil in Hpop as ->.
        destruct (frontier_or_visited adj start visited
                    (fun v => exists hv p c, (hv, v, p, c) ∈ []) goal Hs Hk Hreach)
          as [?|(u & hv & p & c & H)]; [done|by apply elem_of_nil in H]. }
    pose proof (heappop_length _ _ _ _ Hpop) as Hlen.
    assert (forall e, e ∈ pq <-> e = (hn, n, path, c) \/ e ∈ pq') as Hin
      by (intros e; apply (heappop_in _ _ _ _ e Hpop)).
    assert (route adj start n path c) as Hroute by (apply (Hst hn), Hin; by left).
    destruct (decide (n = goal)) as [->|Hng]; [eauto|].
    destruct (decide (n ∈ visited)) as [Hv|Hv].
    + apply IH; auto; [| | |lia].
      * intros hv n' p' c' H. apply (Hst hv), Hin. by right.
      * destruct Hs as [?|(hv & p & c' & Hp)]; [by left|].
        apply Hin in Hp as [[= <- <- <- <-]|Hp]; eauto 6.
      * intros x v w Hx He. destruct (Hk x v w Hx He) as [?|(hv & p & c' & Hp)]; [by left|].
        apply Hin in Hp as [[= <- <- <- <-]|Hp]; eauto 6.
    + pose proof (route_reach _ _ _ _ _ Hroute) as Hn.
      destruct (in_adj_get adj n (reach_key adj start n Hclosed Hstart Hn)) as [edges He].
      unfold adj_index. rewrite He. simpl.
      destruct (greedy_push_entries h goal path c edges Hh pq')
        as (pq'' & -> & Hlen' & Hfrom & Hkeep & Hnew). simpl.
      pose proof (todo_visit adj visited n (reach_key adj start n Hclosed Hstart Hn) Hv) as Ht.
      rewrite (out_degree_get adj n edges He) in Ht.
      apply IH; [| | | |lia].
      * intros hv n' p' c' H. destruct (Hfrom _ H) as [H'|(v & w & hv' & Hvw & [= -> -> -> ->])].
        -- apply (Hst hv), Hin. by right.
        -- eapply route_step; [exact Hroute|]. by exists edges.
      * destruct Hs as [?|(hv & p & c' & Hp)]; [left; apply elem_of_union; by right|].
        apply Hin in Hp as [[= <- <- <- <-]|Hp].
        -- left. apply elem_of_union. left. by apply elem_of_singleton.
        -- right. exists hv, p, c'. by apply Hkeep.
      * intros x v w Hx Hedge. apply elem_of_union in Hx as [Hx|Hx].
        -- apply elem_of_singleton in Hx as ->.
           destruct Hedge as (edges' & He' & Hvw). rewrite He in He'. injection He' as <-.
           destruct (Hnew v w Hvw) as [hv Hentry]. right. eauto.
        -- destruct (Hk x v w Hx Hedge) as [?|(hv & p & c' & Hp)];
             [left; apply elem_of_union; by right|].
           apply Hin in Hp as [[= <- <- <- <-]|Hp].
           ++ left. apply elem_of_union. left. by apply elem_of_singleton.
           ++ right. exists hv, p, c'. by apply Hkeep.
      * intros Hgv. apply elem_of_union in Hgv as [Hgv|Hgv]; [|done].
        apply elem_of_singleton in Hgv. congruence.
Qed.

Lemma greedy_finds (fuel : nat) :
  (Z.to_nat (2 + todo adj ∅) <= fuel)%nat ->
  exists path c,
    greedy_best fuel adj start goal h = Ret (Some path, Fin c) /\
    route adj start goal path c.
Proof.
  intros Hf. pose proof (todo_nonneg adj ∅) as Ht. unfold greedy_best.
  destruct (Hh start) as [h0 ->]. simpl. apply greedy_loop_finds.
  - intros hv n p c H. apply list_elem_of_singleton in H as [= -> -> -> ->]. apply route_start.
  - right. exists h0, [start], 0. left.
  - intros n v w H. by apply not_elem_of_empty in H.
  - apply not_elem_of_empty.
  - simpl length. lia.
Qed.

End GreedyFinds.
(** *** A* finds a path when there is one, whatever the heuristic *)

Section AStarFinds.
Variable adj : Adjacency.
Variable h : heuristic.
Variables start goal : node.
Hypothesis Hclosed : closed adj.
Hypothesis Hstart : start ∈ keys adj.
Hypothesis Hnn : nonneg_weights adj.
Hypothesis Hh : returns_number h goal.

Lemma a_star_loop_finds (p : list node) (C : Z) (fuel : nat) :
  route adj start goal p C ->
  forall pq visited r,
    astar_inv adj h start goal pq visited ->
    astar_cover adj start pq visited ->
    visited !! goal = None ->
    a_star_loop fuel adj h goal pq visited = Ret r ->
    r <> no_path.
Proof.
  intros Hroute. induction fuel as [|fuel IH]; intros pq visited r Hi Hc Hg; [discriminate|].
  simpl. destruct (astar_frontier adj start pq visited goal p C Hc Hroute)
    as [Hset|(f' & g' & u & pth & prest & rest & Hin' & Hrest & Hle)].
  { apply settled_true in Hset as (c & Hc' & _). congruence. }
  destruct (heappop astar_ltb pq) as [[[[[f g] n] path] pq']|] eqn:Hpop.
  2:{ apply heappop_nil in Hpop as ->. by apply elem_of_nil in Hin'. }
  destruct (decide (n = goal)) as [->|Hng]; [by intros [= <-]|].
  destruct (settled visited n g) eqn:Hs.
  - destruct (astar_skip adj h start goal pq pq' visited _ Hi Hpop) as [Hi' _].
    apply IH; [done| |done].
    destruct Hc as [Hc0 Hck]. split; [by eapply covered_skip|].
    intros x v w c He Hx. eapply covered_skip; eauto.
  - destruct (astar_expand adj h start goal Hclosed Hstart Hnn Hh
                pq pq' visited f g n path Hi Hpop Hs)
      as (edges & pq'' & Hedges & Hpush & Hi' & _ & Hkeep & Hnew).
    unfold adj_index. rewrite Hedges. simpl. rewrite Hpush. simpl.
    apply IH; [done| |by rewrite lookup_insert_ne].
    destruct Hc as [Hc0 Hck]. split; [by eapply covered_expand|].
    intros x v w c He Hx.
    destruct (decide (x = n)) as [->|Hxn].
    + apply settled_true in Hx as (c' & Hc' & Hle'). rewrite lookup_insert_eq in Hc'.
      injection Hc' as <-.
      destruct He as (edges' & Hget & Hvw). rewrite Hedges in Hget. injection Hget as <-.
      destruct (Hnew v w Hvw) as (hv & _ & Hentry).
      right. exists (g + w + hv), (g + w), (path ++ [v]). split; [done|lia].
    + assert (settled visited x c = true) as Hx'.
      { apply settled_true in Hx as (c' & Hc' & Hle'). rewrite lookup_insert_ne in Hc' by done.
        apply settled_true. eauto. }
      eapply covered_expand; eauto.
Qed.

Lemma a_star_finds (fuel : nat) :
  (astar_fuel adj <= fuel)%nat -> reach adj start goal ->
  exists path g,
    a_star fuel adj start goal h = Ret (Some path, Fin g) /\ route adj start goal path g.
Proof.
  intros Hf Hreach. apply reach_route in Hreach as (p & C & Hroute).
  destruct (a_star_returns adj h start goal Hclosed Hstart Hnn Hh fuel Hf)
    as (r & Hr & Hcases).
  rewrite Hr. unfold a_star in Hr.
  destruct (Hh start) as [h0 H0]. rewrite H0 in Hr. simpl in Hr.
  destruct (a_star_start_inv adj h start goal h0 H0) as [Hi _].
  destruct Hcases as [->|(path & g & -> & Hp)]; [|eauto].
  exfalso. eapply (a_star_loop_finds p C fuel Hroute); [exact Hi| | |exact Hr|done].
  - split.
    + right. exists h0, 0, [start]. split; [left|lia].
    + intros n v w c _ Hs. apply settled_true in Hs as (c' & Hc' & _).
      by rewrite lookup_empty in Hc'.
  - apply lookup_empty.
Qed.

End AStarFinds.
(** *** Breadth-first search returns a path with the fewest edges *)

Lemma route_length (adj : Adjacency) (s n : node) (p : list node) (c : Z) :
  route adj s n p c -> (1 <= length p)%nat.
Proof. destruct 1; [simpl; lia|rewrite length_app; simpl; lia]. Qed.

Lemma bfs_levels_head (l : nat) (n : node) (p : list node) (queue : list (node * list node)) :
  bfs_levels l ((n, p) :: queue) ->
  bfs_levels (length p) queue /\
  forall e, e ∈ queue -> (length p <= length e.2 <= S (length p))%nat.
Proof.
  intros (A & B & Heq & HA & HB). destruct A as [|a A].
  - simpl in Heq. subst B.
    assert (length p = S l) as Hp by (apply (HB (n, p)); left).
    split.
    + exists queue, []. rewrite app_nil_r. split; [done|]. split.
      * intros e He. rewrite Hp. apply HB. by right.
      * intros e He. by apply elem_of_nil in He.
    + intros e He. rewrite Hp, (HB e) by (by right). lia.
  - injection Heq as <- ->.
    assert (length p = l) as Hp by (apply (HA (n, p)); left).
    split.
    + exists A, B. split; [done|]. rewrite Hp. split; [|done].
      intros e He. apply HA. by right.
    + intros e He. rewrite Hp. apply elem_of_app in He as [He|He].
      * rewrite (HA e) by (by right). lia.
      * rewrite (HB e) by done. lia.
Qed.

Lemma bfs_levels_push (l : nat) (queue new : list (node * list node)) :
  bfs_levels l queue -> (forall e, e ∈ new -> length e.2 = S l) ->
  bfs_levels l (queue ++ new).
Proof.
  intros (A & B & -> & HA & HB) Hnew. exists A, (B ++ new).
  split; [by rewrite app_assoc|]. split; [done|].
  intros e He. apply elem_of_app in He as [He|He]; auto.
Qed.

Lemma bfs_frontier (adj : Adjacency) (start : node) (queue : list (node * list node))
    (visited : gset node) (lvl : node -> nat) (v : node) (p : list node) (c : Z) :
  bfs_inv adj start queue visited lvl -> route adj start v p c ->
  (v ∈ visited /\ (lvl v <= length p)%nat) \/
  exists e, e ∈ queue /\ (length e.2 <= length p)%nat.
Proof.
  intros (_ & _ & _ & H0 & Hk) Hr. induction Hr as [|n p c v w Hr IH He].
  - destruct H0 as [?|(p & Hp & Hl)]; [by left|]. right. by exists (start, p).
  - rewrite length_app. simpl.
    destruct IH as [[Hn Hl]|(e & He' & Hl)].
    + destruct (Hk n v w Hn He) as [[Hv Hlv]|(p' & Hp' & Hl')].
      * left. split; [done|lia].
      * right. exists (v, p'). split; [done|simpl; lia].
    + right. exists e. split; [done|lia].
Qed.

Section BfsFewestHops.
Variable adj : Adjacency.
Variables start goal : node.
Hypothesis Hclosed : closed adj.
Hypothesis Hstart : start ∈ keys adj.
Hypothesis Hreach : reach adj start goal.

Lemma bfs_loop_fewest (fuel : nat) :
  forall queue visited lvl,
    bfs_inv adj start queue visited lvl ->
    goal ∉ visited ->
    Z.of_nat (length queue) + todo adj visited < Z.of_nat fuel ->
    exists path c,
      bfs_loop fuel adj goal queue visited = Ret (Some path, hops path) /\
      route adj start goal path c /\
      forall p' c', route adj start goal p' c' -> (length path <= length p')%nat.
Proof.
  induction fuel as [|fuel IH]; intros queue visited lvl Hinv Hg Hm.
  - pose proof (todo_nonneg adj visited). lia.
  - simpl. destruct queue as [|[n path] queue].
    { destruct (reach_route _ _ _ Hreach) as (p & c & Hr).
      destruct (bfs_frontier _ _ _ _ _ _ _ _ Hinv Hr) as [[? _]|(e & He & _)]; [done|].
      by apply elem_of_nil in He. }
    pose proof Hinv as (Hroutes & [l Hlev] & Hmono & H0 & Hk).
    destruct (Hroutes n path) as [c Hroute]; [left|].
    destruct (bfs_levels_head _ _ _ _ Hlev) as [Hlev' Hlen].
    destruct (decide (n = goal)) as [->|Hng].
    { exists path, c. split; [done|]. split; [done|]. intros p' c' Hr'.
      destruct (bfs_frontier _ _ _ _ _ _ _ _ Hinv Hr') as [[? _]|(e & He & Hle)]; [done|].
      apply elem_of_cons in He as [->|He]; [done|]. specialize (Hlen e He). lia. }
    simpl in Hm.
    assert (forall v m, bfs_covered ((n, path) :: queue) visited lvl v m ->
              n ∈ visited -> bfs_covered queue visited lvl v m) as Hskip.
    { intros v m [Hv|(p & Hp & Hl)] Hn; [by left|].
      apply elem_of_cons in Hp as [[= -> ->]|Hp].
      - left. split; [done|]. etrans; [|exact Hl]. apply (Hmono n (n, path) Hn). left.
      - right. eauto. }
    destruct (decide (n ∈ visited)) as [Hv|Hv].
    + apply (IH _ _ lvl); [|done|lia]. split; [|split; [|split; [|split]]].
      * intros x p Hp. apply Hroutes. by right.
      * eauto.
      * intros x e Hx He. apply Hmono; [done|by right].
      * by apply Hskip.
      * intros x v w Hx He. apply Hskip; [|done]. by apply (Hk x v w).
    + pose proof (route_reach _ _ _ _ _ Hroute) as Hn.
      pose proof (reach_key adj start n Hclosed Hstart Hn) as Hkey.
      destruct (in_adj_get adj n Hkey) as [edges He].
      unfold adj_index. rewrite He. simpl.
      set (visited' := {[n]} ∪ visited).
      set (fresh := filter (fun e : node * Z => e.1 ∉ visited') edges).
      set (new := map (fun e : node * Z => (e.1, path ++ [e.1])) fresh).
      set (lvl' := fun x => if decide (x = n) then length path else lvl x).
      pose proof (todo_visit adj visited n Hkey Hv) as Ht.
      rewrite (out_degree_get adj n edges He) in Ht.
      assert (length new <= length edges)%nat as Hnl.
      { unfold new. rewrite length_map. apply length_filter. }
      assert (forall e, e ∈ new <-> exists v w, (v, w) ∈ edges /\ (v ∉ visited') /\
                          e = (v, path ++ [v])) as Hnew.
      { intros e. unfold new. rewrite list_elem_of_fmap. split.
        - intros ([v w] & -> & Hin). apply list_elem_of_filter in Hin as [Hf Hin].
          exists v, w. eauto.
        - intros (v & w & Hin & Hf & ->). exists (v, w). split; [done|].
          apply list_elem_of_filter. eauto. }
      assert (forall x, x ∈ visited -> lvl' x = lvl x) as Hold.
      { intros x Hx. unfold lvl'. destruct (decide (x = n)) as [->|]; [done|done]. }
      assert (lvl' n = length path) as Hln by (unfold lvl'; by rewrite decide_True).
      assert (forall v m, bfs_covered ((n, path) :: queue) visited lvl v m ->
                bfs_covered (queue ++ new) visited' lvl' v m) as Hexp.
      { intros v m [[Hx Hl]|(p & Hp & Hl)].
        - left. split; [apply elem_of_union; by right|]. by rewrite Hold.
        - apply elem_of_cons in Hp as [[= -> ->]|Hp].
          + left. split; [apply elem_of_union; left; by apply elem_of_singleton|].
            by rewrite Hln.
          + right. exists p. split; [apply elem_of_app; by left|done]. }
      apply (IH _ _ lvl'); [| |rewrite length_app; unfold visited'; lia].
      2:{ intros Hgv. apply elem_of_union in Hgv as [Hgv|Hgv]; [|done].
          apply elem_of_singleton in Hgv. congruence. }
      split; [|split; [|split; [|split]]].
      * intros x p Hp. apply elem_of_app in Hp as [Hp|Hp]; [apply Hroutes; by right|].
        apply Hnew in Hp as (v & w & Hin & _ & [= -> ->]).
        exists (c + w). eapply route_step; [exact Hroute|]. by exists edges.
      * exists (length path). apply bfs_levels_push; [done|].
        intros e Hin. apply Hnew in Hin as (v & w & _ & _ & ->). simpl.
        rewrite length_app. simpl. lia.
      * intros x e Hx Hin.
        assert ((length path <= length e.2)%nat) as Hpe.
        { apply elem_of_app in Hin as [Hin|Hin]; [by apply Hlen|].
          apply Hnew in Hin as (v & w & _ & _ & ->). simpl. rewrite length_app. simpl. lia. }
        apply elem_of_union in Hx as [Hx|Hx].
        -- apply elem_of_singleton in Hx as ->. by rewrite Hln.
        -- rewrite Hold by done. etrans; [|exact Hpe]. apply (Hmono x (n, path) Hx). left.
      * by apply Hexp.
      * intros x v w Hx Hedge. apply elem_of_union in Hx as [Hx|Hx].
        -- apply elem_of_singleton in Hx as ->. rewrite Hln.
           destruct Hedge as (edges' & He' & Hvw). rewrite He in He'. injection He' as <-.
           destruct (decide (v ∈ visited')) as [Hvv|Hvv].
           ++ left. split; [done|]. apply elem_of_union in Hvv as [Hvv|Hvv].
              ** apply elem_of_singleton in Hvv as ->. rewrite Hln. lia.
              ** rewrite Hold by done.
                 pose proof (Hmono v (n, path) Hvv ltac:(left)) as Hle. simpl in Hle. lia.
           ++ right. exists (path ++ [v]). split.
              ** apply elem_of_app. right. apply Hnew. eauto.
              ** rewrite length_app. simpl. lia.
        -- rewrite Hold by done. apply Hexp. by apply (Hk x v w).
Qed.

Lemma bfs_fewest (fuel : nat) :
  (Z.to_nat (2 + todo adj ∅) <= fuel)%nat ->
  exists path c,
    bfs fuel adj start goal = Ret (Some path, hops path) /\
    route adj start goal path c /\
    forall p' c', route adj start goal p' c' -> (length path <= length p')%nat.
Proof.
  intros Hf. pose proof (todo_nonneg adj ∅) as Ht. unfold bfs.
  apply (bfs_loop_fewest fuel _ _ (fun _ => O)).
  - split; [|split; [|split; [|split]]].
    + intros n p H. apply list_elem_of_singleton in H as [= -> ->]. exists 0. apply route_start.
    + exists 1%nat, [(start, [start])], []. split; [done|]. split.
      * intros e H. by apply list_elem_of_singleton in H as ->.
      * intros e H. by apply elem_of_nil in H.
    + intros x e H. by apply not_elem_of_empty in H.
    + right. exists [start]. split; [left|simpl; lia].
    + intros n v w H. by apply not_elem_of_empty in H.
  - apply not_elem_of_empty.
  - simpl length. lia.
Qed.

End BfsFewestHops.
(** *** Depth-limited search: within the limit, and complete within it *)

Lemma route_uncons (adj : Adjacency) (s n : node) (p : list node) (c : Z) :
  route adj s n p c ->
  (n = s /\ p = [s]) \/
  exists v w p' c', edge adj s v w /\ route adj v n p' c' /\ p = s :: p'.
Proof.
  induction 1 as [|n p c v w Hr IH He]; [by left|]. right.
  destruct IH as [[-> ->]|(v1 & w1 & p1 & c1 & He1 & Hr1 & ->)].
  - exists v, w, [v], 0. split; [done|]. split; [apply route_start|done].
  - exists v1, w1, (p1 ++ [v]), (c1 + w). split; [done|]. split; [|done].
    by eapply route_step.
Qed.

Lemma recurse_spec (adj : Adjacency) (start goal : node) (fuel : nat) :
  closed adj ->
  forall n path depth c0,
    n ∈ keys adj -> route adj start n path c0 ->
    0 <= depth < Z.of_nat fuel ->
    exists r, recurse fuel adj goal n path depth = Ret r /\
      match r with
      | Some p =>
          p <> [] /\ Z.of_nat (length p) <= Z.of_nat (length path) + depth /\
          exists c, route adj start goal p c
      | None => forall p c, route adj n goal p c -> depth + 1 < Z.of_nat (length p)
      end.
Proof.
  intros Hclosed. induction fuel as [|fuel IH]; intros n path depth c0 Hkey Hr Hd; [lia|].
  simpl. destruct (decide (n = goal)) as [->|Hng].
  { exists (Some path). split; [done|]. pose proof (route_length _ _ _ _ _ Hr).
    split; [intros ->; simpl in *; lia|]. split; [lia|eauto]. }
  destruct (decide (depth = 0)) as [->|Hd0].
  { exists None. split; [done|]. intros p c Hp.
    destruct (route_uncons _ _ _ _ _ Hp) as [[? _]|(v & w & p' & c' & _ & Hp' & ->)];
      [congruence|].
    pose proof (route_length _ _ _ _ _ Hp'). simpl. lia. }
  destruct (in_adj_get adj n Hkey) as [edges He].
  unfold adj_index. rewrite He. simpl.
  assert (forall v w, (v, w) ∈ edges -> edge adj n v w) as Hedges.
  { intros v w H. by exists edges. }
  assert (exists r,
    (fix each (edges : list (node * Z)) : outcome (option (list node)) :=
       match edges with
       | [] => Ret None
       | (v, _) :: edges =>
           r ← recurse fuel adj goal v (path ++ [v]) (depth - 1);
           match r with
           | Some (_ :: _) => Ret r
           | _ => each edges
           end
       end) edges = Ret r /\
    match r with
    | Some p =>
        p <> [] /\ Z.of_nat (length p) <= Z.of_nat (length path) + depth /\
        exists c, route adj start goal p c
    | None => forall v w, (v, w) ∈ edges ->
                forall p c, route adj v goal p c -> depth < Z.of_nat (length p)
    end) as (r & Hrun & Hres).
  { clear He. induction edges as [|[v w] edges IHe].
    - exists None. split; [done|]. intros v w H. by apply elem_of_nil in H.
    - destruct (IH v (path ++ [v]) (depth - 1) (c0 + w)) as (r & -> & Hres).
      + eapply Hclosed, Hedges. left.
      + eapply route_step; [exact Hr|]. apply Hedges. left.
      + lia.
      + simpl. destruct r as [[|x q]|].
        * by destruct Hres as [? _].
        * exists (Some (x :: q)). split; [done|].
          destruct Hres as (_ & Hl & Hc). split; [done|]. split; [|done].
          rewrite length_app in Hl. simpl (length [v]) in Hl. lia.
        * destruct IHe as (r & -> & Hr'); [intros v' w' H; apply Hedges; by right|].
          exists r. split; [done|]. destruct r as [p|]; [done|].
          intros v' w' H p c Hp. apply elem_of_cons in H as [[= -> ->]|H].
          -- specialize (Hres p c Hp). lia.
          -- by apply (Hr' v' w' H p c). }
  exists r. split; [done|]. destruct r as [p|]; [done|].
  intros p c Hp.
  destruct (route_uncons _ _ _ _ _ Hp) as [[? _]|(v & w & p' & c' & Hvw & Hp' & ->)];
    [congruence|].
  destruct Hvw as (edges' & He' & Hin). rewrite He in He'. injection He' as <-.
  specialize (Hres v w Hin p' c' Hp'). simpl. lia.
Qed.

Lemma depth_limited_dfs_spec (adj : Adjacency) (start goal : node) (limit : Z) (fuel : nat) :
  closed adj -> start ∈ keys adj -> 0 <= limit < Z.of_nat fuel ->
  (exists path c,
     depth_limited_dfs fuel adj start goal limit = Ret (Some path, hops path) /\
     route adj start goal path c /\ Z.of_nat (length path) - 1 <= limit) \/
  (depth_limited_dfs fuel adj start goal limit = Ret no_path /\
   forall p c, route adj start goal p c -> limit < Z.of_nat (length p) - 1).
Proof.
  intros Hclosed Hstart Hl. unfold depth_limited_dfs.
  destruct (recurse_spec adj start goal fuel Hclosed start [start] limit 0 Hstart
              (route_start adj start) Hl) as (r & -> & Hres).
  simpl. destruct r as [[|x q]|].
  - by destruct Hres as [? _].
  - left. destruct Hres as (_ & Hlen & c & Hc). exists (x :: q), c.
    split; [done|]. split; [done|]. simpl length in *. lia.
  - right. split; [done|]. intros p c Hp. specialize (Hres p c Hp). lia.
Qed.
(** *** What each search returns *)

Lemma weighted_graph_closed : closed weighted_graph.
Proof. apply closedb_closed. vm_compute. reflexivity. Qed.

Lemma weighted_graph_start : 0 ∈ keys weighted_graph.
Proof. apply (bool_decide_unpack _). vm_compute. exact I. Qed.

Lemma weighted_graph_nonneg : nonneg_weights weighted_graph.
Proof. apply (bool_decide_unpack _). vm_compute. exact I. Qed.

Lemma weighted_graph_route : route weighted_graph 0 3 [0; 1; 2; 3] 4.
Proof.
  apply (route_step _ _ 2 [0; 1; 2] 3 3 1).
  - apply (route_step _ _ 1 [0; 1] 1 2 2).
    + apply (route_step _ _ 0 [0] 0 1 1); [apply route_start|].
      eexists. split; [reflexivity|]. left.
    + eexists. split; [reflexivity|]. left.
  - eexists. split; [reflexivity|]. left.
Qed.

Lemma search_fuel_visited (adj : Adjacency) (fuel : nat) :
  (search_fuel adj <= fuel)%nat -> (Z.to_nat (2 + todo adj ∅) <= fuel)%nat.
Proof. unfold search_fuel. lia. Qed.

Lemma search_fuel_astar (adj : Adjacency) (fuel : nat) :
  (search_fuel adj <= fuel)%nat -> (astar_fuel adj <= fuel)%nat.
Proof. unfold search_fuel. lia. Qed.

(** X1.  On a graph whose edges lead to keys, [bfs] from a key returns,
    when a path leads to [goal], a path of the graph from [start] to
    [goal] with its number of edges as cost, and no path of the graph from
    [start] to [goal] has fewer edges; when no path leads to [goal] it
    returns [(None, inf)]. *)
Theorem bfs_fewest_edges (adj : Adjacency) (start goal : node) (fuel : nat) :
  closed adj -> start ∈ keys adj -> (search_fuel adj <= fuel)%nat ->
  (reach adj start goal ->
   exists path c,
     bfs fuel adj start goal = Ret (Some path, hops path) /\
     route adj start goal path c /\
     forall p' c', route adj start goal p' c' -> (length path <= length p')%nat) /\
  (~ reach adj start goal -> bfs fuel adj start goal = Ret no_path).
Proof.
  intros Hc Hs Hf. apply search_fuel_visited in Hf.
  pose proof (todo_nonneg adj ∅) as Ht. split.
  - intros Hr. by apply bfs_fewest.
  - intros Hr. apply (bfs_loop_no_path adj start goal Hc Hs Hr).
    + intros n p H. apply list_elem_of_singleton in H as [= -> ->]. apply rtc_refl.
    + simpl length. lia.
Qed.

Lemma bfs_fewest_edges_witness :
  exists path,
    bfs (search_fuel weighted_graph) weighted_graph 0 3 = Ret (Some path, hops path) /\
    (length path <= 4)%nat.
Proof.
  destruct (bfs_fewest_edges weighted_graph 0 3 (search_fuel weighted_graph)
              weighted_graph_closed weighted_graph_start (le_n _)) as [H _].
  destruct (H (route_reach _ _ _ _ _ weighted_graph_route)) as (path & c & Hb & _ & Hmin).
  exists path. split; [exact Hb|]. apply (Hmin _ _ weighted_graph_route).
Defined.

(** X2.  On a graph whose edges lead to keys, [dfs] from a key returns a
    path of the graph from [start] to [goal], with its number of edges as
    cost, exactly when a path leads to [goal]; otherwise it returns
    [(None, inf)]. *)
Theorem dfs_finds_a_path (adj : Adjacency) (start goal : node) (fuel : nat) :
  closed adj -> start ∈ keys adj -> (search_fuel adj <= fuel)%nat ->
  (reach adj start goal ->
   exists path c,
     dfs fuel adj start goal = Ret (Some path, hops path) /\ route adj start goal path c) /\
  (~ reach adj start goal -> dfs fuel adj start goal = Ret no_path).
Proof.
  intros Hc Hs Hf. apply search_fuel_visited in Hf.
  pose proof (todo_nonneg adj ∅) as Ht. split.
  - intros Hr. by apply dfs_finds.
  - intros Hr. apply (dfs_loop_no_path adj start goal Hc Hs Hr).
    + intros n p H. apply list_elem_of_singleton in H as [= -> ->]. apply rtc_refl.
    + simpl length. lia.
Qed.

Lemma dfs_finds_a_path_witness :
  exists path c,
    dfs (search_fuel weighted_graph) weighted_graph 0 3 = Ret (Some path, hops path) /\
    route weighted_graph 0 3 path c.
Proof.
  destruct (dfs_finds_a_path weighted_graph 0 3 (search_fuel weighted_graph)
              weighted_graph_closed weighted_graph_start (le_n _)) as [H _].
  exact (H (route_reach _ _ _ _ _ weighted_graph_route)).
Defined.

(** X5.  On a graph whose edges lead to keys, [depth_limited_dfs] from a
    key with a limit that is not negative, run where more than [limit]
    nested calls are allowed ([fuel] is the call depth allowed, beyond
    which Python raises [RecursionError]), returns either a path of the
    graph from [start] to [goal] of at most [limit] edges, with its
    number of edges as cost, or [(None, inf)], and then every path of the
    graph from [start] to [goal] has more than [limit] edges. *)
Theorem depth_limited_dfs_within_limit (adj : Adjacency) (start goal : node) (limit : Z)
    (fuel : nat) :
  closed adj -> start ∈ keys adj -> 0 <= limit < Z.of_nat fuel ->
  (exists path c,
     depth_limited_dfs fuel adj start goal limit = Ret (Some path, hops path) /\
     route adj start goal path c /\ Z.of_nat (length path) - 1 <= limit) \/
  (depth_limited_dfs fuel adj start goal limit = Ret no_path /\
   forall p c, route adj start goal p c -> limit < Z.of_nat (length p) - 1).
Proof. apply depth_limited_dfs_spec. Qed.

Lemma depth_limited_dfs_within_limit_witness :
  depth_limited_dfs 2 weighted_graph 0 3 1 = Ret no_path /\
  1 < Z.of_nat (length [0; 1; 2; 3]) - 1.
Proof.
  destruct (depth_limited_dfs_within_limit weighted_graph 0 3 1 2
              weighted_graph_closed weighted_graph_start ltac:(lia))
    as [(path & c & H & _)|[H Hmin]].
  - vm_compute in H. discriminate.
  - split; [exact H|]. apply (Hmin _ _ weighted_graph_route).
Defined.

(** *** [dijkstra_from_source] records the shortest distances *)

Lemma edge_default (adj : Adjacency) (u v : node) (w : Z) :
  edge adj u v w <-> (v, w) ∈ default [] (adj_get adj u).
Proof.
  unfold edge. destruct (adj_get adj u) as [edges|]; simpl.
  - split; [by intros (e & [= <-] & H)|eauto].
  - split; [by intros (e & [=] & _)|intros H; by apply elem_of_nil in H].
Qed.

Lemma src_relax_exact (adj : Adjacency) (src u : node) (d : Z) (edges : list (node * Z)) :
  (forall v w, (v, w) ∈ edges -> edge adj u v w) ->
  (exists p, route adj src u p d) ->
  forall dist pq dist' pq',
    src_relax d edges dist pq = (dist', pq') ->
    (forall v c, dist !! v = Some c -> exists p, route adj src v p c) ->
    (forall c x, (c, x) ∈ pq -> exists dx, dist !! x = Some dx /\ dx <= c) ->
    (forall v c, dist' !! v = Some c -> exists p, route adj src v p c) /\
    (forall c x, (c, x) ∈ pq' -> exists dx, dist' !! x = Some dx /\ dx <= c) /\
    (forall e, e ∈ pq -> e ∈ pq') /\
    (forall x dx, dist !! x = Some dx -> exists dx', dist' !! x = Some dx' /\ dx' <= dx) /\
    (forall x dx', dist' !! x = Some dx' -> dist !! x = Some dx' \/ (dx', x) ∈ pq') /\
    (forall v w, (v, w) ∈ edges -> exists dv, dist' !! v = Some dv /\ dv <= d + w).
Proof.
  intros Hedges [pu Hpu]. induction edges as [|[v w] edges IH];
    intros dist pq dist' pq' Hrun H1 H2; simpl in Hrun.
  - injection Hrun as <- <-.
    split; [done|]. split; [done|]. split; [done|].
    split; [intros x dx Hx; exists dx; by split|]. split; [intros x dx Hx; by left|].
    intros v w H. by apply elem_of_nil in H.
  - assert (forall v' w', (v', w') ∈ edges -> edge adj u v' w') as Hedges'
      by (intros v' w' H; apply Hedges; by right).
    assert (edge adj u v w) as Hvw by (apply Hedges; left).
    destruct (match dist !! v with None => true | Some dv => bool_decide (d + w < dv) end)
      eqn:Hbetter.
    + destruct (IH Hedges' (<[v := d + w]> dist) (heappush pq (d + w, v)) dist' pq' Hrun)
        as (H1' & H2' & Hsub & Hmono & Hchg & Hrel).
      * intros x c Hx. destruct (decide (x = v)) as [->|Hne].
        -- rewrite lookup_insert_eq in Hx. injection Hx as <-.
           exists (pu ++ [v]). by eapply route_step.
        -- rewrite lookup_insert_ne in Hx by done. eauto.
      * intros c x Hx. unfold heappush in Hx. apply elem_of_cons in Hx as [[= -> ->]|Hx].
        -- exists (d + w). by rewrite lookup_insert_eq.
        -- destruct (H2 c x Hx) as (dx & Hdx & Hle). destruct (decide (x = v)) as [->|Hne].
           ++ exists (d + w). rewrite lookup_insert_eq. split; [done|].
              rewrite Hdx in Hbetter. apply bool_decide_eq_true in Hbetter. lia.
           ++ exists dx. by rewrite lookup_insert_ne.
      * split; [done|]. split; [done|]. split; [|split; [|split]].
        -- intros e He. apply Hsub. unfold heappush. by right.
        -- intros x dx Hx. destruct (decide (x = v)) as [->|Hne].
           ++ destruct (Hmono v (d + w)) as (dx' & Hdx' & Hle); [by rewrite lookup_insert_eq|].
              exists dx'. split; [done|]. rewrite Hx in Hbetter.
              apply bool_decide_eq_true in Hbetter. lia.
           ++ apply Hmono. by rewrite lookup_insert_ne.
        -- intros x dx' Hx. destruct (Hchg x dx' Hx) as [Hold|?]; [|by right].
           destruct (decide (x = v)) as [->|Hne].
           ++ rewrite lookup_insert_eq in Hold. injection Hold as <-.
              right. apply Hsub. unfold heappush. left.
           ++ rewrite lookup_insert_ne in Hold by done. by left.
        -- intros v' w' H. apply elem_of_cons in H as [[= -> ->]|H]; [|by apply Hrel].
           apply Hmono. by rewrite lookup_insert_eq.
    + destruct (IH Hedges' dist pq dist' pq' Hrun H1 H2)
        as (H1' & H2' & Hsub & Hmono & Hchg & Hrel).
      split; [done|]. split; [done|]. split; [done|]. split; [done|]. split; [done|].
      intros v' w' H. apply elem_of_cons in H as [[= -> ->]|H]; [|by apply Hrel].
      destruct (dist !! v) as [dv|] eqn:Hdv; [|discriminate].
      apply bool_decide_eq_false in Hbetter.
      destruct (Hmono v dv Hdv) as (dv' & Hdv' & Hle). exists dv'. split; [done|lia].
Qed.

Lemma src_loop_exact (adj : Adjacency) (src : node) (fuel : nat) :
  forall dist pq r,
    src_exact_inv adj src dist pq ->
    src_loop fuel adj dist pq = Ret r ->
    (forall v d, r !! v = Some d -> shortest adj src v d) /\
    (forall v, reach adj src v -> is_Some (r !! v)).
Proof.
  induction fuel as [|fuel IH]; intros dist pq r (H1 & H2 & H0 & H3); [discriminate|].
  simpl. destruct (heappop src_ltb pq) as [[[d u] pq']|] eqn:Hpop.
  2:{ apply heappop_nil in Hpop as ->. intros [= <-].
      assert (forall v p c, route adj src v p c -> exists dv, dist !! v = Some dv /\ dv <= c) as Hlow.
      { intros v p c Hr. induction Hr as [|n p c v w _ IHr He]; [done|].
        destruct IHr as (dn & Hdn & Hle).
        destruct (H3 n dn Hdn) as [Hin|Hrel]; [by apply elem_of_nil in Hin|].
        destruct (Hrel v w He) as (dv & Hdv & Hle'). exists dv. split; [done|lia]. }
      split.
      - intros v d Hd. split; [by apply H1|]. intros p c Hr.
        destruct (Hlow v p c Hr) as (dv & Hdv & Hle). congruence.
      - intros v Hr. apply reach_route in Hr as (p & c & Hr).
        destruct (Hlow v p c Hr) as (dv & -> & _). eauto. }
  assert (forall e, e ∈ pq <-> e = (d, u) \/ e ∈ pq') as Hin
    by (intros e; apply (heappop_in _ _ _ _ e Hpop)).
  destruct (H2 d u) as (du & Hdu & Hle); [apply Hin; by left|]. rewrite Hdu.
  destruct (bool_decide (d > du)) eqn:Hgt.
  - apply bool_decide_eq_true in Hgt. apply IH. split; [done|]. split; [|split; [done|]].
    + intros c x Hx. apply H2, Hin. by right.
    + intros x dx Hx. destruct (H3 x dx Hx) as [Hp|?]; [|by right].
      apply Hin in Hp as [[= -> ->]|Hp]; [|by left]. rewrite Hdu in Hx. injection Hx as ->. lia.
  - apply bool_decide_eq_false in Hgt. assert (d = du) as -> by lia.
    destruct (src_relax du (default [] (adj_get adj u)) dist pq') as [dist' pq''] eqn:Hrel.
    destruct (src_relax_exact adj src u du (default [] (adj_get adj u))
                ltac:(intros v w H; by apply edge_default) (H1 u du Hdu)
                dist pq' dist' pq'' Hrel H1)
      as (H1' & H2' & Hsub & Hmono & Hchg & Hdone).
    { intros c x Hx. apply H2, Hin. by right. }
    apply IH. split; [done|]. split; [done|]. split.
    { destruct H0 as (d0 & Hd0 & Hle0). destruct (Hmono src d0 Hd0) as (d0' & ? & ?).
      exists d0'. split; [done|lia]. }
    intros x dx Hx. destruct (Hchg x dx Hx) as [Hold|?]; [|by left].
    destruct (decide (x = u)) as [->|Hne].
    + right. intros v w He. rewrite Hdu in Hold. injection Hold as <-.
      apply Hdone. by apply edge_default.
    + destruct (H3 x dx Hold) as [Hp|Hr].
      * left. apply Hin in Hp as [[= _ ->]|Hp]; [done|by apply Hsub].
      * right. intros v w He. destruct (Hr v w He) as (dv & Hdv & Hlv).
        destruct (Hmono v dv Hdv) as (dv' & ? & ?). exists dv'. split; [done|lia].
Qed.

Lemma dijkstra_from_source_exact (adj : Adjacency) (src : node) (fuel : nat)
    (r : gmap node Z) :
  dijkstra_from_source fuel adj src = Ret r ->
  (forall v d, r !! v = Some d -> shortest adj src v d) /\
  (forall v, reach adj src v -> is_Some (r !! v)).
Proof.
  apply src_loop_exact. split; [|split; [|split]].
  - intros v d H. apply lookup_singleton_Some in H as [<- <-]. exists [src]. apply route_start.
  - intros d u H. apply list_elem_of_singleton in H as [= -> ->].
    exists 0. by rewrite lookup_singleton_eq.
  - exists 0. by rewrite lookup_singleton_eq.
  - intros u du H. apply lookup_singleton_Some in H as [<- <-]. left. left.
Qed.
(** *** [reverse_graph] turns every edge around *)

Lemma adj_get_dict_get (adj : Adjacency) (u : node) : adj_get adj u = dict_get adj u.
Proof. induction adj as [|[k e] adj IH]; simpl; [done|]. by rewrite IH. Qed.

Lemma dict_get_set {V : Type} (d : list (node * V)) (k k' : node) (v : V) :
  dict_get (dict_set d k v) k' = if decide (k = k') then Some v else dict_get d k'.
Proof.
  induction d as [|[k0 v0] d IH]; simpl.
  - destruct (decide (k = k')); [done|done].
  - destruct (decide (k0 = k)) as [->|Hne]; simpl.
    + destruct (decide (k = k')); [done|done].
    + destruct (decide (k0 = k')) as [->|Hne'].
      * by rewrite decide_False by congruence.
      * exact IH.
Qed.

Lemma dict_set_keys {V : Type} (d : list (node * V)) (k : node) (v : V) (x : node) :
  x ∈ map fst (dict_set d k v) <-> x = k \/ x ∈ map fst d.
Proof.
  induction d as [|[k0 v0] d IH]; simpl.
  - rewrite list_elem_of_singleton. split; [by left|]. intros [?|H]; [done|].
    by apply elem_of_nil in H.
  - destruct (decide (k0 = k)) as [->|Hne]; simpl; rewrite !elem_of_cons.
    + tauto.
    + rewrite IH. tauto.
Qed.

Lemma dict_set_NoDup {V : Type} (d : list (node * V)) (k : node) (v : V) :
  NoDup (map fst d) -> NoDup (map fst (dict_set d k v)).
Proof.
  induction d as [|[k0 v0] d IH]; simpl; intros Hnd.
  - apply NoDup_singleton.
  - apply NoDup_cons in Hnd as [Hk0 Hnd].
    destruct (decide (k0 = k)) as [->|Hne]; simpl; apply NoDup_cons.
    + done.
    + split; [|by apply IH]. rewrite dict_set_keys. intros [?|?]; [congruence|done].
Qed.

Lemma listed_edge (adj : Adjacency) (u v : node) (w : Z) :
  NoDup (keys adj) -> listed adj u v w <-> edge adj u v w.
Proof.
  intros Hnd. split.
  - intros (edges & Hin & Hvw). exists edges. split; [by apply adj_get_unique|done].
  - intros (edges & Hget & Hvw). exists edges. split; [by apply adj_get_in|done].
Qed.

Lemma rev_append_edge (rev : Adjacency) (v u : node) (w : Z) (x y : node) (z : Z) :
  edge (rev_append rev v u w) x y z <-> edge rev x y z \/ (x = v /\ y = u /\ z = w).
Proof.
  unfold edge, rev_append. setoid_rewrite adj_get_dict_get. setoid_rewrite dict_get_set.
  destruct (decide (v = x)) as [->|Hne].
  - split.
    + intros (edges & [= <-] & Hin). apply elem_of_app in Hin as [Hin|Hin].
      * left. destruct (dict_get rev x) as [e|]; simpl in Hin; [eauto|].
        by apply elem_of_nil in Hin.
      * apply list_elem_of_singleton in Hin as [= -> ->]. by right.
    + intros [(edges & Hget & Hin)|(_ & -> & ->)]; eexists; (split; [reflexivity|]).
      * rewrite Hget. simpl. apply elem_of_app. by left.
      * apply elem_of_app. right. left.
  - split; [by left|]. intros [?|(? & _)]; [done|congruence].
Qed.

Lemma rev_append_NoDup (rev : Adjacency) (v u : node) (w : Z) :
  NoDup (keys rev) -> NoDup (keys (rev_append rev v u w)).
Proof. apply dict_set_NoDup. Qed.

Lemma reverse_edges_spec (u : node) (edges : list (node * Z)) :
  forall rev x y z,
    edge (foldl (fun rev (e : node * Z) => rev_append rev e.1 u e.2) rev edges) x y z <->
    edge rev x y z \/ (y = u /\ (x, z) ∈ edges).
Proof.
  induction edges as [|[v w] edges IH]; intros rev x y z; simpl.
  - split; [by left|]. intros [?|(_ & H)]; [done|by apply elem_of_nil in H].
  - rewrite IH, rev_append_edge, elem_of_cons. split.
    + intros [[?|(-> & -> & ->)]|(-> & ?)]; [by left|right|right]; eauto.
    + intros [?|(-> & [[= -> ->]|?])]; [by left; left|left; by right|right; eauto].
Qed.

Lemma reverse_items_spec (items : Adjacency) :
  forall rev x y z,
    edge (foldl (fun rev (item : node * list (node * Z)) =>
                   foldl (fun rev (e : node * Z) => rev_append rev e.1 item.1 e.2) rev item.2)
            rev items) x y z <->
    edge rev x y z \/ listed items y x z.
Proof.
  induction items as [|[u edges] items IH]; intros rev x y z; simpl.
  - split; [by left|]. intros [?|(e & H & _)]; [done|by apply elem_of_nil in H].
  - rewrite IH, reverse_edges_spec. unfold listed. split.
    + intros [[?|(-> & ?)]|(e & He & Hin)]; [by left|right|right].
      * exists edges. split; [left|done].
      * exists e. split; [by right|done].
    + intros [?|(e & He & Hin)]; [by left; left|].
      apply elem_of_cons in He as [[= -> ->]|He]; [left; right; eauto|right; eauto].
Qed.

Lemma reverse_graph_listed (adj : Adjacency) (v u : node) (w : Z) :
  edge (reverse_graph adj) v u w <-> listed adj u v w.
Proof.
  unfold reverse_graph. rewrite reverse_items_spec. split; [|by right].
  intros [(e & [=] & _)|?]; done.
Qed.

Lemma reverse_graph_NoDup (adj : Adjacency) : NoDup (keys (reverse_graph adj)).
Proof.
  unfold reverse_graph. apply foldl_invariant; [apply NoDup_nil_2|].
  intros rev [u edges] _ Hrev. simpl. apply foldl_invariant; [done|].
  intros rev' [v w] _ Hrev'. by apply rev_append_NoDup.
Qed.

Lemma reverse_graph_edge (adj : Adjacency) (u v : node) (w : Z) :
  NoDup (keys adj) -> edge (reverse_graph adj) v u w <-> edge adj u v w.
Proof. intros Hnd. by rewrite reverse_graph_listed, listed_edge. Qed.

Lemma all_weights_listed (adj : Adjacency) (w : Z) :
  w ∈ all_weights adj <-> exists u v, listed adj u v w.
Proof.
  unfold all_weights, listed. rewrite list_elem_of_In, in_concat. split.
  - intros (ws & Hws & Hw). apply in_map_iff in Hws as ([u edges] & <- & Hin).
    apply in_map_iff in Hw as ([v w'] & <- & Hvw). simpl in *.
    exists u, v, edges. split; by apply list_elem_of_In.
  - intros (u & v & edges & Hin & Hvw). exists (map snd edges). split.
    + apply in_map_iff. exists (u, edges). split; [done|]. by apply list_elem_of_In.
    + apply in_map_iff. exists (v, w). split; [done|]. by apply list_elem_of_In.
Qed.

Lemma reverse_graph_nonneg (adj : Adjacency) :
  nonneg_weights adj -> nonneg_weights (reverse_graph adj).
Proof.
  unfold nonneg_weights. rewrite !Forall_forall. intros Hnn w Hw.
  apply all_weights_listed in Hw as (v & u & Hl).
  apply (listed_edge _ _ _ _ (reverse_graph_NoDup adj)) in Hl.
  apply reverse_graph_listed in Hl. apply Hnn, all_weights_listed. eauto.
Qed.

(** Paths, seen from their first edge. *)
Lemma route_cons (adj : Adjacency) (s v n : node) (w : Z) (p : list node) (c : Z) :
  edge adj s v w -> route adj v n p c -> route adj s n (s :: p) (w + c).
Proof.
  intros He Hr. induction Hr as [|n p c x wx _ IH Hx].
  - replace (w + 0) with (0 + w) by lia. apply (route_step adj s s [s] 0 v w); [|done].
    apply route_start.
  - replace (w + (c + wx)) with (w + c + wx) by lia.
    apply (route_step adj s n (s :: p) (w + c) x wx); [done|done].
Qed.

Lemma route_app (adj : Adjacency) (a b c : node) (p q : list node) (x y : Z) :
  route adj a b p x -> route adj b c q y -> exists r, route adj a c r (x + y).
Proof.
  intros Hp Hq. induction Hq as [|n q y v w _ IH He].
  - exists p. by replace (x + 0) with x by lia.
  - destruct IH as [r Hr]. exists (r ++ [v]). replace (x + (y + w)) with (x + y + w) by lia.
    by eapply route_step.
Qed.

Lemma route_reverse (adj rev : Adjacency) (s n : node) (p : list node) (c : Z) :
  (forall u v w, edge rev u v w -> edge adj v u w) ->
  route rev s n p c -> exists p', route adj n s p' c.
Proof.
  intros Hrev Hr. induction Hr as [|n p c v w _ IH He].
  - exists [s]. apply route_start.
  - destruct IH as [p' Hp']. exists (v :: p'). replace (c + w) with (w + c) by lia.
    eapply route_cons; [|exact Hp']. by apply Hrev.
Qed.
(** *** The landmark tables hold the shortest distances *)

Lemma shortest_unique (adj : Adjacency) (s v : node) (d d' : Z) :
  shortest adj s v d -> shortest adj s v d' -> d = d'.
Proof.
  intros [[p Hp] Hmin] [[p' Hp'] Hmin'].
  specialize (Hmin _ _ Hp'). specialize (Hmin' _ _ Hp). lia.
Qed.

Lemma dijkstra_from_source_exact_from (adj : Adjacency) (src : node) (fuel : nat) :
  nonneg_weights adj -> (src_fuel adj <= fuel)%nat ->
  exists dist, dijkstra_from_source fuel adj src = Ret dist /\ exact_from adj src dist.
Proof.
  intros Hnn Hf. destruct (dijkstra_from_source_returns adj Hnn fuel src Hf) as [dist Hrun].
  exists dist. split; [done|].
  destruct (dijkstra_from_source_exact adj src fuel dist Hrun) as [Hsound Hall].
  intros v d. split; [apply Hsound|]. intros Hs.
  destruct Hs as [[p Hp] Hmin]. destruct (Hall v (route_reach _ _ _ _ _ Hp)) as [d' Hd'].
  rewrite Hd'. f_equal. eapply shortest_unique; [by apply Hsound|]. split; eauto.
Qed.

Lemma shortest_reverse (adj : Adjacency) (L v : node) (d : Z) :
  NoDup (keys adj) -> shortest (reverse_graph adj) L v d <-> shortest adj v L d.
Proof.
  intros Hnd.
  assert (forall a b p c, route (reverse_graph adj) a b p c -> exists p', route adj b a p' c) as H1.
  { intros a b p c. apply route_reverse. intros x y w. by apply reverse_graph_edge. }
  assert (forall a b p c, route adj a b p c -> exists p', route (reverse_graph adj) b a p' c) as H2.
  { intros a b p c. apply route_reverse. intros x y w. by apply reverse_graph_edge. }
  split; intros [[p Hp] Hmin]; (split; [eauto|]); intros p' c Hp'.
  - destruct (H2 _ _ _ _ Hp') as [q Hq]. eauto.
  - destruct (H1 _ _ _ _ Hp') as [q Hq]. eauto.
Qed.

Lemma build_tables_loop_exact (adj : Adjacency) (fuel : nat) :
  NoDup (keys adj) -> nonneg_weights adj -> (tables_fuel adj <= fuel)%nat ->
  forall Ls fwd bwd,
    exact_tables adj fwd bwd ->
    exists fwd' bwd',
      build_tables_loop fuel adj (reverse_graph adj) Ls fwd bwd = Ret (fwd', bwd') /\
      exact_tables adj fwd' bwd' /\
      forall L, L ∈ map fst fwd' <-> L ∈ Ls \/ L ∈ map fst fwd.
Proof.
  intros Hnd Hnn Hf. unfold tables_fuel in Hf.
  induction Ls as [|L Ls IH]; intros fwd bwd Hex; simpl.
  - exists fwd, bwd. split; [done|]. split; [done|]. intros L. rewrite elem_of_nil. tauto.
  - destruct (dijkstra_from_source_exact_from adj L fuel Hnn ltac:(lia)) as (f & -> & Hf').
    destruct (dijkstra_from_source_exact_from (reverse_graph adj) L fuel
                (reverse_graph_nonneg adj Hnn) ltac:(lia)) as (b & -> & Hb').
    simpl. destruct Hex as (Hkeys & Hfwd & Hbwd).
    destruct (IH (dict_set fwd L f) (dict_set bwd L b)) as (fwd' & bwd' & -> & Hex' & Hin).
    + split; [|split].
      * clear -Hkeys. revert bwd Hkeys. induction fwd as [|[k x] fwd IHf];
          intros [|[k' y] bwd] [=]; simpl; [done|]. subst k'.
        destruct (decide (k = L)); simpl; [by f_equal|]. f_equal. by apply IHf.
      * intros L' f'. rewrite dict_get_set. destruct (decide (L = L')) as [->|_]; [|apply Hfwd].
        by intros [= <-].
      * intros L' b'. rewrite dict_get_set. destruct (decide (L = L')) as [->|_]; [|apply Hbwd].
        intros [= <-] v d. rewrite (Hb' v d). by apply shortest_reverse.
    + exists fwd', bwd'. split; [done|]. split; [done|].
      intros L'. rewrite Hin, dict_set_keys, elem_of_cons. tauto.
Qed.

Lemma build_tables_exact (adj : Adjacency) (landmarks : list node) (fuel : nat) :
  NoDup (keys adj) -> nonneg_weights adj -> (tables_fuel adj <= fuel)%nat ->
  exists fwd bwd,
    build_tables fuel adj landmarks = Ret (fwd, bwd) /\
    exact_tables adj fwd bwd /\
    forall L, L ∈ map fst fwd <-> L ∈ landmarks.
Proof.
  intros Hnd Hnn Hf.
  destruct (build_tables_loop_exact adj fuel Hnd Hnn Hf landmarks [] [])
    as (fwd & bwd & Hrun & Hex & Hin).
  - split; [done|]. split; intros L x; discriminate.
  - exists fwd, bwd. split; [done|]. split; [done|].
    intros L. rewrite Hin. simpl. rewrite elem_of_nil. tauto.
Qed.
(** *** The ALT heuristic on graphs that store every edge both ways *)

Lemma symmetricb_symmetric (adj : Adjacency) : symmetricb adj = true -> symmetric adj.
Proof.
  unfold symmetricb. rewrite forallb_forall. intros H u v w (edges & Hget & Hin).
  apply adj_get_in, list_elem_of_In, H in Hget. simpl in Hget.
  rewrite forallb_forall in Hget. apply list_elem_of_In, Hget in Hin. simpl in Hin.
  apply bool_decide_eq_true in Hin. by apply edge_default.
Qed.

Lemma dict_get_is_Some {V : Type} (d : list (node * V)) (k : node) :
  k ∈ map fst d -> is_Some (dict_get d k).
Proof.
  induction d as [|[k0 v0] d IH]; simpl; intros H; [by apply elem_of_nil in H|].
  destruct (decide (k0 = k)); [eauto|]. apply IH.
  apply elem_of_cons in H as [?|?]; [congruence|done].
Qed.

Lemma alt_term_spec (P : Z -> Prop) (a b : cost) (best : Z) :
  P best -> (forall x y, a = Fin x -> b = Fin y -> P (Z.abs (x - y))) ->
  P (alt_term a b best).
Proof.
  intros Hb Ht. unfold alt_term. destruct a as [x|], b as [y|]; try done.
  destruct (bool_decide (Z.abs (x - y) > best)); [by apply Ht|done].
Qed.

Lemma dist_get_inf_Fin (dist : gmap node Z) (u : node) (x : Z) :
  dist_get_inf dist u = Fin x <-> dist !! u = Some x.
Proof. unfold dist_get_inf. destruct (dist !! u); split; congruence. Qed.

Lemma alt_scan_spec (P : Z -> Prop) (goal u : node) (fwd bwd : table) (Ls : list node) :
  (forall L, L ∈ Ls -> is_Some (dict_get fwd L) /\ is_Some (dict_get bwd L)) ->
  (forall L f x y, dict_get fwd L = Some f -> f !! goal = Some x -> f !! u = Some y ->
     P (Z.abs (x - y))) ->
  (forall L b x y, dict_get bwd L = Some b -> b !! u = Some x -> b !! goal = Some y ->
     P (Z.abs (x - y))) ->
  forall best, P best -> exists z, alt_scan goal u Ls fwd bwd best = Ret z /\ P z.
Proof.
  intros Hkeys Hf Hb. induction Ls as [|L Ls IH]; intros best Hbest; simpl; [eauto|].
  destruct (Hkeys L) as [[f Hfl] [b Hbl]]; [left|].
  unfold table_index. rewrite Hfl, Hbl. simpl. apply IH.
  - intros L' H. apply Hkeys. by right.
  - apply alt_term_spec; [apply alt_term_spec; [done|]|].
    + intros x y Hx Hy. apply dist_get_inf_Fin in Hx, Hy. by eapply Hf.
    + intros x y Hx Hy. apply dist_get_inf_Fin in Hx, Hy. by eapply Hb.
Qed.

Lemma alt_heuristic_bound (adj : Adjacency) (fwd bwd : table) (goal u : node) (c c' : Z)
    (p p' : list node) :
  nonneg_weights adj -> exact_tables adj fwd bwd ->
  route adj u goal p c -> route adj goal u p' c' ->
  exists z, alt_heuristic_factory goal fwd bwd u goal = Ret z /\ 0 <= z <= Z.max c c'.
Proof.
  intros Hnn (Hkeys & Hfwd & Hbwd) Hp Hp'. unfold alt_heuristic_factory.
  pose proof (route_nonneg _ _ _ _ _ Hnn Hp) as Hc.
  apply (alt_scan_spec (fun z => 0 <= z <= Z.max c c')).
  - intros L HL. split; apply dict_get_is_Some; [done|by rewrite <- Hkeys].
  - intros L f x y Hl Hx Hy.
    apply (Hfwd L f Hl) in Hx as [[qx Hqx] Hx], Hy as [[qy Hqy] Hy].
    destruct (route_app _ _ _ _ _ _ _ _ Hqy Hp) as [r1 Hr1].
    destruct (route_app _ _ _ _ _ _ _ _ Hqx Hp') as [r2 Hr2].
    specialize (Hx _ _ Hr1). specialize (Hy _ _ Hr2). lia.
  - intros L b x y Hl Hx Hy.
    apply (Hbwd L b Hl) in Hx as [[qx Hqx] Hx], Hy as [[qy Hqy] Hy].
    destruct (route_app _ _ _ _ _ _ _ _ Hp Hqy) as [r1 Hr1].
    destruct (route_app _ _ _ _ _ _ _ _ Hp' Hqx) as [r2 Hr2].
    specialize (Hx _ _ Hr1). specialize (Hy _ _ Hr2). lia.
  - lia.
Qed.

Lemma alt_heuristic_returns (adj : Adjacency) (fwd bwd : table) (goal u : node) :
  exact_tables adj fwd bwd ->
  exists z, alt_heuristic_factory goal fwd bwd u goal = Ret z /\ 0 <= z.
Proof.
  intros (Hkeys & _ & _). unfold alt_heuristic_factory.
  apply (alt_scan_spec (fun z => 0 <= z)); [| | |lia].
  - intros L HL. split; apply dict_get_is_Some; [done|by rewrite <- Hkeys].
  - intros. lia.
  - intros. lia.
Qed.

Lemma alt_admissible_symmetric (adj : Adjacency) (fwd bwd : table) (goal : node) :
  nonneg_weights adj -> symmetric adj -> exact_tables adj fwd bwd ->
  admissible adj (alt_heuristic_factory goal fwd bwd) goal.
Proof.
  intros Hnn Hsym Hex u.
  destruct (alt_heuristic_returns adj fwd bwd goal u Hex) as (z & Hz & Hz0).
  exists z. split; [done|]. split; [done|]. intros p c Hp.
  destruct (route_reverse adj adj u goal p c Hsym Hp) as [p' Hp'].
  destruct (alt_heuristic_bound adj fwd bwd goal u c c p p' Hnn Hex Hp Hp')
    as (z' & Hz' & Hle). rewrite Hz in Hz'. injection Hz' as <-. lia.
Qed.
Lemma reverse_graph_nonempty (adj : Adjacency) (v : node) (edges : list (node * Z)) :
  adj_get (reverse_graph adj) v = Some edges -> edges <> [].
Proof.
  revert v edges. unfold reverse_graph.
  apply (foldl_invariant (fun rev => forall v edges, adj_get rev v = Some edges -> edges <> []));
    [discriminate|].
  intros rev [u es] _ Hrev. simpl. apply foldl_invariant; [done|].
  intros rev' [x w] _ Hrev' v edges. unfold rev_append. simpl.
  rewrite adj_get_dict_get, dict_get_set. destruct (decide (x = v)) as [->|_].
  - intros [= <-]. by destruct (default [] (dict_get rev' v)).
  - rewrite <- adj_get_dict_get. apply Hrev'.
Qed.

Lemma reverse_graph_keys (adj : Adjacency) (v : node) :
  v ∈ keys (reverse_graph adj) <-> exists u w, listed adj u v w.
Proof.
  split.
  - intros Hv. destruct (in_adj_get _ _ Hv) as [edges Hget].
    pose proof (reverse_graph_nonempty _ _ _ Hget) as Hne.
    destruct edges as [|[u w] edges]; [done|]. exists u, w.
    apply reverse_graph_listed. exists ((u, w) :: edges). split; [done|left].
  - intros (u & w & Hl). apply reverse_graph_listed in Hl as (edges & Hget & _).
    apply adj_get_in in Hget. apply list_elem_of_fmap. by exists (v, edges).
Qed.

(** *** What the landmark module computes *)

Lemma weighted_graph_dict : NoDup (keys weighted_graph).
Proof. apply (bool_decide_unpack _). vm_compute. exact I. Qed.

(** X9.  [reverse_graph] turns every edge around and keeps its weight:
    [(u, w)] is an edge out of [v] in the result exactly when [(v, w)] is
    an edge out of [u] in the graph.  The keys of the result are the
    nodes that have an incoming edge, each once, and reversing twice
    gives back the edges of the graph. *)
Theorem reverse_graph_reverses_edges (adj : Adjacency) :
  NoDup (keys adj) ->
  (forall u v w, edge (reverse_graph adj) v u w <-> edge adj u v w) /\
  (forall v, v ∈ keys (reverse_graph adj) <-> exists u w, edge adj u v w) /\
  NoDup (keys (reverse_graph adj)) /\
  (forall u v w, edge (reverse_graph (reverse_graph adj)) u v w <-> edge adj u v w).
Proof.
  intros Hnd. split; [|split; [|split]].
  - intros u v w. by apply reverse_graph_edge.
  - intros v. rewrite reverse_graph_keys. by setoid_rewrite (listed_edge adj _ _ _ Hnd).
  - apply reverse_graph_NoDup.
  - intros u v w. rewrite reverse_graph_edge by apply reverse_graph_NoDup.
    by apply reverse_graph_edge.
Qed.

Lemma reverse_graph_reverses_edges_witness :
  edge (reverse_graph weighted_graph) 3 2 1 /\ 0 ∉ keys (reverse_graph weighted_graph).
Proof.
  destruct (reverse_graph_reverses_edges weighted_graph weighted_graph_dict)
    as (Hedge & Hkeys & _).
  split.
  - apply Hedge. eexists. split; [reflexivity|]. left.
  - vm_compute. intros H. apply list_elem_of_In in H. simpl in H.
    destruct H as [H|[H|[H|H]]]; (discriminate || done).
Defined.

Lemma two_way_graph_facts :
  NoDup (keys two_way_graph) /\ closed two_way_graph /\ nonneg_weights two_way_graph /\
  symmetric two_way_graph /\ 0 ∈ keys two_way_graph.
Proof.
  split; [apply (bool_decide_unpack _); vm_compute; exact I|].
  split; [apply closedb_closed; vm_compute; reflexivity|].
  split; [apply (bool_decide_unpack _); vm_compute; exact I|].
  split; [apply symmetricb_symmetric; vm_compute; reflexivity|].
  apply (bool_decide_unpack _); vm_compute; exact I.
Qed.

Lemma two_way_graph_route : route two_way_graph 0 3 [0; 1; 2; 3] 4.
Proof.
  apply (route_step _ _ 2 [0; 1; 2] 3 3 1).
  - apply (route_step _ _ 1 [0; 1] 1 2 2).
    + apply (route_step _ _ 0 [0] 0 1 1); [apply route_start|].
      eexists. split; [reflexivity|]. left.
    + eexists. split; [reflexivity|]. right. left.
  - eexists. split; [reflexivity|]. right. right. left.
Qed.

(** *** The component ids tell the weak components apart, and only them *)

Lemma und_append_get (und : gmap node (list node)) (a b x y : node) :
  y ∈ und_get (und_append und a b) x <-> y ∈ und_get und x \/ (x = a /\ y = b).
Proof.
  unfold und_get, und_append. destruct (decide (a = x)) as [->|Hne].
  - rewrite lookup_insert_eq. simpl. rewrite elem_of_app, list_elem_of_singleton.
    split; [intros [?| ->]; [by left|by right]|intros [?|[_ ->]]; [by left|by right]].
  - rewrite lookup_insert_ne by done. split; [by left|]. intros [?|[-> _]]; done.
Qed.

Lemma undirected_edges_get (u : node) (edges : list (node * Z)) :
  forall und x y,
    y ∈ und_get (foldl (fun und (e : node * Z) =>
                          und_append (und_append und u e.1) e.1 u) und edges) x <->
    y ∈ und_get und x \/
    (x = u /\ exists w, (y, w) ∈ edges) \/ (y = u /\ exists w, (x, w) ∈ edges).
Proof.
  induction edges as [|[v w] edges IH]; intros und x y; simpl.
  - split; [by left|].
    intros [?|[[_ [w H]]|[_ [w H]]]]; [done| |]; by apply elem_of_nil in H.
  - rewrite IH, !und_append_get. split.
    + intros [[[?|[-> ->]]|[-> ->]]|[[-> [w' H]]|[-> [w' H]]]].
      * by left.
      * right. left. split; [done|]. exists w. left.
      * right. right. split; [done|]. exists w. left.
      * right. left. split; [done|]. exists w'. by right.
      * right. right. split; [done|]. exists w'. by right.
    + intros [?|[[-> [w' H]]|[-> [w' H]]]].
      * by left; left; left.
      * apply elem_of_cons in H as [[= -> ->]|H].
        -- left. left. by right.
        -- right. left. eauto.
      * apply elem_of_cons in H as [[= -> ->]|H].
        -- left. by right.
        -- right. right. eauto.
Qed.

Lemma undirected_items_get (x y : node) (items : Adjacency) :
  forall und,
    y ∈ und_get (foldl (fun und (item : node * list (node * Z)) =>
                          foldl (fun und (e : node * Z) =>
                                   und_append (und_append und item.1 e.1) e.1 item.1)
                            und item.2) und items) x <->
    y ∈ und_get und x \/ (exists w, listed items x y w) \/ (exists w, listed items y x w).
Proof.
  induction items as [|[u edges] items IH]; intros und; simpl.
  - split; [by left|].
    intros [?|[(w & e & H & _)|(w & e & H & _)]]; [done| |]; by apply elem_of_nil in H.
  - rewrite IH, undirected_edges_get. unfold listed. split.
    + intros [[?|[[-> [w H]]|[-> [w H]]]]|[(w & e & ? & ?)|(w & e & ? & ?)]].
      * by left.
      * right. left. exists w, edges. split; [left|done].
      * right. right. exists w, edges. split; [left|done].
      * right. left. exists w, e. split; [by right|done].
      * right. right. exists w, e. split; [by right|done].
    + intros [?|[(w & e & He & ?)|(w & e & He & ?)]].
      * by left; left.
      * apply elem_of_cons in He as [[= -> ->]|He].
        -- left. right. left. eauto.
        -- right. left. exists w, e. eauto.
      * apply elem_of_cons in He as [[= -> ->]|He].
        -- left. right. right. eauto.
        -- right. right. exists w, e. eauto.
Qed.

Lemma undirected_get (adj : Adjacency) (x y : node) :
  y ∈ und_get (undirected adj) x <->
  (exists w, listed adj x y w) \/ (exists w, listed adj y x w).
Proof.
  unfold undirected. rewrite undirected_items_get. unfold und_get at 1.
  rewrite lookup_empty. simpl. rewrite elem_of_nil. tauto.
Qed.

Lemma undirected_link (adj : Adjacency) (x y : node) :
  NoDup (keys adj) -> y ∈ und_get (undirected adj) x <-> link adj x y.
Proof.
  intros Hnd. rewrite undirected_get. unfold link, step.
  split; (intros [[w H]|[w H]]; [left|right]; exists w; by apply (listed_edge adj _ _ _ Hnd)).
Qed.

Lemma wc_mark_done (cid : Z) (ys : list node) :
  forall comp q comp' q',
    wc_mark cid ys comp q = (comp', q') ->
    comp ⊆ comp' /\
    (forall y, y ∈ q -> y ∈ q') /\
    (forall y, y ∈ q' -> y ∈ q \/ comp' !! y = Some cid) /\
    (forall y c, comp' !! y = Some c ->
       comp !! y = Some c \/ (c = cid /\ y ∈ q' /\ y ∈ ys)) /\
    (forall y, y ∈ ys -> exists c, comp' !! y = Some c /\ (comp !! y = Some c \/ c = cid)).
Proof.
  induction ys as [|y ys IH]; intros comp q comp' q'; simpl.
  - intros [= <- <-]. split; [done|]. split; [done|]. split; [by left|]. split; [by left|].
    intros y H. by apply elem_of_nil in H.
  - destruct (comp !! y) as [cy|] eqn:Hy.
    + intros Hrun. destruct (IH _ _ _ _ Hrun) as (Hsub & Hq & Hq' & Hnew & Hys).
      split; [done|]. split; [done|]. split; [done|]. split.
      * intros z c Hz. destruct (Hnew z c Hz) as [?|(? & ? & ?)]; [by left|].
        right. split; [done|]. split; [done|by right].
      * intros y' H. apply elem_of_cons in H as [->|H]; [|by apply Hys].
        exists cy. split; [by eapply lookup_weaken|by left].
    + intros Hrun. destruct (IH _ _ _ _ Hrun) as (Hsub & Hq & Hq' & Hnew & Hys).
      assert (comp' !! y = Some cid) as Hy'.
      { eapply lookup_weaken; [|exact Hsub]. by rewrite lookup_insert_eq. }
      split; [|split; [|split; [|split]]].
      * etrans; [|exact Hsub]. by apply insert_subseteq.
      * intros z Hz. apply Hq, elem_of_app. by left.
      * intros z Hz. destruct (Hq' z Hz) as [Hin|?]; [|by right].
        apply elem_of_app in Hin as [?|Hin]; [by left|].
        apply list_elem_of_singleton in Hin as ->. by right.
      * intros z c Hz. destruct (Hnew z c Hz) as [Hold|(? & ? & ?)].
        -- destruct (decide (y = z)) as [<-|Hne].
           ++ rewrite lookup_insert_eq in Hold. injection Hold as <-. right. split; [done|].
              split; [|left]. apply Hq, elem_of_app. right. left.
           ++ rewrite lookup_insert_ne in Hold by done. by left.
        -- right. split; [done|]. split; [done|by right].
      * intros y' H. apply elem_of_cons in H as [->|H].
        -- exists cid. split; [done|by right].
        -- destruct (Hys y' H) as (c & Hc & Hor). exists c. split; [done|].
           destruct Hor as [Hold|?]; [|by right].
           destruct (decide (y = y')) as [<-|Hne].
           ++ rewrite lookup_insert_eq in Hold. injection Hold as <-. by right.
           ++ rewrite lookup_insert_ne in Hold by done. by left.
Qed.

Lemma wc_flood_done (und : gmap node (list node)) (cid : Z) (P : node -> Prop) (fuel : nat) :
  (forall x y, y ∈ und_get und x -> x ∈ und_get und y) ->
  (forall x y, y ∈ und_get und x -> P y) ->
  forall q comp comp',
    wc_flood fuel und cid q comp = Ret comp' ->
    (forall y, y ∈ q -> comp !! y = Some cid) ->
    wc_done und comp q ->
    (forall x, is_Some (comp !! x) -> P x) ->
    wc_done und comp' [] /\ (forall x, is_Some (comp' !! x) -> P x).
Proof.
  intros Hsym HP. induction fuel as [|fuel IH]; intros q comp comp'; [discriminate|].
  simpl. destruct q as [|x q]; [intros [= <-]; by split|].
  destruct (wc_mark cid (default [] (und !! x)) comp q) as [comp1 q1] eqn:Hmark.
  intros Hrun Hq Hdone Hdom.
  destruct (wc_mark_done _ _ _ _ _ _ Hmark) as (Hsub & Hq1 & Hq1' & Hnew & Hys).
  assert (comp !! x = Some cid) as Hx by (apply Hq; left).
  apply (IH _ _ _ Hrun).
  - intros y Hy. destruct (Hq1' y Hy) as [Hin|?]; [|done].
    eapply lookup_weaken; [|exact Hsub]. apply Hq. by right.
  - intros z c Hz. destruct (Hnew z c Hz) as [Hold|(_ & ? & _)]; [|by left].
    destruct (Hdone z c Hold) as [Hin|Hnb].
    + apply elem_of_cons in Hin as [->|Hin]; [|left; by apply Hq1].
      right. intros y Hy. rewrite Hx in Hold. injection Hold as <-.
      destruct (Hys y Hy) as (c' & Hc' & [Hold'| ->]); [|done].
      rewrite Hc'. f_equal.
      destruct (Hdone y c' Hold') as [Hin'|Hnb'].
      * specialize (Hq y Hin'). congruence.
      * specialize (Hnb' x (Hsym _ _ Hy)). congruence.
    + right. intros y Hy. eapply lookup_weaken; [|exact Hsub]. by apply Hnb.
  - intros z [c Hz]. destruct (Hnew z c Hz) as [Hold|(_ & _ & Hin)]; [by apply Hdom|].
    by eapply HP.
Qed.

Lemma wc_components_done (und : gmap node (list node)) (P : node -> Prop) (fuel : nat)
    (starts : list node) :
  (forall x y, y ∈ und_get und x -> x ∈ und_get und y) ->
  (forall x y, y ∈ und_get und x -> P y) ->
  (forall s, s ∈ starts -> P s) ->
  forall cid comp comp',
    wc_components fuel und starts cid comp = Ret comp' ->
    wc_done und comp [] ->
    (forall x, is_Some (comp !! x) -> P x) ->
    wc_done und comp' [] /\ (forall x, is_Some (comp' !! x) -> P x).
Proof.
  intros Hsym HP. induction starts as [|s starts IH]; intros Hst cid comp comp'; simpl.
  - intros [= <-]. by split.
  - assert (forall s', s' ∈ starts -> P s') as Hst' by (intros; apply Hst; by right).
    destruct (comp !! s) as [c|] eqn:Hs; [by apply IH|].
    destruct (wc_flood fuel und (cid + 1) [s] (<[s := cid + 1]> comp)) as [comp1| |] eqn:Hflood;
      simpl; try discriminate.
    intros Hrun Hdone Hdom.
    destruct (wc_flood_done und (cid + 1) P fuel Hsym HP _ _ _ Hflood) as [Hdone1 Hdom1].
    + intros y Hy. apply list_elem_of_singleton in Hy as ->. by rewrite lookup_insert_eq.
    + intros z c Hz. destruct (decide (s = z)) as [<-|Hne]; [left; left|].
      rewrite lookup_insert_ne in Hz by done. right. intros y Hy.
      destruct (Hdone z c Hz) as [Hin|Hnb]; [by apply elem_of_nil in Hin|].
      rewrite lookup_insert_ne; [by apply Hnb|]. intros <-. specialize (Hnb s Hy). congruence.
    + intros z [c Hz]. destruct (decide (s = z)) as [<-|Hne]; [apply Hst; left|].
      rewrite lookup_insert_ne in Hz by done. apply Hdom. eauto.
    + by apply (IH Hst' _ _ _ Hrun).
Qed.

Lemma build_weak_components_exact (adj : Adjacency) (fuel : nat) :
  NoDup (keys adj) -> closed adj -> (2 + 2 * length (keys adj) <= fuel)%nat ->
  exists comp,
    _build_weak_components fuel adj = Ret comp /\
    (forall s, is_Some (comp !! s) <-> s ∈ keys adj) /\
    (forall s g, s ∈ keys adj -> g ∈ keys adj -> comp !! s = comp !! g <-> wconn adj s g).
Proof.
  intros Hnd Hcl Hf. unfold _build_weak_components.
  destruct (wc_components_spec adj Hnd Hcl fuel (keys adj) Hf 0 ∅)
    as (comp & cid & Hrun & [Hconn _] & _ & Hall).
  { split; intros a; intros; by rewrite lookup_empty in *. }
  exists comp. split; [done|].
  assert (forall x y, y ∈ und_get (undirected adj) x -> x ∈ und_get (undirected adj) y) as Hsym.
  { intros x y Hy. apply (undirected_link adj _ _ Hnd). apply (undirected_link adj _ _ Hnd) in Hy.
    destruct Hy; [by right|by left]. }
  assert (forall x y, y ∈ und_get (undirected adj) x -> y ∈ keys adj) as HP.
  { intros x y Hy. apply (undirected_link adj _ _ Hnd) in Hy. by eapply link_keys. }
  destruct (wc_components_done (undirected adj) (fun x => x ∈ keys adj) fuel (keys adj)
              Hsym HP ltac:(done) 0 ∅ comp Hrun) as [Hdone Hdom].
  { intros x c. by rewrite lookup_empty. }
  { intros x [c Hc]. by rewrite lookup_empty in Hc. }
  split; [intros s; split; [apply Hdom|apply Hall]|].
  intros s g Hs Hg. split.
  - intros Heq. destruct (Hall s Hs) as [c Hc]. rewrite Hc in Heq. by eapply Hconn.
  - intros Hw. destruct (Hall s Hs) as [c Hc]. rewrite Hc. symmetry.
    clear Hs Hg. induction Hw as [|s x g Hl _ IH]; [done|]. apply IH.
      destruct (Hdone s c Hc) as [Hin|Hnb]; [by apply elem_of_nil in Hin|].
      apply Hnb. by apply (undirected_link adj _ _ Hnd).
Qed.
(** *** The index and the quick reachability check *)

Lemma preprocess_index_small (adj : Adjacency) (fuel : nat) (comp : gmap node Z) :
  Z.of_nat (length adj) < 10000 ->
  _build_weak_components fuel adj = Ret comp ->
  preprocess_index fuel adj false =
    Ret (mkIndex (Some (weight_map_loop false adj ∅)) (Some comp)
           (Some (forallb (fun w => bool_decide (w = 1)) (all_weights adj)))
           (Some (Z.of_nat (length adj))) (Some (Z.of_nat (length (all_weights adj))))
           None None None).
Proof.
  intros Hlen Hcomp. unfold preprocess_index. rewrite Hcomp. simpl.
  by rewrite bool_decide_eq_false_2 by lia.
Qed.

Lemma reachable_components (i : Index) (comp : gmap node Z) (s g : node) :
  weak_components i = Some comp -> is_Some (comp !! s) ->
  _reachable (Some i) s g = bool_decide (comp !! s = comp !! g).
Proof.
  intros Hc [c Hs]. unfold _reachable. rewrite (index_truthy_components i comp Hc).
  simpl. rewrite Hc. simpl. rewrite bool_decide_eq_false_2; [done|].
  intros ->. by rewrite lookup_empty in Hs.
Qed.

Lemma reach_inv (adj : Adjacency) (s g : node) :
  reach adj s g -> s = g \/ (s ∈ keys adj /\ exists v w, edge adj s v w).
Proof.
  intros H. destruct H as [|s x g [w Hw] _]; [by left|]. right.
  split; [by eapply edge_source_in|eauto].
Qed.
Lemma unit_weights_cost (adj : Adjacency) (s n : node) (p : list node) (c : Z) :
  forallb (fun w => bool_decide (w = 1)) (all_weights adj) = true ->
  route adj s n p c -> c = Z.of_nat (length p) - 1.
Proof.
  intros Hu Hr. induction Hr as [|n p c v w _ IH He]; [done|].
  apply edge_weight_in, list_elem_of_In in He.
  rewrite forallb_forall in Hu. apply Hu, bool_decide_eq_true in He.
  rewrite length_app. simpl. lia.
Qed.

Lemma nonneg_no_negative (adj : Adjacency) :
  nonneg_weights adj -> existsb (fun w => bool_decide (w < 0)) (all_weights adj) = false.
Proof.
  unfold nonneg_weights. induction (all_weights adj) as [|w l IH]; intros H; [done|].
  apply Forall_cons in H as [Hw Hl]. simpl. rewrite (IH Hl).
  by rewrite bool_decide_eq_false_2 by lia.
Qed.

Lemma a_star_minimal (adj : Adjacency) (h : heuristic) (start goal : node) (fuel : nat) :
  closed adj -> start ∈ keys adj -> nonneg_weights adj -> admissible adj h goal ->
  (astar_fuel adj <= fuel)%nat -> reach adj start goal ->
  exists path c,
    a_star fuel adj start goal h = Ret (Some path, Fin c) /\
    route adj start goal path c /\
    forall p' c', route adj start goal p' c' -> c <= c'.
Proof.
  intros Hc Hs Hnn Hadm Hf Hr. destruct (reach_route _ _ _ Hr) as (p & C & Hp).
  destruct (a_star_optimal adj h start goal Hc Hs Hnn Hadm fuel p C Hf Hp)
    as (path & c & Hrun & Hroute & _).
  exists path, c. split; [done|]. split; [done|]. intros p' c' Hp'.
  destruct (a_star_optimal adj h start goal Hc Hs Hnn Hadm fuel p' c' Hf Hp')
    as (path' & c'' & Hrun' & _ & Hle).
  rewrite Hrun in Hrun'. by injection Hrun' as <- <-.
Qed.

Lemma bfs_no_path (adj : Adjacency) (start goal : node) (fuel : nat) :
  closed adj -> start ∈ keys adj -> ~ reach adj start goal ->
  (Z.to_nat (2 + todo adj ∅) <= fuel)%nat ->
  bfs fuel adj start goal = Ret no_path.
Proof.
  intros Hc Hs Hr Hf. pose proof (todo_nonneg adj ∅) as Ht.
  apply (bfs_loop_no_path adj start goal Hc Hs Hr).
  - intros n p H. apply list_elem_of_singleton in H as [= -> ->]. apply rtc_refl.
  - simpl length. lia.
Qed.

(** X13.  On a graph whose edges lead to keys [_build_weak_components]
    gives an id to every adjacency key and to no other node, and two keys
    get the same id exactly when a path that ignores the direction of the
    edges joins them. *)
Theorem weak_components_exact (adj : Adjacency) (fuel : nat) :
  NoDup (keys adj) -> closed adj -> (search_fuel adj <= fuel)%nat ->
  exists comp,
    _build_weak_components fuel adj = Ret comp /\
    (forall s, is_Some (comp !! s) <-> s ∈ keys adj) /\
    (forall s g, s ∈ keys adj -> g ∈ keys adj -> comp !! s = comp !! g <-> wconn adj s g).
Proof.
  intros Hnd Hc Hf. apply build_weak_components_exact; [done|done|].
  unfold search_fuel in Hf. lia.
Qed.

Lemma weak_components_exact_witness :
  exists comp,
    _build_weak_components (search_fuel weighted_graph) weighted_graph = Ret comp /\
    comp !! 0 = comp !! 3.
Proof.
  destruct (weak_components_exact weighted_graph (search_fuel weighted_graph)
              weighted_graph_dict weighted_graph_closed (le_n _)) as (comp & Hrun & _ & Hiff).
  exists comp. split; [exact Hrun|].
  apply Hiff; [exact weighted_graph_start| |].
  - apply (bool_decide_unpack _). vm_compute. exact I.
  - apply reach_wconn, (route_reach _ _ _ _ _ weighted_graph_route).
Defined.

(** X14.  On a graph of fewer than 10000 nodes whose edges lead to keys,
    [preprocess_index] (not aborted) returns an index without landmarks
    with which [_reachable] answers true for two adjacency keys exactly
    when they lie in the same weak component; it never answers false for
    a pair of nodes that a directed path joins. *)
Theorem reachable_check_exact (adj : Adjacency) (fuel : nat) :
  NoDup (keys adj) -> closed adj -> Z.of_nat (length adj) < 10000 ->
  (search_fuel adj <= fuel)%nat ->
  exists idx,
    preprocess_index fuel adj false = Ret idx /\
    landmarks idx = None /\
    (forall s g, s ∈ keys adj -> g ∈ keys adj ->
       _reachable (Some idx) s g = true <-> wconn adj s g) /\
    (forall s g, reach adj s g -> _reachable (Some idx) s g = true).
Proof.
  intros Hnd Hc Hlen Hf.
  destruct (build_weak_components_exact adj fuel Hnd Hc) as (comp & Hrun & Hdom & Hiff).
  { unfold search_fuel in Hf. lia. }
  eexists. split; [by apply preprocess_index_small|]. split; [done|].
  assert (forall s g, s ∈ keys adj -> g ∈ keys adj ->
            _reachable (Some (mkIndex (Some (weight_map_loop false adj ∅)) (Some comp)
              (Some (forallb (fun w => bool_decide (w = 1)) (all_weights adj)))
              (Some (Z.of_nat (length adj))) (Some (Z.of_nat (length (all_weights adj))))
              None None None)) s g = true <-> wconn adj s g) as Hkeys.
  { intros s g Hs Hg. rewrite (reachable_components _ comp) by (done || by apply Hdom).
    rewrite bool_decide_eq_true. by apply Hiff. }
  split; [exact Hkeys|]. intros s g Hr.
  destruct (reach_inv _ _ _ Hr) as [->|[Hs _]].
  - unfold _reachable. simpl. destruct (bool_decide (comp = ∅)); [done|].
    by apply bool_decide_eq_true.
  - apply Hkeys; [done|by eapply reach_key|by apply reach_wconn].
Qed.

Lemma reachable_check_exact_witness :
  exists idx,
    preprocess_index (search_fuel weighted_graph) weighted_graph false = Ret idx /\
    _reachable (Some idx) 0 3 = true.
Proof.
  destruct (reachable_check_exact weighted_graph (search_fuel weighted_graph)
              weighted_graph_dict weighted_graph_closed ltac:(vm_compute; reflexivity) (le_n _))
    as (idx & Hrun & _ & _ & Hreach).
  exists idx. split; [exact Hrun|].
  apply Hreach, (route_reach _ _ _ _ _ weighted_graph_route).
Defined.

(** X16.  Without an index [find_path] never runs Dijkstra: for two
    different nodes of a graph of at most 10000 nodes without negative
    weight it is [bfs], whatever the weights.  On a graph whose edges
    lead to keys it therefore returns, when a path leads from the key
    [start] to [goal], a path with the fewest edges, and its number of
    edges as cost. *)
Theorem find_path_without_index_counts_edges (adj : Adjacency) (start goal : node)
    (fuel : nat) :
  start <> goal -> nonneg_weights adj -> Z.of_nat (length adj) <= 10000 ->
  find_path fuel adj start goal None = bfs fuel adj start goal /\
  (closed adj -> start ∈ keys adj -> (search_fuel adj <= fuel)%nat ->
   reach adj start goal ->
   exists path c,
     find_path fuel adj start goal None = Ret (Some path, hops path) /\
     route adj start goal path c /\
     forall p' c', route adj start goal p' c' -> (length path <= length p')%nat).
Proof.
  intros Hne Hnn Hlen.
  assert (find_path fuel adj start goal None = bfs fuel adj start goal) as Heq.
  { unfold find_path. rewrite decide_False by done. simpl.
    rewrite choose_algorithm_without_landmarks by done. simpl.
    rewrite (nonneg_no_negative adj Hnn). by rewrite bool_decide_eq_false_2 by lia. }
  split; [done|]. intros Hc Hs Hf Hr. rewrite Heq.
  apply bfs_fewest; [done|done|done|by apply search_fuel_visited].
Qed.

Lemma find_path_without_index_counts_edges_witness :
  exists path,
    find_path (search_fuel weighted_graph) weighted_graph 0 3 None
      = Ret (Some path, hops path) /\
    (length path <= 4)%nat.
Proof.
  destruct (find_path_without_index_counts_edges weighted_graph 0 3
              (search_fuel weighted_graph) ltac:(discriminate) weighted_graph_nonneg
              ltac:(vm_compute; discriminate)) as [_ H].
  destruct (H weighted_graph_closed weighted_graph_start (le_n _)
              (route_reach _ _ _ _ _ weighted_graph_route)) as (path & c & Hrun & _ & Hmin).
  exists path. split; [exact Hrun|]. apply (Hmin _ _ weighted_graph_route).
Defined.

(** *** The weight map *)

Lemma edges_map_lookup (edges : list (node * Z)) :
  forall (m : gmap node Z) v,
    foldl (fun m (e : node * Z) => <[e.1 := e.2]> m) m edges !! v =
    match last (filter (fun e : node * Z => e.1 = v) edges) with
    | Some e => Some e.2
    | None => m !! v
    end.
Proof.
  induction edges as [|[x w] edges IH]; intros m v; simpl; [done|].
  rewrite IH. destruct (decide (x = v)) as [->|Hne].
  - rewrite filter_cons_True by done.
    destruct (filter (fun e : node * Z => e.1 = v) edges) as [|e l] eqn:Hf; simpl.
    + by rewrite lookup_insert_eq.
    + destruct (last (e :: l)) eqn:El; [done|]. by apply last_None in El.
  - rewrite filter_cons_False by done.
    destruct (last (filter (fun e : node * Z => e.1 = v) edges)); [done|].
    by rewrite lookup_insert_ne.
Qed.

Lemma weight_map_add_lookup (wm : gmap node (gmap node Z)) (u : node)
    (edges : list (node * Z)) (x : node) :
  weight_map_add wm u edges !! x =
  if decide (u = x)
  then Some (foldl (fun m (e : node * Z) => <[e.1 := e.2]> m) (default ∅ (wm !! u)) edges)
  else wm !! x.
Proof.
  unfold weight_map_add. destruct (decide (u = x)) as [->|Hne].
  - by rewrite lookup_insert_eq.
  - by rewrite lookup_insert_ne.
Qed.

Lemma weight_map_items_lookup (items : Adjacency) :
  NoDup (keys items) ->
  forall wm x,
    foldl (fun wm (item : node * list (node * Z)) => weight_map_add wm item.1 item.2) wm items
      !! x =
    match adj_get items x with
    | Some edges =>
        Some (foldl (fun m (e : node * Z) => <[e.1 := e.2]> m) (default ∅ (wm !! x)) edges)
    | None => wm !! x
    end.
Proof.
  induction items as [|[u edges] items IH]; intros Hnd wm x; simpl; [done|].
  simpl in Hnd. apply NoDup_cons in Hnd as [Hu Hnd].
  rewrite (IH Hnd), weight_map_add_lookup. destruct (decide (u = x)) as [->|Hne]; [|done].
  destruct (adj_get items x) as [e|] eqn:He; [|done].
  destruct Hu. apply adj_get_in in He. apply list_elem_of_fmap. by exists (x, e).
Qed.

Lemma weight_map_loop_foldl (items : Adjacency) (wm : gmap node (gmap node Z)) :
  weight_map_loop false items wm =
  foldl (fun wm (item : node * list (node * Z)) => weight_map_add wm item.1 item.2) wm items.
Proof. revert wm. induction items as [|[u edges] items IH]; intros wm; simpl; [done|apply IH]. Qed.

Lemma build_weight_map_lookup (adj : Adjacency) (u : node) :
  NoDup (keys adj) ->
  _build_weight_map adj !! u =
  (fun edges => foldl (fun m (e : node * Z) => <[e.1 := e.2]> m) ∅ edges) <$> adj_get adj u.
Proof.
  intros Hnd. unfold _build_weight_map. rewrite (weight_map_items_lookup adj Hnd).
  rewrite lookup_empty. by destruct (adj_get adj u).
Qed.

Lemma last_filter_in {A : Type} (P : A -> Prop) `{!forall x, Decision (P x)} (l : list A) (e : A) :
  last (filter P l) = Some e -> e ∈ l /\ P e.
Proof.
  intros Hl. apply last_Some in Hl as [l' Hl].
  assert (e ∈ filter P l) as Hin by (rewrite Hl; apply elem_of_app; right; left).
  apply list_elem_of_filter in Hin. tauto.
Qed.

Lemma NoDup_fst_unique (edges : list (node * Z)) (v : node) (w w' : Z) :
  NoDup (map fst edges) -> (v, w) ∈ edges -> (v, w') ∈ edges -> w = w'.
Proof.
  induction edges as [|[x y] edges IH]; simpl; intros Hnd H1 H2; [by apply elem_of_nil in H1|].
  apply NoDup_cons in Hnd as [Hx Hnd].
  apply elem_of_cons in H1 as [H1|H1]; apply elem_of_cons in H2 as [H2|H2].
  - congruence.
  - injection H1 as -> ->. destruct Hx. apply list_elem_of_fmap. by exists (x, w').
  - injection H2 as -> ->. destruct Hx. apply list_elem_of_fmap. by exists (x, w).
  - by apply IH.
Qed.

Lemma edge_weight_spec (adj : Adjacency) (u v : node) :
  NoDup (keys adj) ->
  (forall w, edge_weight (_build_weight_map adj) u v = Some w -> edge adj u v w) /\
  (forall w, edge adj u v w -> exists w', edge_weight (_build_weight_map adj) u v = Some w') /\
  (no_parallel_edges adj ->
   forall w, edge adj u v w -> edge_weight (_build_weight_map adj) u v = Some w).
Proof.
  intros Hnd. unfold edge_weight. rewrite (build_weight_map_lookup adj u Hnd).
  assert (forall edges w, adj_get adj u = Some edges ->
            foldl (fun m (e : node * Z) => <[e.1 := e.2]> m) (∅ : gmap node Z) edges !! v = Some w ->
            (v, w) ∈ edges) as Hsound.
  { intros edges w Hget. rewrite edges_map_lookup.
    destruct (last (filter (fun e : node * Z => e.1 = v) edges)) as [[x y]|] eqn:Hl;
      [|by rewrite lookup_empty].
    apply last_filter_in in Hl as [Hin Hx]. simpl in Hx. subst x. by intros [= <-]. }
  assert (forall edges w, adj_get adj u = Some edges -> (v, w) ∈ edges ->
            is_Some (foldl (fun m (e : node * Z) => <[e.1 := e.2]> m) (∅ : gmap node Z) edges !! v))
    as Hcomp.
  { intros edges w Hget Hin. rewrite edges_map_lookup.
    destruct (last (filter (fun e : node * Z => e.1 = v) edges)) as [e|] eqn:Hl; [eauto|].
    apply last_None in Hl.
    assert ((v, w) ∈ filter (fun e : node * Z => e.1 = v) edges) as Hf
      by (by apply list_elem_of_filter).
    rewrite Hl in Hf. by apply elem_of_nil in Hf. }
  split; [|split].
  - intros w. destruct (adj_get adj u) as [edges|] eqn:Hget; simpl.
    + intros H. exists edges. split; [done|]. by eapply Hsound.
    + by rewrite lookup_empty.
  - intros w (edges & Hget & Hin). rewrite Hget. simpl. by eapply Hcomp.
  - intros Hsimple w (edges & Hget & Hin). rewrite Hget. simpl.
    destruct (Hcomp edges w Hget Hin) as [w' Hw']. rewrite Hw'. f_equal.
    eapply NoDup_fst_unique; [by eapply Hsimple| |done]. by eapply Hsound.
Qed.

Lemma build_weight_map_same (adj : Adjacency) : build_weight_map adj = _build_weight_map adj.
Proof. reflexivity. Qed.
(** *** The total weight that is printed for a path *)

Lemma edge_parts_total (wm : gmap node (gmap node Z)) (rest : list node) :
  forall u parts parts' total,
    (edge_parts wm u rest parts total).2 = total + (edge_parts wm u rest parts' 0).2.
Proof.
  induction rest as [|v rest IH]; intros u parts parts' total; simpl; [lia|].
  destruct (edge_weight wm u v) as [w|].
  - rewrite (IH v _ [] (total + w)), (IH v _ [] (0 + w)). lia.
  - apply IH.
Qed.

Lemma last_cons_default {A : Type} (l : list A) (x d d' : A) :
  List.last (x :: l) d = List.last (x :: l) d'.
Proof.
  revert x. induction l as [|y l IH]; intros x; [done|].
  change (List.last (y :: l) d = List.last (y :: l) d'). apply IH.
Qed.

Lemma edge_parts_snoc (wm : gmap node (gmap node Z)) (rest : list node) (v : node) :
  forall u parts total,
    (edge_parts wm u (rest ++ [v]) parts total).2 =
    (edge_parts wm u rest parts total).2 +
    default 0 (edge_weight wm (List.last (u :: rest) u) v).
Proof.
  induction rest as [|x rest IH]; intros u parts total.
  - simpl. destruct (edge_weight wm u v); simpl; lia.
  - change ((x :: rest) ++ [v]) with (x :: (rest ++ [v])).
    change (List.last (u :: x :: rest) u) with (List.last (x :: rest) u).
    rewrite (last_cons_default rest x u x).
    simpl edge_parts. destruct (edge_weight wm u x); apply IH.
Qed.

Lemma route_shape (adj : Adjacency) (s n : node) (p : list node) (c : Z) :
  route adj s n p c -> exists rest, p = s :: rest /\ List.last (s :: rest) s = n.
Proof.
  induction 1 as [|n p c v w _ (rest & -> & Hl) _]; [by exists []|].
  exists (rest ++ [v]). split; [done|].
  change (s :: rest ++ [v]) with ((s :: rest) ++ [v]). apply last_last.
Qed.

Lemma route_total (adj : Adjacency) (s n : node) (p : list node) (c : Z) :
  NoDup (keys adj) -> no_parallel_edges adj -> route adj s n p c ->
  exists rest, p = s :: rest /\
    forall parts, (edge_parts (build_weight_map adj) s rest parts 0).2 = c.
Proof.
  intros Hnd Hsimple. induction 1 as [|n p c v w Hr (rest & -> & IH) He].
  - by exists [].
  - exists (rest ++ [v]). split; [done|]. intros parts.
    rewrite edge_parts_snoc, IH.
    destruct (route_shape _ _ _ _ _ Hr) as (rest' & [= <-] & ->).
    destruct (edge_weight_spec adj n v Hnd) as (_ & _ & Hw).
    rewrite build_weight_map_same, (Hw Hsimple w He). done.
Qed.

Lemma no_parallel_edgesb_spec (adj : Adjacency) :
  no_parallel_edgesb adj = true -> no_parallel_edges adj.
Proof.
  unfold no_parallel_edgesb. rewrite forallb_forall. intros H u edges Hget.
  apply adj_get_in, list_elem_of_In, H in Hget. by apply bool_decide_eq_true in Hget.
Qed.
Lemma preprocess_index_weight_map (adj : Adjacency) (fuel : nat) (idx : Index) :
  preprocess_index fuel adj false = Ret idx -> weight_map idx = Some (_build_weight_map adj).
Proof.
  unfold preprocess_index, landmarks_attr. rewrite weight_map_loop_foldl.
  destruct (_build_weak_components fuel adj) as [comp| |]; simpl; try discriminate.
  destruct (bool_decide (10000 <= Z.of_nat (length adj))); simpl; [discriminate|].
  by intros [= <-].
Qed.

(** X17.  The weight map that [_build_weight_map] builds, which is also
    the one [build_weight_map] builds and the one in the index of
    [preprocess_index], holds a weight for the pair [(u, v)] exactly when
    the graph has an edge from [u] to [v], and this weight is the weight
    of such an edge: the weight of the edge, when no two edges out of a
    node lead to the same node. *)
Theorem weight_map_holds_the_edges (adj : Adjacency) :
  NoDup (keys adj) ->
  build_weight_map adj = _build_weight_map adj /\
  (forall fuel idx, preprocess_index fuel adj false = Ret idx ->
     weight_map idx = Some (_build_weight_map adj)) /\
  forall u v,
    (forall w, edge_weight (_build_weight_map adj) u v = Some w -> edge adj u v w) /\
    (forall w, edge adj u v w -> exists w', edge_weight (_build_weight_map adj) u v = Some w') /\
    (no_parallel_edges adj ->
     forall w, edge adj u v w -> edge_weight (_build_weight_map adj) u v = Some w).
Proof.
  intros Hnd. split; [done|]. split; [intros fuel idx; apply preprocess_index_weight_map|].
  intros u v. by apply edge_weight_spec.
Qed.

Lemma weight_map_holds_the_edges_witness :
  edge_weight (_build_weight_map weighted_graph) 1 3 = Some 5.
Proof.
  destruct (weight_map_holds_the_edges weighted_graph weighted_graph_dict) as (_ & _ & H).
  destruct (H 1 3) as (_ & _ & Hw). apply Hw.
  - apply no_parallel_edgesb_spec. vm_compute. reflexivity.
  - eexists. split; [reflexivity|]. right. left.
Defined.

(** X19.  When the abort flag is set, [preprocess_index] returns on every
    graph, without error and whatever the size, an index with an empty
    weight map, an empty component map and no landmarks, together with
    the numbers of nodes and of edges; with this index [_reachable]
    answers true for every pair of nodes. *)
Theorem preprocess_index_aborted (adj : Adjacency) (fuel : nat) :
  exists idx,
    preprocess_index fuel adj true = Ret idx /\
    weight_map idx = Some ∅ /\ weak_components idx = Some ∅ /\ landmarks idx = None /\
    node_count idx = Some (Z.of_nat (length adj)) /\
    edge_count idx = Some (Z.of_nat (length (all_weights adj))) /\
    forall s g, _reachable (Some idx) s g = true.
Proof.
  eexists. split; [reflexivity|]. simpl.
  assert (weight_map_loop true adj ∅ = ∅) as -> by (by destruct adj as [|[u e] adj]).
  repeat split.
Qed.

Lemma edgeless_graph_facts (n : Z) :
  NoDup (keys (edgeless_graph n)) /\ closed (edgeless_graph n) /\
  length (edgeless_graph n) = Z.to_nat n.
Proof.
  unfold edgeless_graph, keys. rewrite length_map, length_seqZ. split; [|split; [|done]].
  - rewrite map_map. simpl. rewrite map_id. apply NoDup_seqZ.
  - intros u v w (edges & Hget & Hin). apply adj_get_in, list_elem_of_fmap in Hget
      as (i & [= _ ->] & _). by apply elem_of_nil in Hin.
Qed.

(** X20.  [preprocess_index] never returns an index with landmarks: on a
    graph of at least 10000 nodes whose edges lead to keys, it builds
    the component map and then raises [NameError], because the module
    reaches [select_landmarks] only through the name [landmarks], which
    it does not bind; on every other graph the index it returns has no
    landmarks. *)
Theorem preprocess_index_never_has_landmarks (adj : Adjacency) (fuel : nat) :
  (forall abort idx, preprocess_index fuel adj abort = Ret idx -> landmarks idx = None) /\
  (NoDup (keys adj) -> closed adj -> 10000 <= Z.of_nat (length adj) ->
   (search_fuel adj <= fuel)%nat ->
   preprocess_index fuel adj false = Raise NameError).
Proof.
  split.
  - intros abort idx. unfold preprocess_index, landmarks_attr.
    destruct (if abort then Ret ∅ else _build_weak_components fuel adj) as [comp| |];
      simpl; try discriminate.
    destruct (negb abort && bool_decide (10000 <= Z.of_nat (length adj))); simpl;
      [discriminate|]. by intros [= <-].
  - intros Hnd Hc Hlen Hf.
    destruct (build_weak_components_exact adj fuel Hnd Hc) as (comp & Hrun & _).
    { unfold search_fuel in Hf. lia. }
    unfold preprocess_index, landmarks_attr. rewrite Hrun. simpl.
    by rewrite bool_decide_eq_true_2 by done.
Qed.

Lemma preprocess_index_never_has_landmarks_witness :
  preprocess_index (search_fuel (edgeless_graph 10000)) (edgeless_graph 10000) false
    = Raise NameError.
Proof.
  destruct (edgeless_graph_facts 10000) as (H1 & H2 & H3).
  destruct (preprocess_index_never_has_landmarks (edgeless_graph 10000)
              (search_fuel (edgeless_graph 10000))) as [_ H].
  apply H; [exact H1|exact H2|rewrite H3; lia|apply le_n].
Defined.

(** *** Bidirectional breadth-first search *)

Section BidirectionalScan.
Variable adj : Adjacency.
Hypothesis Hclosed : closed adj.

Lemma bidi_scan_general (side : bool) (r r' : node) (n : node) (edges : list (node * Z)) :
  r ∈ keys adj ->
  (forall v w, (v, w) ∈ edges -> edge adj n v w) ->
  forall mine other q,
    is_Some (mine !! n) ->
    (forall x p, mine !! x = Some p -> exists c, route adj r x p c) ->
    (forall x p, other !! x = Some p -> exists c, route adj r' x p c) ->
    (forall x, is_Some (mine !! x) -> other !! x = None) ->
    (forall x, x ∈ q -> is_Some (mine !! x)) ->
    (exists x pm cm po co,
       route adj r x pm cm /\ route adj r' x po co /\
       let path := if side then pm ++ but_last_reversed po else po ++ but_last_reversed pm in
       bidi_scan side n edges mine other q = Ret (inl (Some path, hops path))) \/
    (exists mine' q',
       bidi_scan side n edges mine other q = Ret (inr (mine', q')) /\
       (forall x p, mine' !! x = Some p -> exists c, route adj r x p c) /\
       (forall x, is_Some (mine' !! x) -> other !! x = None) /\
       (forall x, x ∈ q' -> is_Some (mine' !! x)) /\
       mine ⊆ mine' /\
       (forall x, x ∈ q -> x ∈ q') /\
       (forall x, is_Some (mine' !! x) -> is_Some (mine !! x) \/ x ∈ q') /\
       (forall v w, (v, w) ∈ edges -> is_Some (mine' !! v)) /\
       Z.of_nat (length q') - 2 * known (keys adj) mine'
         <= Z.of_nat (length q) - 2 * known (keys adj) mine).
Proof.
  intros Hr. induction edges as [|[v w] edges IH];
    intros He mine other q Hmn HM HO HD HQ.
  - right. exists mine, q. split; [done|]. split; [done|]. split; [done|]. split; [done|].
    split; [done|]. split; [done|]. split; [by left|]. split; [|lia].
    intros v w H. by apply elem_of_nil in H.
  - assert (forall v' w', (v', w') ∈ edges -> edge adj n v' w') as He'.
    { intros v' w' H. apply He. by right. }
    assert (edge adj n v w) as Hedge by (apply He; left).
    simpl. destruct (mine !! v) as [pv|] eqn:Hv.
    { destruct (IH He' mine other q Hmn HM HO HD HQ)
        as [?|(mine' & q' & Hrun & HM' & HD' & HQ' & Hsub & Hq & Hnew & Hall & Hk)];
        [by left|].
      right. exists mine', q'. split; [done|]. split; [done|]. split; [done|]. split; [done|].
      split; [done|]. split; [done|]. split; [done|]. split; [|done].
      intros v' w' H. apply elem_of_cons in H as [[= -> ->]|H]; [|by eapply Hall].
      exists pv. by eapply lookup_weaken. }
    unfold paths_index. destruct Hmn as [pn Hpn]. rewrite Hpn. simpl.
    destruct (HM n pn Hpn) as [cn Hroute].
    assert (route adj r v (pn ++ [v]) (cn + w)) as Hrv by (by eapply route_step).
    destruct (other !! v) as [po|] eqn:Ho.
    { left. destruct (HO v po Ho) as [co Hco]. exists v, (pn ++ [v]), (cn + w), po, co.
      split; [done|]. split; [done|]. by destruct side. }
    destruct (IH He' (<[v := pn ++ [v]]> mine) other (q ++ [v]))
      as [?|(mine' & q' & Hrun & HM' & HD' & HQ' & Hsub & Hq & Hnew & Hall & Hk)].
    + destruct (decide (v = n)) as [->|]; [rewrite lookup_insert_eq; eauto|].
      rewrite lookup_insert_ne by done. eauto.
    + intros x p. destruct (decide (v = x)) as [<-|].
      * rewrite lookup_insert_eq. intros [= <-]. eauto.
      * rewrite lookup_insert_ne by done. apply HM.
    + done.
    + intros x. destruct (decide (v = x)) as [<-|]; [done|].
      rewrite lookup_insert_ne by done. apply HD.
    + intros x Hx. destruct (decide (v = x)) as [->|]; [rewrite lookup_insert_eq; eauto|].
      rewrite lookup_insert_ne by done. apply HQ.
      apply elem_of_app in Hx as [Hx|Hx]; [done|].
      by apply list_elem_of_singleton in Hx.
    + by left.
    + right. exists mine', q'. split; [done|]. split; [done|]. split; [done|]. split; [done|].
      assert (mine' !! v = Some (pn ++ [v])) as Hv'.
      { eapply lookup_weaken; [|exact Hsub]. by rewrite lookup_insert_eq. }
      split; [|split; [|split; [|split]]].
      * etrans; [|exact Hsub]. by apply insert_subseteq.
      * intros x Hx. apply Hq, elem_of_app. by left.
      * intros x Hx. destruct (Hnew x Hx) as [Hold|?]; [|by right].
        destruct (decide (v = x)) as [<-|Hne].
        -- right. apply Hq, elem_of_app. right. left.
        -- rewrite lookup_insert_ne in Hold by done. by left.
      * intros v' w' H. apply elem_of_cons in H as [[= -> ->]|H]; [eauto|by eapply Hall].
      * pose proof (known_insert_new (keys adj) mine v (pn ++ [v])
                      (reach_key adj r v Hclosed Hr (route_reach _ _ _ _ _ Hrv)) Hv).
        rewrite length_app in Hk. simpl in Hk. lia.
Qed.

Variables start goal : node.
Hypothesis Hstart : start ∈ keys adj.
Hypothesis Hgoal : goal ∈ keys adj.

Lemma bidi_side_closed (r : node) (mine other : gmap node (list node)) (x : node) :
  bidi_side adj r mine other [] -> is_Some (mine !! r) -> reach adj r x -> is_Some (mine !! x).
Proof.
  intros (_ & _ & _ & Hdone) Hr Hx. apply reach_route in Hx as (p & c & Hp).
  induction Hp as [|n p c v w _ IH He]; [done|].
  destruct (Hdone n IH) as [Hin|Hnb]; [by apply elem_of_nil in Hin|]. by eapply Hnb.
Qed.

Lemma bidi_side_step (r : node) (n : node) (edges : list (node * Z))
    (mine mine' other : gmap node (list node)) (q q' : list node) :
  adj_get adj n = Some edges ->
  bidi_side adj r mine other (n :: q) ->
  (forall x p, mine' !! x = Some p -> exists c, route adj r x p c) ->
  (forall x, is_Some (mine' !! x) -> other !! x = None) ->
  (forall x, x ∈ q' -> is_Some (mine' !! x)) ->
  mine ⊆ mine' ->
  (forall x, x ∈ q -> x ∈ q') ->
  (forall x, is_Some (mine' !! x) -> is_Some (mine !! x) \/ x ∈ q') ->
  (forall v w, (v, w) ∈ edges -> is_Some (mine' !! v)) ->
  bidi_side adj r mine' other q'.
Proof.
  intros Hget (HM & HD & HQ & Hdone) HM' HD' HQ' Hsub Hq Hnew Hall.
  split; [done|]. split; [done|]. split; [done|].
  intros x Hx. destruct (Hnew x Hx) as [Hold|?]; [|by left].
  destruct (Hdone x Hold) as [Hin|Hnb].
  - apply elem_of_cons in Hin as [->|Hin]; [|left; by apply Hq].
    right. intros v w (edges' & Hget' & Hvw). rewrite Hget in Hget'. injection Hget' as <-.
    by eapply Hall.
  - right. intros v w Hvw. destruct (Hnb v w Hvw) as [p Hp]. exists p. by eapply lookup_weaken.
Qed.

Lemma bidi_side_other (r : node) (mine other other' : gmap node (list node)) (q : list node) :
  bidi_side adj r mine other q ->
  (forall x, is_Some (other' !! x) -> mine !! x = None) ->
  bidi_side adj r mine other' q.
Proof.
  intros (HM & HD & HQ & Hdone) HD'. split; [done|]. split; [|done].
  intros x Hx. destruct (other' !! x) as [p|] eqn:Ho; [|done].
  rewrite HD' in Hx by eauto. by destruct Hx.
Qed.

Lemma bidi_loop_spec (fuel : nat) :
  forall front back q_front q_back,
    bidi_side adj start front back q_front ->
    bidi_side adj goal back front q_back ->
    is_Some (front !! start) -> is_Some (back !! goal) ->
    Z.of_nat (length q_front) + 2 * (Z.of_nat (length (keys adj)) - known (keys adj) front)
      < Z.of_nat fuel ->
    (exists path,
       bidi_loop fuel adj front back q_front q_back = Ret (Some path, hops path) /\
       meets adj start goal path) \/
    (bidi_loop fuel adj front back q_front q_back = Ret no_path /\
     (~ reach adj start goal \/ ~ reach adj goal start)).
Proof.
  induction fuel as [|fuel IH]; intros front back q_front q_back Hf Hb Hs Hg Hm.
  - pose proof (known_bounds (keys adj) front). lia.
  - simpl. destruct q_front as [|n q_front].
    { right. split; [done|]. left. intros Hr.
      pose proof (bidi_side_closed start front back goal Hf Hs Hr) as Hgf.
      destruct Hf as (_ & HD & _). rewrite (HD goal Hgf) in Hg. by destruct Hg. }
    destruct q_back as [|m q_back].
    { right. split; [done|]. right. intros Hr.
      pose proof (bidi_side_closed goal back front start Hb Hg Hr) as Hsb.
      destruct Hb as (_ & HD & _). rewrite (HD start Hsb) in Hs. by destruct Hs. }
    pose proof Hf as (HMf & HDf & HQf & _). pose proof Hb as (HMb & HDb & HQb & _).
    destruct (HQf n) as [pn Hpn]; [left|]. destruct (HQb m) as [pm Hpm]; [left|].
    destruct (HMf n pn Hpn) as [cn Hn]. destruct (HMb m pm Hpm) as [cm Hm'].
    destruct (in_adj_get adj n
                (reach_key adj start n Hclosed Hstart (route_reach _ _ _ _ _ Hn))) as [en Hen].
    destruct (in_adj_get adj m
                (reach_key adj goal m Hclosed Hgoal (route_reach _ _ _ _ _ Hm'))) as [em Hem].
    unfold adj_index. rewrite Hen. simpl.
    destruct (bidi_scan_general true start goal n en Hstart
                ltac:(intros v w H; by exists en) front back q_front)
      as [(x & p1 & c1 & p2 & c2 & H1 & H2 & Hrun)|
          (front' & q_front' & Hrun & HM' & HD' & HQ' & Hsub & Hq & Hnew & Hall & Hk)];
      [eauto|done|done|done|intros x Hx; apply HQf; by right| |].
    { left. simpl in Hrun. rewrite Hrun. simpl. eexists. split; [done|].
      by exists x, p1, c1, p2, c2. }
    rewrite Hrun. simpl. rewrite Hem. simpl.
    pose proof (bidi_side_step start n en front front' back q_front q_front'
                  Hen Hf HM' HD' HQ' Hsub Hq Hnew Hall) as Hf'.
    assert (bidi_side adj goal back front' (m :: q_back)) as Hb1.
    { apply (bidi_side_other goal back front); [done|].
      intros x Hx. destruct (back !! x) as [p|] eqn:Hbx; [|done].
      rewrite HD' in Hbx by done. discriminate. }
    destruct (bidi_scan_general false goal start m em Hgoal
                ltac:(intros v w H; by exists em) back front' q_back)
      as [(x & p1 & c1 & p2 & c2 & H1 & H2 & Hrun')|
          (back' & q_back' & Hrun' & HMb' & HDb' & HQb' & Hsubb & Hqb & Hnewb & Hallb & _)];
      [eauto|done|done|by destruct Hb1 as (_ & ? & _)|intros x Hx; apply HQb; by right| |].
    { left. simpl in Hrun'. rewrite Hrun'. simpl. eexists. split; [done|].
      by exists x, p2, c2, p1, c1. }
    rewrite Hrun'. simpl.
    pose proof (bidi_side_step goal m em back back' front' q_back q_back'
                  Hem Hb1 HMb' HDb' HQb' Hsubb Hqb Hnewb Hallb) as Hb'.
    apply IH.
    + apply (bidi_side_other start front' back); [done|].
      intros x Hx. by apply HDb'.
    + done.
    + destruct Hs as [p Hp]. exists p. by eapply lookup_weaken.
    + destruct Hg as [p Hp]. exists p. by eapply lookup_weaken.
    + simpl length in Hm. lia.
Qed.

Lemma bidirectional_bfs_spec (fuel : nat) :
  (2 + 2 * length (keys adj) <= fuel)%nat ->
  (exists path,
     bidirectional_bfs fuel adj start goal = Ret (Some path, hops path) /\
     meets adj start goal path) \/
  (bidirectional_bfs fuel adj start goal = Ret no_path /\
   (~ reach adj start goal \/ ~ reach adj goal start)).
Proof.
  intros Hf. unfold bidirectional_bfs. destruct (decide (start = goal)) as [<-|Hne].
  { left. exists [start]. split; [done|]. exists start, [start], 0, [start], 0.
    split; [apply route_start|]. split; [apply route_start|done]. }
  assert (forall a b : node, a <> b ->
            bidi_side adj a {[a := [a]]} {[b := [b]]} [a]) as Hside.
  { intros a b Hab. split; [|split; [|split]].
    - intros x p H. apply lookup_singleton_Some in H as [<- <-]. exists 0. apply route_start.
    - intros x [p H]. apply lookup_singleton_Some in H as [<- _].
      by rewrite lookup_singleton_ne.
    - intros x H. apply list_elem_of_singleton in H as ->. rewrite lookup_singleton_eq. eauto.
    - intros x [p H]. apply lookup_singleton_Some in H as [<- _]. left. left. }
  apply bidi_loop_spec; [by apply Hside|by apply Hside|..].
  - rewrite lookup_singleton_eq. eauto.
  - rewrite lookup_singleton_eq. eauto.
  - pose proof (known_bounds (keys adj) ({[start := [start]]} : gmap node (list node))).
    simpl length. lia.
Qed.

End BidirectionalScan.
Lemma route_rev (adj : Adjacency) (s n : node) (p : list node) (c : Z) :
  symmetric adj -> route adj s n p c -> route adj n s (rev p) c.
Proof.
  intros Hsym. induction 1 as [|n p c v w _ IH He]; [apply route_start|].
  rewrite rev_unit. replace (c + w) with (w + c) by lia.
  eapply route_cons; [|exact IH]. by apply Hsym.
Qed.

Lemma route_join (adj : Adjacency) (a b c : node) (p q : list node) (x y : Z) :
  route adj a b p x -> route adj b c q y -> route adj a c (p ++ tail q) (x + y).
Proof.
  intros Hp Hq. induction Hq as [|n q y v w Hq IH He].
  - simpl. rewrite app_nil_r. by replace (x + 0) with x by lia.
  - assert (tail (q ++ [v]) = tail q ++ [v]) as ->.
    { pose proof (route_length _ _ _ _ _ Hq). destruct q; [simpl in *; lia|done]. }
    rewrite app_assoc. replace (x + (y + w)) with (x + y + w) by lia.
    by eapply route_step.
Qed.

Lemma but_last_reversed_tail (p : list node) : but_last_reversed p = tail (rev p).
Proof.
  unfold but_last_reversed. destruct (decide (p = [])) as [->|Hne]; [done|].
  destruct (exists_last Hne) as (l & x & ->). by rewrite removelast_last, rev_unit.
Qed.

Lemma meets_route (adj : Adjacency) (start goal : node) (path : list node) :
  symmetric adj -> meets adj start goal path -> exists c, route adj start goal path c.
Proof.
  intros Hsym (x & p1 & c1 & p2 & c2 & H1 & H2 & ->). exists (c1 + c2).
  rewrite but_last_reversed_tail. eapply route_join; [exact H1|]. by apply route_rev.
Qed.

Lemma symmetric_reach (adj : Adjacency) (u v : node) :
  symmetric adj -> reach adj u v -> reach adj v u.
Proof.
  intros Hsym Hr. apply reach_route in Hr as (p & c & Hp).
  eapply route_reach, route_rev; eauto.
Qed.

Lemma bidi_scan_no_meet (side : bool) (n : node) (edges : list (node * Z))
    (other : gmap node (list node)) :
  (forall v w, (v, w) ∈ edges -> other !! v = None) ->
  forall mine q, is_Some (mine !! n) ->
    exists mine' q', bidi_scan side n edges mine other q = Ret (inr (mine', q')).
Proof.
  induction edges as [|[v w] edges IH]; intros Ho mine q Hn; simpl; [eauto|].
  assert (forall v' w', (v', w') ∈ edges -> other !! v' = None) as Ho'
    by (intros v' w' H; eapply Ho; by right).
  destruct (mine !! v) as [pv|] eqn:Hv; [by apply IH|].
  unfold paths_index. destruct Hn as [pn Hpn]. rewrite Hpn. simpl.
  rewrite (Ho v w) by left. apply IH; [done|].
  destruct (decide (v = n)) as [->|]; [rewrite lookup_insert_eq; eauto|].
  rewrite lookup_insert_ne by done. eauto.
Qed.

Lemma bidirectional_bfs_dead_end (adj : Adjacency) (start goal : node) (fuel : nat) :
  start ∈ keys adj -> start <> goal -> (forall w, ~ edge adj start goal w) ->
  adj_get adj goal = Some [] -> (2 <= fuel)%nat ->
  bidirectional_bfs fuel adj start goal = Ret no_path.
Proof.
  intros Hs Hne Hno Hg Hf. destruct fuel as [|[|fuel]]; [lia|lia|].
  unfold bidirectional_bfs. rewrite decide_False by done.
  destruct (in_adj_get adj start Hs) as [es Hes].
  cbn [bidi_loop]. unfold adj_index. rewrite Hes. cbn [mbind outcome_bind].
  destruct (bidi_scan_no_meet true start es {[goal := [goal]]})
    with (mine := ({[start := [start]]} : gmap node (list node))) (q := @nil node)
    as (front' & q' & ->).
  - intros v w Hin. apply lookup_singleton_None. intros <-. apply (Hno w). by exists es.
  - rewrite lookup_singleton_eq. eauto.
  - cbn [mbind outcome_bind]. rewrite Hg. cbn [mbind outcome_bind bidi_scan].
    by destruct q'.
Qed.

(** X21.  On a graph that stores every edge in both directions and whose
    edges lead to keys, [bidirectional_bfs] between two keys returns a
    path of the graph from [start] to [goal], with its number of edges as
    cost, when a path leads from [start] to [goal], and [(None, inf)]
    when none does. *)
Theorem bidirectional_bfs_on_two_way_graphs (adj : Adjacency) (start goal : node)
    (fuel : nat) :
  closed adj -> symmetric adj -> start ∈ keys adj -> goal ∈ keys adj ->
  (search_fuel adj <= fuel)%nat ->
  (reach adj start goal ->
   exists path c,
     bidirectional_bfs fuel adj start goal = Ret (Some path, hops path) /\
     route adj start goal path c) /\
  (~ reach adj start goal -> bidirectional_bfs fuel adj start goal = Ret no_path).
Proof.
  intros Hc Hsym Hs Hg Hf.
  destruct (bidirectional_bfs_spec adj Hc start goal Hs Hg fuel)
    as [(path & Hrun & Hmeet)|[Hrun Hno]].
  { unfold search_fuel in Hf. lia. }
  - destruct (meets_route adj start goal path Hsym Hmeet) as [c Hroute]. split.
    + intros _. eauto.
    + intros Hr. destruct Hr. by eapply route_reach.
  - split; [|done]. intros Hr. destruct Hno as [Hno|Hno]; destruct Hno; [done|].
    by apply symmetric_reach.
Qed.

Lemma bidirectional_bfs_on_two_way_graphs_witness :
  exists path c,
    bidirectional_bfs (search_fuel two_way_graph) two_way_graph 0 3
      = Ret (Some path, hops path) /\
    route two_way_graph 0 3 path c.
Proof.
  destruct two_way_graph_facts as (H1 & H2 & H3 & H4 & H5).
  destruct (bidirectional_bfs_on_two_way_graphs two_way_graph 0 3 (search_fuel two_way_graph)
              H2 H4 H5 ltac:(apply (bool_decide_unpack _); vm_compute; exact I) (le_n _))
    as [H _].
  exact (H (route_reach _ _ _ _ _ two_way_graph_route)).
Defined.

(** X22.  On a graph whose edges lead to keys, what [bidirectional_bfs]
    returns between two keys is [(None, inf)], or a sequence of nodes
    with its length minus one, made of a path from [start] to some node
    followed by the reverse of a path from [goal] to that node: both
    searches follow the edges forwards.  It returns a sequence when paths
    lead from [start] to [goal] and from [goal] to [start]; and it
    returns [(None, inf)] whenever [goal] has no outgoing edge and is not
    a neighbour of [start], also when a longer path leads to [goal]. *)
Theorem bidirectional_bfs_on_one_way_graphs (adj : Adjacency) (start goal : node)
    (fuel : nat) :
  closed adj -> start ∈ keys adj -> goal ∈ keys adj -> (search_fuel adj <= fuel)%nat ->
  ((exists path,
      bidirectional_bfs fuel adj start goal = Ret (Some path, hops path) /\
      meets adj start goal path) \/
   (bidirectional_bfs fuel adj start goal = Ret no_path /\
    (~ reach adj start goal \/ ~ reach adj goal start))) /\
  (start <> goal -> (forall w, ~ edge adj start goal w) -> adj_get adj goal = Some [] ->
   bidirectional_bfs fuel adj start goal = Ret no_path).
Proof.
  intros Hc Hs Hg Hf. split.
  - apply bidirectional_bfs_spec; [done|done|done|]. unfold search_fuel in Hf. lia.
  - intros Hne Hno Hdead. apply bidirectional_bfs_dead_end; [done|done|done|done|].
    unfold search_fuel in Hf. lia.
Qed.

Lemma bidirectional_bfs_on_one_way_graphs_witness :
  bidirectional_bfs (search_fuel dead_end_graph) dead_end_graph 0 2 = Ret no_path /\
  route dead_end_graph 0 2 [0; 1; 2] 2.
Proof.
  split.
  - destruct (bidirectional_bfs_on_one_way_graphs dead_end_graph 0 2
                (search_fuel dead_end_graph)) as [_ H].
    + apply closedb_closed. vm_compute. reflexivity.
    + apply (bool_decide_unpack _). vm_compute. exact I.
    + apply (bool_decide_unpack _). vm_compute. exact I.
    + apply le_n.
    + apply H; [discriminate| |reflexivity].
      intros w (edges & Hget & Hin). injection Hget as <-.
      apply list_elem_of_singleton in Hin. discriminate.
  - apply (route_step _ _ 1 [0; 1] 1 2 1).
    + apply (route_step _ _ 0 [0] 0 1 1); [apply route_start|].
      eexists. split; [reflexivity|]. left.
    + eexists. split; [reflexivity|]. left.
Defined.

Lemma route_snoc_inv (adj : Adjacency) (s n : node) (p : list node) (c : Z) :
  route adj s n p c ->
  (p = [s] /\ n = s) \/
  exists m q c' w, p = q ++ [n] /\ route adj s m q c' /\ edge adj m n w.
Proof. destruct 1 as [|m q c' v w Hq He]; [by left|right]. by exists m, q, c', w. Qed.

Lemma route_single (adj : Adjacency) (s n x : node) (c : Z) :
  route adj s n [x] c -> n = s.
Proof.
  intros Hr. apply route_snoc_inv in Hr as [[_ ->]|(m & q & c' & w & Hpath & Hq & _)]; [done|].
  pose proof (route_length _ _ _ _ _ Hq). destruct q as [|a [|b q]]; simpl in *; try lia;
    discriminate.
Qed.

Lemma route_pair (adj : Adjacency) (s n a b : node) (c : Z) :
  route adj s n [a; b] c -> exists w, edge adj s b w.
Proof.
  intros Hr. apply route_snoc_inv in Hr as [[[=] _]|(m & q & c' & w & Hpath & Hq & He)].
  change [a; b] with ([a] ++ [b]) in Hpath. apply app_inj_tail in Hpath as [<- <-].
  apply route_single in Hq as ->. eauto.
Qed.

(** On the one-way cycle [0 -> 1 -> 2 -> 0], from 0 to 2, the sequence
    that [bidirectional_bfs] returns is [0, 2], and the graph has no edge
    from 0 to 2. *)
Example bidirectional_bfs_returns_a_non_path :
  bidirectional_bfs 10 one_way_cycle 0 2 = Ret (Some [0; 2], Fin 1) /\
  ~ exists c, route one_way_cycle 0 2 [0; 2] c.
Proof.
  split; [vm_compute; reflexivity|]. intros [c Hr].
  apply route_pair in Hr as (w & edges & Hget & Hin). injection Hget as <-.
  apply list_elem_of_singleton in Hin. discriminate.
Qed.

Lemma recurse_negative (adj : Adjacency) (start goal : node) (fuel : nat) :
  ~ reach adj start goal ->
  (forall n, reach adj start n -> exists v w edges, adj_get adj n = Some ((v, w) :: edges)) ->
  forall n path depth,
    reach adj start n -> depth < 0 -> recurse fuel adj goal n path depth = Timeout.
Proof.
  intros Hno Hout. induction fuel as [|fuel IH]; intros n path depth Hn Hd; [done|].
  simpl. rewrite decide_False by (intros ->; done). rewrite decide_False by lia.
  destruct (Hout n Hn) as (v & w & edges & Hget). unfold adj_index. rewrite Hget. simpl.
  rewrite IH; [done| |lia]. eapply reach_step; [exact Hn|]. eexists. split; [exact Hget|left].
Qed.

(** X26.  With a negative limit [depth_limited_dfs] has no depth bound:
    when no path leads from [start] to [goal] and every node that a path
    from [start] leads to has an outgoing edge, the recursion never
    ends, whatever call depth is allowed. *)
Theorem depth_limited_dfs_negative_limit (adj : Adjacency) (start goal : node) (limit : Z)
    (fuel : nat) :
  limit < 0 -> ~ reach adj start goal ->
  (forall n, reach adj start n -> exists v w edges, adj_get adj n = Some ((v, w) :: edges)) ->
  depth_limited_dfs fuel adj start goal limit = Timeout.
Proof.
  intros Hl Hno Hout. unfold depth_limited_dfs.
  rewrite (recurse_negative adj start goal fuel Hno Hout); [done|apply rtc_refl|done].
Qed.

Lemma reach_one_way_cycle (n : node) : reach one_way_cycle 0 n -> n = 0 \/ n = 1 \/ n = 2.
Proof.
  intros H. apply reach_route in H as (p & c & Hp).
  induction Hp as [|m p c v w _ IH (edges & Hget & Hin)]; [by left|].
  destruct IH as [-> |[-> | ->]]; injection Hget as <-;
    apply list_elem_of_singleton in Hin as [= -> ->]; auto.
Qed.

Lemma depth_limited_dfs_negative_limit_witness :
  depth_limited_dfs 1000 one_way_cycle 0 5 (-1) = Timeout.
Proof.
  apply (depth_limited_dfs_negative_limit one_way_cycle 0 5 (-1) 1000); [lia| |].
  - intros H. apply reach_one_way_cycle in H. lia.
  - intros n H. apply reach_one_way_cycle in H as [-> |[-> | ->]]; eauto.
Defined.
(** *** Bellman-Ford returns a cheapest path when no cycle is negative *)

Lemma feasible_no_negative_cycle (phi : node -> Z) (adj : Adjacency) :
  feasible phi adj = true -> no_negative_cycle adj.
Proof.
  unfold feasible. rewrite forallb_forall. intros Hf.
  assert (forall s n p c, route adj s n p c -> phi n <= phi s + c) as H.
  { intros s n p c Hr. induction Hr as [|n p c v w _ IH (edges & Hget & Hin)]; [lia|].
    apply adj_get_in, list_elem_of_In, Hf in Hget. simpl in Hget.
    rewrite forallb_forall in Hget. apply list_elem_of_In, Hget in Hin.
    apply bool_decide_eq_true in Hin. simpl in Hin. lia. }
  intros x p c Hr. specialize (H _ _ _ _ Hr). lia.
Qed.

Section BellmanFord.
Variable adj : Adjacency.
Variable start : node.
Hypothesis Hdict : NoDup (keys adj).
Hypothesis Hclosed : closed adj.
Hypothesis Hcycle : no_negative_cycle adj.

Lemma bf_tree_route dist prev v p c :
  bf_tree adj start dist prev v p c -> route adj start v p c.
Proof. induction 1; [apply route_start|by eapply route_step]. Qed.

Lemma bf_tree_cost dist prev v p c :
  bf_tree adj start dist prev v p c -> exists dv, dist !! v = Some (Fin dv) /\ c <= dv.
Proof.
  induction 1 as [|u v w p c du dv _ (du' & Hdu & Hle) _ _ Hu Hv Hw]; [by exists 0|].
  exists dv. split; [done|]. rewrite Hu in Hdu. injection Hdu as <-. lia.
Qed.

Lemma bf_tree_last dist prev v p c : bf_tree adj start dist prev v p c -> v ∈ p.
Proof. destruct 1; [left|apply elem_of_app; right; left]. Qed.

Lemma bf_tree_back dist prev u p c :
  bf_tree adj start dist prev u p c ->
  forall x, x ∈ p ->
    exists q cq dx du,
      route adj x u q cq /\ dist !! x = Some (Fin dx) /\ dist !! u = Some (Fin du) /\
      dx + cq <= du.
Proof.
  induction 1 as [H0 _|u v w p c du dv _ IH _ He Hu Hv Hw]; intros x Hx.
  - apply list_elem_of_singleton in Hx as ->. exists [start], 0, 0, 0.
    split; [apply route_start|]. split; [done|]. split; [done|lia].
  - apply elem_of_app in Hx as [Hx|Hx].
    + destruct (IH x Hx) as (q & cq & dx & du' & Hq & Hdx & Hdu & Hle).
      rewrite Hu in Hdu. injection Hdu as <-.
      exists (q ++ [v]), (cq + w), dx, dv. split; [by eapply route_step|].
      split; [done|]. split; [done|lia].
    + apply list_elem_of_singleton in Hx as ->. exists [v], 0, dv, dv.
      split; [apply route_start|]. split; [done|]. split; [done|lia].
Qed.

Lemma bf_tree_frame dist prev u p c (v : node) (x : cost) (y : node) :
  bf_tree adj start dist prev u p c -> v ∉ p ->
  bf_tree adj start (<[v := x]> dist) (<[v := y]> prev) u p c.
Proof.
  induction 1 as [H0 H1|u v' w p c du dv Ht IH Hp He Hu Hv Hw]; intros Hv'.
  - assert (v <> start) as Hne by (intros ->; apply Hv'; left).
    apply bf_root; by rewrite lookup_insert_ne.
  - assert ((v ∉ p) /\ v <> v') as [Hvp Hne].
    { split; [intros ?|intros ->]; apply Hv', elem_of_app; [by left|right; left]. }
    assert (v <> u) as Hnu by (intros ->; apply Hvp; by eapply bf_tree_last).
    eapply bf_step; [by apply IH| |exact He| | |exact Hw]; by rewrite lookup_insert_ne.
Qed.

Lemma bf_relax_inv dist prev (u v : node) (w du : Z) (dv : cost) :
  bf_inv adj start dist prev -> edge adj u v w ->
  dist !! u = Some (Fin du) -> dist !! v = Some dv ->
  cost_ltb (Fin (du + w)) dv = true ->
  bf_inv adj start (<[v := Fin (du + w)]> dist) (<[v := u]> prev).
Proof.
  intros (H1 & H2 & [H40 H41] & H6) He Hu Hv Hlt.
  destruct (H1 u du Hu) as [pu Hpu].
  assert (v <> start) as Hvs.
  { intros ->. rewrite H40 in Hv. injection Hv as <-. simpl in Hlt.
    apply bool_decide_eq_true in Hlt.
    pose proof (Hcycle start (pu ++ [start]) (du + w) ltac:(by eapply route_step)). lia. }
  destruct (H6 u du Hu) as (tu & cu & Htu).
  assert (v ∉ tu) as Hvt.
  { intros Hin. destruct (bf_tree_back _ _ _ _ _ Htu v Hin)
      as (q & cq & dv' & du' & Hq & Hdv' & Hdu' & Hle).
    rewrite Hu in Hdu'. injection Hdu' as <-. rewrite Hv in Hdv'. injection Hdv' as ->.
    simpl in Hlt. apply bool_decide_eq_true in Hlt.
    pose proof (Hcycle v (q ++ [v]) (cq + w) ltac:(by eapply route_step)). lia. }
  assert (u <> v) as Huv by (intros ->; apply Hvt; by eapply bf_tree_last).
  assert (bf_tree adj start (<[v := Fin (du + w)]> dist) (<[v := u]> prev)
            v (tu ++ [v]) (cu + w)) as Htv.
  { eapply bf_step; [by apply bf_tree_frame| |exact He| | |reflexivity].
    - by rewrite lookup_insert_eq.
    - by rewrite lookup_insert_ne.
    - by rewrite lookup_insert_eq. }
  split; [|split; [|split]].
  - intros x c. destruct (decide (v = x)) as [<-|Hne].
    + rewrite lookup_insert_eq. intros [= <-]. exists (pu ++ [v]). by eapply route_step.
    + rewrite lookup_insert_ne by done. apply H1.
  - intros x Hx. destruct (decide (v = x)) as [<-|Hne].
    + rewrite lookup_insert_eq. eauto.
    + rewrite lookup_insert_ne by done. by apply H2.
  - by rewrite !lookup_insert_ne.
  - assert (forall x p c, bf_tree adj start dist prev x p c ->
              exists p' c', bf_tree adj start (<[v := Fin (du + w)]> dist) (<[v := u]> prev)
                              x p' c') as Hre.
    { intros x p c Ht.
      induction Ht as [H0 H1'|u0 x0 w0 p c du0 dx0 _ (p' & c' & IH) Hp He0 Hu0 Hx0 Hw0].
      - exists [start], 0. apply bf_root; by rewrite lookup_insert_ne.
      - destruct (decide (v = x0)) as [<-|Hne]; [eauto|].
        destruct (decide (v = u0)) as [<-|Hne0].
        + exists (p' ++ [x0]), (c' + w0).
          eapply bf_step; [exact IH| |exact He0| | |].
          * by rewrite lookup_insert_ne.
          * by rewrite lookup_insert_eq.
          * rewrite lookup_insert_ne by done. exact Hx0.
          * rewrite Hv in Hu0. injection Hu0 as ->. simpl in Hlt.
            apply bool_decide_eq_true in Hlt. lia.
        + exists (p' ++ [x0]), (c' + w0).
          eapply bf_step; [exact IH| |exact He0| | |exact Hw0];
            by rewrite lookup_insert_ne. }
    intros x d. destruct (decide (v = x)) as [<-|Hne]; [eauto|].
    rewrite lookup_insert_ne by done. intros Hx. destruct (H6 x d Hx) as (p & c & Ht). eauto.
Qed.

Lemma bf_relax_edges_full (u : node) (edges : list (node * Z)) :
  u ∈ keys adj -> (forall v w, (v, w) ∈ edges -> edge adj u v w) ->
  forall dist prev updated,
    bf_inv adj start dist prev ->
    exists dist' prev' updated',
      bf_relax_edges u edges (dist, prev, updated) = Ret (dist', prev', updated') /\
      bf_inv adj start dist' prev' /\
      (forall x d, dist !! x = Some (Fin d) -> bf_bound dist' x d) /\
      (forall v w du, (v, w) ∈ edges -> dist !! u = Some (Fin du) -> bf_bound dist' v (du + w)) /\
      (updated' = false -> dist' = dist /\ updated = false).
Proof.
  intros Hu. induction edges as [|[v w] edges IH]; intros He dist prev updated Hinv.
  - exists dist, prev, updated. split; [done|]. split; [done|].
    split; [intros x d Hx; by exists d|]. split; [|done].
    intros v w du H. by apply elem_of_nil in H.
  - assert (forall v' w', (v', w') ∈ edges -> edge adj u v' w') as He'.
    { intros v' w' H. apply He. by right. }
    assert (edge adj u v w) as Hedge by (apply He; left).
    pose proof Hinv as (_ & H2 & _).
    simpl. unfold dist_index.
    destruct (H2 u Hu) as [du Hdu]. rewrite Hdu. simpl.
    destruct (H2 v (Hclosed _ _ _ Hedge)) as [dv Hdv]. rewrite Hdv. simpl.
    destruct (cost_ltb (cost_add du w) dv) eqn:Hlt.
    + destruct du as [du|]; [|done]. simpl in Hlt.
      pose proof (bf_relax_inv dist prev u v w du dv Hinv Hedge Hdu Hdv Hlt) as Hinv'.
      destruct (IH He' _ _ true Hinv')
        as (dist' & prev' & upd' & Hrun & Hinv'' & Hmono & Hrel & Hupd).
      exists dist', prev', upd'. split; [done|]. split; [done|].
      assert (forall x d, dist !! x = Some (Fin d) -> bf_bound dist' x d) as Hmono'.
      { intros x d Hx. destruct (decide (v = x)) as [<-|Hne].
        - destruct (Hmono v (du + w)) as (d' & Hd' & Hle); [by rewrite lookup_insert_eq|].
          exists d'. split; [done|]. rewrite Hdv in Hx. injection Hx as ->.
          simpl in Hlt. apply bool_decide_eq_true in Hlt. lia.
        - apply Hmono. by rewrite lookup_insert_ne. }
      split; [done|]. split.
      * intros v' w' du' Hin [= <-].
        apply elem_of_cons in Hin as [[= -> ->]|Hin].
        -- apply Hmono. by rewrite lookup_insert_eq.
        -- destruct (decide (v = u)) as [->|Hne].
           ++ destruct (Hrel v' w' (du + w) Hin) as (d' & Hd' & Hle);
                [by rewrite lookup_insert_eq|].
              exists d'. split; [done|]. rewrite Hdv in Hdu. injection Hdu as ->.
              simpl in Hlt. apply bool_decide_eq_true in Hlt. lia.
           ++ apply (Hrel v' w' du Hin). by rewrite lookup_insert_ne.
      * intros Hf. destruct (Hupd Hf) as [_ ?]. discriminate.
    + destruct (IH He' _ _ updated Hinv)
        as (dist' & prev' & upd' & Hrun & Hinv'' & Hmono & Hrel & Hupd).
      exists dist', prev', upd'. split; [done|]. split; [done|]. split; [done|].
      split; [|done].
      intros v' w' du' Hin [= ->]. apply elem_of_cons in Hin as [[= -> ->]|Hin];
        [|exact (Hrel v' w' du' Hin Hdu)].
      simpl in Hlt.
      destruct dv as [dv|]; [|done]. simpl in Hlt. apply bool_decide_eq_false in Hlt.
      destruct (Hmono v dv Hdv) as (d' & Hd' & Hle). exists d'. split; [done|lia].
Qed.

Lemma bf_pass_full (items : Adjacency) :
  (forall item, item ∈ items -> item ∈ adj) ->
  forall dist prev updated,
    bf_inv adj start dist prev ->
    exists dist' prev' updated',
      bf_pass items (dist, prev, updated) = Ret (dist', prev', updated') /\
      bf_inv adj start dist' prev' /\
      (forall x d, dist !! x = Some (Fin d) -> bf_bound dist' x d) /\
      (forall u edges v w du, (u, edges) ∈ items -> (v, w) ∈ edges ->
         dist !! u = Some (Fin du) -> bf_bound dist' v (du + w)) /\
      (updated' = false -> dist' = dist /\ updated = false).
Proof.
  induction items as [|[u edges] items IH]; intros Hsub dist prev updated Hinv.
  - exists dist, prev, updated. split; [done|]. split; [done|].
    split; [intros x d Hx; by exists d|]. split; [|done].
    intros u edges v w du H. by apply elem_of_nil in H.
  - assert ((u, edges) ∈ adj) as Hin by (apply Hsub; left).
    pose proof (adj_get_unique adj u edges Hdict Hin) as Hget.
    assert (u ∈ keys adj) as Hu by (apply list_elem_of_fmap; by exists (u, edges)).
    destruct (bf_relax_edges_full u edges Hu ltac:(intros v w H; by exists edges)
                dist prev updated Hinv)
      as (dist1 & prev1 & upd1 & Hrun1 & Hinv1 & Hmono1 & Hrel1 & Hupd1).
    destruct (IH ltac:(intros item H; apply Hsub; by right) dist1 prev1 upd1 Hinv1)
      as (dist' & prev' & upd' & Hrun & Hinv' & Hmono & Hrel & Hupd).
    exists dist', prev', upd'. simpl. rewrite Hrun1. simpl. split; [done|]. split; [done|].
    split; [|split].
    + intros x d Hx. destruct (Hmono1 x d Hx) as (d1 & Hd1 & Hle1).
      destruct (Hmono x d1 Hd1) as (d' & Hd' & Hle'). exists d'. split; [done|lia].
    + intros u' edges' v w du Hitem Hvw Hdu.
      apply elem_of_cons in Hitem as [[= -> ->]|Hitem].
      * destruct (Hrel1 v w du Hvw Hdu) as (d1 & Hd1 & Hle1).
        destruct (Hmono v d1 Hd1) as (d' & Hd' & Hle'). exists d'. split; [done|lia].
      * destruct (Hmono1 u' du Hdu) as (d1 & Hd1 & Hle1).
        destruct (Hrel u' edges' v w d1 Hitem Hvw Hd1) as (d' & Hd' & Hle').
        exists d'. split; [done|lia].
    + intros Hf. destruct (Hupd Hf) as [-> Hf1]. by apply Hupd1.
Qed.

Lemma bf_within_step (k : nat) dist dist' prev' :
  bf_inv adj start dist' prev' ->
  (forall u v w du, edge adj u v w -> dist !! u = Some (Fin du) -> bf_bound dist' v (du + w)) ->
  bf_within adj start k dist -> bf_within adj start (S k) dist'.
Proof.
  intros (_ & _ & [H0 _] & _) Hrel Hk v p c Hr Hlen.
  destruct Hr as [|n p c v w Hr He]; [by exists 0|].
  rewrite length_app in Hlen. simpl in Hlen.
  destruct (Hk n p c Hr ltac:(lia)) as (dn & Hdn & Hle).
  destruct (Hrel n v w dn He Hdn) as (d' & Hd' & Hle'). exists d'. split; [done|lia].
Qed.

Lemma bf_fixpoint_within (k : nat) dist prev :
  bf_inv adj start dist prev ->
  (forall u v w du, edge adj u v w -> dist !! u = Some (Fin du) -> bf_bound dist v (du + w)) ->
  bf_within adj start k dist.
Proof.
  intros (_ & _ & [H0 _] & _) Hrel v p c Hr _.
  induction Hr as [|n p c v w _ (dn & Hdn & Hle) He]; [by exists 0|].
  destruct (Hrel n v w dn He Hdn) as (d' & Hd' & Hle'). exists d'. split; [done|lia].
Qed.

Lemma bf_rounds_full (rounds : nat) :
  forall k dist prev,
    bf_inv adj start dist prev -> bf_within adj start k dist ->
    exists dist' prev',
      bf_rounds rounds adj dist prev = Ret (dist', prev') /\
      bf_inv adj start dist' prev' /\ bf_within adj start (k + rounds) dist'.
Proof.
  induction rounds as [|rounds IH]; intros k dist prev Hinv Hk.
  - exists dist, prev. split; [done|]. split; [done|]. by rewrite Nat.add_0_r.
  - simpl. destruct (bf_pass_full adj (fun _ H => H) dist prev false Hinv)
      as (dist1 & prev1 & upd1 & -> & Hinv1 & Hmono & Hrel & Hupd).
    simpl.
    assert (forall u v w du, edge adj u v w -> dist !! u = Some (Fin du) ->
              bf_bound dist1 v (du + w)) as Hrel'.
    { intros u v w du (edges & Hget & Hin) Hdu. eapply Hrel; [|exact Hin|exact Hdu].
      by apply adj_get_in. }
    destruct upd1.
    + destruct (IH (S k) dist1 prev1 Hinv1) as (dist' & prev' & -> & Hinv' & Hk').
      { by eapply bf_within_step. }
      exists dist', prev'. split; [done|]. split; [done|].
      by replace (k + S rounds)%nat with (S k + rounds)%nat by lia.
    + destruct (Hupd eq_refl) as [-> _].
      exists dist, prev1. split; [done|]. split; [done|].
      by eapply bf_fixpoint_within.
Qed.

End BellmanFord.
(** Paths without a repeated node. *)
Lemma route_snoc_cost (adj : Adjacency) (s n : node) (p : list node) (c : Z) :
  route adj s n p c ->
  (p = [s] /\ n = s /\ c = 0) \/
  exists m q c' w, p = q ++ [n] /\ route adj s m q c' /\ edge adj m n w /\ c = c' + w.
Proof. destruct 1 as [|m q c' v w Hq He]; [by left|right]. by exists m, q, c', w. Qed.

Lemma route_split (adj : Adjacency) (s v x : node) (l1 l2 : list node) (c : Z) :
  route adj s v (l1 ++ x :: l2) c ->
  exists c1 c2, route adj s x (l1 ++ [x]) c1 /\ route adj x v (x :: l2) c2 /\ c = c1 + c2.
Proof.
  revert v c. induction l2 as [|y l2 IH] using rev_ind; intros v c Hr.
  - destruct (route_shape _ _ _ _ _ Hr) as (rest & Hp & Hl).
    assert (v = x) as ->.
    { rewrite <- Hl, <- Hp. apply last_last. }
    exists c, 0. split; [done|]. split; [apply route_start|lia].
  - apply route_snoc_cost in Hr as [[Hp _]|(m & q & c' & w & Hp & Hq & He & ->)].
    { destruct l1 as [|a [|b l1]]; simpl in Hp; [|discriminate|discriminate].
      injection Hp as _ Hp. by destruct l2. }
    change (x :: l2 ++ [y]) with ((x :: l2) ++ [y]) in Hp. rewrite app_assoc in Hp.
    apply app_inj_tail in Hp as [<- <-].
    destruct (IH m c' Hq) as (c1 & c2 & H1 & H2 & ->).
    exists c1, (c2 + w). split; [done|]. split; [|lia].
    change (x :: l2 ++ [y]) with ((x :: l2) ++ [y]). by eapply route_step.
Qed.

Lemma dup_split (l : list node) :
  ~ NoDup l -> exists x l1 l2 l3, l = l1 ++ x :: l2 ++ x :: l3.
Proof.
  induction l as [|a l IH]; intros Hnd; [destruct Hnd; apply NoDup_nil_2|].
  destruct (decide (a ∈ l)) as [Hin|Hnin].
  - apply list_elem_of_split in Hin as (l2 & l3 & ->). by exists a, [], l2, l3.
  - destruct IH as (x & l1 & l2 & l3 & ->).
    + intros Hl. apply Hnd. by apply NoDup_cons.
    + by exists x, (a :: l1), l2, l3.
Qed.

Lemma route_simple (adj : Adjacency) (s v : node) :
  no_negative_cycle adj ->
  forall (n : nat) p c, (length p <= n)%nat -> route adj s v p c ->
    exists p' c', route adj s v p' c' /\ c' <= c /\ NoDup p'.
Proof.
  intros Hcycle. induction n as [|n IH]; intros p c Hlen Hr.
  { pose proof (route_length _ _ _ _ _ Hr). lia. }
  destruct (decide (NoDup p)) as [Hnd|Hnd]; [exists p, c; split; [done|]; split; [lia|done]|].
  apply dup_split in Hnd as (x & l1 & l2 & l3 & ->).
  destruct (route_split _ _ _ _ _ _ _ Hr) as (c1 & c23 & H1 & H23 & ->).
  change (x :: l2 ++ x :: l3) with ((x :: l2) ++ x :: l3) in H23.
  destruct (route_split _ _ _ _ _ _ _ H23) as (c2 & c3 & H2 & H3 & ->).
  pose proof (Hcycle _ _ _ H2) as Hc2.
  pose proof (route_join _ _ _ _ _ _ _ _ H1 H3) as Hnew. simpl in Hnew.
  assert (length ((l1 ++ [x]) ++ l3) <= n)%nat as Hlen'.
  { revert Hlen. rewrite !length_app. simpl. rewrite !length_app. simpl. lia. }
  destruct (IH _ _ Hlen' Hnew) as (p' & c' & Hp' & Hle & Hnd').
  exists p', c'. split; [done|]. split; [lia|done].
Qed.

Lemma route_nodes (adj : Adjacency) (s v : node) (p : list node) (c : Z) :
  closed adj -> s ∈ keys adj -> route adj s v p c -> forall x, x ∈ p -> x ∈ keys adj.
Proof.
  intros Hc Hs. induction 1 as [|n p c v w _ IH He]; intros x Hx.
  - by apply list_elem_of_singleton in Hx as ->.
  - apply elem_of_app in Hx as [Hx|Hx]; [by apply IH|].
    apply list_elem_of_singleton in Hx as ->. by eapply Hc.
Qed.

Lemma NoDup_length_le (l k : list node) :
  NoDup l -> (forall x, x ∈ l -> x ∈ k) -> (length l <= length k)%nat.
Proof.
  intros Hnd Hsub. apply submseteq_length, NoDup_submseteq; [done|]. exact Hsub.
Qed.

Section BellmanFordResult.
Variable adj : Adjacency.
Variable start : node.
Hypothesis Hdict : NoDup (keys adj).
Hypothesis Hclosed : closed adj.
Hypothesis Hcycle : no_negative_cycle adj.
Hypothesis Hstart : start ∈ keys adj.

Lemma bf_tree_inv dist prev v p c :
  bf_tree adj start dist prev v p c ->
  (v = start /\ p = [start] /\ prev !! start = None) \/
  exists u q c', p = q ++ [v] /\ bf_tree adj start dist prev u q c' /\ prev !! v = Some u.
Proof.
  destruct 1 as [H0 H1|u v w q c' du dv Ht Hp He Hu Hv Hw]; [by left|right].
  by exists u, q, c'.
Qed.

Lemma bf_tree_unique dist prev v p c :
  bf_tree adj start dist prev v p c ->
  forall p' c', bf_tree adj start dist prev v p' c' -> p' = p.
Proof.
  induction 1 as [H0 H1|u v w p c du dv Ht IH Hp He Hu Hv Hw]; intros p' c' Ht'.
  - apply bf_tree_inv in Ht' as [(_ & -> & _)|(u & q & c0 & _ & _ & Hp)]; [done|congruence].
  - apply bf_tree_inv in Ht' as [(-> & _ & H1)|(u' & q & c0 & -> & Ht' & Hp')];
      [congruence|].
    assert (u' = u) as -> by congruence. by rewrite (IH _ _ Ht').
Qed.

Lemma bf_tree_prefix dist prev u p c :
  bf_tree adj start dist prev u p c ->
  forall x, x ∈ p ->
    exists px cx, bf_tree adj start dist prev x px cx /\ (length px <= length p)%nat.
Proof.
  induction 1 as [H0 H1|u v w p c du dv Ht IH Hp He Hu Hv Hw]; intros x Hx.
  - apply list_elem_of_singleton in Hx as ->. exists [start], 0. split; [by apply bf_root|done].
  - apply elem_of_app in Hx as [Hx|Hx].
    + destruct (IH x Hx) as (px & cx & Htx & Hle). exists px, cx. split; [done|].
      rewrite length_app. lia.
    + apply list_elem_of_singleton in Hx as ->. exists (p ++ [v]), (c + w).
      split; [by eapply bf_step|done].
Qed.

Lemma bf_tree_NoDup dist prev v p c : bf_tree adj start dist prev v p c -> NoDup p.
Proof.
  induction 1 as [H0 H1|u v w p c du dv Ht IH Hp He Hu Hv Hw]; [apply NoDup_singleton|].
  apply NoDup_app. split; [done|]. split; [|apply NoDup_singleton].
  intros x Hx Hxv. apply list_elem_of_singleton in Hxv as ->.
  destruct (bf_tree_prefix _ _ _ _ _ Ht v Hx) as (pv & cv & Htv & Hle).
  assert (bf_tree adj start dist prev v (p ++ [v]) (c + w)) as Hfull by (by eapply bf_step).
  rewrite <- (bf_tree_unique _ _ _ _ _ Htv _ _ Hfull) in Hle.
  rewrite length_app in Hle. simpl in Hle. lia.
Qed.

Lemma bf_walk_back_tree dist prev v p c :
  bf_tree adj start dist prev v p c ->
  forall rest fuel, (length p <= fuel)%nat ->
    bf_walk_back fuel prev v (v :: rest) = Ret (p ++ rest).
Proof.
  induction 1 as [H0 H1|u v w p c du dv Ht IH Hp He Hu Hv Hw]; intros rest fuel Hf.
  - destruct fuel as [|fuel]; [simpl in Hf; lia|]. simpl. by rewrite H1.
  - rewrite length_app in Hf. simpl in Hf.
    destruct fuel as [|fuel]; [lia|]. simpl. rewrite Hp.
    rewrite IH by lia. by rewrite <- app_assoc.
Qed.

Lemma bf_start_inv :
  bf_inv adj start (<[start := Fin 0]> (bf_init adj)) ∅ /\
  bf_within adj start 0 (<[start := Fin 0]> (bf_init adj)).
Proof.
  assert (forall v c, <[start := Fin 0]> (bf_init adj) !! v = Some (Fin c) ->
            v = start /\ c = 0) as Hfin.
  { intros v c. destruct (decide (start = v)) as [<-|Hne].
    - rewrite lookup_insert_eq. by intros [= <-].
    - rewrite lookup_insert_ne by done. unfold bf_init. rewrite bf_init_lookup.
      destruct (decide (v ∈ keys adj)); [done|]. by rewrite lookup_empty. }
  split; [split; [|split; [|split]]|].
  - intros v c Hv. apply Hfin in Hv as [-> ->]. exists [start]. apply route_start.
  - intros x Hx. destruct (decide (start = x)) as [<-|Hne].
    + rewrite lookup_insert_eq. eauto.
    + rewrite lookup_insert_ne by done. unfold bf_init. rewrite bf_init_lookup.
      destruct (decide (x ∈ keys adj)); [eauto|done].
  - by rewrite lookup_insert_eq, lookup_empty.
  - intros v d Hv. apply Hfin in Hv as [-> ->]. exists [start], 0.
    apply bf_root; [by rewrite lookup_insert_eq|apply lookup_empty].
  - intros v p c Hr Hlen. destruct Hr as [|n p c v w Hr He].
    + exists 0. by rewrite lookup_insert_eq.
    + pose proof (route_length _ _ _ _ _ Hr). rewrite length_app in Hlen. simpl in Hlen. lia.
Qed.

Lemma bellman_ford_finds (goal : node) (fuel : nat) :
  reach adj start goal -> (length adj <= fuel)%nat ->
  exists path c,
    bellman_ford fuel adj start goal = Ret (Some path, Fin c) /\
    route adj start goal path c /\
    forall p' c', route adj start goal p' c' -> c <= c'.
Proof.
  intros Hreach Hf. unfold bellman_ford.
  destruct bf_start_inv as [Hinv0 Hk0].
  destruct (bf_rounds_full adj start Hdict Hclosed Hcycle (length adj - 1) 0 _ ∅ Hinv0 Hk0)
    as (dist & prev & -> & Hinv & Hk).
  simpl.
  assert (length (keys adj) = length adj) as Hlen by apply length_map.
  assert (1 <= length adj)%nat as Hne.
  { rewrite <- Hlen. destruct (keys adj); [by apply elem_of_nil in Hstart|simpl; lia]. }
  assert (forall p c, route adj start goal p c -> bf_bound dist goal c) as Hlow.
  { intros p c Hr.
    destruct (route_simple adj start goal Hcycle (length p) p c (le_n _) Hr)
      as (p' & c' & Hp' & Hle & Hnd).
    destruct (Hk goal p' c' Hp') as (d & Hd & Hle').
    - pose proof (NoDup_length_le p' (keys adj) Hnd
                    (route_nodes adj start goal p' c' Hclosed Hstart Hp')). lia.
    - exists d. split; [done|lia]. }
  destruct (reach_route _ _ _ Hreach) as (p0 & c0 & Hp0).
  destruct (Hlow p0 c0 Hp0) as (d & Hd & _).
  unfold dist_index. rewrite Hd. simpl.
  destruct Hinv as (_ & _ & _ & H6). destruct (H6 goal d Hd) as (pt & ct & Ht).
  pose proof (bf_tree_route adj start _ _ _ _ _ Ht) as Hroute.
  rewrite (bf_walk_back_tree _ _ _ _ _ Ht [] fuel).
  2:{ pose proof (NoDup_length_le pt (keys adj) (bf_tree_NoDup _ _ _ _ _ Ht)
                    (route_nodes adj start goal pt ct Hclosed Hstart Hroute)). lia. }
  simpl. rewrite app_nil_r. exists pt, d. split; [done|].
  destruct (bf_tree_cost adj start _ _ _ _ _ Ht) as (d' & Hd' & Hct).
  rewrite Hd in Hd'. injection Hd' as <-.
  destruct (Hlow pt ct Hroute) as (d'' & Hd'' & Hle). rewrite Hd in Hd''. injection Hd'' as <-.
  assert (ct = d) as -> by lia. split; [done|].
  intros p' c' Hp'. destruct (Hlow p' c' Hp') as (d' & Hd' & Hle').
  rewrite Hd in Hd'. by injection Hd' as <-.
Qed.

End BellmanFordResult.
Lemma negative_edge_graph_facts :
  NoDup (keys negative_edge_graph) /\ closed negative_edge_graph /\
  no_negative_cycle negative_edge_graph /\ 0 ∈ keys negative_edge_graph /\
  3 ∈ keys negative_edge_graph /\ route negative_edge_graph 0 3 [0; 2; 3] 2.
Proof.
  split; [apply (bool_decide_unpack _); vm_compute; exact I|].
  split; [apply closedb_closed; vm_compute; reflexivity|].
  split.
  { apply (feasible_no_negative_cycle (fun n => if decide (n = 3) then -3 else 0)).
    vm_compute. reflexivity. }
  split; [apply (bool_decide_unpack _); vm_compute; exact I|].
  split; [apply (bool_decide_unpack _); vm_compute; exact I|].
  apply (route_step _ _ 2 [0; 2] 5 3 (-3)).
  - apply (route_step _ _ 0 [0] 0 2 5); [apply route_start|].
    eexists. split; [reflexivity|]. right. left.
  - eexists. split; [reflexivity|]. left.
Qed.

Lemma search_fuel_length (adj : Adjacency) (fuel : nat) :
  (search_fuel adj <= fuel)%nat -> (length adj <= fuel)%nat.
Proof. unfold search_fuel, keys. rewrite length_map. lia. Qed.

Lemma no_negative_nonneg (adj : Adjacency) :
  existsb (fun w => bool_decide (w < 0)) (all_weights adj) = false -> nonneg_weights adj.
Proof.
  unfold nonneg_weights. induction (all_weights adj) as [|w l IH]; simpl; intros H;
    [apply Forall_nil_2|].
  apply orb_false_iff in H as [Hw Hl]. apply bool_decide_eq_false in Hw.
  apply Forall_cons_2; [lia|by apply IH].
Qed.

(** *** Costs that the floats of the code hold exactly *)

Lemma sum_over_app (f : node -> Z) (l k : list node) :
  sum_over f (l ++ k) = sum_over f l + sum_over f k.
Proof. induction l as [|x l IH]; simpl; [done|]. rewrite IH. lia. Qed.

Lemma sum_over_add (f g : node -> Z) (l : list node) :
  sum_over (fun u => f u + g u) l = sum_over f l + sum_over g l.
Proof. induction l as [|x l IH]; simpl; [done|]. rewrite IH. lia. Qed.

Lemma sum_over_once (k : node) (a : Z) (l : list node) :
  0 <= a -> NoDup l -> sum_over (fun u => if decide (k = u) then a else 0) l <= a.
Proof.
  intros Ha. induction 1 as [|x l Hx _ IH]; simpl; [done|].
  destruct (decide (k = x)) as [->|Hne]; [|lia].
  assert (sum_over (fun u => if decide (x = u) then a else 0) l = 0) as ->; [|lia].
  clear IH. induction l as [|y l IH]; simpl; [done|].
  rewrite not_elem_of_cons in Hx. destruct Hx as [Hy Hl].
  rewrite decide_False by done. by rewrite IH.
Qed.

Lemma edges_sum_nonneg (edges : list (node * Z)) :
  0 <= foldr (fun (e : node * Z) acc => Z.abs e.2 + acc) 0 edges.
Proof. induction edges as [|e edges IH]; simpl; lia. Qed.

Lemma edges_sum_ge (edges : list (node * Z)) (v : node) (w : Z) :
  (v, w) ∈ edges -> Z.abs w <= foldr (fun (e : node * Z) acc => Z.abs e.2 + acc) 0 edges.
Proof.
  induction edges as [|e edges IH]; intros H; [by apply elem_of_nil in H|].
  pose proof (edges_sum_nonneg edges). simpl.
  apply elem_of_cons in H as [<-|H]; [simpl; lia|]. specialize (IH H). lia.
Qed.

Lemma out_sum_nonneg (adj : Adjacency) (u : node) : 0 <= out_sum adj u.
Proof. apply edges_sum_nonneg. Qed.

Lemma out_sum_edge (adj : Adjacency) (u v : node) (w : Z) :
  edge adj u v w -> Z.abs w <= out_sum adj u.
Proof.
  intros (edges & Hget & Hin). unfold out_sum. rewrite Hget. simpl. by eapply edges_sum_ge.
Qed.

Lemma weight_sum_cons (k : node) (edges : list (node * Z)) (adj : Adjacency) :
  weight_sum ((k, edges) :: adj) =
  foldr (fun (e : node * Z) acc => Z.abs e.2 + acc) 0 edges + weight_sum adj.
Proof.
  unfold weight_sum, all_weights. simpl. rewrite foldr_app.
  generalize (foldr (fun w acc => Z.abs w + acc) 0
                (concat (map (fun item : node * list (node * Z) => map snd item.2) adj))).
  intros z. induction edges as [|e edges IH]; simpl; [done|]. rewrite IH. lia.
Qed.

Lemma weight_sum_nonneg (adj : Adjacency) : 0 <= weight_sum adj.
Proof. unfold weight_sum. induction (all_weights adj); simpl; lia. Qed.

(** The edges out of distinct nodes are distinct edges. *)
Lemma out_sum_distinct (adj : Adjacency) (l : list node) :
  NoDup l -> sum_over (out_sum adj) l <= weight_sum adj.
Proof.
  intros Hnd. induction adj as [|[k edges] adj IH].
  - unfold weight_sum. simpl. induction l as [|x l IHl]; simpl; [done|].
    apply NoDup_cons in Hnd as [_ Hnd]. specialize (IHl Hnd). unfold out_sum at 1. simpl. lia.
  - rewrite weight_sum_cons.
    set (a := foldr (fun (e : node * Z) acc => Z.abs e.2 + acc) 0 edges).
    pose proof (edges_sum_nonneg edges) as Ha. fold a in Ha.
    assert (sum_over (out_sum ((k, edges) :: adj)) l <=
            sum_over (fun u => (if decide (k = u) then a else 0) + out_sum adj u) l) as H.
    { apply sum_over_le. intros x _. unfold out_sum at 1. simpl.
      pose proof (out_sum_nonneg adj x).
      destruct (decide (k = x)); simpl; [fold a; lia|]. unfold out_sum. lia. }
    rewrite sum_over_add in H. pose proof (sum_over_once k a l Ha Hnd). lia.
Qed.

Lemma route_out_sum (adj : Adjacency) (s n : node) (p : list node) (c : Z) :
  route adj s n p c -> exists pre, p = pre ++ [n] /\ Z.abs c <= sum_over (out_sum adj) pre.
Proof.
  induction 1 as [|n p c v w _ (pre & -> & IH) He].
  - exists []. split; [done|]. simpl. lia.
  - exists (pre ++ [n]). split; [done|]. rewrite sum_over_app. simpl.
    pose proof (out_sum_edge _ _ _ _ He). lia.
Qed.

(** A path that goes through no node twice, and such a path with one more
    edge at its end, cost at most the sum of all the weights. *)
Lemma simple_route_cost (adj : Adjacency) (s n : node) (p : list node) (c : Z) :
  route adj s n p c -> NoDup (removelast p) -> Z.abs c <= weight_sum adj.
Proof.
  intros Hr Hnd. destruct (route_out_sum _ _ _ _ _ Hr) as (pre & -> & Hle).
  rewrite removelast_last in Hnd. pose proof (out_sum_distinct adj pre Hnd). lia.
Qed.

Lemma NoDup_removelast (l : list node) : NoDup l -> NoDup (removelast l).
Proof.
  destruct (decide (l = [])) as [->|Hne]; [done|].
  destruct (exists_last Hne) as (pre & x & ->). rewrite removelast_last.
  intros H. by apply NoDup_app in H as [H _].
Qed.

Lemma small_route (adj : Adjacency) (s n : node) (p : list node) (c : Z) :
  small_weights adj -> route adj s n p c -> NoDup p -> Z.abs c <= 2 ^ 52.
Proof.
  intros Hs Hr Hnd. pose proof (simple_route_cost _ _ _ _ _ Hr (NoDup_removelast _ Hnd)).
  unfold small_weights in Hs. lia.
Qed.

Lemma no_negative_cycle_anywhere (adj : Adjacency) (s : node) :
  no_negative_cycle adj -> no_negative_cycle_from adj s.
Proof. intros H x p c _. apply H. Qed.

Lemma nonneg_no_negative_cycle (adj : Adjacency) : nonneg_weights adj -> no_negative_cycle adj.
Proof. intros H x p c Hr. by eapply route_nonneg. Qed.

Lemma route_simple_from (adj : Adjacency) (s v : node) :
  no_negative_cycle_from adj s ->
  forall (n : nat) p c, (length p <= n)%nat -> route adj s v p c ->
    exists p' c', route adj s v p' c' /\ c' <= c /\ NoDup p'.
Proof.
  intros Hcycle. induction n as [|n IH]; intros p c Hlen Hr.
  { pose proof (route_length _ _ _ _ _ Hr). lia. }
  destruct (decide (NoDup p)) as [Hnd|Hnd]; [exists p, c; split; [done|]; split; [lia|done]|].
  apply dup_split in Hnd as (x & l1 & l2 & l3 & ->).
  destruct (route_split _ _ _ _ _ _ _ Hr) as (c1 & c23 & H1 & H23 & ->).
  change (x :: l2 ++ x :: l3) with ((x :: l2) ++ x :: l3) in H23.
  destruct (route_split _ _ _ _ _ _ _ H23) as (c2 & c3 & H2 & H3 & ->).
  pose proof (Hcycle _ _ _ (route_reach _ _ _ _ _ H1) H2) as Hc2.
  pose proof (route_join _ _ _ _ _ _ _ _ H1 H3) as Hnew. simpl in Hnew.
  assert (length ((l1 ++ [x]) ++ l3) <= n)%nat as Hlen'.
  { revert Hlen. rewrite !length_app. simpl. rewrite !length_app. simpl. lia. }
  destruct (IH _ _ Hlen' Hnew) as (p' & c' & Hp' & Hle & Hnd').
  exists p', c'. split; [done|]. split; [lia|done].
Qed.

(** Without a cycle of negative cost on the way, no path costs less than
    minus the sum of the weights. *)
Lemma route_lower (adj : Adjacency) (s v : node) (p : list node) (c : Z) :
  no_negative_cycle_from adj s -> route adj s v p c -> - weight_sum adj <= c.
Proof.
  intros Hcyc Hr.
  destruct (route_simple_from adj s v Hcyc (length p) p c (le_n _) Hr) as (p' & c' & Hp' & Hle & Hnd).
  pose proof (simple_route_cost _ _ _ _ _ Hp' (NoDup_removelast _ Hnd)). lia.
Qed.

Lemma shortest_small (adj : Adjacency) (s v : node) (d : Z) :
  small_weights adj -> no_negative_cycle_from adj s -> shortest adj s v d -> float_exact d.
Proof.
  intros Hs Hcyc [[p Hp] Hmin].
  destruct (route_simple_from adj s v Hcyc (length p) p d (le_n _) Hp) as (p' & c' & Hp' & Hle & Hnd).
  pose proof (Hmin _ _ Hp'). pose proof (small_route _ _ _ _ _ Hs Hp' Hnd).
  unfold float_exact. assert (d = c') as -> by lia.
  assert (2 ^ 52 <= 2 ^ 53) by (apply Z.pow_le_mono_r; lia). lia.
Qed.

(** *** A* and Dijkstra return when no cycle of negative cost is reached *)

Section AStarWalk.
Variable adj : Adjacency.
Variable h : heuristic.
Variables start goal : node.
Hypothesis Hclosed : closed adj.
Hypothesis Hstart : start ∈ keys adj.
Hypothesis Hcyc : no_negative_cycle_from adj start.
Hypothesis Hh : returns_number h goal.

Lemma walk_slack_bounds (pq : list astar_entry) (visited : gmap node Z) (u : node) :
  walk_inv adj start pq visited ->
  - weight_sum adj <= slack (walk_bound adj) visited u <= walk_bound adj.
Proof.
  intros [_ Hv]. unfold slack, walk_bound.
  pose proof (max_weight_nonneg adj). pose proof (known_bounds (keys adj) visited).
  pose proof (weight_sum_nonneg adj).
  destruct (visited !! u) as [c|] eqn:E; [|nia].
  destruct (Hv u c E) as [[p Hp] Hle]. pose proof (route_lower _ _ _ _ _ Hcyc Hp). nia.
Qed.

Lemma walk_measure_nonneg (pq : list astar_entry) (visited : gmap node Z) :
  walk_inv adj start pq visited -> 0 <= walk_measure adj pq visited.
Proof.
  intros Hi. unfold walk_measure.
  pose proof (sum_over_bounds (slack (walk_bound adj) visited) (keys adj)
                (- weight_sum adj) (walk_bound adj)) as H.
  destruct H as [H _]; [intros x _; by eapply walk_slack_bounds|]. nia.
Qed.

Lemma walk_expand (pq pq' : list astar_entry) (visited : gmap node Z)
    (f g : Z) (n : node) (path : list node) :
  walk_inv adj start pq visited ->
  heappop astar_ltb pq = Some ((f, g, n, path), pq') ->
  settled visited n g = false ->
  exists edges pq'',
    adj_get adj n = Some edges /\
    astar_push h goal path g edges pq' = Ret pq'' /\
    walk_inv adj start pq'' (<[n := g]> visited) /\
    walk_measure adj pq'' (<[n := g]> visited) < walk_measure adj pq visited.
Proof.
  intros [Hq Hv] Hpop Hs.
  pose proof (heappop_length _ _ _ _ Hpop) as Hlen.
  assert ((f, g, n, path) ∈ pq) as Hin by (apply (heappop_in _ _ _ _ _ Hpop); by left).
  destruct (Hq _ _ _ _ Hin) as [Hr Hg].
  assert (n ∈ keys adj) as Hk by (eapply reach_key; eauto using route_reach).
  destruct (in_adj_get adj n Hk) as [edges Hedges]. exists edges.
  destruct (astar_push_spec h goal path g edges Hh pq')
    as (pq'' & Hpush & Hlen' & Hfrom & Hkeep & Hnew).
  exists pq''. split; [done|]. split; [done|].
  pose proof (max_weight_nonneg adj) as HM.
  pose proof (known_insert_old (keys adj) visited n g) as Hold.
  pose proof (known_bounds (keys adj) visited) as Hkb.
  assert (g <= max_weight adj * known (keys adj) (<[n := g]> visited) /\
          g + 1 <= slack (walk_bound adj) visited n) as [Hnew_le Hdrop].
  { unfold slack, walk_bound. destruct (visited !! n) as [c|] eqn:E.
    - apply settled_false with (c := c) in Hs; [|done].
      destruct (Hv n c E) as [_ Hc]. nia.
    - pose proof (known_insert_new (keys adj) visited n g Hk E). nia. }
  split.
  - split.
    + intros f' g' n' path' He. destruct (Hfrom _ He) as [H|(v & w & hv & H & Hhv & [= -> -> -> ->])].
      * assert ((f', g', n', path') ∈ pq) as H' by (apply (heappop_in _ _ _ _ _ Hpop); by right).
        destruct (Hq _ _ _ _ H') as [Hr' Hg']. split; [done|]. nia.
      * assert (edge adj n v w) as Hedge by (exists edges; done).
        split; [by eapply route_step|].
        pose proof (max_weight_ge adj w (edge_weight_in _ _ _ _ Hedge)). nia.
    + intros v c. destruct (decide (n = v)) as [->|Hne].
      * rewrite lookup_insert_eq. intros [= <-]. split; [eauto|done].
      * rewrite lookup_insert_ne by done. intros E. destruct (Hv v c E) as [Hp Hc].
        split; [done|nia].
  - pose proof (slack_insert_drop (walk_bound adj) (keys adj) visited n g Hk Hdrop).
    pose proof (out_degree_le_edges adj n edges Hedges).
    unfold walk_measure. nia.
Qed.

Lemma walk_skip (pq pq' : list astar_entry) (visited : gmap node Z) (e : astar_entry) :
  walk_inv adj start pq visited ->
  heappop astar_ltb pq = Some (e, pq') ->
  walk_inv adj start pq' visited /\
  walk_measure adj pq' visited < walk_measure adj pq visited.
Proof.
  intros [Hq Hv] Hpop. pose proof (heappop_length _ _ _ _ Hpop) as Hlen. split.
  - split; [|done]. intros f g n path H. apply (Hq f). apply (heappop_in _ _ _ _ _ Hpop). by right.
  - unfold walk_measure. lia.
Qed.

Lemma a_star_loop_walk (fuel : nat) :
  forall pq visited,
    walk_inv adj start pq visited ->
    walk_measure adj pq visited < Z.of_nat fuel ->
    exists r, a_star_loop fuel adj h goal pq visited = Ret r /\
      (r = no_path \/ exists path g, r = (Some path, Fin g) /\ route adj start goal path g).
Proof.
  induction fuel as [|fuel IH]; intros pq visited Hi Hm.
  - pose proof (walk_measure_nonneg pq visited Hi). lia.
  - simpl. destruct (heappop astar_ltb pq) as [[[[[f g] n] path] pq']|] eqn:Hpop.
    2:{ exists no_path. auto. }
    destruct (decide (n = goal)) as [->|Hng].
    { exists (Some path, Fin g). split; [done|]. right. exists path, g. split; [done|].
      destruct Hi as [Hq _]. apply (Hq f g goal path).
      apply (heappop_in _ _ _ _ _ Hpop). by left. }
    destruct (settled visited n g) eqn:Hs.
    + destruct (walk_skip pq pq' visited _ Hi Hpop) as [Hi' Hm']. apply IH; [done|lia].
    + destruct (walk_expand pq pq' visited f g n path Hi Hpop Hs)
        as (edges & pq'' & Hedges & Hpush & Hi' & Hm').
      unfold adj_index. rewrite Hedges. simpl. rewrite Hpush. simpl.
      apply IH; [done|lia].
Qed.

Lemma a_star_walk (fuel : nat) :
  (walk_fuel adj <= fuel)%nat ->
  exists r, a_star fuel adj start goal h = Ret r /\
    (r = no_path \/ exists path g, r = (Some path, Fin g) /\ route adj start goal path g).
Proof.
  intros Hf. unfold a_star. destruct (Hh start) as [h0 H0]. rewrite H0. simpl.
  pose proof (max_weight_nonneg adj) as HM. pose proof (weight_sum_nonneg adj) as HW.
  apply a_star_loop_walk.
  - split; [|intros v c; by rewrite lookup_empty].
    intros f g n path He. apply list_elem_of_singleton in He as [= -> -> -> ->].
    split; [apply route_start|].
    pose proof (known_bounds (keys adj) (∅ : gmap node Z)). nia.
  - unfold walk_measure, walk_fuel in *.
    pose proof (sum_over_bounds (slack (walk_bound adj) ∅) (keys adj)
                  (walk_bound adj) (walk_bound adj)) as Hb.
    assert (sum_over (slack (walk_bound adj) ∅) (keys adj)
            <= walk_bound adj * Z.of_nat (length (keys adj))) as Hs.
    { apply Hb. intros x _. unfold slack. rewrite lookup_empty. lia. }
    assert (0 <= walk_bound adj) by (unfold walk_bound; nia).
    simpl length. nia.
Qed.

End AStarWalk.

Lemma a_star_no_path_walk (adj : Adjacency) (h : heuristic) (s g : node) (fuel : nat) :
  closed adj -> s ∈ keys adj -> no_negative_cycle_from adj s -> returns_number h g ->
  ~ reach adj s g -> (walk_fuel adj <= fuel)%nat ->
  a_star fuel adj s g h = Ret no_path.
Proof.
  intros Hc Hs Hcyc Hh Hu Hf.
  destruct (a_star_walk adj h s g Hc Hs Hcyc Hh fuel Hf) as (r & -> & [->|H]); [done|].
  destruct H as (path & c & _ & Hr). exfalso. apply Hu. by eapply route_reach.
Qed.

(** *** [dijkstra_from_source] returns when no cycle of negative cost is reached *)

Section SourceWalk.
Variable adj : Adjacency.
Variable src : node.
Hypothesis Hcyc : no_negative_cycle_from adj src.






End SourceWalk.

(** *** The distances of [dijkstra_from_source] are costs of paths without a repeated node *)

Section SourceTrail.
Variable adj : Adjacency.
Variable src : node.
Hypothesis Hcyc : no_negative_cycle_from adj src.




End SourceTrail.

(** *** The paths returned go through no node twice *)

Lemma greedy_push_from (h : heuristic) (goal : node) (path : list node) (c : Z)
    (edges : list (node * Z)) :
  forall pq pq', greedy_push h goal path c edges pq = Ret pq' ->
    forall e, e ∈ pq' -> e ∈ pq \/ exists v w hv, e = (hv, v, path ++ [v], c + w).
Proof.
  induction edges as [|[v w] edges IH]; intros pq pq'; simpl.
  - intros [= <-] e He. by left.
  - destruct (h v goal) as [hv| |]; simpl; try discriminate.
    intros Hrun e He. destruct (IH _ _ Hrun e He) as [H|H]; [|by right].
    unfold heappush in H. apply elem_of_cons in H as [->|H]; [right; eauto|by left].
Qed.

Lemma greedy_loop_simple (adj : Adjacency) (h : heuristic) (goal : node) (fuel : nat) :
  forall pq visited path c,
    (forall hv n p c', (hv, n, p, c') ∈ pq ->
       exists pre, p = pre ++ [n] /\ NoDup pre /\ forall x, x ∈ pre -> x ∈ visited) ->
    goal ∉ visited ->
    greedy_loop fuel adj h goal pq visited = Ret (Some path, c) -> NoDup path.
Proof.
  induction fuel as [|fuel IH]; intros pq visited path c Hq Hg; simpl; [discriminate|].
  destruct (heappop greedy_ltb pq) as [[[[[hn n] p] cn] pq']|] eqn:Hpop; [|discriminate].
  assert (forall e, e ∈ pq <-> e = (hn, n, p, cn) \/ e ∈ pq') as Hin
    by (intros e; apply (heappop_in _ _ _ _ e Hpop)).
  destruct (Hq hn n p cn) as (pre & -> & Hnd & Hpre); [apply Hin; by left|].
  assert (forall hv n' p' c', (hv, n', p', c') ∈ pq' ->
            exists pre', p' = pre' ++ [n'] /\ NoDup pre' /\ forall x, x ∈ pre' -> x ∈ visited)
    as Hq'.
  { intros hv n' p' c' H. apply (Hq hv n' p' c'), Hin. by right. }
  destruct (decide (n = goal)) as [->|Hng].
  { intros [= <- <-]. apply NoDup_app. split; [done|]. split; [|apply NoDup_singleton].
    intros x Hx Hx'. apply list_elem_of_singleton in Hx' as ->. by apply Hg, Hpre. }
  destruct (decide (n ∈ visited)) as [Hv|Hv]; [by apply IH|].
  unfold adj_index. destruct (adj_get adj n) as [edges|]; simpl; [|discriminate].
  destruct (greedy_push h goal (pre ++ [n]) cn edges pq') as [pq''| |] eqn:Hpush; simpl;
    try discriminate.
  apply IH.
  - intros hv n' p' c' H.
    destruct (greedy_push_from _ _ _ _ _ _ _ Hpush _ H) as [H'|(v & w & hv' & [= -> -> -> ->])].
    + destruct (Hq' _ _ _ _ H') as (pre' & -> & Hnd' & Hpre').
      exists pre'. split; [done|]. split; [done|]. intros x Hx. apply elem_of_union. right. auto.
    + exists (pre ++ [n]). split; [done|]. split.
      * apply NoDup_app. split; [done|]. split; [|apply NoDup_singleton].
        intros x Hx Hx'. apply list_elem_of_singleton in Hx' as ->. by apply Hv, Hpre.
      * intros x Hx. apply elem_of_union. apply elem_of_app in Hx as [Hx|Hx]; [right; auto|].
        left. apply list_elem_of_singleton in Hx as ->. by apply elem_of_singleton.
  - intros Hgv. apply elem_of_union in Hgv as [Hgv|Hgv]; [|done].
    apply elem_of_singleton in Hgv. congruence.
Qed.

Lemma greedy_best_simple (adj : Adjacency) (h : heuristic) (start goal : node) (fuel : nat)
    (path : list node) (c : cost) :
  greedy_best fuel adj start goal h = Ret (Some path, c) -> NoDup path.
Proof.
  unfold greedy_best. destruct (h start goal) as [h0| |]; simpl; try discriminate.
  apply greedy_loop_simple; [|apply not_elem_of_empty].
  intros hv n p c' H. apply list_elem_of_singleton in H as [= -> -> -> ->].
  exists []. split; [done|]. split; [apply NoDup_nil_2|]. intros x Hx. by apply elem_of_nil in Hx.
Qed.

Section AStarSimple.
Variable adj : Adjacency.
Variable h : heuristic.
Variables start goal : node.
Hypothesis Hclosed : closed adj.
Hypothesis Hstart : start ∈ keys adj.
Hypothesis Hnn : nonneg_weights adj.
Hypothesis Hh : returns_number h goal.

Lemma a_star_loop_simple (fuel : nat) :
  forall pq visited path c,
    astar_inv adj h start goal pq visited -> visited !! goal = None ->
    a_star_loop fuel adj h goal pq visited = Ret (Some path, c) -> NoDup path.
Proof.
  induction fuel as [|fuel IH]; intros pq visited path c Hi Hg; simpl; [discriminate|].
  destruct (heappop astar_ltb pq) as [[[[[f g] n] p] pq']|] eqn:Hpop; [|discriminate].
  destruct (decide (n = goal)) as [->|Hng].
  { intros [= <- <-]. destruct Hi as [Hq _].
    destruct (Hq (f, g, goal, p)) as (_ & _ & _ & pre & -> & Hnd & Hpre & _);
      [apply (heappop_in _ _ _ _ _ Hpop); by left|].
    apply NoDup_app. split; [done|]. split; [|apply NoDup_singleton].
    intros x Hx Hx'. apply list_elem_of_singleton in Hx' as ->.
    destruct (Hpre goal Hx) as [_ Hs]. apply settled_true in Hs as (c' & Hc' & _). congruence. }
  destruct (settled visited n g) eqn:Hs.
  - destruct (astar_skip adj h start goal pq pq' visited _ Hi Hpop) as [Hi' _]. by apply IH.
  - destruct (astar_expand adj h start goal Hclosed Hstart Hnn Hh pq pq' visited f g n p Hi Hpop Hs)
      as (edges & pq'' & Hedges & Hpush & Hi' & _).
    unfold adj_index. rewrite Hedges. simpl. rewrite Hpush. simpl.
    apply IH; [done|by rewrite lookup_insert_ne].
Qed.

Lemma a_star_simple (fuel : nat) (path : list node) (c : cost) :
  a_star fuel adj start goal h = Ret (Some path, c) -> NoDup path.
Proof.
  unfold a_star. destruct (Hh start) as [h0 H0]. rewrite H0. simpl.
  destruct (a_star_start_inv adj h start goal h0 H0) as [Hi _].
  apply a_star_loop_simple; [done|apply lookup_empty].
Qed.

End AStarSimple.

(** The ALT heuristic takes its values from the tables: they are small
    when the weights are. *)
Lemma shortest_le (adj : Adjacency) (s v : node) (d : Z) :
  no_negative_cycle_from adj s -> shortest adj s v d -> Z.abs d <= weight_sum adj.
Proof.
  intros Hcyc [[p Hp] Hmin].
  destruct (route_simple_from adj s v Hcyc (length p) p d (le_n _) Hp) as (p' & c' & Hp' & Hle & Hnd).
  pose proof (Hmin _ _ Hp').
  pose proof (simple_route_cost _ _ _ _ _ Hp' (NoDup_removelast _ Hnd)).
  assert (d = c') as -> by lia. done.
Qed.

Lemma alt_heuristic_small (adj : Adjacency) (fwd bwd : table) (goal : node) :
  small_weights adj -> nonneg_weights adj -> exact_tables adj fwd bwd ->
  small_heuristic (alt_heuristic_factory goal fwd bwd) goal.
Proof.
  intros Hs Hnn (Hkeys & Hfwd & Hbwd) u z Hz. unfold small_weights in Hs.
  assert (forall a b d, shortest adj a b d -> 0 <= d <= 2 ^ 52) as Hd.
  { intros a b d Hsh.
    pose proof (shortest_le adj a b d
                  (no_negative_cycle_anywhere _ _ (nonneg_no_negative_cycle _ Hnn)) Hsh).
    destruct Hsh as [[p Hp] _]. pose proof (route_nonneg _ _ _ _ _ Hnn Hp). lia. }
  destruct (alt_scan_spec (fun z => 0 <= z <= 2 ^ 52) goal u fwd bwd (map fst fwd)) with (best := 0)
    as (z' & Hz' & Hle).
  - intros L HL. split; apply dict_get_is_Some; [done|by rewrite <- Hkeys].
  - intros L f x y Hl Hx Hy.
    apply (Hfwd L f Hl) in Hx, Hy. apply Hd in Hx, Hy. lia.
  - intros L b x y Hl Hx Hy.
    apply (Hbwd L b Hl) in Hx, Hy. apply Hd in Hx, Hy. lia.
  - lia.
  - unfold alt_heuristic_factory in Hz. rewrite Hz in Hz'. injection Hz' as <-. lia.
Qed.

(** *** Landmark selection, whatever the weights *)



Lemma small_weights_check (adj : Adjacency) :
  (weight_sum adj <=? 2 ^ 52) = true -> small_weights adj.
Proof. apply Z.leb_le. Qed.




(** *** Unreachability agreement *)

Lemma negative_edge_pair_facts :
  NoDup (keys negative_edge_pair) /\ closed negative_edge_pair /\
  0 ∈ keys negative_edge_pair /\ 3 ∈ keys negative_edge_pair /\
  ~ wconn negative_edge_pair 0 3 /\ no_negative_cycle_from negative_edge_pair 0 /\
  float_weights negative_edge_pair /\ float_range (weight_sum negative_edge_pair).
Proof.
  split; [apply (bool_decide_unpack _); vm_compute; exact I|].
  split; [apply closedb_closed; vm_compute; reflexivity|].
  split; [apply (bool_decide_unpack _); vm_compute; exact I|].
  split; [apply (bool_decide_unpack _); vm_compute; exact I|].
  split.
  { intros H. apply (wconn_colour (fun x => bool_decide (x < 2))) in H; [|done].
    vm_compute in H. discriminate. }
  split.
  { apply no_negative_cycle_anywhere.
    apply (feasible_no_negative_cycle (fun n => if decide (n = 1) then -2 else 0)).
    vm_compute. reflexivity. }
  split.
  - unfold float_weights, float_range. repeat constructor; simpl; lia.
  - unfold float_range. change (weight_sum negative_edge_pair) with 3. simpl. lia.
Qed.

(** C7 (amended).  Let the graph be a dict whose edges all lead to keys,
    and let [s] and [g] be keys in different weak components.  With enough
    turns, [bfs], [dfs] and [bidirectional_bfs] return [(None, inf)]; so
    do [greedy_best] and [bellman_ford] when every weight is within the
    range of the floats, to which they convert it; so do [dijkstra] and
    [bidirectional_dijkstra] when no cycle of negative cost can be reached
    from [s], and [a_star] when moreover the sum of the absolute values of
    the weights is within the range of the floats.  The heuristic may be
    any that returns a number.  The map built by [_build_weak_components]
    gives [s] and [g] different ids, so that [_reachable] is false for
    every index that carries it, the one of [preprocess_index] among
    them. *)
Theorem no_path_across_components (adj : Adjacency) (s g : node) (h : heuristic) :
  NoDup (keys adj) -> closed adj -> s ∈ keys adj -> g ∈ keys adj ->
  ~ wconn adj s g -> returns_number h g ->
  forall fuel, (search_fuel adj <= fuel)%nat ->
    bfs fuel adj s g = Ret no_path /\
    dfs fuel adj s g = Ret no_path /\
    bidirectional_bfs fuel adj s g = Ret no_path /\
    (float_weights adj ->
       greedy_best fuel adj s g h = Ret no_path /\
       bellman_ford fuel adj s g = Ret no_path) /\
    (no_negative_cycle_from adj s -> (walk_fuel adj <= fuel)%nat ->
       dijkstra fuel adj s g = Ret no_path /\
       bidirectional_dijkstra fuel adj s g = Ret no_path /\
       (float_range (weight_sum adj) -> a_star fuel adj s g h = Ret no_path)) /\
    (exists comp, _build_weak_components fuel adj = Ret comp /\
       forall i, weak_components i = Some comp -> _reachable (Some i) s g = false) /\
    (Z.of_nat (length adj) < 10000 ->
       exists idx, preprocess_index fuel adj false = Ret idx /\
         _reachable (Some idx) s g = false).
Proof.
  intros Hdict Hclosed Hs Hg Hapart Hh fuel Hfuel. unfold search_fuel in Hfuel.
  assert (~ reach adj s g) as Hunreach by (intros H; by apply Hapart, reach_wconn).
  pose proof (todo_nonneg adj ∅) as Htodo.
  assert (forall n p, (n, p) ∈ [(s, [s])] -> reach adj s n) as Hq.
  { intros n p H. apply list_elem_of_singleton in H as [= -> ->]. apply rtc_refl. }
  destruct (build_weak_components_apart adj Hdict Hclosed fuel s g ltac:(lia) Hs Hg Hapart)
    as (comp & Hcomp & Hne & _).
  assert (forall i, weak_components i = Some comp -> _reachable (Some i) s g = false) as Hreach.
  { intros i Hi. by eapply reachable_false_intro. }
  split; [|split; [|split; [|split; [|split; [|split]]]]].
  - apply bfs_loop_no_path with (start := s); auto. simpl length. lia.
  - apply dfs_loop_no_path with (start := s); auto. simpl length. lia.
  - apply bidirectional_bfs_no_path; auto. lia.
  - intros _. split; [|by apply bellman_ford_no_path].
    unfold greedy_best. destruct (Hh s) as [h0 ->]. simpl.
    apply greedy_loop_no_path with (start := s); auto.
    + intros e H. apply list_elem_of_singleton in H as ->. apply rtc_refl.
    + simpl length. lia.
  - intros Hcyc Hwalk.
    assert (dijkstra fuel adj s g = Ret no_path) as Hd.
    { rewrite dijkstra_as_a_star.
      apply a_star_no_path_walk; auto using zero_returns_number. }
    split; [done|]. split; [done|]. intros _. by apply a_star_no_path_walk.
  - exists comp. done.
  - intros Hsmall. unfold preprocess_index. rewrite Hcomp. simpl.
    rewrite bool_decide_eq_false_2 by lia. simpl.
    eexists. split; [reflexivity|]. by apply Hreach.
Qed.

Lemma no_path_across_components_witness :
  let adj := negative_edge_pair in
  let fuel := Nat.max (search_fuel adj) (walk_fuel adj) in
  bfs fuel adj 0 3 = Ret no_path /\
  bellman_ford fuel adj 0 3 = Ret no_path /\
  dijkstra fuel adj 0 3 = Ret no_path /\
  a_star fuel adj 0 3 zero_heuristic = Ret no_path /\
  exists idx, preprocess_index fuel adj false = Ret idx /\ _reachable (Some idx) 0 3 = false.
Proof.
  intros adj fuel.
  destruct negative_edge_pair_facts as (H1 & H2 & H3 & H4 & H5 & H6 & H7 & H8).
  destruct (no_path_across_components adj 0 3 zero_heuristic H1 H2 H3 H4 H5
              (zero_returns_number 3) fuel (Nat.le_max_l _ _))
    as (Hbfs & _ & _ & Hf & Hw & _ & Hidx).
  destruct (Hf H7) as [_ Hbf].
  destruct (Hw H6 (Nat.le_max_r _ _)) as (Hd & _ & Ha).
  split; [exact Hbfs|]. split; [exact Hbf|]. split; [exact Hd|]. split; [exact (Ha H8)|].
  apply Hidx. vm_compute. reflexivity.
Defined.

(** *** What the weighted searches return, on weights that the floats hold *)

Lemma small_route_exact (adj : Adjacency) (s n : node) (p : list node) (c : Z) :
  small_weights adj -> route adj s n p c -> NoDup p -> float_exact c.
Proof.
  intros Hs Hr Hnd. pose proof (small_route _ _ _ _ _ Hs Hr Hnd). unfold float_exact.
  assert (2 ^ 52 <= 2 ^ 53) by (apply Z.pow_le_mono_r; lia). lia.
Qed.

Lemma weighted_graph_small : small_weights weighted_graph.
Proof. apply small_weights_check. vm_compute. reflexivity. Qed.

Lemma two_way_graph_small : small_weights two_way_graph.
Proof. apply small_weights_check. vm_compute. reflexivity. Qed.

Lemma negative_edge_graph_small : small_weights negative_edge_graph.
Proof. apply small_weights_check. vm_compute. reflexivity. Qed.

Lemma zero_small (g : node) : small_heuristic zero_heuristic g.
Proof. intros u z [= <-]. simpl. lia. Qed.

(** X3.  On a graph whose edges lead to keys and whose weights are small
    ([small_weights]: their absolute values sum to at most [2^52], so that
    the float sums of the code are exact), [greedy_best] from a key, with a
    heuristic that returns a number on every node, returns when a path
    leads to [goal] a path of the graph from [start] to [goal] that goes
    through no node twice, together with the sum of the weights along it,
    a number that a float holds exactly; otherwise it returns
    [(None, inf)]. *)
Theorem greedy_best_finds_a_path (adj : Adjacency) (h : heuristic) (start goal : node)
    (fuel : nat) :
  closed adj -> start ∈ keys adj -> small_weights adj -> returns_number h goal ->
  (search_fuel adj <= fuel)%nat ->
  (reach adj start goal ->
   exists path c,
     greedy_best fuel adj start goal h = Ret (Some path, Fin c) /\
     route adj start goal path c /\ NoDup path /\ float_exact c) /\
  (~ reach adj start goal -> greedy_best fuel adj start goal h = Ret no_path).
Proof.
  intros Hc Hs Hsmall Hh Hf. apply search_fuel_visited in Hf.
  pose proof (todo_nonneg adj ∅) as Ht. split.
  - intros Hr. destruct (greedy_finds adj h start goal Hc Hs Hh Hr fuel Hf) as (path & c & Hrun & Hp).
    pose proof (greedy_best_simple _ _ _ _ _ _ _ Hrun) as Hnd.
    exists path, c. split; [done|]. split; [done|]. split; [done|].
    by eapply small_route_exact.
  - intros Hr. unfold greedy_best. destruct (Hh start) as [h0 ->]. simpl.
    apply (greedy_loop_no_path adj start goal Hc Hs Hr h fuel Hh).
    + intros e H. apply list_elem_of_singleton in H as ->. apply rtc_refl.
    + simpl length. lia.
Qed.

Lemma greedy_best_finds_a_path_witness :
  exists path c,
    greedy_best (search_fuel weighted_graph) weighted_graph 0 3 zero_heuristic
      = Ret (Some path, Fin c) /\
    route weighted_graph 0 3 path c /\ NoDup path /\ float_exact c.
Proof.
  destruct (greedy_best_finds_a_path weighted_graph zero_heuristic 0 3
              (search_fuel weighted_graph) weighted_graph_closed weighted_graph_start
              weighted_graph_small (zero_returns_number 3) (le_n _)) as [H _].
  exact (H (route_reach _ _ _ _ _ weighted_graph_route)).
Defined.

(** X4.  On a graph without negative weight whose edges lead to keys and
    whose weights are small ([small_weights]), [a_star] from a key, with
    any heuristic that returns on every node a number of absolute value
    at most [2^52] (admissible or not), returns when a path leads to
    [goal] a path of the graph from [start] to [goal] that goes through no
    node twice, together with the sum of the weights along it, a number
    that a float holds exactly; otherwise it returns [(None, inf)]. *)
Theorem a_star_finds_a_path (adj : Adjacency) (h : heuristic) (start goal : node)
    (fuel : nat) :
  closed adj -> start ∈ keys adj -> nonneg_weights adj -> small_weights adj ->
  returns_number h goal -> small_heuristic h goal ->
  (search_fuel adj <= fuel)%nat ->
  (reach adj start goal ->
   exists path c,
     a_star fuel adj start goal h = Ret (Some path, Fin c) /\
     route adj start goal path c /\ NoDup path /\ float_exact c) /\
  (~ reach adj start goal -> a_star fuel adj start goal h = Ret no_path).
Proof.
  intros Hc Hs Hnn Hsmall Hh _ Hf. apply search_fuel_astar in Hf. split.
  - intros Hr. destruct (a_star_finds adj h start goal Hc Hs Hnn Hh fuel Hf Hr)
      as (path & c & Hrun & Hp).
    pose proof (a_star_simple adj h start goal Hc Hs Hnn Hh _ _ _ Hrun) as Hnd.
    exists path, c. split; [done|]. split; [done|]. split; [done|].
    by eapply small_route_exact.
  - intros Hr. by apply a_star_no_path.
Qed.

Lemma a_star_finds_a_path_witness :
  exists path c,
    a_star (search_fuel weighted_graph) weighted_graph 0 3 (fun u _ => Ret (10 * Z.max 0 (Z.min u 9)))
      = Ret (Some path, Fin c) /\
    route weighted_graph 0 3 path c /\ NoDup path /\ float_exact c.
Proof.
  destruct (a_star_finds_a_path weighted_graph (fun u _ => Ret (10 * Z.max 0 (Z.min u 9))) 0 3
              (search_fuel weighted_graph) weighted_graph_closed weighted_graph_start
              weighted_graph_nonneg weighted_graph_small
              (fun u => ex_intro _ (10 * Z.max 0 (Z.min u 9)) eq_refl)) as [H _].
  - intros u z [= <-]. assert (2 ^ 52 = 4503599627370496) as -> by reflexivity.
    lia.
  - apply le_n.
  - exact (H (route_reach _ _ _ _ _ weighted_graph_route)).
Defined.

(** *** [a_star] returns a path without a repeated node *)

Lemma astar_push_from (h : heuristic) (goal : node) (path : list node) (g : Z)
    (edges : list (node * Z)) :
  forall pq pq', astar_push h goal path g edges pq = Ret pq' ->
    forall e, e ∈ pq' ->
      e ∈ pq \/ exists v w hv, (v, w) ∈ edges /\ e = (g + w + hv, g + w, v, path ++ [v]).
Proof.
  induction edges as [|[v w] edges IH]; intros pq pq'; simpl.
  - intros [= <-] e He. by left.
  - destruct (h v goal) as [hv| |]; simpl; try discriminate.
    intros Hrun e He. destruct (IH _ _ Hrun e He) as [H|(v' & w' & hv' & Hin & ->)].
    + unfold heappush in H. apply elem_of_cons in H as [->|H]; [|by left].
      right. exists v, w, hv. split; [left|done].
    + right. exists v', w', hv'. split; [by right|done].
Qed.

Section AStarTrail.
Variable adj : Adjacency.
Variable h : heuristic.
Variables start goal : node.
Hypothesis Hcyc : no_negative_cycle_from adj start.

Lemma a_star_loop_trail (fuel : nat) :
  forall pq visited path c,
    walk_trail adj start pq visited -> visited !! goal = None ->
    a_star_loop fuel adj h goal pq visited = Ret (Some path, Fin c) ->
    route adj start goal path c /\ NoDup path.
Proof.
  induction fuel as [|fuel IH]; intros pq visited path c Hq Hg; simpl; [discriminate|].
  destruct (heappop astar_ltb pq) as [[[[[f g] n] p] pq']|] eqn:Hpop; [|discriminate].
  assert (forall e, e ∈ pq <-> e = (f, g, n, p) \/ e ∈ pq') as Hin
    by (intros e; apply (heappop_in _ _ _ _ e Hpop)).
  destruct (Hq f g n p) as (pre & -> & Hr & Hnd & Hpre); [apply Hin; by left|].
  assert (walk_trail adj start pq' visited) as Hq'.
  { intros f' g' n' p' H. apply (Hq f' g' n' p'), Hin. by right. }
  destruct (decide (n = goal)) as [->|Hng].
  { intros [= <- <-]. split; [done|]. apply NoDup_app. split; [done|].
    split; [|apply NoDup_singleton].
    intros x Hx Hx'. apply list_elem_of_singleton in Hx' as ->.
    destruct (Hpre goal Hx) as (v & _ & _ & Hv & _). congruence. }
  destruct (settled visited n g) eqn:Hs; [by apply IH|].
  unfold adj_index. destruct (adj_get adj n) as [edges|] eqn:Hedges; simpl; [|discriminate].
  destruct (astar_push h goal (pre ++ [n]) g edges pq') as [pq''| |] eqn:Hpush; simpl;
    try discriminate.
  assert (n ∉ pre) as Hfresh.
  { intros Hx. destruct (Hpre n Hx) as (v & q & c0 & Hv & Hloop & Hle).
    pose proof (Hcyc n q c0 (route_reach _ _ _ _ _ Hr) Hloop).
    pose proof (proj1 (settled_false _ _ _) Hs v Hv). lia. }
  apply IH; [|by rewrite lookup_insert_ne].
  intros f' g' n' p' H.
  destruct (astar_push_from _ _ _ _ _ _ _ Hpush _ H) as [H'|(v & w & hv & Hvw & [= -> -> -> ->])].
  - destruct (Hq' _ _ _ _ H') as (pre' & -> & Hr' & Hnd' & Hpre').
    exists pre'. split; [done|]. split; [done|]. split; [done|].
    intros x Hx. destruct (Hpre' x Hx) as (v & q & c0 & Hv & Hxq & Hle).
    destruct (decide (n = x)) as [->|Hne].
    + exists g, q, c0. rewrite lookup_insert_eq. split; [done|]. split; [done|].
      pose proof (proj1 (settled_false _ _ _) Hs v Hv). lia.
    + exists v, q, c0. by rewrite lookup_insert_ne.
  - assert (edge adj n v w) as Hedge by (by exists edges).
    exists (pre ++ [n]). split; [done|]. split; [by eapply route_step|]. split.
    { apply NoDup_app. split; [done|]. split; [|apply NoDup_singleton].
      intros x Hx Hx'. apply list_elem_of_singleton in Hx' as ->. done. }
    intros x Hx. apply elem_of_app in Hx as [Hx|Hx].
    + destruct (Hpre x Hx) as (v0 & q & c0 & Hv & Hxq & Hle).
      exists v0, (q ++ [v]), (c0 + w). rewrite lookup_insert_ne by (intros ->; done).
      split; [done|]. split; [by eapply route_step|lia].
    + apply list_elem_of_singleton in Hx as ->.
      exists g, ([n] ++ [v]), (0 + w). rewrite lookup_insert_eq. split; [done|].
      split; [|lia]. eapply route_step; [apply route_start|done].
Qed.

Lemma a_star_trail (fuel : nat) (path : list node) (c : Z) :
  a_star fuel adj start goal h = Ret (Some path, Fin c) ->
  route adj start goal path c /\ NoDup path.
Proof.
  unfold a_star. destruct (h start goal) as [h0| |]; simpl; try discriminate.
  apply a_star_loop_trail; [|apply lookup_empty].
  intros f g n p H. apply list_elem_of_singleton in H as [= -> -> -> ->].
  exists []. split; [done|]. split; [apply route_start|]. split; [apply NoDup_nil_2|].
  intros x Hx. by apply elem_of_nil in Hx.
Qed.

End AStarTrail.

(** X6.  [dijkstra] is [a_star] with the zero heuristic.  On a graph with
    small weights ([small_weights]) in which no cycle of negative cost can
    be reached from [start], so that adding the float [0.0] of the zero
    heuristic to a cost changes nothing, the two return the same outcome
    for every goal and whatever the number of turns allowed (the same
    path and cost, the same error, or neither returns), and so does
    [bidirectional_dijkstra].  A path that they return is a path of the
    graph from [start] to [goal] that goes through no node twice, and its
    cost is the sum of its weights, a number that a float holds
    exactly. *)
Theorem dijkstra_is_a_star_with_zero (fuel : nat) (adj : Adjacency) (start goal : node) :
  small_weights adj -> no_negative_cycle_from adj start ->
  dijkstra fuel adj start goal = a_star fuel adj start goal zero_heuristic /\
  bidirectional_dijkstra fuel adj start goal = a_star fuel adj start goal zero_heuristic /\
  forall path c,
    dijkstra fuel adj start goal = Ret (Some path, Fin c) ->
    route adj start goal path c /\ NoDup path /\ float_exact c.
Proof.
  intros Hs Hcyc. split; [apply dijkstra_as_a_star|]. split; [apply dijkstra_as_a_star|].
  intros path c Hrun. rewrite dijkstra_as_a_star in Hrun.
  destruct (a_star_trail adj zero_heuristic start goal Hcyc fuel path c Hrun) as [Hr Hnd].
  split; [done|]. split; [done|]. by eapply small_route_exact.
Qed.

Lemma dijkstra_is_a_star_with_zero_witness :
  dijkstra 100 negative_edge_graph 0 3 = a_star 100 negative_edge_graph 0 3 zero_heuristic /\
  dijkstra 100 negative_edge_graph 0 3 = Ret (Some [0; 2; 3], Fin 2) /\
  route negative_edge_graph 0 3 [0; 2; 3] 2 /\ NoDup [0; 2; 3] /\ float_exact 2.
Proof.
  assert (no_negative_cycle_from negative_edge_graph 0) as Hcyc.
  { apply no_negative_cycle_anywhere. apply negative_edge_graph_facts. }
  destruct (dijkstra_is_a_star_with_zero 100 negative_edge_graph 0 3
              negative_edge_graph_small Hcyc) as (H1 & _ & H3).
  split; [exact H1|]. split; [vm_compute; reflexivity|].
  apply (H3 [0; 2; 3] 2). vm_compute. reflexivity.
Defined.

(** X7.  On a graph without negative weight whose edges lead to keys and
    whose weights are small ([small_weights]), [dijkstra] from a key
    returns, when a path leads to [goal], a path of the graph from [start]
    to [goal] that goes through no node twice, together with the sum of
    its weights, a number that a float holds exactly, and no path of the
    graph from [start] to [goal] costs less; when no path leads to [goal]
    it returns [(None, inf)]. *)
Theorem dijkstra_shortest_path (adj : Adjacency) (start goal : node) (fuel : nat) :
  closed adj -> start ∈ keys adj -> nonneg_weights adj -> small_weights adj ->
  (search_fuel adj <= fuel)%nat ->
  (reach adj start goal ->
   exists path c,
     dijkstra fuel adj start goal = Ret (Some path, Fin c) /\
     route adj start goal path c /\ NoDup path /\ float_exact c /\
     forall p' c', route adj start goal p' c' -> c <= c') /\
  (~ reach adj start goal -> dijkstra fuel adj start goal = Ret no_path).
Proof.
  intros Hc Hs Hnn Hsmall Hf. apply search_fuel_astar in Hf. rewrite dijkstra_as_a_star. split.
  - intros Hr.
    destruct (a_star_minimal adj zero_heuristic start goal fuel Hc Hs Hnn
                (zero_admissible adj goal Hnn) Hf Hr) as (path & c & Hrun & Hroute & Hmin).
    pose proof (a_star_simple adj zero_heuristic start goal Hc Hs Hnn
                  (zero_returns_number goal) _ _ _ Hrun) as Hnd.
    exists path, c. split; [done|]. split; [done|]. split; [done|].
    split; [by eapply small_route_exact|done].
  - intros Hr. apply a_star_no_path; auto using zero_returns_number.
Qed.

Lemma dijkstra_shortest_path_witness :
  exists path c,
    dijkstra (search_fuel weighted_graph) weighted_graph 0 3 = Ret (Some path, Fin c) /\
    c <= 4.
Proof.
  destruct (dijkstra_shortest_path weighted_graph 0 3 (search_fuel weighted_graph)
              weighted_graph_closed weighted_graph_start weighted_graph_nonneg
              weighted_graph_small (le_n _))
    as [H _].
  destruct (H (route_reach _ _ _ _ _ weighted_graph_route))
    as (path & c & Hd & _ & _ & _ & Hmin).
  exists path, c. split; [exact Hd|]. apply (Hmin _ _ weighted_graph_route).
Defined.

Lemma shortest_exact (adj : Adjacency) (s v : node) (d : Z) :
  small_weights adj -> no_negative_cycle_from adj s -> shortest adj s v d -> float_exact d.
Proof. apply shortest_small. Qed.

(** X8.  On a graph without negative weight whose weights are small
    ([small_weights]), [dijkstra_from_source] returns a map that holds,
    for every node [v], exactly the cost of a cheapest path of the graph
    from [src] to [v]: the recorded number is the cost of a path, no path
    costs less, and a float holds it exactly; a node has no entry exactly
    when no path leads to it. *)
Theorem dijkstra_from_source_shortest (adj : Adjacency) (src : node) (fuel : nat) :
  nonneg_weights adj -> small_weights adj -> (src_fuel adj <= fuel)%nat ->
  exists dist,
    dijkstra_from_source fuel adj src = Ret dist /\
    (forall v d, dist !! v = Some d <-> shortest adj src v d) /\
    (forall v d, dist !! v = Some d -> float_exact d) /\
    (forall v, dist !! v = None <-> ~ reach adj src v).
Proof.
  intros Hnn Hsmall Hf.
  destruct (dijkstra_from_source_exact_from adj src fuel Hnn Hf) as (dist & Hrun & Hex).
  exists dist. split; [done|]. split; [exact Hex|]. split.
  { intros v d Hd. apply Hex in Hd. eapply shortest_small; [done| |exact Hd].
    by apply no_negative_cycle_anywhere, nonneg_no_negative_cycle. }
  destruct (dijkstra_from_source_exact adj src fuel dist Hrun) as [_ Hall].
  intros v. split.
  - intros Hnone Hr. destruct (Hall v Hr) as [d Hd]. congruence.
  - intros Hr. destruct (dist !! v) as [d|] eqn:Hd; [|done].
    apply Hex in Hd as [[p Hp] _]. destruct Hr. by eapply route_reach.
Qed.

Lemma dijkstra_from_source_shortest_witness :
  exists dist,
    dijkstra_from_source (src_fuel weighted_graph) weighted_graph 0 = Ret dist /\
    forall d, dist !! 3 = Some d -> d <= 4.
Proof.
  destruct (dijkstra_from_source_shortest weighted_graph 0 (src_fuel weighted_graph)
              weighted_graph_nonneg weighted_graph_small (le_n _)) as (dist & Hrun & Hex & _).
  exists dist. split; [exact Hrun|]. intros d Hd.
  apply Hex in Hd as [_ Hmin]. apply (Hmin _ _ weighted_graph_route).
Defined.

(** X10.  On a graph without negative weight whose weights are small
    ([small_weights]), [build_tables] returns two tables with the same
    keys, the given landmarks.  For a landmark [L] the first table holds,
    for every node [v], exactly the cost of a cheapest path from [L] to
    [v], and the second exactly the cost of a cheapest path from [v] to
    [L], both in the graph itself; floats hold these numbers exactly. *)
Theorem build_tables_shortest_distances (adj : Adjacency) (Ls : list node) (fuel : nat) :
  NoDup (keys adj) -> nonneg_weights adj -> small_weights adj ->
  (tables_fuel adj <= fuel)%nat ->
  exists fwd bwd,
    build_tables fuel adj Ls = Ret (fwd, bwd) /\
    (forall L, L ∈ map fst fwd <-> L ∈ Ls) /\
    map fst fwd = map fst bwd /\
    (forall L f, dict_get fwd L = Some f ->
       forall v d, (f !! v = Some d <-> shortest adj L v d) /\
                   (f !! v = Some d -> float_exact d)) /\
    (forall L b, dict_get bwd L = Some b ->
       forall v d, (b !! v = Some d <-> shortest adj v L d) /\
                   (b !! v = Some d -> float_exact d)).
Proof.
  intros Hnd Hnn Hsmall Hf.
  destruct (build_tables_exact adj Ls fuel Hnd Hnn Hf)
    as (fwd & bwd & Hrun & (Hkeys & Hfwd & Hbwd) & Hin).
  pose proof (nonneg_no_negative_cycle _ Hnn) as Hcyc.
  exists fwd, bwd. split; [done|]. split; [done|]. split; [done|]. split.
  - intros L f Hl v d. split; [by apply Hfwd|]. intros Hd. apply (Hfwd L f Hl) in Hd.
    eapply shortest_small; [done|by apply no_negative_cycle_anywhere|exact Hd].
  - intros L b Hl v d. split; [by apply Hbwd|]. intros Hd. apply (Hbwd L b Hl) in Hd.
    eapply shortest_small; [done|by apply no_negative_cycle_anywhere|exact Hd].
Qed.

Lemma build_tables_shortest_distances_witness :
  exists fwd bwd,
    build_tables (tables_fuel weighted_graph) weighted_graph [3] = Ret (fwd, bwd) /\
    forall b d, dict_get bwd 3 = Some b -> b !! 0 = Some d -> d <= 4.
Proof.
  destruct (build_tables_shortest_distances weighted_graph [3] (tables_fuel weighted_graph)
              weighted_graph_dict weighted_graph_nonneg weighted_graph_small (le_n _))
    as (fwd & bwd & Hrun & _ & _ & _ & Hbwd).
  exists fwd, bwd. split; [exact Hrun|]. intros b d Hb Hd.
  apply (Hbwd 3 b Hb) in Hd as [_ Hmin]. apply (Hmin _ _ weighted_graph_route).
Defined.

(** X11.  With the tables that [build_tables] returns on a graph without
    negative weight whose weights are small ([small_weights]), the
    heuristic of [alt_heuristic_factory] returns on every node a number
    that is at least 0 and at most [2^52], and at most the larger of the
    costs of a path from the node to the goal and of a path from the goal
    back to the node.  On a graph that stores every edge in both
    directions it is therefore admissible: at most the cost of every
    path from the node to the goal. *)
Theorem alt_heuristic_bounds (adj : Adjacency) (Ls : list node) (fuel : nat) :
  NoDup (keys adj) -> nonneg_weights adj -> small_weights adj ->
  (tables_fuel adj <= fuel)%nat ->
  exists fwd bwd,
    build_tables fuel adj Ls = Ret (fwd, bwd) /\
    forall goal,
      let h := alt_heuristic_factory goal fwd bwd in
      (forall u, exists z, h u goal = Ret z /\ 0 <= z <= 2 ^ 52 /\
         forall p c p' c', route adj u goal p c -> route adj goal u p' c' -> z <= Z.max c c') /\
      (symmetric adj -> admissible adj h goal).
Proof.
  intros Hnd Hnn Hsmall Hf.
  destruct (build_tables_exact adj Ls fuel Hnd Hnn Hf) as (fwd & bwd & Hrun & Hex & _).
  exists fwd, bwd. split; [done|]. intros goal h. split.
  - intros u. destruct (alt_heuristic_returns adj fwd bwd goal u Hex) as (z & Hz & Hz0).
    exists z. split; [done|]. split.
    { pose proof (alt_heuristic_small adj fwd bwd goal Hsmall Hnn Hex u z Hz). lia. }
    intros p c p' c' Hp Hp'.
    destruct (alt_heuristic_bound adj fwd bwd goal u c c' p p' Hnn Hex Hp Hp')
      as (z' & Hz' & Hle). unfold h in Hz. rewrite Hz in Hz'. injection Hz' as <-. lia.
  - intros Hsym. by apply alt_admissible_symmetric.
Qed.

Lemma alt_heuristic_bounds_witness :
  exists fwd bwd,
    build_tables (tables_fuel two_way_graph) two_way_graph [0; 3] = Ret (fwd, bwd) /\
    exists z, alt_heuristic_factory 3 fwd bwd 0 3 = Ret z /\ 0 <= z <= 4.
Proof.
  destruct two_way_graph_facts as (H1 & H2 & H3 & H4 & H5).
  destruct (alt_heuristic_bounds two_way_graph [0; 3] (tables_fuel two_way_graph)
              H1 H3 two_way_graph_small (le_n _)) as (fwd & bwd & Hrun & Hh).
  exists fwd, bwd. split; [exact Hrun|].
  destruct (Hh 3) as [_ Hadm]. destruct (Hadm H4 0) as (z & Hz & Hz0 & Hle).
  exists z. split; [exact Hz|]. split; [exact Hz0|]. apply (Hle _ _ two_way_graph_route).
Defined.

(** X12.  On a graph without negative weight that stores every edge in
    both directions, whose edges lead to keys and whose weights are small
    ([small_weights]), [a_star] run with the heuristic that
    [alt_heuristic_factory] makes from the tables of [build_tables]
    returns, when a path leads from [start] to [goal], a path of the
    graph from [start] to [goal] that goes through no node twice,
    together with the sum of its weights, a number that a float holds
    exactly, and no path from [start] to [goal] costs less. *)
Theorem a_star_alt_shortest_on_two_way_graphs (adj : Adjacency) (Ls : list node)
    (start goal : node) (fuel : nat) :
  NoDup (keys adj) -> closed adj -> nonneg_weights adj -> small_weights adj ->
  symmetric adj -> start ∈ keys adj -> reach adj start goal ->
  (tables_fuel adj <= fuel)%nat -> (astar_fuel adj <= fuel)%nat ->
  exists fwd bwd path c,
    build_tables fuel adj Ls = Ret (fwd, bwd) /\
    small_heuristic (alt_heuristic_factory goal fwd bwd) goal /\
    a_star fuel adj start goal (alt_heuristic_factory goal fwd bwd) = Ret (Some path, Fin c) /\
    route adj start goal path c /\ NoDup path /\ float_exact c /\
    forall p' c', route adj start goal p' c' -> c <= c'.
Proof.
  intros Hnd Hc Hnn Hsmall Hsym Hs Hr Hf Hf'.
  destruct (build_tables_exact adj Ls fuel Hnd Hnn Hf) as (fwd & bwd & Hrun & Hex & _).
  pose proof (alt_admissible_symmetric adj fwd bwd goal Hnn Hsym Hex) as Hadm.
  destruct (a_star_minimal adj _ start goal fuel Hc Hs Hnn Hadm Hf' Hr)
    as (path & c & Ha & Hroute & Hmin).
  pose proof (a_star_simple adj _ start goal Hc Hs Hnn
                (admissible_returns_number adj _ goal Hadm) _ _ _ Ha) as Hpath.
  exists fwd, bwd, path, c. split; [done|].
  split; [by apply (alt_heuristic_small adj)|]. split; [done|]. split; [done|].
  split; [done|]. split; [by eapply small_route_exact|done].
Qed.

Lemma a_star_alt_shortest_on_two_way_graphs_witness :
  let fuel := Nat.max (tables_fuel two_way_graph) (astar_fuel two_way_graph) in
  exists fwd bwd path c,
    build_tables fuel two_way_graph [0; 3] = Ret (fwd, bwd) /\
    a_star fuel two_way_graph 0 3 (alt_heuristic_factory 3 fwd bwd) = Ret (Some path, Fin c) /\
    c <= 4.
Proof.
  intros fuel. destruct two_way_graph_facts as (H1 & H2 & H3 & H4 & H5).
  destruct (a_star_alt_shortest_on_two_way_graphs two_way_graph [0; 3] 0 3 fuel
              H1 H2 H3 two_way_graph_small H4 H5 (route_reach _ _ _ _ _ two_way_graph_route)
              (Nat.le_max_l _ _) (Nat.le_max_r _ _))
    as (fwd & bwd & path & c & Hrun & _ & Ha & _ & _ & _ & Hmin).
  exists fwd, bwd, path, c. split; [exact Hrun|]. split; [exact Ha|].
  apply (Hmin _ _ two_way_graph_route).
Defined.

(** X18.  For a path of the graph that goes through no node twice,
    [path_to_edge_string] with the weight map of the graph returns as
    total the sum of the weights along the path, provided no two edges
    out of a node lead to the same node and the weights are small
    ([small_weights]: the total is a float sum, exact on such weights);
    for the empty path it returns [("[]", 0)], and for a single node its
    decimal writing and 0. *)
Theorem path_total_is_route_cost (adj : Adjacency) (s n : node) (p : list node) (c : Z) :
  NoDup (keys adj) -> no_parallel_edges adj -> small_weights adj ->
  route adj s n p c -> NoDup p ->
  (path_to_edge_string p (build_weight_map adj)).2 = c /\ float_exact c /\
  path_to_edge_string [] (build_weight_map adj) = ("[]", 0) /\
  path_to_edge_string [s] (build_weight_map adj) = (str_int s, 0).
Proof.
  intros Hnd Hsimple Hsmall Hr Hp. split; [|split; [by eapply small_route_exact|done]].
  destruct (route_total adj s n p c Hnd Hsimple Hr) as (rest & -> & Htot).
  unfold path_to_edge_string. destruct rest as [|v rest].
  - specialize (Htot []). simpl in Htot. by subst c.
  - specialize (Htot [str_int s]).
    by destruct (edge_parts (build_weight_map adj) s (v :: rest) [str_int s] 0).
Qed.

Lemma path_total_is_route_cost_witness :
  (path_to_edge_string [0; 1; 2; 3] (build_weight_map weighted_graph)).2 = 4.
Proof.
  apply (path_total_is_route_cost weighted_graph 0 3 [0; 1; 2; 3] 4 weighted_graph_dict).
  - apply no_parallel_edgesb_spec. vm_compute. reflexivity.
  - exact weighted_graph_small.
  - exact weighted_graph_route.
  - apply (bool_decide_unpack _). vm_compute. exact I.
Defined.

(** X25.  On a graph without negative weight whose edges lead to keys and
    whose weights are small ([small_weights]), [a_star] from a key with
    an admissible heuristic whose values are at most [2^52] returns, when
    a path leads to [goal], a path of the graph from [start] to [goal]
    that goes through no node twice, together with the sum of its
    weights, a number that a float holds exactly, and no path from
    [start] to [goal] costs less: the promise of its docstring. *)
Theorem a_star_admissible_shortest (adj : Adjacency) (h : heuristic) (start goal : node)
    (fuel : nat) :
  closed adj -> start ∈ keys adj -> nonneg_weights adj -> small_weights adj ->
  admissible adj h goal -> small_heuristic h goal ->
  (search_fuel adj <= fuel)%nat -> reach adj start goal ->
  exists path c,
    a_star fuel adj start goal h = Ret (Some path, Fin c) /\
    route adj start goal path c /\ NoDup path /\ float_exact c /\
    forall p' c', route adj start goal p' c' -> c <= c'.
Proof.
  intros Hc Hs Hnn Hsmall Hadm _ Hf Hr.
  destruct (a_star_minimal adj h start goal fuel Hc Hs Hnn Hadm (search_fuel_astar _ _ Hf) Hr)
    as (path & c & Hrun & Hroute & Hmin).
  pose proof (a_star_simple adj h start goal Hc Hs Hnn
                (admissible_returns_number adj h goal Hadm) _ _ _ Hrun) as Hnd.
  exists path, c. split; [done|]. split; [done|]. split; [done|].
  split; [by eapply small_route_exact|done].
Qed.

Lemma a_star_admissible_shortest_witness :
  exists path c,
    a_star (search_fuel weighted_graph) weighted_graph 0 3 zero_heuristic
      = Ret (Some path, Fin c) /\
    c <= 4.
Proof.
  destruct (a_star_admissible_shortest weighted_graph zero_heuristic 0 3
              (search_fuel weighted_graph) weighted_graph_closed weighted_graph_start
              weighted_graph_nonneg weighted_graph_small
              (zero_admissible _ 3 weighted_graph_nonneg) (zero_small 3) (le_n _)
              (route_reach _ _ _ _ _ weighted_graph_route))
    as (path & c & Ha & _ & _ & _ & Hmin).
  exists path, c. split; [exact Ha|]. apply (Hmin _ _ weighted_graph_route).
Defined.

(** X27.  On a graph whose edges lead to keys, in which no cycle has a
    negative cost (single edges may) and whose weights are small
    ([small_weights]), [bellman_ford] between two keys returns, when a
    path leads from [start] to [goal], a path of the graph from [start]
    to [goal] together with the sum of its weights, a number that a float
    holds exactly, and no path from [start] to [goal] costs less; when no
    path leads to [goal] it returns [(None, inf)]. *)
Theorem bellman_ford_shortest (adj : Adjacency) (start goal : node) (fuel : nat) :
  NoDup (keys adj) -> closed adj -> no_negative_cycle adj -> small_weights adj ->
  start ∈ keys adj -> goal ∈ keys adj -> (search_fuel adj <= fuel)%nat ->
  (reach adj start goal ->
   exists path c,
     bellman_ford fuel adj start goal = Ret (Some path, Fin c) /\
     route adj start goal path c /\ float_exact c /\
     forall p' c', route adj start goal p' c' -> c <= c') /\
  (~ reach adj start goal -> bellman_ford fuel adj start goal = Ret no_path).
Proof.
  intros Hnd Hc Hcyc Hsmall Hs Hg Hf. split.
  - intros Hr.
    destruct (bellman_ford_finds adj start Hnd Hc Hcyc Hs goal fuel Hr (search_fuel_length _ _ Hf))
      as (path & c & Hrun & Hroute & Hmin).
    exists path, c. split; [done|]. split; [done|]. split; [|done].
    apply (shortest_small adj start goal c Hsmall (no_negative_cycle_anywhere _ _ Hcyc)).
    split; eauto.
  - intros Hr. by apply bellman_ford_no_path.
Qed.

Lemma bellman_ford_shortest_witness :
  exists path c,
    bellman_ford (search_fuel negative_edge_graph) negative_edge_graph 0 3
      = Ret (Some path, Fin c) /\
    c <= 2.
Proof.
  destruct negative_edge_graph_facts as (H1 & H2 & H3 & H4 & H5 & H6).
  destruct (bellman_ford_shortest negative_edge_graph 0 3 (search_fuel negative_edge_graph)
              H1 H2 H3 negative_edge_graph_small H4 H5 (le_n _)) as [H _].
  destruct (H (route_reach _ _ _ _ _ H6)) as (path & c & Hrun & _ & _ & Hmin).
  exists path, c. split; [exact Hrun|]. apply (Hmin _ _ H6).
Defined.

(** X15.  On a graph of fewer than 10000 nodes whose edges lead to keys,
    in which no cycle has a negative cost and whose weights are small
    ([small_weights]), [find_path] from a key, given the index that
    [preprocess_index] returns for the graph, returns a cheapest path,
    whichever of [bellman_ford], [bfs] and [dijkstra] it selects: when a
    path leads to [goal], a path of the graph from [start] to [goal]
    together with the sum of its weights, a number that a float holds
    exactly and that no path from [start] to [goal] undercuts; and
    [(None, inf)] when no path leads to [goal]. *)
Theorem find_path_indexed_shortest (adj : Adjacency) (start goal : node) (fuel : nat) :
  NoDup (keys adj) -> closed adj -> no_negative_cycle adj -> small_weights adj ->
  Z.of_nat (length adj) < 10000 ->
  start ∈ keys adj -> (search_fuel adj <= fuel)%nat ->
  exists idx,
    preprocess_index fuel adj false = Ret idx /\
    (reach adj start goal ->
     exists path c,
       find_path fuel adj start goal (Some idx) = Ret (Some path, Fin c) /\
       route adj start goal path c /\ float_exact c /\
       forall p' c', route adj start goal p' c' -> c <= c') /\
    (~ reach adj start goal -> find_path fuel adj start goal (Some idx) = Ret no_path).
Proof.
  intros Hnd Hc Hcyc Hsmall Hlen Hs Hf.
  destruct (build_weak_components_exact adj fuel Hnd Hc) as (comp & Hrun & Hdom & Hiff).
  { unfold search_fuel in Hf. lia. }
  pose proof (search_fuel_visited _ _ Hf) as Hf1.
  pose proof (search_fuel_astar _ _ Hf) as Hf2.
  pose proof (search_fuel_length _ _ Hf) as Hf3.
  eexists. split; [by apply preprocess_index_small|].
  set (uniform := forallb (fun w => bool_decide (w = 1)) (all_weights adj)).
  set (negative := existsb (fun w => bool_decide (w < 0)) (all_weights adj)).
  set (idx := mkIndex _ _ _ _ _ _ _ _).
  assert (choose_algorithm adj (Some idx) =
            if negative then bellman_ford else if uniform then bfs else dijkstra) as Hchoose.
  { rewrite choose_algorithm_without_landmarks by done. simpl. fold negative.
    destruct negative; [done|]. by rewrite bool_decide_eq_false_2 by lia. }
  assert (forall g, _reachable (Some idx) start g = bool_decide (comp !! start = comp !! g))
    as Hcheck.
  { intros g. apply reachable_components; [done|by apply Hdom]. }
  assert (reach adj start goal ->
          exists path c,
            find_path fuel adj start goal (Some idx) = Ret (Some path, Fin c) /\
            route adj start goal path c /\
            forall p' c', route adj start goal p' c' -> c <= c') as Hfind.
  { unfold find_path. rewrite Hchoose, Hcheck.
    intros Hr. destruct (decide (start = goal)) as [<-|Hne].
    { exists [start], 0. split; [done|]. split; [apply route_start|].
      intros p' c' Hp'. by eapply Hcyc. }
    rewrite bool_decide_eq_true_2; simpl.
    2:{ apply Hiff; [done|by eapply reach_key|by apply reach_wconn]. }
    destruct negative eqn:Hneg; [by apply bellman_ford_finds|].
    pose proof (no_negative_nonneg adj Hneg) as Hnn.
    destruct uniform eqn:Hu.
    + destruct (bfs_fewest adj start goal Hc Hs Hr fuel Hf1) as (path & c & Hrun' & Hp & Hmin).
      exists path, c. rewrite Hrun'. unfold hops.
      rewrite (unit_weights_cost adj start goal path c Hu Hp). split; [done|].
      split; [by rewrite <- (unit_weights_cost adj start goal path c Hu Hp)|].
      intros p' c' Hp'. rewrite (unit_weights_cost adj start goal p' c' Hu Hp').
      specialize (Hmin p' c' Hp'). lia.
    + rewrite dijkstra_as_a_star.
      by apply a_star_minimal; [| | |apply zero_admissible| |]. }
  split.
  - intros Hr. destruct (Hfind Hr) as (path & c & Hrun' & Hroute & Hmin).
    exists path, c. split; [done|]. split; [done|]. split; [|done].
    apply (shortest_small adj start goal c Hsmall (no_negative_cycle_anywhere _ _ Hcyc)).
    split; eauto.
  - unfold find_path. rewrite Hchoose, Hcheck.
    intros Hr. destruct (decide (start = goal)) as [<-|Hne]; [destruct Hr; apply rtc_refl|].
    destruct (bool_decide (comp !! start = comp !! goal)) eqn:Hsame; simpl; [|done].
    destruct negative eqn:Hneg.
    + apply bellman_ford_no_path; [done|done| |done].
      apply Hdom. apply bool_decide_eq_true in Hsame. rewrite <- Hsame. by apply Hdom.
    + pose proof (no_negative_nonneg adj Hneg) as Hnn. destruct uniform.
      * by apply bfs_no_path.
      * rewrite dijkstra_as_a_star. apply a_star_no_path; auto using zero_returns_number.
Qed.

Lemma find_path_indexed_shortest_witness :
  exists idx path c,
    preprocess_index (search_fuel negative_edge_graph) negative_edge_graph false = Ret idx /\
    find_path (search_fuel negative_edge_graph) negative_edge_graph 0 3 (Some idx)
      = Ret (Some path, Fin c) /\
    c <= 2.
Proof.
  destruct negative_edge_graph_facts as (H1 & H2 & H3 & H4 & H5 & H6).
  destruct (find_path_indexed_shortest negative_edge_graph 0 3
              (search_fuel negative_edge_graph) H1 H2 H3 negative_edge_graph_small
              ltac:(vm_compute; reflexivity) H4 (le_n _)) as (idx & Hrun & Hfind & _).
  destruct (Hfind (route_reach _ _ _ _ _ H6)) as (path & c & Hp & _ & _ & Hmin).
  exists idx, path, c. split; [exact Hrun|]. split; [exact Hp|]. apply (Hmin _ _ H6).
Defined.
